(** * CAR blockstore (go-car v2, package blockstore): a shallow embedding

    The development follows [v2/blockstore/readonly.go] and
    [v2/blockstore/readwrite.go]: the read-only store ([Has], [Get],
    [GetSize], [AllKeysChan]) and the read-write store ([OpenReadWrite],
    [resumeWithRoots], [PutMany], [Finalize]).  Files are byte lists, the
    operating system's write failures are an explicit plan carried by the
    file handle, 64-bit integers are [Z] with their wrap-around written
    out, and Go's panics are a result of their own.  The packages the store
    calls live in modules of their Go names. *)

From Stdlib Require Import String.
From Stdlib.Strings Require Import Byte.
From Stdlib Require Import ZArith List Lia Bool.
Import ListNotations.
Open Scope Z_scope.

Set Implicit Arguments.

(** ** Machine integers and bytes *)

Definition uint64 (z : Z) : Z := z mod 2 ^ 64.
Definition int64 (z : Z) : Z := (z + 2 ^ 63) mod 2 ^ 64 - 2 ^ 63.

Definition byte_val (b : byte) : Z := Z.of_N (Byte.to_N b).
Definition byte_of (z : Z) : byte :=
  match Byte.of_N (Z.to_N (z mod 256)) with
  | Some b => b
  | None => x00
  end.

Definition len {A} (l : list A) : Z := Z.of_nat (List.length l).

(** [take n l] and [drop n l] are Go's [l[:n]] and [l[n:]] for an in-range
    [n]. *)
Definition take {A} (n : Z) (l : list A) : list A := firstn (Z.to_nat n) l.
Definition drop {A} (n : Z) (l : list A) : list A := skipn (Z.to_nat n) l.
Definition zeros (n : Z) : list byte := repeat x00 (Z.to_nat n).

(** [bytes.Equal]. *)
Fixpoint bytes_Equal (a b : list byte) : bool :=
  match a, b with
  | [], [] => true
  | x :: a', y :: b' => Byte.eqb x y && bytes_Equal a' b'
  | _, _ => false
  end.

(** [bytes.Compare(a, b) < 0]: the lexicographic order on byte strings. *)
Fixpoint bytes_Less (a b : list byte) : bool :=
  match a, b with
  | _, [] => false
  | [], _ :: _ => true
  | x :: a', y :: b' =>
      (byte_val x <? byte_val y) || ((byte_val x =? byte_val y) && bytes_Less a' b')
  end.

(** [binary.LittleEndian.PutUint64] and [Uint64] (for [n] = 8), and the
    big-endian forms CBOR uses. *)
Fixpoint le_bytes (n : nat) (x : Z) : list byte :=
  match n with
  | O => []
  | S n' => byte_of x :: le_bytes n' (x / 256)
  end.

Fixpoint le_value (bs : list byte) : Z :=
  match bs with
  | [] => 0
  | b :: rest => byte_val b + 256 * le_value rest
  end.

Fixpoint be_bytes (n : nat) (x : Z) : list byte :=
  match n with
  | O => []
  | S n' => byte_of (x / 256 ^ Z.of_nat n') :: be_bytes n' x
  end.

Fixpoint be_value (bs : list byte) (acc : Z) : Z :=
  match bs with
  | [] => acc
  | b :: rest => be_value rest (256 * acc + byte_val b)
  end.

(** ** Errors and results *)

Inductive error : Type :=
| EOF                         (* io.EOF *)
| ErrUnexpectedEOF            (* io.ErrUnexpectedEOF *)
| ErrOverflow                 (* varint.ErrOverflow *)
| ErrNotMinimal               (* varint.ErrNotMinimal *)
| ErrBadCid                   (* go-cid: malformed CID *)
| ErrInvalidHeader            (* carv1: "invalid header" *)
| ErrNegativeOffset           (* os: negative offset *)
| ErrFileTooLarge             (* os: EFBIG *)
| ErrClosed                   (* os.ErrClosed *)
| ErrIO                       (* os: a write the device did not complete *)
| IndexErrNotFound            (* index.ErrNotFound *)
| BlockstoreErrNotFound       (* blockstore.ErrNotFound *)
| errFinalized                (* "cannot use a read-write carv2 blockstore after finalizing" *)
| ErrFinalizeTwice            (* "called Finalize twice" *)
| ErrResumeVersion (version : Z)
                              (* "cannot resume on CAR file with version %v" *)
| ErrPaddingMismatch (wantPadding gotPadding : Z)
                              (* "cannot resume from file with mismatched CARv1 offset;
                                  `WithDataPadding` option must match the padding on file.
                                  Expected padding value of %v but got %v" *)
| ErrCorruptHeader            (* "corrupt CARv2 header; cannot resume from file" *)
| ErrReadingCarHeader (cause : error)
                              (* "error reading car header: %w" *)
| ErrMismatchingDataHeader    (* "cannot resume on file with mismatching data header" *)
| ErrNullPadding              (* "carv1 null padding not allowed by default; ..." *)
| ErrLoopBound.               (* not a Go error: a scan of the model ran past its bound *)

Inductive result (A : Type) : Type :=
| Ok (a : A)
| Err (e : error).
Arguments Ok {A} a.
Arguments Err {A} e.

Definition bind {A B} (r : result A) (k : A -> result B) : result B :=
  match r with
  | Ok a => k a
  | Err e => Err e
  end.

Notation "x <- r ;; k" := (bind r (fun x => k))
  (at level 61, r at next level, right associativity).
Notation "' p <- r ;; k" := (bind r (fun p => k))
  (at level 61, p pattern, r at next level, right associativity).

(** A Go function that can panic: it either returns or panics with a
    message. *)
Inductive outcome (A : Type) : Type :=
| Returns (a : A)
| Panics (msg : string).
Arguments Returns {A} a.
Arguments Panics {A} msg.

(** ** go-varint *)

Module varint.

(** [binary.PutUvarint]:
    [for x >= 0x80 { buf[i] = byte(x) | 0x80; x >>= 7; i++ }; buf[i] = byte(x)].
    A 64-bit value takes at most ten bytes, hence the bound on the loop. *)
Fixpoint PutUvarint_loop (n : nat) (x : Z) : list byte :=
  match n with
  | O => [byte_of x]
  | S n' =>
      if 128 <=? x
      then byte_of (Z.lor x 128) :: PutUvarint_loop n' (Z.shiftr x 7)
      else [byte_of x]
  end.

Definition PutUvarint (x : Z) : list byte := PutUvarint_loop 9 x.

(** [varint.ReadUvarint], reading from the front of a byte stream; [x] and
    [s] are the loop's accumulator and shift.  It returns the value and the
    bytes left.  Nine bytes at most are accepted, and the encoding must be
    minimal. *)
Fixpoint ReadUvarint_loop (bs : list byte) (x s : Z) : result (Z * list byte) :=
  match bs with
  | [] => Err (if s =? 0 then EOF else ErrUnexpectedEOF)
  | b :: rest =>
      let v := byte_val b in
      if ((s =? 56) && (128 <=? v)) || (63 <=? s) then Err ErrOverflow
      else if v <? 128 then
        if (v =? 0) && (0 <? s) then Err ErrNotMinimal
        else Ok (Z.lor x (Z.shiftl v s), rest)
      else ReadUvarint_loop rest (Z.lor x (Z.shiftl (Z.land v 127) s)) (s + 7)
  end.

Definition ReadUvarint (bs : list byte) : result (Z * list byte) :=
  ReadUvarint_loop bs 0 0.

End varint.

(** ** go-cid: content identifiers

    A key is a codec tag, a multihash algorithm and a digest (CIDv1).  Its
    binary form is [varint 1 || varint codec || multihash], the multihash
    being [varint algorithm || varint digest-length || digest]. *)

Module cid.

Record Cid : Type := {
  Codec : Z;
  MhType : Z;
  Digest : list byte
}.

(** [c.Hash()]: the multihash bytes. *)
Definition Hash (c : Cid) : list byte :=
  varint.PutUvarint (MhType c) ++ varint.PutUvarint (len (Digest c)) ++ Digest c.

(** [c.Bytes()]. *)
Definition Bytes (c : Cid) : list byte :=
  varint.PutUvarint 1 ++ varint.PutUvarint (Codec c) ++ Hash c.

(** [c.Equals(o)]: whole-CID equality. *)
Definition Equals (c o : Cid) : bool :=
  (Codec c =? Codec o) && (MhType c =? MhType o) && bytes_Equal (Digest c) (Digest o).

(** [cid.Raw], and [cid.NewCidV1(cid.Raw, c.Hash())]. *)
Definition Raw : Z := 85.
Definition NewCidV1_Raw (c : Cid) : Cid :=
  {| Codec := Raw; MhType := MhType c; Digest := Digest c |}.

(** [cid.CidFromReader]: decodes one CID from the front of the stream and
    returns the number of bytes read, the CID and the bytes left. *)
Definition CidFromReader (bs : list byte) : result (Z * Cid * list byte) :=
  '(vers, r1) <- varint.ReadUvarint bs ;;
  if negb (vers =? 1) then Err ErrBadCid else
  '(codec, r2) <- varint.ReadUvarint r1 ;;
  '(mht, r3) <- varint.ReadUvarint r2 ;;
  '(mhl, r4) <- varint.ReadUvarint r3 ;;
  if len r4 <? mhl then Err ErrUnexpectedEOF else
  Ok (len bs - len r4 + mhl,
      {| Codec := codec; MhType := mht; Digest := take mhl r4 |},
      drop mhl r4).

(** [cid.CidFromBytes]: as [CidFromReader], over a byte slice. *)
Definition CidFromBytes (data : list byte) : result (Z * Cid) :=
  '(n, c, _) <- CidFromReader data ;;
  Ok (n, c).

End cid.

Import cid.

(** [blocks.Block], as built by [blocks.NewBlockWithCid(data, c)]. *)
Module blocks.

Record Block : Type := {
  RawData : list byte;
  Cid : cid.Cid
}.

Definition NewBlockWithCid (data : list byte) (c : cid.Cid) : Block :=
  {| RawData := data; Cid := c |}.

End blocks.

(** ** Files

    An [os.File]: its bytes, whether it was closed, and the outcomes of the
    writes still to come.  [None] is a write that completes; [Some n] is a
    write that stops after at most [n] bytes with an I/O error.  When the
    plan is used up every write completes.  No file grows beyond
    [2^63 - 1] bytes. *)

Record File : Type := {
  bytes : list byte;
  closed : bool;
  faults : list (option Z)
}.

Definition MaxInt64 : Z := 2 ^ 63 - 1.

(** The bytes of a file after [p] was written at offset [off]: a gap
    between the end of the file and [off] reads as zeros. *)
Definition splice (data : list byte) (off : Z) (p : list byte) : list byte :=
  match p with
  | [] => data
  | _ => take off data ++ zeros (off - len data) ++ p ++ drop (off + len p) data
  end.

(** [f.WriteAt(p, off)]: the number of bytes written and the error. *)
Definition WriteAt (f : File) (p : list byte) (off : Z) : File * (Z * option error) :=
  if closed f then (f, (0, Some ErrClosed))
  else if off <? 0 then (f, (0, Some ErrNegativeOffset))
  else if MaxInt64 <? off + len p
  then ({| bytes := bytes f; closed := closed f; faults := tl (faults f) |},
        (0, Some ErrFileTooLarge))
  else
    match faults f with
    | Some n :: plan =>
        let q := take n p in
        ({| bytes := splice (bytes f) off q; closed := closed f; faults := plan |},
         (len q, Some ErrIO))
    | plan =>
        ({| bytes := splice (bytes f) off p; closed := closed f; faults := tl plan |},
         (len p, None))
    end.

(** [f.Truncate(size)]. *)
Definition Truncate (f : File) (size : Z) : File * option error :=
  if closed f then (f, Some ErrClosed)
  else if size <? 0 then (f, Some ErrNegativeOffset)
  else ({| bytes := take size (bytes f) ++ zeros (size - len (bytes f));
           closed := closed f; faults := faults f |}, None).

(** [f.Close()]. *)
Definition Close (f : File) : File :=
  {| bytes := bytes f; closed := true; faults := faults f |}.

(** The bytes a reader positioned at [off] has before it
    ([f.ReadAt] from [off] on). *)
Definition ReadAt (f : File) (off : Z) : result (list byte) :=
  if closed f then Err ErrClosed
  else if off <? 0 then Err ErrNegativeOffset
  else Ok (drop off (bytes f)).

(** ** internal/io: offset readers and writers *)

Module internalio.

(** Modelled from the spec: [internalio.OffsetReadSeeker] (package
    internal/io is not part of the sources).  Spec 4.3: the backing is the
    "sub-range of file starting at data_offset".  A reader is a file and a
    base; [NewOffsetReadSeeker(r, off)] reads the bytes from [base + off]
    on. *)
Record OffsetReadSeeker : Type := {
  src : File;
  base : Z
}.

Definition NewOffsetReadSeeker (r : OffsetReadSeeker) (off : Z) : result (list byte) :=
  ReadAt (src r) (int64 (base r + off)).

(** Modelled from the spec: [internalio.OffsetWriteSeeker] (package
    internal/io is not part of the sources).  Spec 3: the "data_cursor" is
    "where the next section will begin".  The writer holds its base and its
    position relative to the base; the file it writes to is the store's. *)
Record OffsetWriteSeeker : Type := {
  wbase : Z;
  offset : Z
}.

Definition NewOffsetWriter (base : Z) : OffsetWriteSeeker :=
  {| wbase := base; offset := 0 |}.

Definition Position (w : OffsetWriteSeeker) : Z := offset w.

Definition Seek (w : OffsetWriteSeeker) (off : Z) : OffsetWriteSeeker :=
  {| wbase := wbase w; offset := off |}.

(** [w.Write(p)]: writes at [base + offset] and advances by the number of
    bytes written. *)
Definition Write (f : File) (w : OffsetWriteSeeker) (p : list byte)
  : File * OffsetWriteSeeker * option error :=
  let '(f', (n, err)) := WriteAt f p (int64 (wbase w + offset w)) in
  (f', {| wbase := wbase w; offset := int64 (offset w + n) |}, err).

(** Successive [w.Write] calls, stopping at the first error. *)
Fixpoint WriteEach (f : File) (w : OffsetWriteSeeker) (d : list (list byte))
  : File * OffsetWriteSeeker * option error :=
  match d with
  | [] => (f, w, None)
  | s :: rest =>
      match Write f w s with
      | (f', w', Some e) => (f', w', Some e)
      | (f', w', None) => WriteEach f' w' rest
      end
  end.

End internalio.

(** ** internal/carv1/util: length-delimited sections *)

Module util.

(** Modelled from the spec: [util.LdWrite] (package internal/carv1/util is
    not part of the sources).  Spec 4.1: write_section "writes
    varint(len(k_bytes)+len(payload)) || k_bytes || payload"; the length
    prefix and each part are one write each. *)
Definition LdWrite (f : File) (w : internalio.OffsetWriteSeeker) (d : list (list byte))
  : File * internalio.OffsetWriteSeeker * option error :=
  let sum := uint64 (len (concat d)) in
  internalio.WriteEach f w (varint.PutUvarint sum :: d).

(** The bytes [LdWrite] produces when every write completes. *)
Definition LdBytes (d : list (list byte)) : list byte :=
  varint.PutUvarint (uint64 (len (concat d))) ++ concat d.

(** Modelled from the spec: [util.LdRead] (not part of the sources).
    Spec 4.1: "Reads a varint length L ... Fails with Truncated if any read
    is short".  Returns the [L] bytes of the section and the bytes after
    it. *)
Definition LdRead (bs : list byte) : result (list byte * list byte) :=
  '(l, r) <- varint.ReadUvarint bs ;;
  if (0 <? l) && (len r =? 0) then Err EOF
  else if len r <? l then Err ErrUnexpectedEOF
  else Ok (take l r, drop l r).

(** Modelled from the spec: [util.ReadNode] (not part of the sources).
    Spec 4.1: read_section "Reads a CID from the stream, consuming c bytes;
    reads L - c payload bytes ... BadCid on CID decode error". *)
Definition ReadNode (bs : list byte) : result (Cid * list byte) :=
  '(data, _) <- LdRead bs ;;
  '(n, c) <- cid.CidFromBytes data ;;
  Ok (c, drop n data).

End util.

(** ** internal/carv1: the payload header *)

Module carv1.

Record CarHeader : Type := {
  Roots : list Cid;
  Version : Z
}.

(** The head of a CBOR item: major type and argument. *)
Definition cbor_head (major arg : Z) : list byte :=
  if arg <? 24 then [byte_of (32 * major + arg)]
  else if arg <? 2 ^ 8 then byte_of (32 * major + 24) :: be_bytes 1 arg
  else if arg <? 2 ^ 16 then byte_of (32 * major + 25) :: be_bytes 2 arg
  else if arg <? 2 ^ 32 then byte_of (32 * major + 26) :: be_bytes 4 arg
  else byte_of (32 * major + 27) :: be_bytes 8 arg.

Definition cbor_text (s : list byte) : list byte := cbor_head 3 (len s) ++ s.

(** The map keys "roots" and "version". *)
Definition key_roots : list byte := cbor_text [x72; x6f; x6f; x74; x73].
Definition key_version : list byte := cbor_text [x76; x65; x72; x73; x69; x6f; x6e].

(** A CID in DAG-CBOR: tag 42 around a byte string that holds a zero byte
    and the CID's bytes. *)
Definition cbor_cid (c : Cid) : list byte :=
  cbor_head 6 42 ++ cbor_head 2 (1 + len (Bytes c)) ++ x00 :: Bytes c.

(** Modelled from the spec: the encoding of the payload header (package
    internal/carv1 is not part of the sources).  Spec 3: "V1 payload
    header. { version: 1, roots: [K] }, length-prefixed identically to a
    section".  The body is the DAG-CBOR map of the CAR format, keys in
    canonical order. *)
Definition header_cbor (h : CarHeader) : list byte :=
  cbor_head 5 2
  ++ key_roots ++ cbor_head 4 (len (Roots h)) ++ concat (map cbor_cid (Roots h))
  ++ key_version ++ cbor_head 0 (Version h).

Definition read_cbor_head (bs : list byte) : result (Z * Z * list byte) :=
  match bs with
  | [] => Err ErrInvalidHeader
  | b :: r =>
      let major := byte_val b / 32 in
      let info := byte_val b mod 32 in
      if info <? 24 then Ok (major, info, r)
      else
        let n := if info =? 24 then 1 else if info =? 25 then 2
                 else if info =? 26 then 4 else if info =? 27 then 8 else 0 in
        if (n =? 0) || (len r <? n) then Err ErrInvalidHeader
        else Ok (major, be_value (take n r) 0, drop n r)
  end.

Definition expect (p bs : list byte) : result (list byte) :=
  if bytes_Equal (take (len p) bs) p then Ok (drop (len p) bs)
  else Err ErrInvalidHeader.

Definition read_cbor_cid (bs : list byte) : result (Cid * list byte) :=
  r1 <- expect (cbor_head 6 42) bs ;;
  '(major, l, r2) <- read_cbor_head r1 ;;
  if negb (major =? 2) || (len r2 <? l) then Err ErrInvalidHeader else
  match take l r2 with
  | x00 :: cb =>
      '(n, c) <- cid.CidFromBytes cb ;;
      if n =? len cb then Ok (c, drop l r2) else Err ErrInvalidHeader
  | _ => Err ErrInvalidHeader
  end.

(** [count] CIDs in a row; [fuel] bounds the loop by the bytes at hand, of
    which every CID takes some. *)
Fixpoint read_cbor_cids (fuel : nat) (count : Z) (bs : list byte)
  : result (list Cid * list byte) :=
  if count <=? 0 then Ok ([], bs)
  else
    match fuel with
    | O => Err ErrInvalidHeader
    | S fuel' =>
        '(c, r) <- read_cbor_cid bs ;;
        '(cs, r') <- read_cbor_cids fuel' (count - 1) r ;;
        Ok (c :: cs, r')
    end.

Definition read_version (roots : list Cid) (bs : list byte) : result CarHeader :=
  r1 <- expect key_version bs ;;
  '(major, v, r2) <- read_cbor_head r1 ;;
  if (major =? 0) && (len r2 =? 0) then Ok {| Roots := roots; Version := v |}
  else Err ErrInvalidHeader.

(** The inverse of [header_cbor]; a map with the version alone is a header
    without roots (the CARv2 pragma is one). *)
Definition decode_header (hb : list byte) : result CarHeader :=
  '(major, n, r0) <- read_cbor_head hb ;;
  if negb (major =? 5) then Err ErrInvalidHeader
  else if n =? 1 then read_version [] r0
  else if n =? 2 then
    r1 <- expect key_roots r0 ;;
    '(major', count, r2) <- read_cbor_head r1 ;;
    if negb (major' =? 4) then Err ErrInvalidHeader else
    '(roots, r3) <- read_cbor_cids (List.length r2) count r2 ;;
    read_version roots r3
  else Err ErrInvalidHeader.

(** Modelled from the spec: [carv1.WriteHeader], [carv1.ReadHeader] and
    [carv1.HeaderSize] (not part of the sources).  Spec 3: the header is
    "length-prefixed identically to a section". *)
Definition WriteHeader (h : CarHeader) (f : File) (w : internalio.OffsetWriteSeeker)
  : File * internalio.OffsetWriteSeeker * option error :=
  util.LdWrite f w [header_cbor h].

Definition ReadHeader (bs : list byte) : result CarHeader :=
  '(hb, _) <- util.LdRead bs ;;
  decode_header hb.

Definition HeaderSize (h : CarHeader) : Z :=
  uint64 (len (util.LdBytes [header_cbor h])).

Fixpoint cids_Equal (a b : list Cid) : bool :=
  match a, b with
  | [], [] => true
  | x :: a', y :: b' => cid.Equals x y && cids_Equal a' b'
  | _, _ => false
  end.

(** Modelled from the spec: [CarHeader.Matches] (not part of the sources).
    Spec 4.3.1: "If its root list and version do not match the constructor
    arguments, fail RootMismatch". *)
Definition Matches (h other : CarHeader) : bool :=
  (Version h =? Version other) && cids_Equal (Roots h) (Roots other).

End carv1.

(** ** Package car (v2): pragma, header, options *)

Module carv2.

(** [carv2.Pragma]: the fixed bytes that open a CARv2 file; they read as a
    payload header of version 2 without roots. *)
Definition Pragma : list byte :=
  [x0a; xa1; x67; x76; x65; x72; x73; x69; x6f; x6e; x02].

Definition PragmaSize : Z := 11.
Definition HeaderSize : Z := 40.

Record ReadOptions : Type := {
  ZeroLengthSectionAsEOF : bool;
  BlockstoreUseWholeCIDs : bool
}.

Record WriteOptions : Type := {
  DataPadding : Z;
  IndexPadding : Z;
  BlockstoreAllowDuplicatePuts : bool
}.

(** Modelled from the spec: [carv2.Header] and its methods (package car is
    not part of the sources).  Spec 3: "Fixed-size record containing
    characteristics, data_offset, data_size, index_offset"; the offsets are
    derived from the paddings and the data size. *)
Record Header : Type := {
  Characteristics : Z * Z;
  DataOffset : Z;
  DataSize : Z;
  IndexOffset : Z
}.

Definition NewHeader (dataSize : Z) : Header :=
  {| Characteristics := (0, 0);
     DataOffset := PragmaSize + HeaderSize;
     DataSize := dataSize;
     IndexOffset := uint64 (PragmaSize + HeaderSize + dataSize) |}.

Definition WithDataPadding (h : Header) (p : Z) : Header :=
  {| Characteristics := Characteristics h;
     DataOffset := uint64 (PragmaSize + HeaderSize + p);
     DataSize := DataSize h;
     IndexOffset := uint64 (IndexOffset h + p) |}.

Definition WithIndexPadding (h : Header) (p : Z) : Header :=
  {| Characteristics := Characteristics h;
     DataOffset := DataOffset h;
     DataSize := DataSize h;
     IndexOffset := uint64 (IndexOffset h + p) |}.

Definition WithDataSize (h : Header) (size : Z) : Header :=
  {| Characteristics := Characteristics h;
     DataOffset := DataOffset h;
     DataSize := size;
     IndexOffset := uint64 (IndexOffset h + size) |}.

(** [h.WriteTo(w)]: the characteristics (16 bytes), then the three
    little-endian offsets (24 bytes). *)
Definition header_chunks (h : Header) : list (list byte) :=
  [ le_bytes 8 (fst (Characteristics h)) ++ le_bytes 8 (snd (Characteristics h));
    le_bytes 8 (DataOffset h) ++ le_bytes 8 (DataSize h) ++ le_bytes 8 (IndexOffset h) ].

Definition Header_WriteTo (h : Header) (f : File) (w : internalio.OffsetWriteSeeker)
  : File * internalio.OffsetWriteSeeker * option error :=
  internalio.WriteEach f w (header_chunks h).

(** [h.ReadFrom(r)]. *)
Definition Header_ReadFrom (bs : list byte) : result Header :=
  if len bs =? 0 then Err EOF
  else if len bs <? 16 then Err ErrUnexpectedEOF
  else if len bs =? 16 then Err EOF
  else if len bs <? HeaderSize then Err ErrUnexpectedEOF
  else
    Ok {| Characteristics := (le_value (take 8 bs), le_value (take 8 (drop 8 bs)));
          DataOffset := le_value (take 8 (drop 16 bs));
          DataSize := le_value (take 8 (drop 24 bs));
          IndexOffset := le_value (take 8 (drop 32 bs)) |}.

(** [carv2.ReadVersion]: the version of the payload-header-shaped record
    the stream starts with. *)
Definition ReadVersion (bs : list byte) : result Z :=
  header <- carv1.ReadHeader bs ;;
  Ok (carv1.Version header).

End carv2.

(** ** Package index *)

Module index.

(** [index.Record]. *)
Record IndexRecord : Type := {
  Cid : cid.Cid;
  Offset : Z
}.

(** Modelled from the spec: the [index.Index] interface (package index is
    not part of the sources).  Spec 3: "get_all(k, visit(off) -> continue?)
    -> () | not_found. Visitors may stop iteration early by returning
    false."  An index is what yields, for a key, its candidate offsets in
    visiting order. *)
Class Index (I : Type) : Type := {
  candidates : I -> cid.Cid -> list Z
}.

(** The visitor is a closure over local variables of its caller; their
    values are threaded through as [s]. *)
Fixpoint visit {S} (fn : Z -> S -> S * bool) (offs : list Z) (s : S) : S :=
  match offs with
  | [] => s
  | o :: rest =>
      let '(s', continue) := fn o s in
      if continue then visit fn rest s' else s'
  end.

Definition GetAll {I} `{Index I} {S} (idx : I) (key : cid.Cid)
    (fn : Z -> S -> S * bool) (s : S) : S * option error :=
  match candidates idx key with
  | [] => (s, Some IndexErrNotFound)
  | offs => (visit fn offs s, None)
  end.

End index.

(** ** blockstore: the insertion index *)

(** Modelled from the spec: [insertionIndex] (blockstore/insertionindex.go
    is not part of the sources).  Spec 4.4: "a flat list of
    (multihash_bytes, offset, full_cid_bytes) records ... get_all visits all
    entries whose multihash matches k.multihash in insertion order.
    has_exact(k) linearly checks stored records for full_cid_bytes ==
    k_bytes. flatten() stable-sorts by multihash". *)
Definition insertionIndex : Type := list index.IndexRecord.

Definition newInsertionIndex : insertionIndex := [].

Definition insertNoReplace (ii : insertionIndex) (key : Cid) (n : Z) : insertionIndex :=
  ii ++ [{| index.Cid := key; index.Offset := n |}].

Definition sameHash (key : Cid) (r : index.IndexRecord) : bool :=
  bytes_Equal (Hash (index.Cid r)) (Hash key).

Definition insertionIndex_candidates (ii : insertionIndex) (key : Cid) : list Z :=
  map index.Offset (filter (sameHash key) ii).

#[export] Instance insertionIndex_Index : index.Index insertionIndex :=
  {| index.candidates := insertionIndex_candidates |}.

(** [ii.Get(c)]. *)
Definition insertionIndex_Get (ii : insertionIndex) (key : Cid) : result Z :=
  match insertionIndex_candidates ii key with
  | o :: _ => Ok o
  | [] => Err IndexErrNotFound
  end.

Definition hasExactCID (ii : insertionIndex) (key : Cid) : bool :=
  existsb (fun r => cid.Equals (index.Cid r) key) ii.

Fixpoint insert_by_hash (r : index.IndexRecord) (l : list index.IndexRecord)
  : list index.IndexRecord :=
  match l with
  | [] => [r]
  | x :: t =>
      if bytes_Less (Hash (index.Cid x)) (Hash (index.Cid r))
      then x :: insert_by_hash r t
      else r :: l
  end.

Definition flatten (ii : insertionIndex) : list index.IndexRecord :=
  fold_right insert_by_hash [] ii.

(** ** blockstore: the read-only store (readonly.go) *)

Module ReadOnly.

(** The struct [ReadOnly]; its index is any implementation of
    [index.Index].  The mutex is not modelled: every method holds it from
    start to end. *)
Record t (I : Type) : Type := {
  backing : internalio.OffsetReadSeeker;
  idx : I;
  ropts : carv2.ReadOptions
}.

Section Methods.
Context {I : Type} `{index.Index I}.

Definition readBlock (b : t I) (idx : Z) : result (Cid * list byte) :=
  rd <- internalio.NewOffsetReadSeeker (backing b) idx ;;
  util.ReadNode rd.

Definition writePanic : string := "called write method on a read-only blockstore".

(** [DeleteBlock], [Put] and [PutMany] panic. *)
Definition DeleteBlock (b : t I) (_ : Cid) : outcome (option error) :=
  Panics writePanic.

Definition Put (b : t I) (_ : blocks.Block) : outcome (option error) :=
  Panics writePanic.

Definition PutMany (b : t I) (_ : list blocks.Block) : outcome (option error) :=
  Panics writePanic.

(** The closure [Has] passes to [GetAll]; the state is
    [(fnFound, fnErr)]. *)
Definition Has_visitor (b : t I) (key : Cid) (offset : Z) (st : bool * option error)
  : (bool * option error) * bool :=
  let '(fnFound, fnErr) := st in
  match (uar <- internalio.NewOffsetReadSeeker (backing b) (int64 offset) ;;
         varint.ReadUvarint uar) with
  | Err err => ((fnFound, Some err), false)
  | Ok (_, uar) =>
      match cid.CidFromReader uar with
      | Err err => ((fnFound, Some err), false)
      | Ok (_, readCid, _) =>
          if carv2.BlockstoreUseWholeCIDs (ropts b) then
            let fnFound := cid.Equals readCid key in
            ((fnFound, fnErr), negb fnFound)
          else
            ((bytes_Equal (Hash readCid) (Hash key), fnErr), false)
      end
  end.

Definition Has (b : t I) (key : Cid) : bool * option error :=
  let '((fnFound, fnErr), err) :=
    index.GetAll (idx b) key (Has_visitor b key) (false, None) in
  match err with
  | Some IndexErrNotFound => (false, None)
  | Some err => (false, Some err)
  | None => (fnFound, fnErr)
  end.

(** The closure of [Get]; the state is [(fnData, fnErr)], a nil [fnData]
    being [None]. *)
Definition Get_visitor (b : t I) (key : Cid) (offset : Z)
    (st : option (list byte) * option error)
  : (option (list byte) * option error) * bool :=
  let '(fnData, fnErr) := st in
  match readBlock b (int64 offset) with
  | Err err => ((fnData, Some err), false)
  | Ok (readCid, data) =>
      if carv2.BlockstoreUseWholeCIDs (ropts b) then
        if cid.Equals readCid key then ((Some data, fnErr), false)
        else ((fnData, fnErr), true)
      else
        ((if bytes_Equal (Hash readCid) (Hash key) then Some data else fnData, fnErr),
         false)
  end.

Definition Get (b : t I) (key : Cid) : result blocks.Block :=
  let '((fnData, fnErr), err) :=
    index.GetAll (idx b) key (Get_visitor b key) (None, None) in
  match err with
  | Some IndexErrNotFound => Err BlockstoreErrNotFound
  | Some err => Err err
  | None =>
      match fnErr with
      | Some err => Err err
      | None =>
          match fnData with
          | None => Err BlockstoreErrNotFound
          | Some data => Ok (blocks.NewBlockWithCid data key)
          end
      end
  end.

(** The closure of [GetSize]; the state is [(fnSize, fnErr)]. *)
Definition GetSize_visitor (b : t I) (key : Cid) (offset : Z) (st : Z * option error)
  : (Z * option error) * bool :=
  let '(fnSize, fnErr) := st in
  match (rdr <- internalio.NewOffsetReadSeeker (backing b) (int64 offset) ;;
         r <- varint.ReadUvarint rdr ;; Ok r) with
  | Err err => ((fnSize, Some err), false)
  | Ok (sectionLen, rdr) =>
      match cid.CidFromReader rdr with
      | Err err => ((fnSize, Some err), false)
      | Ok (cidLen, readCid, _) =>
          if carv2.BlockstoreUseWholeCIDs (ropts b) then
            if cid.Equals readCid key
            then ((int64 (int64 sectionLen - cidLen), fnErr), false)
            else ((fnSize, fnErr), true)
          else
            ((if bytes_Equal (Hash readCid) (Hash key)
              then int64 (int64 sectionLen - cidLen) else fnSize, fnErr),
             false)
      end
  end.

Definition GetSize (b : t I) (key : Cid) : Z * option error :=
  let '((fnSize, fnErr), err) :=
    index.GetAll (idx b) key (GetSize_visitor b key) (-1, None) in
  match err with
  | Some IndexErrNotFound => (-1, Some BlockstoreErrNotFound)
  | Some err => (-1, Some err)
  | None =>
      match fnErr with
      | Some err => (-1, Some err)
      | None =>
          if fnSize =? -1 then (-1, Some BlockstoreErrNotFound)
          else (fnSize, None)
      end
  end.

(** The keys the goroutine of [AllKeysChan] sends, for a consumer that
    drains the channel and never cancels; [pos] is the reader's position.
    Every round moves the reader forward, so [fuel] rounds are enough for a
    backing of at most [fuel] bytes. *)
Fixpoint AllKeysChan_loop (b : t I) (fuel : nat) (pos : Z) : list Cid :=
  match fuel with
  | O => []
  | S fuel' =>
      match internalio.NewOffsetReadSeeker (backing b) pos with
      | Err _ => []
      | Ok rdr =>
          match varint.ReadUvarint rdr with
          | Err _ => []
          | Ok (length, rdr1) =>
              if length =? 0 then []
              else
                let thisItemForNxt := pos + (len rdr - len rdr1) in
                match cid.CidFromReader rdr1 with
                | Err _ => []
                | Ok (_, c, _) =>
                    let c := if carv2.BlockstoreUseWholeCIDs (ropts b)
                             then c else cid.NewCidV1_Raw c in
                    c :: AllKeysChan_loop b fuel'
                           (int64 (thisItemForNxt + int64 length))
                end
          end
      end
  end.

Definition AllKeysChan (b : t I) : result (list Cid) :=
  match (rdr <- internalio.NewOffsetReadSeeker (backing b) 0 ;;
         carv1.ReadHeader rdr) with
  | Err err => Err (ErrReadingCarHeader err)
  | Ok header =>
      let headerSize := carv1.HeaderSize header in
      Ok (AllKeysChan_loop b (S (List.length (bytes (internalio.src (backing b)))))
            (int64 headerSize))
  end.

(** [Roots]: the roots of the payload header at the start of the
    backing. *)
Definition Roots (b : t I) : result (list Cid) :=
  match (rdr <- internalio.NewOffsetReadSeeker (backing b) 0 ;;
         carv1.ReadHeader rdr) with
  | Err err => Err (ErrReadingCarHeader err)
  | Ok header => Ok (carv1.Roots header)
  end.

End Methods.

End ReadOnly.

(** ** blockstore: the read-write store (readwrite.go) *)

Module ReadWrite.

(** The struct [ReadWrite].  The embedded [ReadOnly] reads the same file
    and the same index as the writer, so it is kept as a view
    ([asReadOnly]) of the one file [f] and the one index [idx]; of its own
    fields only [ropts] is stored. *)
Record t : Type := {
  f : File;
  dataWriter : internalio.OffsetWriteSeeker;
  idx : insertionIndex;
  header : carv2.Header;
  ropts : carv2.ReadOptions;
  wopts : carv2.WriteOptions
}.

Definition asReadOnly (b : t) : ReadOnly.t insertionIndex :=
  {| ReadOnly.backing :=
       {| internalio.src := f b;
          internalio.base := int64 (carv2.DataOffset (header b)) |};
     ReadOnly.idx := idx b;
     ReadOnly.ropts := ropts b |}.

Definition set_f (b : t) (f' : File) : t :=
  {| f := f'; dataWriter := dataWriter b; idx := idx b; header := header b;
     ropts := ropts b; wopts := wopts b |}.

Definition set_dataWriter (b : t) (w : internalio.OffsetWriteSeeker) : t :=
  {| f := f b; dataWriter := w; idx := idx b; header := header b;
     ropts := ropts b; wopts := wopts b |}.

Definition set_idx (b : t) (ii : insertionIndex) : t :=
  {| f := f b; dataWriter := dataWriter b; idx := ii; header := header b;
     ropts := ropts b; wopts := wopts b |}.

Definition set_header (b : t) (h : carv2.Header) : t :=
  {| f := f b; dataWriter := dataWriter b; idx := idx b; header := h;
     ropts := ropts b; wopts := wopts b |}.

(** A reader over the whole file. *)
Definition fileReader (file : File) : internalio.OffsetReadSeeker :=
  {| internalio.src := file; internalio.base := 0 |}.

Definition initWithRoots (b : t) (roots : list Cid) : t * option error :=
  match WriteAt (f b) carv2.Pragma 0 with
  | (f1, (_, Some err)) => (set_f b f1, Some err)
  | (f1, (_, None)) =>
      let '(f2, w2, err) :=
        carv1.WriteHeader {| carv1.Roots := roots; carv1.Version := 1 |}
          f1 (dataWriter b) in
      (set_dataWriter (set_f b f2) w2, err)
  end.

Definition unfinalize (b : t) : t * option error :=
  let '(f1, _, err) :=
    carv2.Header_WriteTo
      {| carv2.Characteristics := (0, 0); carv2.DataOffset := 0;
         carv2.DataSize := 0; carv2.IndexOffset := 0 |}
      (f b) (internalio.NewOffsetWriter carv2.PragmaSize) in
  (set_f b f1, err).

(** The scan of [resumeWithRoots]: one round per section, starting at
    [sectionOffset]; returns the store, the last section offset and the
    error. *)
Fixpoint resume_loop (fuel : nat) (b : t) (sectionOffset : Z) : t * Z * option error :=
  match fuel with
  | O => (b, sectionOffset, Some ErrLoopBound)
  | S fuel' =>
      match internalio.NewOffsetReadSeeker (ReadOnly.backing (asReadOnly b))
              sectionOffset with
      | Err err => (b, sectionOffset, Some err)
      | Ok v1r =>
          match varint.ReadUvarint v1r with
          | Err EOF => (b, sectionOffset, None)
          | Err err => (b, sectionOffset, Some err)
          | Ok (length, v1r1) =>
              if length =? 0 then
                if carv2.ZeroLengthSectionAsEOF (ropts b)
                then (b, sectionOffset, None)
                else (b, sectionOffset, Some ErrNullPadding)
              else
                match cid.CidFromReader v1r1 with
                | Err err => (b, sectionOffset, Some err)
                | Ok (n, c, _) =>
                    let b' := set_idx b (insertNoReplace (idx b) c (uint64 sectionOffset)) in
                    let current := sectionOffset + (len v1r - len v1r1) + n in
                    resume_loop fuel' b' (int64 (current + (int64 length - int64 n)))
                end
          end
      end
  end.

Definition resumeWithRoots (b : t) (roots : list Cid) : t * option error :=
  match (r <- internalio.NewOffsetReadSeeker (fileReader (f b)) 0 ;;
         carv2.ReadVersion r) with
  | Err err => (b, Some err)
  | Ok version =>
      if negb (version =? 2) then (b, Some (ErrResumeVersion version))
      else
        let headerInFile :=
          r <- internalio.NewOffsetReadSeeker (fileReader (f b)) carv2.PragmaSize ;;
          carv2.Header_ReadFrom r in
        let checked : t * option error :=
          match headerInFile with
          | Ok headerInFile =>
              if negb (carv2.DataOffset headerInFile =? 0) then
                if negb (carv2.DataOffset headerInFile =? carv2.DataOffset (header b)) then
                  let wantPadding :=
                    uint64 (carv2.DataOffset headerInFile
                            - carv2.PragmaSize - carv2.HeaderSize) in
                  let gotPadding :=
                    uint64 (carv2.DataOffset (header b)
                            - carv2.PragmaSize - carv2.HeaderSize) in
                  (b, Some (ErrPaddingMismatch wantPadding gotPadding))
                else if negb (carv2.DataSize headerInFile =? 0) then
                  match Truncate (f b)
                          (int64 (uint64 (carv2.DataOffset headerInFile
                                          + carv2.DataSize headerInFile))) with
                  | (f1, Some err) => (set_f b f1, Some err)
                  | (f1, None) => unfinalize (set_f b f1)
                  end
                else (b, Some ErrCorruptHeader)
              else (b, None)
          | Err _ => (b, None)
          end in
        match checked with
        | (b, Some err) => (b, Some err)
        | (b, None) =>
            match (v1r <- internalio.NewOffsetReadSeeker
                            (ReadOnly.backing (asReadOnly b)) 0 ;;
                   carv1.ReadHeader v1r) with
            | Err err => (b, Some (ErrReadingCarHeader err))
            | Ok header =>
                if negb (carv1.Matches header
                           {| carv1.Roots := roots; carv1.Version := 1 |})
                then (b, Some ErrMismatchingDataHeader)
                else
                  let offset := carv1.HeaderSize header in
                  let sectionOffset := int64 offset in
                  match resume_loop (S (List.length (bytes (f b)))) b sectionOffset with
                  | (b, _, Some err) => (b, Some err)
                  | (b, sectionOffset, None) =>
                      (set_dataWriter b (internalio.Seek (dataWriter b) sectionOffset),
                       None)
                  end
            end
        end
  end.

(** [OpenReadWrite]; [file] is the handle [os.OpenFile] returns (an empty
    file when the path did not exist), and the options are given already
    applied, as the read and the write options they set. *)
Definition OpenReadWrite (file : File) (roots : list Cid)
    (ropts : carv2.ReadOptions) (wopts : carv2.WriteOptions) : result t :=
  let resume := negb (len (bytes file) =? 0) in
  let header := carv2.NewHeader 0 in
  let header :=
    if 0 <? carv2.DataPadding wopts
    then carv2.WithDataPadding header (carv2.DataPadding wopts) else header in
  let header :=
    if 0 <? carv2.IndexPadding wopts
    then carv2.WithIndexPadding header (carv2.IndexPadding wopts) else header in
  let rwbs :=
    {| f := file;
       dataWriter := internalio.NewOffsetWriter (int64 (carv2.DataOffset header));
       idx := newInsertionIndex;
       header := header;
       ropts := ropts;
       wopts := wopts |} in
  match (if resume then resumeWithRoots rwbs roots else initWithRoots rwbs roots) with
  | (_, Some err) => Err err
  | (rwbs, None) => Ok rwbs
  end.

Definition finalized (b : t) : bool :=
  negb (carv2.DataSize (header b) =? 0).

(** The guard of [PutMany] that skips a block already in the index. *)
Definition deduplicated (b : t) (c : Cid) : bool :=
  if negb (carv2.BlockstoreAllowDuplicatePuts (wopts b)) then
    if carv2.BlockstoreUseWholeCIDs (ropts b) && hasExactCID (idx b) c then true
    else if negb (carv2.BlockstoreUseWholeCIDs (ropts b)) then
      match insertionIndex_Get (idx b) c with
      | Ok _ => true
      | Err _ => false
      end
    else false
  else false.

(** The body of the [for] loop of [PutMany] for a block that is not
    skipped. *)
Definition writeBlock (b : t) (bl : blocks.Block) : t * option error :=
  let c := blocks.Cid bl in
  let n := uint64 (internalio.Position (dataWriter b)) in
  match util.LdWrite (f b) (dataWriter b) [Bytes c; blocks.RawData bl] with
  | (f1, w1, Some err) => (set_dataWriter (set_f b f1) w1, Some err)
  | (f1, w1, None) =>
      (set_idx (set_dataWriter (set_f b f1) w1) (insertNoReplace (idx b) c n), None)
  end.

Fixpoint PutMany_loop (b : t) (blks : list blocks.Block) : t * option error :=
  match blks with
  | [] => (b, None)
  | bl :: rest =>
      if deduplicated b (blocks.Cid bl) then PutMany_loop b rest
      else
        match writeBlock b bl with
        | (b1, Some err) => (b1, Some err)
        | (b1, None) => PutMany_loop b1 rest
        end
  end.

Definition PutMany (b : t) (blks : list blocks.Block) : t * option error :=
  if finalized b then (b, Some errFinalized)
  else PutMany_loop b blks.

Definition Put (b : t) (blk : blocks.Block) : t * option error :=
  PutMany b [blk].

Section Finalize.

(** The bytes [index.WriteTo] writes for a flattened index, one list per
    write (package index is not part of the sources; the store does not
    depend on the layout). *)
Variable marshal : list index.IndexRecord -> list (list byte).

Definition index_WriteTo (fi : list index.IndexRecord) (f : File)
    (w : internalio.OffsetWriteSeeker)
  : File * internalio.OffsetWriteSeeker * option error :=
  internalio.WriteEach f w (marshal fi).

Definition Finalize (b : t) : t * option error :=
  if negb (carv2.DataSize (header b) =? 0) then (b, Some ErrFinalizeTwice)
  else
    let b := set_header b
               (carv2.WithDataSize (header b)
                  (uint64 (internalio.Position (dataWriter b)))) in
    let fi := flatten (idx b) in
    match index_WriteTo fi (f b)
            (internalio.NewOffsetWriter (int64 (carv2.IndexOffset (header b)))) with
    | (f1, _, Some err) => (set_f b (Close f1), Some err)
    | (f1, _, None) =>
        let '(f2, _, err) :=
          carv2.Header_WriteTo (header b) f1
            (internalio.NewOffsetWriter carv2.PragmaSize) in
        (set_f b (Close f2), err)
    end.

End Finalize.

Definition AllKeysChan (b : t) : result (list Cid) :=
  if finalized b then Err errFinalized
  else ReadOnly.AllKeysChan (asReadOnly b).

Definition Has (b : t) (key : Cid) : bool * option error :=
  if finalized b then (false, Some errFinalized)
  else ReadOnly.Has (asReadOnly b) key.

Definition Get (b : t) (key : Cid) : result blocks.Block :=
  if finalized b then Err errFinalized
  else ReadOnly.Get (asReadOnly b) key.

Definition GetSize (b : t) (key : Cid) : Z * option error :=
  if finalized b then (0, Some errFinalized)
  else ReadOnly.GetSize (asReadOnly b) key.

(** [Roots] is the method of the embedded [ReadOnly]: [ReadWrite] does not
    override it, so there is no check of [finalized]. *)
Definition Roots (b : t) : result (list Cid) :=
  ReadOnly.Roots (asReadOnly b).

End ReadWrite.

(** * Sessions of the read-write store

    The vocabulary of the properties below. *)

(** A key go-cid can read back: its codec and hash algorithm numbers are
    below [2^63], the largest varint go-varint reads. *)
Definition cid_wf (c : Cid) : Prop :=
  0 <= Codec c < 2 ^ 63 /\ 0 <= MhType c < 2 ^ 63.

(** The section of a block: what [util.LdWrite(w, c.Bytes(), data)] writes. *)
Definition section (c : Cid) (data : list byte) : list byte :=
  util.LdBytes [Bytes c; data].

(** A section on file: the key, the offset the index records for it
    (relative to the data offset), and the payload. *)
Record Entry : Type := {
  entry_key : Cid;
  entry_offset : Z;
  entry_data : list byte
}.

Definition entry_record (e : Entry) : index.IndexRecord :=
  {| index.Cid := entry_key e; index.Offset := entry_offset e |}.

Definition entry_section (e : Entry) : list byte :=
  section (entry_key e) (entry_data e).

(** The entry is on file: its section starts at its offset. *)
Definition stored (b : ReadWrite.t) (e : Entry) : Prop :=
  cid_wf (entry_key e) /\ 0 <= entry_offset e
  /\ exists post,
       drop (carv2.DataOffset (ReadWrite.header b) + entry_offset e)
         (bytes (ReadWrite.f b))
       = entry_section e ++ post.

(** The invariant of a session that has not been finalized: the file is
    open and ends at the data cursor, which is past the payload header; the
    index lists exactly the entries [es], and each is on file. *)
Record Inv (b : ReadWrite.t) (es : list Entry) : Prop := {
  inv_open : closed (ReadWrite.f b) = false;
  inv_unfinalized : carv2.DataSize (ReadWrite.header b) = 0;
  inv_base : 0 <= carv2.DataOffset (ReadWrite.header b);
  inv_writer :
    internalio.wbase (ReadWrite.dataWriter b) = carv2.DataOffset (ReadWrite.header b);
  inv_cursor : 0 < internalio.offset (ReadWrite.dataWriter b);
  inv_end :
    carv2.DataOffset (ReadWrite.header b) + internalio.offset (ReadWrite.dataWriter b)
    = len (bytes (ReadWrite.f b));
  inv_size : len (bytes (ReadWrite.f b)) <= MaxInt64;
  inv_index : ReadWrite.idx b = map entry_record es;
  inv_stored : Forall (stored b) es
}.

Definition WellFormed (b : ReadWrite.t) : Prop := exists es, Inv b es.

(** A sequence of [Put] calls, stopping at the first that fails. *)
Fixpoint PutEach (b : ReadWrite.t) (blks : list blocks.Block)
  : ReadWrite.t * option error :=
  match blks with
  | [] => (b, None)
  | bl :: rest =>
      match ReadWrite.Put b bl with
      | (b1, None) => PutEach b1 rest
      | (b1, Some err) => (b1, Some err)
      end
  end.

(** The matching policy of spec 3: whole-CID equality under
    [UseWholeCIDs], equality of the multihash bytes otherwise. *)
Definition sameKey (useWholeCIDs : bool) (a c : Cid) : bool :=
  if useWholeCIDs then cid.Equals a c else bytes_Equal (Hash a) (Hash c).

(** No two keys of the list are the same under the policy. *)
Fixpoint distinctKeys (useWholeCIDs : bool) (keys : list Cid) : Prop :=
  match keys with
  | [] => True
  | k :: rest =>
      Forall (fun k' => sameKey useWholeCIDs k k' = false) rest
      /\ distinctKeys useWholeCIDs rest
  end.

(** What a lookup finds among the entries: the first entry with the key's
    multihash, or under [UseWholeCIDs] the first of them with the key
    itself. *)
Definition matching (key : Cid) (es : list Entry) : list Entry :=
  filter (fun e => bytes_Equal (Hash (entry_key e)) (Hash key)) es.

Definition lookup (useWholeCIDs : bool) (es : list Entry) (key : Cid) : option Entry :=
  if useWholeCIDs
  then find (fun e => cid.Equals (entry_key e) key) (matching key es)
  else hd_error (matching key es).

(** The layout of a session's file and header: the pragma is in place, the
    region of the v2 header is still blank, and the offsets of the
    in-memory header are those of spec 3
    (data_offset >= pragma_size + v2_header_size, index_offset past it),
    within the range of a file offset. *)
Record Layout (b : ReadWrite.t) : Prop := {
  lay_pragma : take carv2.PragmaSize (bytes (ReadWrite.f b)) = carv2.Pragma;
  lay_blank :
    take carv2.HeaderSize (drop carv2.PragmaSize (bytes (ReadWrite.f b)))
    = zeros carv2.HeaderSize;
  lay_offsets :
    carv2.PragmaSize + carv2.HeaderSize <= carv2.DataOffset (ReadWrite.header b)
    /\ carv2.DataOffset (ReadWrite.header b) <= carv2.IndexOffset (ReadWrite.header b)
    /\ carv2.IndexOffset (ReadWrite.header b) < 2 ^ 63;
  lay_characteristics : carv2.Characteristics (ReadWrite.header b) = (0, 0)
}.

(** Write options whose paddings keep the offsets of the header from
    wrapping around. *)
Definition sanePaddings (wopts : carv2.WriteOptions) : Prop :=
  0 <= carv2.DataPadding wopts /\ 0 <= carv2.IndexPadding wopts
  /\ carv2.PragmaSize + carv2.HeaderSize
     + carv2.DataPadding wopts + carv2.IndexPadding wopts < 2 ^ 63.

(** The file of a session in which every write completed: pragma, blank
    header and padding, payload header, and the sections one after the
    other. *)
Definition image (roots : list Cid) (dataOffset : Z) (es : list Entry) : list byte :=
  carv2.Pragma ++ zeros (dataOffset - carv2.PragmaSize)
  ++ util.LdBytes [carv1.header_cbor {| carv1.Roots := roots; carv1.Version := 1 |}]
  ++ concat (map entry_section es).

(** The entries follow one another from [pos] on. *)
Fixpoint consecutive (pos : Z) (es : list Entry) : Prop :=
  match es with
  | [] => True
  | e :: rest =>
      entry_offset e = pos /\ consecutive (pos + len (entry_section e)) rest
  end.

Record Clean (roots : list Cid) (b : ReadWrite.t) (es : list Entry) : Prop := {
  clean_inv : Inv b es;
  clean_base :
    carv2.PragmaSize + carv2.HeaderSize <= carv2.DataOffset (ReadWrite.header b);
  clean_bytes :
    bytes (ReadWrite.f b) = image roots (carv2.DataOffset (ReadWrite.header b)) es;
  clean_offsets :
    consecutive
      (len (util.LdBytes
              [carv1.header_cbor {| carv1.Roots := roots; carv1.Version := 1 |}]))
      es
}.

(** The all-zero v2 header, as [new(carv2.Header)] and as a blank header
    region reads. *)
Definition zeroHeader : carv2.Header :=
  {| carv2.Characteristics := (0, 0); carv2.DataOffset := 0;
     carv2.DataSize := 0; carv2.IndexOffset := 0 |}.

(** The v2 header as it reads from the file. *)
Definition headerOnFile (data : list byte) : result carv2.Header :=
  carv2.Header_ReadFrom (drop carv2.PragmaSize data).

(** The header [Finalize] computes before it writes anything: the data
    size is the position of the data writer. *)
Definition finalHeader (b : ReadWrite.t) : carv2.Header :=
  carv2.WithDataSize (ReadWrite.header b)
    (uint64 (internalio.Position (ReadWrite.dataWriter b))).

(** * Vocabulary of the proofs and the example sessions *)

(** Whether a lookup found something. *)
Definition is_some {A} (o : option A) : bool :=
  match o with Some _ => true | None => false end.

(** The entry a successful [writeBlock] adds. *)
Definition new_entry (b : ReadWrite.t) (bl : blocks.Block) : Entry :=
  {| entry_key := blocks.Cid bl;
     entry_offset := internalio.offset (ReadWrite.dataWriter b);
     entry_data := blocks.RawData bl |}.

(** The header [OpenReadWrite] starts from, for the given write options. *)
Definition openHeader (wopts : carv2.WriteOptions) : carv2.Header :=
  let header := carv2.NewHeader 0 in
  let header :=
    if 0 <? carv2.DataPadding wopts
    then carv2.WithDataPadding header (carv2.DataPadding wopts) else header in
  if 0 <? carv2.IndexPadding wopts
  then carv2.WithIndexPadding header (carv2.IndexPadding wopts) else header.

(** The payload header as [carv1.WriteHeader] lays it out. *)
Local Abbreviation payloadHeader roots :=
  (util.LdBytes [carv1.header_cbor {| carv1.Roots := roots; carv1.Version := 1 |}]).

(** The store the scan leaves: the reopened file, the index of the
    entries on it and the writer at their end. *)
Definition resumed (file : File) (b : ReadWrite.t)
    (ropts : carv2.ReadOptions) (wopts : carv2.WriteOptions) : ReadWrite.t :=
  {| ReadWrite.f := file;
     ReadWrite.dataWriter :=
       {| internalio.wbase := carv2.DataOffset (ReadWrite.header b);
          internalio.offset := internalio.offset (ReadWrite.dataWriter b) |};
     ReadWrite.idx := ReadWrite.idx b;
     ReadWrite.header := openHeader wopts;
     ReadWrite.ropts := ropts;
     ReadWrite.wopts := wopts |}.

(** ** Example sessions *)

(** A new, empty file on a device that completes every write. *)
Definition ex_file : File := {| bytes := []; closed := false; faults := [] |}.

Definition ex_ropts (useWholeCIDs : bool) : carv2.ReadOptions :=
  {| carv2.ZeroLengthSectionAsEOF := false;
     carv2.BlockstoreUseWholeCIDs := useWholeCIDs |}.

Definition ex_wopts (dataPadding : Z) : carv2.WriteOptions :=
  {| carv2.DataPadding := dataPadding; carv2.IndexPadding := 0;
     carv2.BlockstoreAllowDuplicatePuts := false |}.

(** Two keys with one multihash and different codecs (raw and dag-pb),
    and a third key with another digest. *)
Definition ex_k1 : Cid := {| Codec := 85; MhType := 18; Digest := [x01; x02; x03] |}.

Definition ex_k2 : Cid := {| Codec := 112; MhType := 18; Digest := [x01; x02; x03] |}.

Definition ex_k3 : Cid := {| Codec := 112; MhType := 18; Digest := [x09; x02; x03] |}.

Definition ex_blk1 : blocks.Block := blocks.NewBlockWithCid [x61; x62; x63] ex_k1.

Definition ex_blk2 : blocks.Block := blocks.NewBlockWithCid [x64] ex_k2.

Definition ex_blk3 : blocks.Block := blocks.NewBlockWithCid [x65; x66] ex_k3.

(** A stand-in for the index encoding: a codec prefix and the
    multihashes of the records. *)
Definition ex_marshal (fi : list index.IndexRecord) : list (list byte) :=
  [varint.PutUvarint 1025; concat (map (fun r => Hash (index.Cid r)) fi)].

(** The store of a result, a blank store for an error. *)
Definition from_result (r : result ReadWrite.t) : ReadWrite.t :=
  match r with
  | Ok b => b
  | Err _ =>
      {| ReadWrite.f := ex_file;
         ReadWrite.dataWriter := internalio.NewOffsetWriter 0;
         ReadWrite.idx := [];
         ReadWrite.header := carv2.NewHeader 0;
         ReadWrite.ropts := ex_ropts false;
         ReadWrite.wopts := ex_wopts 0 |}
  end.

(** The store [OpenReadWrite] returns for a new file with root [ex_k1]. *)
Definition ex_open (useWholeCIDs : bool) : ReadWrite.t :=
  Eval vm_compute in
    from_result (ReadWrite.OpenReadWrite ex_file [ex_k1] (ex_ropts useWholeCIDs) (ex_wopts 0)).

(** A device that completes seven writes and stops the eighth after two
    bytes: opening takes three writes, a block three more. *)
Definition ex_faulty_file : File :=
  {| bytes := []; closed := false;
     faults := [None; None; None; None; None; None; None; Some 2] |}.

Definition ex_faulty_open : ReadWrite.t :=
  Eval vm_compute in
    from_result (ReadWrite.OpenReadWrite ex_faulty_file [ex_k1] (ex_ropts false) (ex_wopts 0)).

Definition ex_faulty_put1 : ReadWrite.t :=
  Eval vm_compute in fst (ReadWrite.PutMany ex_faulty_open [ex_blk1]).

Definition ex_faulty_write :=
  Eval vm_compute in
    util.LdWrite (ReadWrite.f ex_faulty_put1) (ReadWrite.dataWriter ex_faulty_put1)
      [Bytes ex_k3; blocks.RawData ex_blk3].


(** The example session after one block, and its file after [Finalize],
    as a later [os.OpenFile] hands it out. *)
Definition ex_put1 : ReadWrite.t :=
  Eval vm_compute in fst (PutEach (ex_open false) [ex_blk1]).

Definition ex_finalized_file : File :=
  {| bytes := bytes (ReadWrite.f (fst (ReadWrite.Finalize ex_marshal ex_put1)));
     closed := false; faults := [] |}.

(** The example session after two blocks. *)
Definition ex_put2 : ReadWrite.t :=
  Eval vm_compute in fst (PutEach (ex_open false) [ex_blk1; ex_blk3]).

(** A device that completes eight writes and stops the ninth after one
    byte: the second block's length and CID reach the file, its data only
    in part. *)
Definition ex_torn_file : File :=
  {| bytes := []; closed := false;
     faults := [None; None; None; None; None; None; None; None; Some 1] |}.

Definition ex_torn : ReadWrite.t :=
  Eval vm_compute in
    fst (PutEach
           (from_result
              (ReadWrite.OpenReadWrite ex_torn_file [ex_k1] (ex_ropts false) (ex_wopts 0)))
           [ex_blk1; ex_blk3]).

(** The session on the device of [ex_faulty_file]: the first block is
    written, the length of the second reaches the file, its CID only in
    part. *)
Definition ex_torn_cid : ReadWrite.t :=
  Eval vm_compute in fst (PutEach ex_faulty_open [ex_blk1; ex_blk3]).

(** ** Vocabulary of the further properties *)

(** The entry holds one of the blocks. *)
Definition fromBlocks (blks : list blocks.Block) (e : Entry) : Prop :=
  exists bl, In bl blks /\ entry_key e = blocks.Cid bl
             /\ entry_data e = blocks.RawData bl.

(** A device that completes the three writes of [OpenReadWrite] on a new
    file and fails the next write before its first byte. *)
Definition ex_dying_file : File :=
  {| bytes := []; closed := false; faults := [None; None; None; Some 0] |}.

Definition ex_dying_open : ReadWrite.t :=
  Eval vm_compute in
    from_result (ReadWrite.OpenReadWrite ex_dying_file [ex_k1] (ex_ropts false) (ex_wopts 0)).

(** The second half of [resumeWithRoots], from the read of the payload
    header on: the check of the roots, the scan of the sections and the
    seek of the data writer. *)
Definition resume_scan (b : ReadWrite.t) (roots : list Cid)
  : ReadWrite.t * option error :=
  match (v1r <- internalio.NewOffsetReadSeeker
                  (ReadOnly.backing (ReadWrite.asReadOnly b)) 0 ;;
         carv1.ReadHeader v1r) with
  | Err err => (b, Some (ErrReadingCarHeader err))
  | Ok header =>
      if negb (carv1.Matches header
                 {| carv1.Roots := roots; carv1.Version := 1 |})
      then (b, Some ErrMismatchingDataHeader)
      else
        let offset := carv1.HeaderSize header in
        let sectionOffset := int64 offset in
        match ReadWrite.resume_loop (S (List.length (bytes (ReadWrite.f b)))) b
                sectionOffset with
        | (b, _, Some err) => (b, Some err)
        | (b, sectionOffset, None) =>
            (ReadWrite.set_dataWriter b
               (internalio.Seek (ReadWrite.dataWriter b) sectionOffset),
             None)
        end
  end.

(** The first half of [resumeWithRoots] once the pragma was read as
    version 2: the check of the v2 header on file. *)
Definition resume_check (b : ReadWrite.t) : ReadWrite.t * option error :=
  match (r <- internalio.NewOffsetReadSeeker (ReadWrite.fileReader (ReadWrite.f b))
                carv2.PragmaSize ;;
         carv2.Header_ReadFrom r) with
  | Ok headerInFile =>
      if negb (carv2.DataOffset headerInFile =? 0) then
        if negb (carv2.DataOffset headerInFile
                 =? carv2.DataOffset (ReadWrite.header b)) then
          (b, Some (ErrPaddingMismatch
                      (uint64 (carv2.DataOffset headerInFile
                               - carv2.PragmaSize - carv2.HeaderSize))
                      (uint64 (carv2.DataOffset (ReadWrite.header b)
                               - carv2.PragmaSize - carv2.HeaderSize))))
        else if negb (carv2.DataSize headerInFile =? 0) then
          match Truncate (ReadWrite.f b)
                  (int64 (uint64 (carv2.DataOffset headerInFile
                                  + carv2.DataSize headerInFile))) with
          | (f1, Some err) => (ReadWrite.set_f b f1, Some err)
          | (f1, None) => ReadWrite.unfinalize (ReadWrite.set_f b f1)
          end
        else (b, Some ErrCorruptHeader)
      else (b, None)
  | Err _ => (b, None)
  end.

(** A device that completes six writes and stops the seventh after three
    bytes: on a new store, [Finalize] writes the index in two writes and
    the characteristics of the header in one, and the write of the three
    offsets is cut short. *)
Definition ex_tearing_file : File :=
  {| bytes := []; closed := false;
     faults := [None; None; None; None; None; None; Some 3] |}.

Definition ex_torn_header_file : File :=
  Eval vm_compute in
    {| bytes :=
         bytes (ReadWrite.f
                  (fst (ReadWrite.Finalize ex_marshal
                          (from_result
                             (ReadWrite.OpenReadWrite ex_tearing_file [ex_k1]
                                (ex_ropts false) (ex_wopts 0))))));
       closed := false; faults := [] |}.

(** A store that allows duplicate puts, after one block. *)
Definition ex_wopts_dup : carv2.WriteOptions :=
  {| carv2.DataPadding := 0; carv2.IndexPadding := 0;
     carv2.BlockstoreAllowDuplicatePuts := true |}.

Definition ex_dup_open : ReadWrite.t :=
  Eval vm_compute in
    from_result (ReadWrite.OpenReadWrite ex_file [ex_k1] (ex_ropts false) ex_wopts_dup).

Definition ex_dup_put1 : ReadWrite.t :=
  Eval vm_compute in fst (PutEach ex_dup_open [ex_blk1]).

(** * Properties *)

(** ** Integers, bytes and lists *)

Lemma uint64_small z : 0 <= z < 2 ^ 64 -> uint64 z = z.
Proof. intros Hz. unfold uint64. apply Z.mod_small. exact Hz. Qed.

Lemma uint64_range z : 0 <= uint64 z < 2 ^ 64.
Proof. unfold uint64. apply Z.mod_pos_bound. lia. Qed.

Lemma int64_small z : - 2 ^ 63 <= z < 2 ^ 63 -> int64 z = z.
Proof. intros Hz. unfold int64. rewrite Z.mod_small; lia. Qed.

Lemma int64_range z : - 2 ^ 63 <= int64 z < 2 ^ 63.
Proof.
  unfold int64. pose proof (Z.mod_pos_bound (z + 2 ^ 63) (2 ^ 64)). lia.
Qed.

(** [int64] of a sum does not depend on whether a summand was wrapped. *)
Lemma int64_add_int64 x y : int64 (x + int64 y) = int64 (x + y).
Proof.
  unfold int64.
  replace (x + ((y + 2 ^ 63) mod 2 ^ 64 - 2 ^ 63) + 2 ^ 63)
    with (x + (y + 2 ^ 63) mod 2 ^ 64) by lia.
  rewrite Z.add_mod_idemp_r by lia.
  f_equal. f_equal. lia.
Qed.

Lemma byte_val_range b : 0 <= byte_val b < 256.
Proof. unfold byte_val. pose proof (Byte.to_N_bounded b). lia. Qed.

Lemma byte_val_of z : byte_val (byte_of z) = z mod 256.
Proof.
  unfold byte_val, byte_of.
  assert (Hr : 0 <= z mod 256 < 256) by (apply Z.mod_pos_bound; lia).
  destruct (Byte.of_N (Z.to_N (z mod 256))) as [b|] eqn:E.
  - apply Byte.to_of_N in E. rewrite E. lia.
  - apply Byte.of_N_None_iff in E. lia.
Qed.

Lemma byte_of_val b : byte_of (byte_val b) = b.
Proof.
  unfold byte_of, byte_val.
  pose proof (Byte.to_N_bounded b) as Hb.
  rewrite Z.mod_small by lia.
  rewrite N2Z.id, Byte.of_to_N. reflexivity.
Qed.

Lemma len_nonneg {A} (l : list A) : 0 <= len l.
Proof. unfold len. lia. Qed.

Lemma len_app {A} (l1 l2 : list A) : len (l1 ++ l2) = len l1 + len l2.
Proof. unfold len. rewrite length_app. lia. Qed.

Lemma len_cons {A} (a : A) (l : list A) : len (a :: l) = 1 + len l.
Proof. unfold len. simpl List.length. lia. Qed.

Lemma len_nil {A} : len (@nil A) = 0.
Proof. reflexivity. Qed.

Lemma len_zero_nil {A} (l : list A) : len l = 0 -> l = [].
Proof. destruct l; [reflexivity|]. rewrite len_cons. pose proof (len_nonneg l). lia. Qed.

Lemma len_zeros n : len (zeros n) = Z.max 0 n.
Proof. unfold len, zeros. rewrite repeat_length. lia. Qed.

Lemma len_take {A} n (l : list A) : len (take n l) = Z.max 0 (Z.min n (len l)).
Proof. unfold len, take. rewrite length_firstn. lia. Qed.

Lemma len_drop {A} n (l : list A) : len (drop n l) = Z.max 0 (len l - Z.max 0 n).
Proof. unfold len, drop. rewrite length_skipn. lia. Qed.

Lemma take_drop {A} n (l : list A) : take n l ++ drop n l = l.
Proof. apply firstn_skipn. Qed.

Lemma take_all {A} n (l : list A) : len l <= n -> take n l = l.
Proof. unfold len, take. intros Hn. apply firstn_all2. lia. Qed.

Lemma drop_all {A} n (l : list A) : len l <= n -> drop n l = [].
Proof. unfold len, drop. intros Hn. apply skipn_all2. lia. Qed.

Lemma take_neg {A} n (l : list A) : n <= 0 -> take n l = [].
Proof. unfold take. intros Hn. replace (Z.to_nat n) with O by lia. reflexivity. Qed.

Lemma drop_neg {A} n (l : list A) : n <= 0 -> drop n l = l.
Proof. unfold drop. intros Hn. replace (Z.to_nat n) with O by lia. reflexivity. Qed.

Lemma zeros_neg n : n <= 0 -> zeros n = [].
Proof. unfold zeros. intros Hn. replace (Z.to_nat n) with O by lia. reflexivity. Qed.

Lemma take_app_l {A} n (l1 l2 : list A) : n <= len l1 -> take n (l1 ++ l2) = take n l1.
Proof.
  unfold len, take. intros Hn. rewrite firstn_app.
  replace (Z.to_nat n - List.length l1)%nat with O by lia.
  simpl. apply app_nil_r.
Qed.

Lemma take_app_r {A} n (l1 l2 : list A) :
  len l1 <= n -> take n (l1 ++ l2) = l1 ++ take (n - len l1) l2.
Proof.
  unfold len, take. intros Hn. rewrite firstn_app.
  rewrite firstn_all2 by lia. f_equal. f_equal. lia.
Qed.

Lemma drop_app_l {A} n (l1 l2 : list A) :
  n <= len l1 -> drop n (l1 ++ l2) = drop n l1 ++ l2.
Proof.
  unfold len, drop. intros Hn. rewrite skipn_app.
  replace (Z.to_nat n - List.length l1)%nat with O by lia.
  reflexivity.
Qed.

Lemma drop_app_r {A} n (l1 l2 : list A) :
  len l1 <= n -> drop n (l1 ++ l2) = drop (n - len l1) l2.
Proof.
  unfold len, drop. intros Hn. rewrite skipn_app.
  rewrite skipn_all2 by lia. simpl. f_equal. lia.
Qed.

Lemma drop_app_len {A} (l1 l2 : list A) : drop (len l1) (l1 ++ l2) = l2.
Proof. rewrite drop_app_r by lia. rewrite Z.sub_diag. reflexivity. Qed.

Lemma take_app_len {A} (l1 l2 : list A) : take (len l1) (l1 ++ l2) = l1.
Proof. rewrite take_app_l by lia. apply take_all. lia. Qed.

Lemma drop_drop {A} n m (l : list A) :
  0 <= n -> 0 <= m -> drop n (drop m l) = drop (m + n) l.
Proof.
  unfold drop. intros Hn Hm. rewrite skipn_skipn. f_equal. lia.
Qed.

(** From a suffix known by its first bytes to the whole list. *)
Lemma drop_eq_app {A} n (l s post : list A) :
  0 <= n -> drop n l = s ++ post -> l = take n l ++ s ++ post.
Proof. intros Hn Hd. rewrite <- Hd. symmetry. apply take_drop. Qed.

Lemma bytes_Equal_eq a b : bytes_Equal a b = true <-> a = b.
Proof.
  revert b. induction a as [|x a IH]; intros [|y b]; simpl; split; intros Hab;
    try reflexivity; try discriminate.
  - apply andb_true_iff in Hab. destruct Hab as [Hxy Hrest].
    apply Byte.byte_dec_bl in Hxy. apply IH in Hrest. subst. reflexivity.
  - injection Hab as -> ->. apply andb_true_iff. split.
    + apply Byte.byte_dec_lb. reflexivity.
    + apply IH. reflexivity.
Qed.

Lemma bytes_Equal_refl a : bytes_Equal a a = true.
Proof. apply bytes_Equal_eq. reflexivity. Qed.

Lemma bytes_Equal_neq a b : bytes_Equal a b = false <-> a <> b.
Proof.
  split.
  - intros Hf Heq. apply bytes_Equal_eq in Heq. congruence.
  - intros Hne. destruct (bytes_Equal a b) eqn:E; [|reflexivity].
    apply bytes_Equal_eq in E. contradiction.
Qed.

(** ** go-varint: decoding what was encoded *)

Lemma lor_shiftl_add x y s :
  0 <= s -> 0 <= x < 2 ^ s -> 0 <= y -> Z.lor x (Z.shiftl y s) = x + y * 2 ^ s.
Proof.
  intros Hs Hx Hy.
  rewrite Z.shiftl_mul_pow2 by lia.
  assert (Hland : Z.land x (y * 2 ^ s) = 0).
  { apply Z.bits_inj'. intros n Hn.
    rewrite Z.land_spec, Z.bits_0.
    destruct (Z.ltb_spec n s) as [Hlt|Hge].
    - rewrite Z.mul_pow2_bits_low by lia. apply andb_false_r.
    - rewrite <- (Z.mod_small x (2 ^ s)) by lia.
      rewrite Z.mod_pow2_bits_high by lia. reflexivity. }
  pose proof (Z.add_lor_land x (y * 2 ^ s)) as Hadd.
  rewrite Hland in Hadd. lia.
Qed.

Lemma lor_128_byte x : (Z.lor x 128) mod 256 = 128 + x mod 128.
Proof.
  change 256 with (2 ^ 8). change 128 with (2 ^ 7) at 2 3.
  assert (H : Z.lor x 128 mod 2 ^ 8 = Z.lor (x mod 2 ^ 7) (Z.shiftl 1 7)).
  { apply Z.bits_inj'. intros n Hn.
    rewrite Z.testbit_mod_pow2 by lia.
    rewrite !Z.lor_spec.
    rewrite Z.testbit_mod_pow2 by lia.
    change 128 with (2 ^ 7). change (Z.shiftl 1 7) with (2 ^ 7).
    rewrite Z.pow2_bits_eqb by lia.
    destruct (Z.ltb_spec n 8), (Z.ltb_spec n 7), (Z.eqb_spec 7 n);
      try lia; simpl; rewrite ?orb_false_r, ?orb_true_r; reflexivity. }
  rewrite H.
  rewrite lor_shiftl_add; try lia.
  apply Z.mod_pos_bound. lia.
Qed.

(** The length of an encoding, and its bounds. *)
Lemma PutUvarint_loop_len n x : 1 <= len (varint.PutUvarint_loop n x) <= Z.of_nat n + 1.
Proof.
  revert x. induction n as [|n IH]; intros x; simpl.
  - rewrite len_cons, len_nil. lia.
  - destruct (128 <=? x).
    + rewrite len_cons. specialize (IH (Z.shiftr x 7)). lia.
    + rewrite len_cons, len_nil. lia.
Qed.

Lemma PutUvarint_len x : 1 <= len (varint.PutUvarint x) <= 10.
Proof. unfold varint.PutUvarint. pose proof (PutUvarint_loop_len 9 x). lia. Qed.

Lemma ReadUvarint_loop_Put n : forall v x s rest,
  0 <= s -> s + 7 * Z.of_nat n < 63 ->
  0 <= x < 2 ^ s ->
  0 <= v < 2 ^ (7 * (Z.of_nat n + 1)) ->
  (v = 0 -> s = 0) ->
  varint.ReadUvarint_loop (varint.PutUvarint_loop n v ++ rest) x s
  = Ok (x + v * 2 ^ s, rest).
Proof.
  induction n as [|n IH]; intros v x s rest Hs Hsn Hx Hv Hmin.
  - (* the last byte *)
    simpl in Hv. change (2 ^ 7) with 128 in Hv.
    cbn [varint.PutUvarint_loop app varint.ReadUvarint_loop].
    rewrite byte_val_of, Z.mod_small by lia.
    replace ((s =? 56) && (128 <=? v)) with false
      by (symmetry; apply andb_false_iff; right; apply Z.leb_gt; lia).
    replace (63 <=? s) with false by (symmetry; apply Z.leb_gt; lia).
    replace (v <? 128) with true by (symmetry; apply Z.ltb_lt; lia).
    cbn [orb].
    replace ((v =? 0) && (0 <? s)) with false.
    + rewrite lor_shiftl_add by lia. reflexivity.
    + symmetry. destruct (Z.eqb_spec v 0) as [Hz|Hz]; [|reflexivity].
      rewrite (Hmin Hz). reflexivity.
  - cbn [varint.PutUvarint_loop].
    destruct (Z.leb_spec 128 v) as [Hbig|Hsmall].
    + (* a continuation byte *)
      cbn [app varint.ReadUvarint_loop].
      rewrite byte_val_of, lor_128_byte.
      assert (Hm : 0 <= v mod 128 < 128) by (apply Z.mod_pos_bound; lia).
      replace ((s =? 56) && (128 <=? 128 + v mod 128)) with false
        by (symmetry; apply andb_false_iff; left; apply Z.eqb_neq; lia).
      replace (63 <=? s) with false by (symmetry; apply Z.leb_gt; lia).
      replace (128 + v mod 128 <? 128) with false by (symmetry; apply Z.ltb_ge; lia).
      cbn [orb].
      change 127 with (Z.ones 7). rewrite Z.land_ones by lia.
      change (2 ^ 7) with 128.
      replace ((128 + v mod 128) mod 128) with (v mod 128)
        by (rewrite <- Z.add_mod_idemp_l, Z.mod_same, Z.add_0_l, Z.mod_mod by lia;
            reflexivity).
      rewrite Z.shiftr_div_pow2 by lia. change (2 ^ 7) with 128.
      rewrite lor_shiftl_add by lia.
      assert (Hpow : 2 ^ (s + 7) = 2 ^ s * 128)
        by (rewrite Z.pow_add_r by lia; reflexivity).
      rewrite IH.
      * f_equal. f_equal. rewrite Hpow.
        pose proof (Z.div_mod v 128). nia.
      * lia.
      * lia.
      * rewrite Hpow. pose proof (Z.pow_pos_nonneg 2 s). nia.
      * split; [apply Z.div_pos; lia|].
        apply Z.div_lt_upper_bound; [lia|].
        replace (7 * (Z.of_nat (S n) + 1)) with (7 + 7 * (Z.of_nat n + 1)) in Hv by lia.
        rewrite Z.pow_add_r in Hv by lia. change (2 ^ 7) with 128 in Hv. lia.
      * intros Hdiv. exfalso.
        assert (v / 128 >= 1); [|lia].
        pose proof (Z.div_le_mono 128 v 128). rewrite Z.div_same in H by lia. lia.
    + (* the value fits one byte *)
      cbn [app varint.ReadUvarint_loop].
      rewrite byte_val_of, Z.mod_small by lia.
      replace ((s =? 56) && (128 <=? v)) with false
        by (symmetry; apply andb_false_iff; right; apply Z.leb_gt; lia).
      replace (63 <=? s) with false by (symmetry; apply Z.leb_gt; lia).
      replace (v <? 128) with true by (symmetry; apply Z.ltb_lt; lia).
      cbn [orb].
      replace ((v =? 0) && (0 <? s)) with false.
      * rewrite lor_shiftl_add by lia. reflexivity.
      * symmetry. destruct (Z.eqb_spec v 0) as [Hz|Hz]; [|reflexivity].
        rewrite (Hmin Hz). reflexivity.
Qed.

Lemma PutUvarint_loop_fuel m : forall n v,
  (m <= n)%nat -> 0 <= v < 2 ^ (7 * (Z.of_nat m + 1)) ->
  varint.PutUvarint_loop n v = varint.PutUvarint_loop m v.
Proof.
  induction m as [|m IH]; intros n v Hmn Hv.
  - simpl in Hv. change (2 ^ 7) with 128 in Hv.
    destruct n as [|n]; [reflexivity|].
    cbn [varint.PutUvarint_loop].
    replace (128 <=? v) with false by (symmetry; apply Z.leb_gt; lia).
    reflexivity.
  - destruct n as [|n]; [lia|].
    cbn [varint.PutUvarint_loop].
    destruct (128 <=? v); [|reflexivity].
    f_equal. apply IH; [lia|].
    rewrite Z.shiftr_div_pow2 by lia. change (2 ^ 7) with 128.
    split; [apply Z.div_pos; lia|].
    apply Z.div_lt_upper_bound; [lia|].
    replace (7 * (Z.of_nat (S m) + 1)) with (7 + 7 * (Z.of_nat m + 1)) in Hv by lia.
    rewrite Z.pow_add_r in Hv by lia. change (2 ^ 7) with 128 in Hv. lia.
Qed.

(** Reading back a varint: every value below [2^63] round-trips, whatever
    follows it in the stream. *)
Lemma ReadUvarint_PutUvarint v rest :
  0 <= v < 2 ^ 63 ->
  varint.ReadUvarint (varint.PutUvarint v ++ rest) = Ok (v, rest).
Proof.
  intros Hv. unfold varint.ReadUvarint, varint.PutUvarint.
  rewrite (@PutUvarint_loop_fuel 8 9 v) by (simpl; lia).
  rewrite ReadUvarint_loop_Put; try (simpl; lia).
  f_equal. f_equal. simpl. lia.
Qed.

(** What [ReadUvarint] returns is below [2^63], and it consumes between one
    and nine bytes. *)
Lemma ReadUvarint_loop_bound bs : forall x s v rest,
  0 <= s -> (exists k, s = 7 * k) -> 0 <= x < 2 ^ s ->
  varint.ReadUvarint_loop bs x s = Ok (v, rest) ->
  0 <= v < 2 ^ 63 /\ len rest < len bs.
Proof.
  induction bs as [|b bs IH]; intros x s v rest Hs Hk Hx Hread.
  - simpl in Hread. discriminate.
  - cbn [varint.ReadUvarint_loop] in Hread.
    pose proof (byte_val_range b) as Hb.
    destruct (((s =? 56) && (128 <=? byte_val b)) || (63 <=? s)) eqn:Hov;
      [discriminate|].
    apply orb_false_iff in Hov. destruct Hov as [H56 H63].
    apply Z.leb_gt in H63.
    destruct Hk as [k Hk].
    destruct (byte_val b <? 128) eqn:Hlt.
    + apply Z.ltb_lt in Hlt.
      destruct ((byte_val b =? 0) && (0 <? s)); [discriminate|].
      injection Hread as <- <-.
      rewrite lor_shiftl_add by lia.
      rewrite len_cons. split; [|lia].
      assert (Hs56 : s <= 56) by lia.
      assert (Hp : 2 ^ 63 = 2 ^ s * 2 ^ (63 - s))
        by (rewrite <- Z.pow_add_r by lia; f_equal; lia).
      assert (H7 : 128 <= 2 ^ (63 - s))
        by (change 128 with (2 ^ 7); apply Z.pow_le_mono_r; lia).
      pose proof (Z.pow_pos_nonneg 2 s). nia.
    + apply Z.ltb_ge in Hlt.
      apply andb_false_iff in H56.
      assert (Hs49 : s <= 49).
      { destruct H56 as [H56|H56].
        - apply Z.eqb_neq in H56. lia.
        - apply Z.leb_gt in H56. lia. }
      change 127 with (Z.ones 7) in Hread. rewrite Z.land_ones in Hread by lia.
      change (2 ^ 7) with 128 in Hread.
      assert (Hm : 0 <= byte_val b mod 128 < 128) by (apply Z.mod_pos_bound; lia).
      rewrite lor_shiftl_add in Hread by lia.
      apply IH in Hread.
      * rewrite len_cons. lia.
      * lia.
      * exists (k + 1). lia.
      * rewrite Z.pow_add_r by lia. change (2 ^ 7) with 128.
        pose proof (Z.pow_pos_nonneg 2 s). nia.
Qed.

Lemma ReadUvarint_bound bs v rest :
  varint.ReadUvarint bs = Ok (v, rest) -> 0 <= v < 2 ^ 63 /\ len rest < len bs.
Proof.
  unfold varint.ReadUvarint. apply ReadUvarint_loop_bound.
  - lia.
  - exists 0. lia.
  - simpl. lia.
Qed.

(** ** go-cid: decoding what was encoded *)

Lemma Equals_eq c o : cid.Equals c o = true <-> c = o.
Proof.
  unfold cid.Equals. destruct c as [c1 m1 d1], o as [c2 m2 d2]. simpl.
  rewrite !andb_true_iff, !Z.eqb_eq, bytes_Equal_eq.
  split.
  - intros [[-> ->] ->]. reflexivity.
  - intros Heq. injection Heq as -> -> ->. auto.
Qed.

Lemma Equals_refl c : cid.Equals c c = true.
Proof. apply Equals_eq. reflexivity. Qed.

Lemma Equals_neq c o : cid.Equals c o = false <-> c <> o.
Proof.
  split.
  - intros Hf Heq. apply Equals_eq in Heq. congruence.
  - intros Hne. destruct (cid.Equals c o) eqn:E; [|reflexivity].
    apply Equals_eq in E. contradiction.
Qed.

Lemma len_Hash c :
  len (Hash c) = len (varint.PutUvarint (MhType c))
                 + len (varint.PutUvarint (len (Digest c))) + len (Digest c).
Proof. unfold Hash. rewrite !len_app. lia. Qed.

Lemma len_Bytes c :
  len (Bytes c) = len (varint.PutUvarint 1) + len (varint.PutUvarint (Codec c))
                  + len (Hash c).
Proof. unfold Bytes. rewrite !len_app. lia. Qed.

Lemma len_Bytes_pos c : 4 <= len (Bytes c).
Proof.
  rewrite len_Bytes, len_Hash.
  pose proof (PutUvarint_len 1). pose proof (PutUvarint_len (Codec c)).
  pose proof (PutUvarint_len (MhType c)).
  pose proof (PutUvarint_len (len (Digest c))).
  pose proof (len_nonneg (Digest c)). lia.
Qed.

Lemma CidFromReader_Bytes c rest :
  cid_wf c -> len (Digest c) < 2 ^ 63 ->
  cid.CidFromReader (Bytes c ++ rest) = Ok (len (Bytes c), c, rest).
Proof.
  intros [Hcodec Hmh] Hd.
  pose proof (len_nonneg (Digest c)) as Hd0.
  unfold cid.CidFromReader.
  unfold Bytes at 1, Hash at 1. rewrite <- !app_assoc.
  rewrite ReadUvarint_PutUvarint by lia. cbn [bind negb Z.eqb Pos.eqb].
  rewrite ReadUvarint_PutUvarint by lia. cbn [bind].
  rewrite ReadUvarint_PutUvarint by lia. cbn [bind].
  rewrite ReadUvarint_PutUvarint by lia. cbn [bind].
  rewrite len_app.
  replace (len (Digest c) + len rest <? len (Digest c)) with false
    by (symmetry; apply Z.ltb_ge; pose proof (len_nonneg rest); lia).
  rewrite take_app_len, drop_app_len.
  replace (len (Bytes c ++ rest) - (len (Digest c) + len rest) + len (Digest c))
    with (len (Bytes c)) by (rewrite len_app; lia).
  destruct c. reflexivity.
Qed.

Lemma CidFromBytes_Bytes c rest :
  cid_wf c -> len (Digest c) < 2 ^ 63 ->
  cid.CidFromBytes (Bytes c ++ rest) = Ok (len (Bytes c), c).
Proof.
  intros Hwf Hd. unfold cid.CidFromBytes.
  rewrite CidFromReader_Bytes by assumption. reflexivity.
Qed.

(** ** Sections: reading back what [LdWrite] wrote *)

Lemma section_eq c data :
  section c data
  = varint.PutUvarint (uint64 (len (Bytes c) + len data)) ++ Bytes c ++ data.
Proof.
  unfold section, util.LdBytes. cbn [concat].
  rewrite app_nil_r, len_app. reflexivity.
Qed.

Lemma len_section c data :
  len (section c data)
  = len (varint.PutUvarint (uint64 (len (Bytes c) + len data)))
    + len (Bytes c) + len data.
Proof. rewrite section_eq, !len_app. lia. Qed.

Lemma len_section_pos c data : 5 <= len (section c data).
Proof.
  rewrite len_section.
  pose proof (PutUvarint_len (uint64 (len (Bytes c) + len data))).
  pose proof (len_Bytes_pos c). pose proof (len_nonneg data). lia.
Qed.

Lemma LdRead_LdBytes d rest :
  len (concat d) < 2 ^ 63 ->
  util.LdRead (util.LdBytes d ++ rest) = Ok (concat d, rest).
Proof.
  intros Hlen. pose proof (len_nonneg (concat d)) as H0.
  unfold util.LdRead, util.LdBytes.
  rewrite uint64_small by lia.
  rewrite <- app_assoc, ReadUvarint_PutUvarint by lia. cbn [bind].
  rewrite len_app. pose proof (len_nonneg rest) as Hr.
  destruct (Z.ltb_spec 0 (len (concat d))) as [Hpos|Hzero].
  - replace (len (concat d) + len rest =? 0) with false
      by (symmetry; apply Z.eqb_neq; lia).
    cbn [andb].
    replace (len (concat d) + len rest <? len (concat d)) with false
      by (symmetry; apply Z.ltb_ge; lia).
    rewrite take_app_len, drop_app_len. reflexivity.
  - cbn [andb].
    replace (len (concat d) + len rest <? len (concat d)) with false
      by (symmetry; apply Z.ltb_ge; lia).
    rewrite take_app_len, drop_app_len. reflexivity.
Qed.

(** [ReadNode] at the start of a section returns its key and its data. *)
Lemma ReadNode_section c data rest :
  cid_wf c -> len (Bytes c) + len data < 2 ^ 63 ->
  util.ReadNode (section c data ++ rest) = Ok (c, data).
Proof.
  intros Hwf Hlen.
  pose proof (len_nonneg data) as Hd.
  assert (Hdig : len (Digest c) < 2 ^ 63).
  { rewrite len_Bytes, len_Hash in Hlen.
    pose proof (PutUvarint_len 1). pose proof (PutUvarint_len (Codec c)).
    pose proof (PutUvarint_len (MhType c)).
    pose proof (PutUvarint_len (len (Digest c))). lia. }
  unfold util.ReadNode, section.
  rewrite LdRead_LdBytes
    by (cbn [concat]; rewrite app_nil_r, len_app; exact Hlen).
  cbn [bind concat]. rewrite app_nil_r.
  rewrite CidFromBytes_Bytes by assumption. cbn [bind].
  rewrite drop_app_len. reflexivity.
Qed.

(** The length prefix and the key of a section, as [Has] and [GetSize]
    read them. *)
Lemma ReadUvarint_section c data rest :
  len (Bytes c) + len data < 2 ^ 63 ->
  varint.ReadUvarint (section c data ++ rest)
  = Ok (len (Bytes c) + len data, Bytes c ++ data ++ rest).
Proof.
  intros Hlen. pose proof (len_nonneg data). pose proof (len_Bytes_pos c).
  rewrite section_eq, uint64_small by lia.
  rewrite <- !app_assoc. apply ReadUvarint_PutUvarint. lia.
Qed.

(** ** Files: what a write leaves behind *)

Lemma splice_nil data off : splice data off [] = data.
Proof. reflexivity. Qed.

Lemma splice_cons data off p :
  p <> [] ->
  splice data off p
  = take off data ++ zeros (off - len data) ++ p ++ drop (off + len p) data.
Proof. destruct p; [congruence|reflexivity]. Qed.

(** A write at the end of the file appends. *)
Lemma splice_end data p : splice data (len data) p = data ++ p.
Proof.
  destruct p as [|x p]; [symmetry; apply app_nil_r|].
  rewrite splice_cons by discriminate.
  pose proof (len_nonneg (x :: p)).
  rewrite take_all, Z.sub_diag, drop_all by lia.
  rewrite zeros_neg by lia. rewrite app_nil_r. reflexivity.
Qed.

(** A write past the end of the file leaves a gap of zeros. *)
Lemma splice_gap data off p :
  p <> [] -> len data <= off ->
  splice data off p = data ++ zeros (off - len data) ++ p.
Proof.
  intros Hp Hoff. rewrite splice_cons by assumption.
  pose proof (len_nonneg p).
  rewrite take_all, drop_all by lia.
  rewrite app_nil_r. reflexivity.
Qed.

(** A write inside the file replaces the bytes it covers. *)
Lemma splice_inside data off p :
  0 <= off -> off + len p <= len data ->
  splice data off p = take off data ++ p ++ drop (off + len p) data.
Proof.
  intros H0 Hin. destruct p as [|x p].
  - rewrite splice_nil. cbn [app]. rewrite len_nil, Z.add_0_r.
    symmetry. apply take_drop.
  - rewrite splice_cons by discriminate.
    pose proof (len_nonneg (x :: p)).
    rewrite zeros_neg by lia. reflexivity.
Qed.

Lemma len_splice_head data off :
  0 <= off -> len (take off data ++ zeros (off - len data)) = off.
Proof.
  intros Hoff. rewrite len_app, len_take, len_zeros.
  pose proof (len_nonneg data). lia.
Qed.

(** Two writes, one after the other, are one write of both. *)
Lemma splice_app data off p1 p2 :
  0 <= off ->
  splice (splice data off p1) (off + len p1) p2 = splice data off (p1 ++ p2).
Proof.
  intros Hoff.
  destruct p1 as [|x1 p1].
  { rewrite splice_nil, len_nil, Z.add_0_r. reflexivity. }
  destruct p2 as [|x2 p2].
  { rewrite splice_nil, app_nil_r. reflexivity. }
  set (q1 := x1 :: p1). set (q2 := x2 :: p2).
  assert (Hq1 : q1 <> []) by discriminate.
  assert (Hq2 : q2 <> []) by discriminate.
  assert (Hq : q1 ++ q2 <> []) by discriminate.
  rewrite (splice_cons data off Hq1).
  rewrite (splice_cons data off Hq).
  rewrite (splice_cons _ (off + len q1) Hq2).
  set (A := take off data ++ zeros (off - len data)).
  assert (HA : len A = off) by (apply len_splice_head; exact Hoff).
  pose proof (len_nonneg q1) as H1. pose proof (len_nonneg q2) as H2.
  pose proof (len_nonneg (drop (off + len q1) data)) as H3.
  replace (take off data ++ zeros (off - len data) ++ q1 ++ drop (off + len q1) data)
    with ((A ++ q1) ++ drop (off + len q1) data)
    by (unfold A; rewrite <- !app_assoc; reflexivity).
  assert (HAq : len (A ++ q1) = off + len q1) by (rewrite len_app; lia).
  rewrite <- HAq at 1. rewrite take_app_len.
  rewrite zeros_neg by (rewrite !len_app; lia).
  rewrite drop_app_r by lia.
  rewrite drop_drop by lia.
  replace (off + len q1 + (off + len q1 + len q2 - len (A ++ q1)))
    with (off + len (q1 ++ q2)) by (rewrite len_app; lia).
  unfold A. rewrite <- !app_assoc. reflexivity.
Qed.

Lemma len_splice data off p :
  0 <= off -> p <> [] -> len (splice data off p) = Z.max (len data) (off + len p).
Proof.
  intros Hoff Hp. rewrite splice_cons by assumption.
  rewrite app_assoc, len_app, len_splice_head by assumption.
  rewrite len_app, len_drop.
  pose proof (len_nonneg p). pose proof (len_nonneg data). lia.
Qed.

(** What a write that completed did. *)
Lemma WriteAt_ok f p off f' n :
  WriteAt f p off = (f', (n, None)) ->
  closed f = false /\ 0 <= off /\ off + len p <= MaxInt64 /\ n = len p
  /\ bytes f' = splice (bytes f) off p /\ closed f' = false
  /\ faults f' = tl (faults f).
Proof.
  unfold WriteAt. intros Hw.
  destruct (closed f) eqn:Hc; [discriminate|].
  destruct (Z.ltb_spec off 0) as [Hneg|Hpos]; [discriminate|].
  destruct (Z.ltb_spec MaxInt64 (off + len p)); [discriminate|].
  destruct (faults f) as [|[k|] plan] eqn:Hf; try discriminate;
    injection Hw as <- <-; simpl; repeat split; auto; lia.
Qed.

(** Whatever a write did, it wrote some first bytes [q] of [p] at [off],
    or nothing. *)
Lemma WriteAt_any f p off f' n err :
  WriteAt f p off = (f', (n, err)) ->
  closed f' = closed f
  /\ exists q, n = len q /\ len q <= len p
     /\ (q <> [] -> closed f = false /\ 0 <= off /\ off + len p <= MaxInt64)
     /\ bytes f' = splice (bytes f) off q
     /\ (err = None -> q = p).
Proof.
  unfold WriteAt. intros Hw. pose proof (len_nonneg p) as Hp.
  destruct (closed f) eqn:Hc.
  { injection Hw as <- <- <-. split; [exact Hc|]. exists [].
    change (len (@nil byte)) with 0. repeat split; try congruence; try lia. }
  destruct (Z.ltb_spec off 0) as [Hneg|Hpos].
  { injection Hw as <- <- <-. split; [exact Hc|]. exists [].
    change (len (@nil byte)) with 0. repeat split; try congruence; try lia. }
  destruct (Z.ltb_spec MaxInt64 (off + len p)).
  { injection Hw as <- <- <-. split; [reflexivity|]. exists [].
    change (len (@nil byte)) with 0. repeat split; try congruence; try lia. }
  destruct (faults f) as [|[k|] plan] eqn:Hf.
  - injection Hw as <- <- <-. split; [reflexivity|]. exists p.
    repeat split; try congruence; try lia.
  - injection Hw as <- <- <-. split; [reflexivity|]. exists (take k p).
    rewrite len_take. repeat split; try congruence; try lia.
  - injection Hw as <- <- <-. split; [reflexivity|]. exists p.
    repeat split; try congruence; try lia.
Qed.

(** [w.Write(p)] that completed: the bytes went to [base + offset], and the
    writer moved past them. *)
Lemma Write_ok f w p f' w' :
  internalio.Write f w p = (f', w', None) ->
  closed f = false
  /\ 0 <= int64 (internalio.wbase w + internalio.offset w)
  /\ int64 (internalio.wbase w + internalio.offset w) + len p <= MaxInt64
  /\ bytes f' = splice (bytes f) (int64 (internalio.wbase w + internalio.offset w)) p
  /\ closed f' = false
  /\ faults f' = tl (faults f)
  /\ internalio.wbase w' = internalio.wbase w
  /\ internalio.offset w' = int64 (internalio.offset w + len p).
Proof.
  unfold internalio.Write. intros Hw.
  destruct (WriteAt f p (int64 (internalio.wbase w + internalio.offset w)))
    as [f1 [n err]] eqn:Hat.
  injection Hw as <- <- ->.
  apply WriteAt_ok in Hat.
  destruct Hat as (Hc & Ha & Hmax & -> & Hb & Hc' & Hf).
  simpl. repeat split; assumption.
Qed.

(** Writes that all completed are one write of the concatenation, at the
    place the writer pointed to. *)
Lemma WriteEach_ok d : forall f w f' w',
  - 2 ^ 63 <= internalio.offset w < 2 ^ 63 ->
  internalio.WriteEach f w d = (f', w', None) ->
  closed f' = closed f
  /\ internalio.wbase w' = internalio.wbase w
  /\ internalio.offset w' = int64 (internalio.offset w + len (concat d))
  /\ bytes f' = splice (bytes f) (int64 (internalio.wbase w + internalio.offset w))
                  (concat d)
  /\ faults f' = skipn (List.length d) (faults f)
  /\ (d <> [] ->
      closed f = false
      /\ 0 <= int64 (internalio.wbase w + internalio.offset w)
      /\ int64 (internalio.wbase w + internalio.offset w) + len (concat d)
         <= MaxInt64).
Proof.
  induction d as [|s rest IH]; intros f w f' w' Hrange Hw.
  - simpl in Hw. injection Hw as <- <-. cbn [concat].
    rewrite splice_nil. change (len (@nil byte)) with 0. rewrite Z.add_0_r.
    rewrite int64_small by exact Hrange.
    repeat split; congruence.
  - cbn [internalio.WriteEach] in Hw.
    destruct (internalio.Write f w s) as [[f1 w1] [e|]] eqn:Hw1; [discriminate|].
    apply Write_ok in Hw1.
    destruct Hw1 as (Hc & Ha & Hmax & Hb & Hc1 & Hf1 & Hwb & Hoff).
    apply IH in Hw; [|rewrite Hoff; apply int64_range].
    destruct Hw as (Hc' & Hwb' & Hoff' & Hb' & Hf' & Hne).
    set (a := int64 (internalio.wbase w + internalio.offset w)) in *.
    pose proof (len_nonneg s) as Hs. pose proof (len_nonneg (concat rest)) as Hr.
    assert (Hnext : int64 (internalio.wbase w1 + internalio.offset w1) = a + len s).
    { rewrite Hwb, Hoff, int64_add_int64.
      replace (internalio.wbase w + (internalio.offset w + len s))
        with (len s + (internalio.wbase w + internalio.offset w)) by lia.
      rewrite <- int64_add_int64. fold a.
      rewrite int64_small; unfold MaxInt64 in Hmax; lia. }
    rewrite Hnext in Hb', Hne.
    cbn [concat]. rewrite len_app.
    repeat split.
    + congruence.
    + congruence.
    + rewrite Hoff', Hoff.
      replace (int64 (internalio.offset w + len s) + len (concat rest))
        with (len (concat rest) + int64 (internalio.offset w + len s)) by lia.
      rewrite int64_add_int64. f_equal. lia.
    + rewrite Hb', Hb. apply splice_app. exact Ha.
    + rewrite Hf', Hf1. cbn [List.length].
      destruct (faults f); cbn [tl]; [rewrite !skipn_nil|]; reflexivity.
    + exact Hc.
    + exact Ha.
    + destruct rest as [|s' rest'].
      * cbn [concat] in *. change (len (@nil byte)) with 0. lia.
      * destruct Hne as (_ & _ & Hm); [discriminate|]. lia.
Qed.

(** The same for a writer at the end of the file, whatever the outcome: the
    file grew by the bytes that were written, and the writer is at its end
    again. *)
Lemma WriteEach_append d : forall f w f' w' err,
  0 <= internalio.wbase w -> 0 <= internalio.offset w ->
  internalio.wbase w + internalio.offset w = len (bytes f) ->
  len (bytes f) <= MaxInt64 ->
  internalio.WriteEach f w d = (f', w', err) ->
  closed f' = closed f
  /\ internalio.wbase w' = internalio.wbase w
  /\ exists q,
       bytes f' = bytes f ++ q
       /\ internalio.offset w' = internalio.offset w + len q
       /\ len (bytes f') <= MaxInt64
       /\ (err = None -> q = concat d).
Proof.
  induction d as [|s rest IH]; intros f w f' w' err Hb0 Ho0 Hend Hmax Hw.
  - simpl in Hw. injection Hw as <- <- <-.
    split; [reflexivity|]. split; [reflexivity|]. exists [].
    rewrite app_nil_r. change (len (@nil byte)) with 0.
    repeat split; try lia; reflexivity.
  - cbn [internalio.WriteEach] in Hw.
    unfold internalio.Write in Hw.
    rewrite Hend in Hw. unfold MaxInt64 in Hmax.
    pose proof (len_nonneg (bytes f)) as Hlen.
    rewrite int64_small in Hw by lia.
    destruct (WriteAt f s (len (bytes f))) as [f1 [n e1]] eqn:Hat.
    apply WriteAt_any in Hat.
    destruct Hat as (Hc1 & q & -> & Hqs & Hq & Hb1 & Hfull).
    rewrite splice_end in Hb1.
    pose proof (len_nonneg q) as Hq0.
    assert (Hlen1 : len (bytes f1) <= MaxInt64).
    { rewrite Hb1, len_app. unfold MaxInt64.
      destruct q as [|x q']; [change (len (@nil byte)) with 0; lia|].
      destruct Hq as (_ & _ & Hm); [discriminate|]. unfold MaxInt64 in Hm. lia. }
    assert (Hoff1 : int64 (internalio.offset w + len q) = internalio.offset w + len q).
    { apply int64_small. rewrite Hb1, len_app in Hlen1. unfold MaxInt64 in Hlen1. lia. }
    rewrite Hoff1 in Hw.
    destruct e1 as [e1|].
    { injection Hw as <- <- <-. simpl.
      split; [exact Hc1|]. split; [reflexivity|]. exists q.
      repeat split; try assumption; try lia. discriminate. }
    { specialize (Hfull eq_refl). subst q.
      assert (Hend1 : internalio.wbase w + (internalio.offset w + len s)
                      = len (bytes f1)) by (rewrite Hb1, len_app; lia).
      apply IH in Hw; simpl; try lia; try assumption.
      destruct Hw as (Hc' & Hwb' & q' & Hb' & Ho' & Hm' & Hf').
      simpl in *.
      split; [congruence|]. split; [exact Hwb'|].
      exists (s ++ q'). rewrite Hb', Hb1, <- app_assoc, len_app.
      repeat split; try lia.
      + rewrite Hb', Hb1, <- app_assoc in Hm'. exact Hm'.
      + intros He. rewrite (Hf' He). reflexivity. }
Qed.

(** ** Lookups in a well-formed session *)

Lemma drop_prefix_fits {A} k (l s post : list A) :
  0 <= k -> 0 < len s -> drop k l = s ++ post -> k + len s <= len l.
Proof.
  intros Hk Hs Hd.
  assert (Hl : len (drop k l) = len s + len post) by (rewrite Hd; apply len_app).
  rewrite len_drop in Hl. pose proof (len_nonneg post). lia.
Qed.

Lemma stored_fits b es e :
  Inv b es -> stored b e ->
  carv2.DataOffset (ReadWrite.header b) + entry_offset e + len (entry_section e)
  <= len (bytes (ReadWrite.f b))
  /\ len (Bytes (entry_key e)) + len (entry_data e) < 2 ^ 63.
Proof.
  intros HI (Hwf & Hoff & post & Hd).
  pose proof (inv_base HI) as Hb. pose proof (inv_size HI) as Hs.
  pose proof (len_section_pos (entry_key e) (entry_data e)) as Hpos.
  apply drop_prefix_fits in Hd; [|lia|unfold entry_section; lia].
  split; [exact Hd|].
  unfold entry_section in Hd. rewrite len_section in Hd.
  pose proof (PutUvarint_len (uint64 (len (Bytes (entry_key e)) + len (entry_data e)))).
  unfold MaxInt64 in Hs. lia.
Qed.

(** The reader [Has], [Get] and [GetSize] open at the offset of an entry
    sees the entry's section. *)
Lemma stored_reader b es e :
  Inv b es -> stored b e ->
  exists post,
    internalio.NewOffsetReadSeeker (ReadOnly.backing (ReadWrite.asReadOnly b))
      (int64 (entry_offset e))
    = Ok (entry_section e ++ post).
Proof.
  intros HI Hst.
  destruct (stored_fits HI Hst) as [Hfit _].
  destruct Hst as (Hwf & Hoff & post & Hd).
  pose proof (inv_base HI) as Hb. pose proof (inv_size HI) as Hs.
  pose proof (inv_end HI) as He. pose proof (inv_cursor HI) as Hc.
  pose proof (len_section_pos (entry_key e) (entry_data e)) as Hpos.
  unfold entry_section in Hfit. unfold MaxInt64 in Hs.
  exists post.
  unfold internalio.NewOffsetReadSeeker, ReadWrite.asReadOnly, ReadAt. simpl.
  rewrite (inv_open HI).
  rewrite (@int64_small (entry_offset e)) by lia.
  rewrite (@int64_small (carv2.DataOffset (ReadWrite.header b))) by lia.
  rewrite int64_small by lia.
  replace (carv2.DataOffset (ReadWrite.header b) + entry_offset e <? 0) with false
    by (symmetry; apply Z.ltb_ge; lia).
  rewrite Hd. reflexivity.
Qed.

Lemma stored_readBlock b es e :
  Inv b es -> stored b e ->
  ReadOnly.readBlock (ReadWrite.asReadOnly b) (int64 (entry_offset e))
  = Ok (entry_key e, entry_data e).
Proof.
  intros HI Hst.
  destruct (stored_reader HI Hst) as [post Hrd].
  destruct (stored_fits HI Hst) as [_ Hlen].
  unfold ReadOnly.readBlock. rewrite Hrd. cbn [bind].
  apply ReadNode_section; [apply Hst|exact Hlen].
Qed.

Lemma candidates_entries es key :
  insertionIndex_candidates (map entry_record es) key
  = map entry_offset (matching key es).
Proof.
  unfold insertionIndex_candidates, matching.
  induction es as [|e es IH]; [reflexivity|].
  cbn [map filter]. unfold sameHash at 1. cbn [entry_record index.Cid].
  destruct (bytes_Equal (Hash (entry_key e)) (Hash key)); cbn [map]; rewrite IH;
    reflexivity.
Qed.

Lemma matching_stored b key es :
  Forall (stored b) es -> Forall (stored b) (matching key es).
Proof.
  intros H. unfold matching. apply Forall_forall. intros e He.
  apply filter_In in He. destruct He as [He _].
  rewrite Forall_forall in H. apply H. exact He.
Qed.

Lemma matching_hash key es :
  Forall (fun e => Hash (entry_key e) = Hash key) (matching key es).
Proof.
  unfold matching. apply Forall_forall. intros e He.
  apply filter_In in He. destruct He as [_ He].
  apply bytes_Equal_eq. exact He.
Qed.

Section Lookup.

Variable b : ReadWrite.t.
Variable es : list Entry.
Hypothesis HI : Inv b es.
Variable key : Cid.

(** [Get] under [UseWholeCIDs]: the visitor walks on until a section has
    the key itself. *)
Lemma visit_Get_whole l : forall fnData,
  carv2.BlockstoreUseWholeCIDs (ReadWrite.ropts b) = true ->
  Forall (stored b) l ->
  index.visit (ReadOnly.Get_visitor (ReadWrite.asReadOnly b) key) (map entry_offset l) (fnData, None)
  = (match find (fun e => cid.Equals (entry_key e) key) l with
     | Some e => Some (entry_data e)
     | None => fnData
     end, None).
Proof.
  induction l as [|e l IH]; intros fnData Hw Hst; [reflexivity|].
  inversion Hst as [|? ? He Hl]; subst.
  cbn [map index.visit find].
  unfold ReadOnly.Get_visitor at 1.
  rewrite (stored_readBlock HI He).
  cbn [ReadOnly.ropts ReadWrite.asReadOnly]. rewrite Hw.
  destruct (cid.Equals (entry_key e) key); [reflexivity|].
  apply IH; assumption.
Qed.

(** [Get] by multihash: the first candidate decides. *)
Lemma visit_Get_hash e l fnData :
  carv2.BlockstoreUseWholeCIDs (ReadWrite.ropts b) = false ->
  stored b e -> Hash (entry_key e) = Hash key ->
  index.visit (ReadOnly.Get_visitor (ReadWrite.asReadOnly b) key) (map entry_offset (e :: l)) (fnData, None)
  = (Some (entry_data e), None).
Proof.
  intros Hw He Hh.
  cbn [map index.visit].
  unfold ReadOnly.Get_visitor.
  rewrite (stored_readBlock HI He).
  cbn [ReadOnly.ropts ReadWrite.asReadOnly]. rewrite Hw.
  rewrite Hh, bytes_Equal_refl. reflexivity.
Qed.

Lemma Get_lookup :
  ReadWrite.Get b key
  = match lookup (carv2.BlockstoreUseWholeCIDs (ReadWrite.ropts b)) es key with
    | Some e => Ok (blocks.NewBlockWithCid (entry_data e) key)
    | None => Err BlockstoreErrNotFound
    end.
Proof.
  unfold ReadWrite.Get, ReadWrite.finalized.
  rewrite (inv_unfinalized HI). cbn [Z.eqb negb].
  unfold ReadOnly.Get, index.GetAll.
  cbn [index.candidates insertionIndex_Index ReadOnly.idx ReadWrite.asReadOnly].
  rewrite (inv_index HI), candidates_entries.
  pose proof (matching_stored key (inv_stored HI)) as Hst.
  pose proof (matching_hash key es) as Hh.
  unfold lookup.
  destruct (carv2.BlockstoreUseWholeCIDs (ReadWrite.ropts b)) eqn:Hw.
  - destruct (matching key es) as [|e l] eqn:Hm; [reflexivity|].
    cbn [map].
    change (entry_offset e :: map entry_offset l) with (map entry_offset (e :: l)).
    rewrite (visit_Get_whole None Hw Hst).
    destruct (find (fun e0 => cid.Equals (entry_key e0) key) (e :: l));
      reflexivity.
  - destruct (matching key es) as [|e l] eqn:Hm; [reflexivity|].
    inversion Hst; subst. inversion Hh; subst.
    cbn [map].
    change (entry_offset e :: map entry_offset l) with (map entry_offset (e :: l)).
    rewrite (@visit_Get_hash e l None Hw); try assumption.
    reflexivity.
Qed.

End Lookup.

Lemma stored_readKey b es e :
  Inv b es -> stored b e ->
  exists post,
    (uar <- internalio.NewOffsetReadSeeker (ReadOnly.backing (ReadWrite.asReadOnly b))
              (int64 (entry_offset e)) ;;
     varint.ReadUvarint uar)
    = Ok (len (Bytes (entry_key e)) + len (entry_data e),
          Bytes (entry_key e) ++ entry_data e ++ post)
    /\ cid.CidFromReader (Bytes (entry_key e) ++ entry_data e ++ post)
       = Ok (len (Bytes (entry_key e)), entry_key e, entry_data e ++ post).
Proof.
  intros HI Hst.
  destruct (stored_reader HI Hst) as [post Hrd].
  destruct (stored_fits HI Hst) as [_ Hlen].
  exists post. rewrite Hrd. cbn [bind]. split.
  - apply ReadUvarint_section. exact Hlen.
  - apply CidFromReader_Bytes; [apply Hst|].
    rewrite len_Bytes, len_Hash in Hlen.
    pose proof (PutUvarint_len 1). pose proof (PutUvarint_len (Codec (entry_key e))).
    pose proof (PutUvarint_len (MhType (entry_key e))).
    pose proof (PutUvarint_len (len (Digest (entry_key e)))).
    pose proof (len_nonneg (entry_data e)). lia.
Qed.


Section LookupHas.

Variable b : ReadWrite.t.
Variable es : list Entry.
Hypothesis HI : Inv b es.
Variable key : Cid.

Lemma Has_visitor_stored e st :
  stored b e ->
  ReadOnly.Has_visitor (ReadWrite.asReadOnly b) key (entry_offset e) st
  = if carv2.BlockstoreUseWholeCIDs (ReadWrite.ropts b)
    then ((cid.Equals (entry_key e) key, snd st), negb (cid.Equals (entry_key e) key))
    else ((bytes_Equal (Hash (entry_key e)) (Hash key), snd st), false).
Proof.
  intros He. destruct st as [fnFound fnErr].
  destruct (stored_readKey HI He) as (post & Hv & Hc).
  unfold ReadOnly.Has_visitor. rewrite Hv, Hc. reflexivity.
Qed.

Lemma visit_Has_whole l :
  carv2.BlockstoreUseWholeCIDs (ReadWrite.ropts b) = true ->
  Forall (stored b) l ->
  index.visit (ReadOnly.Has_visitor (ReadWrite.asReadOnly b) key)
    (map entry_offset l) (false, None)
  = (is_some (find (fun e => cid.Equals (entry_key e) key) l), None).
Proof.
  intros Hw. induction l as [|e l IH]; intros Hst; [reflexivity|].
  inversion Hst as [|? ? He Hl]; subst.
  cbn [map index.visit find].
  rewrite (Has_visitor_stored _ He), Hw. cbn [snd].
  destruct (cid.Equals (entry_key e) key); [reflexivity|].
  apply IH. exact Hl.
Qed.

Lemma Has_lookup :
  ReadWrite.Has b key
  = (is_some (lookup (carv2.BlockstoreUseWholeCIDs (ReadWrite.ropts b)) es key), None).
Proof.
  unfold ReadWrite.Has, ReadWrite.finalized.
  rewrite (inv_unfinalized HI). cbn [Z.eqb negb].
  unfold ReadOnly.Has, index.GetAll.
  cbn [index.candidates insertionIndex_Index ReadOnly.idx ReadWrite.asReadOnly].
  rewrite (inv_index HI), candidates_entries.
  pose proof (matching_stored key (inv_stored HI)) as Hst.
  pose proof (matching_hash key es) as Hh.
  unfold lookup.
  destruct (carv2.BlockstoreUseWholeCIDs (ReadWrite.ropts b)) eqn:Hw.
  - destruct (matching key es) as [|e l] eqn:Hm; [reflexivity|].
    cbn [map].
    change (entry_offset e :: map entry_offset l) with (map entry_offset (e :: l)).
    rewrite (visit_Has_whole Hw Hst). reflexivity.
  - destruct (matching key es) as [|e l] eqn:Hm; [reflexivity|].
    inversion Hst; subst. inversion Hh; subst.
    cbn [map index.visit hd_error is_some].
    rewrite Has_visitor_stored by assumption. rewrite Hw.
    match goal with H : Hash (entry_key e) = Hash key |- _ => rewrite H end.
    rewrite bytes_Equal_refl. reflexivity.
Qed.

End LookupHas.

(** ** Lookups among entries with distinct keys *)

Lemma sameKey_refl uw k : sameKey uw k k = true.
Proof. destruct uw; simpl; [apply Equals_refl|apply bytes_Equal_refl]. Qed.

Lemma lookup_none uw es key :
  Forall (fun e => sameKey uw (entry_key e) key = false) es ->
  lookup uw es key = None.
Proof.
  intros H. unfold lookup, matching.
  induction H as [|e es He Hes IH]; [destruct uw; reflexivity|].
  cbn [filter].
  destruct uw; cbn [sameKey] in *.
  - destruct (bytes_Equal (Hash (entry_key e)) (Hash key)); [|exact IH].
    cbn [find]. rewrite He. exact IH.
  - rewrite He. exact IH.
Qed.

Lemma distinctKeys_app uw l1 k l2 :
  distinctKeys uw (l1 ++ k :: l2) ->
  Forall (fun x => sameKey uw x k = false) l1.
Proof.
  induction l1 as [|x l1 IH]; intros H; [constructor|].
  cbn [app distinctKeys] in H. destruct H as [Hx Hrest].
  constructor.
  - rewrite Forall_forall in Hx. apply Hx. apply in_or_app. right. left. reflexivity.
  - apply IH. exact Hrest.
Qed.

(** Among entries whose keys are distinct, a lookup of an entry's key finds
    that entry. *)
Lemma lookup_distinct uw es e :
  distinctKeys uw (map entry_key es) -> In e es ->
  lookup uw es (entry_key e) = Some e.
Proof.
  induction es as [|x es IH]; intros Hd Hin; [contradiction|].
  cbn [map distinctKeys] in Hd. destruct Hd as [Hx Hrest].
  destruct Hin as [->|Hin].
  - unfold lookup, matching. cbn [filter]. rewrite bytes_Equal_refl.
    destruct uw; cbn [find hd_error]; [rewrite Equals_refl|]; reflexivity.
  - specialize (IH Hrest Hin).
    rewrite Forall_forall in Hx.
    specialize (Hx (entry_key e) (in_map entry_key es e Hin)).
    unfold lookup, matching in *. cbn [filter].
    destruct uw; cbn [sameKey] in Hx.
    + destruct (bytes_Equal (Hash (entry_key x)) (Hash (entry_key e))); [|exact IH].
      cbn [find]. rewrite Hx. exact IH.
    + rewrite Hx. exact IH.
Qed.

(** ** Writing blocks preserves the invariant *)

Lemma stored_grow b b' q e :
  ReadWrite.header b' = ReadWrite.header b ->
  bytes (ReadWrite.f b') = bytes (ReadWrite.f b) ++ q ->
  0 <= carv2.DataOffset (ReadWrite.header b) ->
  stored b e -> stored b' e.
Proof.
  intros Hh Hb Hbase (Hwf & Hoff & post & Hd).
  split; [exact Hwf|]. split; [exact Hoff|].
  exists (post ++ q). rewrite Hh, Hb.
  pose proof (len_section_pos (entry_key e) (entry_data e)).
  pose proof (@drop_prefix_fits _
                (carv2.DataOffset (ReadWrite.header b) + entry_offset e)
                (bytes (ReadWrite.f b)) (entry_section e) post) as Hfit.
  rewrite drop_app_l.
  - rewrite Hd, app_assoc. reflexivity.
  - unfold entry_section in Hfit. specialize (Hfit ltac:(lia) ltac:(lia) Hd). lia.
Qed.

Lemma LdWrite_append b es d f' w' err :
  Inv b es ->
  util.LdWrite (ReadWrite.f b) (ReadWrite.dataWriter b) d = (f', w', err) ->
  closed f' = false
  /\ internalio.wbase w' = internalio.wbase (ReadWrite.dataWriter b)
  /\ exists q,
       bytes f' = bytes (ReadWrite.f b) ++ q
       /\ internalio.offset w' = internalio.offset (ReadWrite.dataWriter b) + len q
       /\ len (bytes f') <= MaxInt64
       /\ (err = None -> q = util.LdBytes d).
Proof.
  intros HI Hw. unfold util.LdWrite in Hw.
  apply WriteEach_append in Hw.
  - destruct Hw as (Hc & Hwb & q & Hb & Ho & Hm & Hq).
    split; [rewrite Hc; apply (inv_open HI)|]. split; [exact Hwb|].
    exists q. repeat split; assumption.
  - rewrite (inv_writer HI). apply (inv_base HI).
  - pose proof (inv_cursor HI). lia.
  - rewrite (inv_writer HI). apply (inv_end HI).
  - apply (inv_size HI).
Qed.


Lemma writeBlock_Inv b es bl b' err :
  Inv b es -> cid_wf (blocks.Cid bl) ->
  ReadWrite.writeBlock b bl = (b', err) ->
  ReadWrite.ropts b' = ReadWrite.ropts b
  /\ ReadWrite.wopts b' = ReadWrite.wopts b
  /\ ReadWrite.header b' = ReadWrite.header b
  /\ (exists q, bytes (ReadWrite.f b') = bytes (ReadWrite.f b) ++ q
                /\ (err = None -> q = section (blocks.Cid bl) (blocks.RawData bl)))
  /\ match err with
     | None => Inv b' (es ++ [new_entry b bl])
     | Some _ => Inv b' es /\ ReadWrite.idx b' = ReadWrite.idx b
     end.
Proof.
  intros HI Hwf Hw. unfold ReadWrite.writeBlock in Hw.
  destruct (util.LdWrite (ReadWrite.f b) (ReadWrite.dataWriter b)
              [Bytes (blocks.Cid bl); blocks.RawData bl]) as [[f1 w1] e1] eqn:Hld.
  destruct (LdWrite_append _ HI Hld) as (Hc & Hwb & q & Hb & Ho & Hm & Hq).
  pose proof (len_nonneg q) as Hq0.
  pose proof (inv_base HI) as Hbase. pose proof (inv_cursor HI) as Hcur.
  pose proof (inv_end HI) as Hend. pose proof (inv_size HI) as Hsize.
  assert (Hold : forall b1,
             ReadWrite.header b1 = ReadWrite.header b ->
             bytes (ReadWrite.f b1) = bytes (ReadWrite.f b) ++ q ->
             Forall (stored b1) es).
  { intros b1 Hh1 Hb1. apply Forall_forall. intros e He.
    apply (@stored_grow b b1 q e); try assumption.
    pose proof (inv_stored HI) as Hst. rewrite Forall_forall in Hst.
    apply Hst. exact He. }
  destruct e1 as [e1|]; injection Hw as <- <-.
  - (* the write failed: the index is as before *)
    split; [reflexivity|]. split; [reflexivity|]. split; [reflexivity|].
    split; [exists q; split; [exact Hb|discriminate]|].
    split; [|reflexivity].
    constructor; simpl.
    + exact Hc.
    + apply (inv_unfinalized HI).
    + exact Hbase.
    + rewrite Hwb. apply (inv_writer HI).
    + lia.
    + rewrite Hb, len_app. lia.
    + exact Hm.
    + apply (inv_index HI).
    + apply Hold; [reflexivity|exact Hb].
  - (* the write completed: the section is at the old cursor *)
    specialize (Hq eq_refl). subst q.
    fold (section (blocks.Cid bl) (blocks.RawData bl)) in *.
    split; [reflexivity|]. split; [reflexivity|]. split; [reflexivity|].
    split; [exists (section (blocks.Cid bl) (blocks.RawData bl));
            split; [exact Hb|reflexivity]|].
    constructor; simpl.
    + exact Hc.
    + apply (inv_unfinalized HI).
    + exact Hbase.
    + rewrite Hwb. apply (inv_writer HI).
    + lia.
    + rewrite Hb, len_app. lia.
    + exact Hm.
    + rewrite (inv_index HI). unfold insertNoReplace. rewrite map_app.
      f_equal. cbn [map]. unfold entry_record, new_entry. simpl.
      unfold internalio.Position. rewrite uint64_small; [reflexivity|].
      unfold MaxInt64 in Hsize. lia.
    + apply Forall_app. split.
      * apply Hold; [reflexivity|exact Hb].
      * constructor; [|constructor].
        split; [exact Hwf|]. split; [simpl; lia|].
        exists []. simpl.
        rewrite Hb, Hend, drop_app_len, app_nil_r. reflexivity.
Qed.

(** ** The guard against duplicates *)

Lemma hasExactCID_iff ii c :
  hasExactCID ii c = true <-> exists r, In r ii /\ index.Cid r = c.
Proof.
  unfold hasExactCID. rewrite existsb_exists.
  split; intros (r & Hin & Hr); exists r; (split; [exact Hin|]);
    apply Equals_eq; exact Hr.
Qed.

Lemma lookup_some_iff uw es c :
  is_some (lookup uw es c) = true
  <-> exists e, In e es /\ sameKey uw (entry_key e) c = true.
Proof.
  unfold lookup, matching. destruct uw; cbn [sameKey].
  - split.
    + destruct (find _ _) as [e|] eqn:Hf; [|discriminate]. intros _.
      apply find_some in Hf. destruct Hf as [Hin He].
      apply filter_In in Hin. exists e. split; [apply Hin|exact He].
    + intros (e & Hin & He).
      destruct (find _ _) as [e'|] eqn:Hf; [reflexivity|].
      exfalso.
      assert (Hin' : In e (filter (fun e0 => bytes_Equal (Hash (entry_key e0)) (Hash c)) es)).
      { apply filter_In. split; [exact Hin|].
        apply Equals_eq in He. rewrite He. apply bytes_Equal_refl. }
      pose proof (find_none _ _ Hf e Hin') as Hn. simpl in Hn. congruence.
  - split.
    + destruct (filter _ es) as [|e l] eqn:Hf; [discriminate|]. intros _.
      assert (Hin : In e (filter (fun e0 => bytes_Equal (Hash (entry_key e0)) (Hash c)) es))
        by (rewrite Hf; left; reflexivity).
      apply filter_In in Hin. exists e. exact Hin.
    + intros (e & Hin & He).
      destruct (filter _ es) as [|e' l] eqn:Hf; [|reflexivity].
      exfalso.
      assert (Hin' : In e (filter (fun e0 => bytes_Equal (Hash (entry_key e0)) (Hash c)) es))
        by (apply filter_In; split; assumption).
      rewrite Hf in Hin'. contradiction.
Qed.

Lemma lookup_some_app uw es es' c :
  is_some (lookup uw es c) = true -> is_some (lookup uw (es ++ es') c) = true.
Proof.
  rewrite !lookup_some_iff. intros (e & Hin & He).
  exists e. split; [apply in_or_app; left; exact Hin|exact He].
Qed.

Lemma lookup_some_in uw es e :
  In e es -> is_some (lookup uw es (entry_key e)) = true.
Proof.
  intros Hin. apply lookup_some_iff. exists e. split; [exact Hin|apply sameKey_refl].
Qed.

Lemma deduplicated_lookup b es c :
  Inv b es ->
  ReadWrite.deduplicated b c
  = negb (carv2.BlockstoreAllowDuplicatePuts (ReadWrite.wopts b))
    && is_some (lookup (carv2.BlockstoreUseWholeCIDs (ReadWrite.ropts b)) es c).
Proof.
  intros HI. unfold ReadWrite.deduplicated.
  destruct (carv2.BlockstoreAllowDuplicatePuts (ReadWrite.wopts b)); [reflexivity|].
  cbn [negb andb].
  destruct (carv2.BlockstoreUseWholeCIDs (ReadWrite.ropts b)) eqn:Hw; cbn [andb negb].
  - destruct (hasExactCID (ReadWrite.idx b) c) eqn:Hex.
    + symmetry. apply lookup_some_iff.
      apply hasExactCID_iff in Hex. destruct Hex as (r & Hin & Hr).
      rewrite (inv_index HI) in Hin. apply in_map_iff in Hin.
      destruct Hin as (e & <- & Hin). exists e. split; [exact Hin|].
      cbn [sameKey]. apply Equals_eq. exact Hr.
    + symmetry. destruct (is_some (lookup true es c)) eqn:Hl; [|reflexivity].
      apply lookup_some_iff in Hl. destruct Hl as (e & Hin & He).
      cbn [sameKey] in He. apply Equals_eq in He.
      assert (Hex' : hasExactCID (ReadWrite.idx b) c = true).
      { apply hasExactCID_iff. exists (entry_record e). split; [|exact He].
        rewrite (inv_index HI). apply in_map. exact Hin. }
      congruence.
  - unfold insertionIndex_Get. rewrite (inv_index HI), candidates_entries.
    unfold lookup. destruct (matching c es); reflexivity.
Qed.

Lemma Put_unfinalized b bl :
  carv2.DataSize (ReadWrite.header b) = 0 ->
  ReadWrite.Put b bl
  = if ReadWrite.deduplicated b (blocks.Cid bl) then (b, None)
    else ReadWrite.writeBlock b bl.
Proof.
  intros Hd. unfold ReadWrite.Put, ReadWrite.PutMany, ReadWrite.finalized.
  rewrite Hd. cbn [Z.eqb negb ReadWrite.PutMany_loop].
  destruct (ReadWrite.deduplicated b (blocks.Cid bl)); [reflexivity|].
  destruct (ReadWrite.writeBlock b bl) as [b1 [e|]]; reflexivity.
Qed.

Lemma PutMany_loop_app l1 : forall b l2,
  ReadWrite.PutMany_loop b (l1 ++ l2)
  = match ReadWrite.PutMany_loop b l1 with
    | (b1, None) => ReadWrite.PutMany_loop b1 l2
    | (b1, Some err) => (b1, Some err)
    end.
Proof.
  induction l1 as [|bl l1 IH]; intros b l2; [reflexivity|].
  cbn [app ReadWrite.PutMany_loop].
  destruct (ReadWrite.deduplicated b (blocks.Cid bl)); [apply IH|].
  destruct (ReadWrite.writeBlock b bl) as [b1 [e|]]; [reflexivity|apply IH].
Qed.

(** [PutMany] keeps the invariant, whether it fails or not; when it
    returns no error, every block it was given can be looked up. *)
Lemma PutMany_loop_Inv blks : forall b es b' err,
  Inv b es ->
  Forall (fun bl => cid_wf (blocks.Cid bl)) blks ->
  ReadWrite.PutMany_loop b blks = (b', err) ->
  ReadWrite.ropts b' = ReadWrite.ropts b
  /\ ReadWrite.wopts b' = ReadWrite.wopts b
  /\ ReadWrite.header b' = ReadWrite.header b
  /\ exists es',
       Inv b' (es ++ es')
       /\ (err = None ->
           Forall (fun bl =>
                     is_some (lookup (carv2.BlockstoreUseWholeCIDs (ReadWrite.ropts b))
                                (es ++ es') (blocks.Cid bl)) = true) blks).
Proof.
  induction blks as [|bl rest IH]; intros b es b' err HI Hwf Hp.
  - simpl in Hp. injection Hp as <- <-.
    repeat (split; [reflexivity|]). exists []. rewrite app_nil_r.
    split; [exact HI|]. intros _. constructor.
  - inversion Hwf as [|? ? Hbl Hrest]; subst.
    cbn [ReadWrite.PutMany_loop] in Hp.
    destruct (ReadWrite.deduplicated b (blocks.Cid bl)) eqn:Hdd.
    + (* skipped: it is in the index already *)
      rewrite (deduplicated_lookup _ HI) in Hdd.
      apply andb_true_iff in Hdd. destruct Hdd as [_ Hl].
      destruct (IH _ _ _ _ HI Hrest Hp) as (Hr & Hwo & Hh & es' & HI' & Hall).
      repeat (split; [assumption|]). exists es'. split; [exact HI'|].
      intros He. constructor; [|apply Hall; exact He].
      apply lookup_some_app. exact Hl.
    + destruct (ReadWrite.writeBlock b bl) as [b1 [e|]] eqn:Hwb.
      * (* the write failed *)
        injection Hp as <- <-.
        destruct (writeBlock_Inv _ HI Hbl Hwb) as (Hr & Hwo & Hh & _ & HI1 & _).
        repeat (split; [assumption|]). exists []. rewrite app_nil_r.
        split; [exact HI1|discriminate].
      * destruct (writeBlock_Inv _ HI Hbl Hwb) as (Hr & Hwo & Hh & _ & HI1).
        destruct (IH _ _ _ _ HI1 Hrest Hp) as (Hr' & Hwo' & Hh' & es' & HI' & Hall).
        split; [congruence|]. split; [congruence|]. split; [congruence|].
        exists (new_entry b bl :: es').
        replace (es ++ new_entry b bl :: es') with ((es ++ [new_entry b bl]) ++ es')
          by (rewrite <- app_assoc; reflexivity).
        split; [exact HI'|].
        intros He. constructor.
        -- apply lookup_some_app.
           apply (lookup_some_in _ (es ++ [new_entry b bl]) (new_entry b bl)).
           apply in_or_app. right. left. reflexivity.
        -- rewrite <- Hr. apply Hall. exact He.
Qed.

(** A sequence of successful [Put] calls with distinct keys, none of them
    in the index before, adds one entry per block, in order. *)
Lemma PutEach_distinct blks : forall b es b',
  Inv b es ->
  Forall (fun bl => cid_wf (blocks.Cid bl)) blks ->
  distinctKeys (carv2.BlockstoreUseWholeCIDs (ReadWrite.ropts b))
    (map entry_key es ++ map blocks.Cid blks) ->
  PutEach b blks = (b', None) ->
  ReadWrite.ropts b' = ReadWrite.ropts b
  /\ exists es',
       Inv b' (es ++ es')
       /\ map entry_key es' = map blocks.Cid blks
       /\ map entry_data es' = map blocks.RawData blks.
Proof.
  induction blks as [|bl rest IH]; intros b es b' HI Hwf Hd Hp.
  - simpl in Hp. injection Hp as <-.
    split; [reflexivity|]. exists []. rewrite app_nil_r. auto.
  - inversion Hwf as [|? ? Hbl Hrest]; subst.
    cbn [PutEach] in Hp.
    rewrite (Put_unfinalized b bl (inv_unfinalized HI)) in Hp.
    assert (Hnone : lookup (carv2.BlockstoreUseWholeCIDs (ReadWrite.ropts b)) es
                      (blocks.Cid bl) = None).
    { apply lookup_none. cbn [map] in Hd. apply distinctKeys_app in Hd.
      rewrite Forall_map in Hd. exact Hd. }
    rewrite (deduplicated_lookup _ HI), Hnone, andb_false_r in Hp.
    destruct (ReadWrite.writeBlock b bl) as [b1 [e|]] eqn:Hwb; [discriminate|].
    destruct (writeBlock_Inv _ HI Hbl Hwb) as (Hr & Hwo & Hh & _ & HI1).
    assert (Hd1 : distinctKeys (carv2.BlockstoreUseWholeCIDs (ReadWrite.ropts b1))
                    (map entry_key (es ++ [new_entry b bl]) ++ map blocks.Cid rest)).
    { rewrite Hr, map_app, <- app_assoc. exact Hd. }
    destruct (IH _ _ _ HI1 Hrest Hd1 Hp) as (Hr' & es' & HI' & Hk & Hdat).
    split; [congruence|].
    exists (new_entry b bl :: es').
    replace (es ++ new_entry b bl :: es') with ((es ++ [new_entry b bl]) ++ es')
      by (rewrite <- app_assoc; reflexivity).
    split; [exact HI'|]. cbn [map]. rewrite Hk, Hdat. auto.
Qed.

(** ** Opening a new file *)

Lemma be_bytes_len n x : len (be_bytes n x) = Z.of_nat n.
Proof.
  induction n as [|n IH]; [reflexivity|].
  cbn [be_bytes]. rewrite len_cons, IH. lia.
Qed.

Lemma cbor_head_len major arg : 1 <= len (carv1.cbor_head major arg) <= 9.
Proof.
  unfold carv1.cbor_head.
  repeat match goal with
         | |- context [if ?c then _ else _] => destruct c
         end;
    rewrite ?len_cons, ?be_bytes_len, ?len_nil; lia.
Qed.

Lemma header_cbor_len h : 17 <= len (carv1.header_cbor h).
Proof.
  unfold carv1.header_cbor. rewrite !len_app.
  pose proof (cbor_head_len 5 2).
  pose proof (cbor_head_len 4 (len (carv1.Roots h))).
  pose proof (cbor_head_len 0 (carv1.Version h)).
  pose proof (len_nonneg (concat (map carv1.cbor_cid (carv1.Roots h)))).
  change (len carv1.key_roots) with 6. change (len carv1.key_version) with 8.
  lia.
Qed.

Lemma header_section_len h : 18 <= len (util.LdBytes [carv1.header_cbor h]).
Proof.
  unfold util.LdBytes. rewrite len_app. cbn [concat]. rewrite app_nil_r.
  pose proof (header_cbor_len h).
  pose proof (PutUvarint_len (uint64 (len (carv1.header_cbor h)))). lia.
Qed.

Lemma int64_uint64_nonneg z :
  0 <= z < 2 ^ 64 -> 0 <= int64 z -> int64 z = z /\ z < 2 ^ 63.
Proof.
  intros Hz Hi. unfold int64 in *.
  destruct (Z.lt_ge_cases z (2 ^ 63)) as [Hlt|Hge].
  - rewrite Z.mod_small in * by lia. lia.
  - exfalso.
    replace (z + 2 ^ 63) with (z - 2 ^ 63 + 1 * 2 ^ 64) in Hi by lia.
    rewrite Z.mod_add in Hi by lia.
    rewrite Z.mod_small in Hi by lia. lia.
Qed.


Lemma openHeader_DataSize wopts : carv2.DataSize (openHeader wopts) = 0.
Proof.
  unfold openHeader.
  destruct (0 <? carv2.DataPadding wopts), (0 <? carv2.IndexPadding wopts);
    reflexivity.
Qed.

Lemma openHeader_DataOffset_range wopts :
  0 <= carv2.DataOffset (openHeader wopts) < 2 ^ 64.
Proof.
  unfold openHeader.
  destruct (0 <? carv2.DataPadding wopts), (0 <? carv2.IndexPadding wopts);
    cbn [carv2.DataOffset carv2.WithIndexPadding carv2.WithDataPadding carv2.NewHeader];
    try apply uint64_range; unfold carv2.PragmaSize, carv2.HeaderSize; lia.
Qed.

(** [util.LdWrite] that completed wrote [util.LdBytes] where the writer
    pointed to. *)
Lemma LdWrite_ok f w d f' w' :
  util.LdWrite f w d = (f', w', None) ->
  closed f = false /\ closed f' = false
  /\ 0 <= int64 (internalio.wbase w + internalio.offset w)
  /\ int64 (internalio.wbase w + internalio.offset w) + len (util.LdBytes d) <= MaxInt64
  /\ internalio.wbase w' = internalio.wbase w
  /\ internalio.offset w' = int64 (internalio.offset w + len (util.LdBytes d))
  /\ bytes f' = splice (bytes f) (int64 (internalio.wbase w + internalio.offset w))
                  (util.LdBytes d)
  /\ faults f' = skipn (S (List.length d)) (faults f).
Proof.
  intros Hw. unfold util.LdWrite in Hw.
  cbn [internalio.WriteEach] in Hw.
  destruct (internalio.Write f w _) as [[f1 w1] [e|]] eqn:Hw1; [discriminate|].
  apply Write_ok in Hw1.
  destruct Hw1 as (Hc & Ha & Hmax & Hb & Hc1 & Hf1 & Hwb & Hoff).
  apply WriteEach_ok in Hw; [|rewrite Hoff; apply int64_range].
  destruct Hw as (Hc' & Hwb' & Hoff' & Hb' & Hf' & Hne).
  set (v := varint.PutUvarint (uint64 (len (concat d)))) in *.
  set (a := int64 (internalio.wbase w + internalio.offset w)) in *.
  pose proof (len_nonneg v) as Hv. pose proof (len_nonneg (concat d)) as Hd.
  assert (Hnext : int64 (internalio.wbase w1 + internalio.offset w1) = a + len v).
  { rewrite Hwb, Hoff, int64_add_int64.
    replace (internalio.wbase w + (internalio.offset w + len v))
      with (len v + (internalio.wbase w + internalio.offset w)) by lia.
    rewrite <- int64_add_int64. fold a.
    rewrite int64_small; unfold MaxInt64 in Hmax; lia. }
  rewrite Hnext in Hb', Hne.
  unfold util.LdBytes. fold v. rewrite len_app.
  repeat split.
  - exact Hc.
  - congruence.
  - exact Ha.
  - destruct d as [|s d'].
    + cbn [concat]. change (len (@nil byte)) with 0. lia.
    + destruct Hne as (_ & _ & Hm); [discriminate|]. lia.
  - congruence.
  - rewrite Hoff', Hoff.
    replace (int64 (internalio.offset w + len v) + len (concat d))
      with (len (concat d) + int64 (internalio.offset w + len v)) by lia.
    rewrite int64_add_int64. f_equal. lia.
  - rewrite Hb', Hb. apply splice_app. exact Ha.
  - rewrite Hf', Hf1. destruct (faults f); cbn [tl]; [rewrite !skipn_nil|]; reflexivity.
Qed.

(** What [OpenReadWrite] returns for a new file: the pragma, a gap up to the
    data offset, and the payload header, with the cursor after it. *)
Lemma OpenReadWrite_new f0 roots ropts wopts b :
  bytes f0 = [] ->
  ReadWrite.OpenReadWrite f0 roots ropts wopts = Ok b ->
  Inv b []
  /\ ReadWrite.ropts b = ropts /\ ReadWrite.wopts b = wopts
  /\ ReadWrite.header b = openHeader wopts
  /\ bytes (ReadWrite.f b)
     = splice carv2.Pragma (carv2.DataOffset (openHeader wopts))
         (util.LdBytes [carv1.header_cbor {| carv1.Roots := roots; carv1.Version := 1 |}])
  /\ internalio.offset (ReadWrite.dataWriter b)
     = len (util.LdBytes [carv1.header_cbor {| carv1.Roots := roots; carv1.Version := 1 |}])
  /\ faults (ReadWrite.f b) = skipn 3 (faults f0).
Proof.
  intros Hempty Hopen. unfold ReadWrite.OpenReadWrite in Hopen.
  rewrite Hempty in Hopen. cbn [len List.length Z.of_nat Z.eqb negb] in Hopen.
  fold (openHeader wopts) in Hopen.
  unfold ReadWrite.initWithRoots in Hopen.
  cbn [ReadWrite.f ReadWrite.dataWriter] in Hopen.
  destruct (WriteAt f0 carv2.Pragma 0) as [f1 [n [e|]]] eqn:Hat; [discriminate|].
  apply WriteAt_ok in Hat.
  destruct Hat as (Hc0 & _ & _ & _ & Hb1 & Hc1 & Hf1).
  rewrite Hempty in Hb1. change (splice [] 0 carv2.Pragma) with carv2.Pragma in Hb1.
  unfold carv1.WriteHeader in Hopen.
  destruct (util.LdWrite f1 _ _) as [[f2 w2] err] eqn:Hld.
  destruct err as [e|]; [discriminate|].
  injection Hopen as <-.
  apply LdWrite_ok in Hld.
  destruct Hld as (_ & Hc2 & Ha & Hmax & Hwb & Hoff & Hb2 & Hf2).
  cbn [internalio.NewOffsetWriter internalio.wbase internalio.offset] in *.
  rewrite Z.add_0_r in *.
  pose proof (openHeader_DataOffset_range wopts) as Hrange.
  assert (Hidem : int64 (int64 (carv2.DataOffset (openHeader wopts)))
                  = int64 (carv2.DataOffset (openHeader wopts)))
    by (apply int64_small, int64_range).
  rewrite Hidem in *.
  destruct (int64_uint64_nonneg Hrange Ha) as [Hid Hlt].
  rewrite Hid in *.
  pose proof (header_section_len {| carv1.Roots := roots; carv1.Version := 1 |}) as Hlen.
  rewrite Z.add_0_l in Hoff.
  unfold MaxInt64 in Hmax.
  rewrite int64_small in Hoff by lia.
  rewrite Hb1 in Hb2.
  assert (Hne : util.LdBytes
                  [carv1.header_cbor {| carv1.Roots := roots; carv1.Version := 1 |}]
                <> []).
  { intros Hnil. rewrite Hnil in Hlen. change (len (@nil byte)) with 0 in Hlen. lia. }
  assert (Hlen2 : len (bytes f2)
                  = carv2.DataOffset (openHeader wopts)
                    + len (util.LdBytes
                             [carv1.header_cbor
                                {| carv1.Roots := roots; carv1.Version := 1 |}])).
  { rewrite Hb2, len_splice by (assumption || lia).
    change (len carv2.Pragma) with 11. lia. }
  split; [|repeat split; simpl; try assumption; try reflexivity].
  - constructor; simpl.
    + exact Hc2.
    + apply openHeader_DataSize.
    + lia.
    + exact Hwb.
    + lia.
    + rewrite Hoff. symmetry. exact Hlen2.
    + rewrite Hlen2. unfold MaxInt64. lia.
    + reflexivity.
    + constructor.
  - rewrite Hf2, Hf1. destruct (faults f0) as [|x [|y l]]; reflexivity.
Qed.

(** ** The v2 header on file *)

Lemma le_bytes_len n x : len (le_bytes n x) = Z.of_nat n.
Proof.
  revert x. induction n as [|n IH]; intros x; [reflexivity|].
  cbn [le_bytes]. rewrite len_cons, IH. lia.
Qed.

Lemma le_value_bytes n : forall x,
  0 <= x < 256 ^ Z.of_nat n ->
  le_value (le_bytes n x) = x.
Proof.
  induction n as [|n IH]; intros x Hx.
  - simpl in *. lia.
  - cbn [le_bytes le_value]. rewrite byte_val_of.
    rewrite IH.
    + pose proof (Z.div_mod x 256). lia.
    + replace (Z.of_nat (S n)) with (1 + Z.of_nat n) in Hx by lia.
      rewrite Z.pow_add_r in Hx by lia. change (256 ^ 1) with 256 in Hx.
      split; [apply Z.div_pos; lia|apply Z.div_lt_upper_bound; lia].
Qed.

Lemma le_value_8 x : 0 <= x < 2 ^ 64 -> le_value (le_bytes 8 x) = x.
Proof. intros Hx. apply le_value_bytes. exact Hx. Qed.

Lemma le_value_zeros n : le_value (zeros n) = 0.
Proof.
  unfold zeros. induction (Z.to_nat n) as [|k IH]; [reflexivity|].
  cbn [repeat le_value]. rewrite IH. reflexivity.
Qed.

Lemma take_zeros n m : 0 <= n <= m -> take n (zeros m) = zeros n.
Proof.
  intros H. unfold take, zeros.
  replace (Z.to_nat m) with (Z.to_nat n + (Z.to_nat m - Z.to_nat n))%nat by lia.
  rewrite repeat_app, firstn_app, repeat_length.
  rewrite firstn_all2 by (rewrite repeat_length; lia).
  replace (Z.to_nat n - Z.to_nat n)%nat with O by lia.
  simpl. apply app_nil_r.
Qed.

Lemma drop_zeros n m : 0 <= n <= m -> drop n (zeros m) = zeros (m - n).
Proof.
  intros H. unfold drop, zeros.
  replace (Z.to_nat m) with (Z.to_nat n + Z.to_nat (m - n))%nat by lia.
  rewrite repeat_app, skipn_app, repeat_length.
  rewrite skipn_all2 by (rewrite repeat_length; lia).
  replace (Z.to_nat n - Z.to_nat n)%nat with O by lia.
  simpl. reflexivity.
Qed.

Lemma take_take {A} n m (l : list A) : n <= m -> take n (take m l) = take n l.
Proof.
  intros H. unfold take. rewrite firstn_firstn. f_equal. lia.
Qed.

Lemma take_drop_take {A} n k m (l : list A) :
  0 <= k -> 0 <= n -> k + n <= m -> take n (drop k (take m l)) = take n (drop k l).
Proof.
  intros Hk Hn Hm. unfold take, drop.
  rewrite skipn_firstn_comm, firstn_firstn. f_equal. lia.
Qed.

(** A blank header region reads as the zero header. *)
Lemma headerOnFile_blank data :
  take carv2.HeaderSize (drop carv2.PragmaSize data) = zeros carv2.HeaderSize ->
  headerOnFile data = Ok zeroHeader.
Proof.
  intros Hblank. unfold headerOnFile, carv2.Header_ReadFrom.
  set (bs := drop carv2.PragmaSize data) in *.
  assert (Hlen : 40 <= len bs).
  { apply (f_equal len) in Hblank. rewrite len_take, len_zeros in Hblank.
    unfold carv2.HeaderSize in Hblank. lia. }
  unfold carv2.HeaderSize in *.
  replace (len bs =? 0) with false by (symmetry; apply Z.eqb_neq; lia).
  replace (len bs <? 16) with false by (symmetry; apply Z.ltb_ge; lia).
  replace (len bs =? 16) with false by (symmetry; apply Z.eqb_neq; lia).
  replace (len bs <? 40) with false by (symmetry; apply Z.ltb_ge; lia).
  assert (Hpart : forall k, 0 <= k -> k + 8 <= 40 ->
                            take 8 (drop k bs) = zeros 8).
  { intros k Hk Hk8.
    rewrite <- (@take_drop_take _ 8 k 40 bs) by lia.
    rewrite Hblank, drop_zeros, take_zeros by lia. reflexivity. }
  replace (take 8 bs) with (zeros 8)
    by (symmetry; rewrite <- (@drop_neg _ 0 bs) at 1 by lia; apply Hpart; lia).
  rewrite !Hpart by lia. rewrite le_value_zeros. reflexivity.
Qed.

(** The header [Header_WriteTo] wrote reads back. *)
Lemma Header_ReadFrom_chunks h rest :
  carv2.Characteristics h = (0, 0) ->
  0 <= carv2.DataOffset h < 2 ^ 64 ->
  0 <= carv2.DataSize h < 2 ^ 64 ->
  0 <= carv2.IndexOffset h < 2 ^ 64 ->
  carv2.Header_ReadFrom (concat (carv2.header_chunks h) ++ rest) = Ok h.
Proof.
  intros Hc Hdo Hds Hio.
  unfold carv2.Header_ReadFrom, carv2.header_chunks. cbn [concat].
  rewrite Hc. cbn [fst snd]. rewrite app_nil_r.
  set (c1 := le_bytes 8 0). set (d1 := le_bytes 8 (carv2.DataOffset h)).
  set (d2 := le_bytes 8 (carv2.DataSize h)). set (d3 := le_bytes 8 (carv2.IndexOffset h)).
  assert (L1 : len c1 = 8) by apply le_bytes_len.
  assert (L2 : len d1 = 8) by apply le_bytes_len.
  assert (L3 : len d2 = 8) by apply le_bytes_len.
  assert (L4 : len d3 = 8) by apply le_bytes_len.
  pose proof (len_nonneg rest) as Hr.
  rewrite <- !app_assoc.
  assert (Hlen : len (c1 ++ c1 ++ d1 ++ d2 ++ d3 ++ rest) = 40 + len rest)
    by (rewrite !len_app; lia).
  rewrite Hlen. unfold carv2.HeaderSize.
  replace (40 + len rest =? 0) with false by (symmetry; apply Z.eqb_neq; lia).
  replace (40 + len rest <? 16) with false by (symmetry; apply Z.ltb_ge; lia).
  replace (40 + len rest =? 16) with false by (symmetry; apply Z.eqb_neq; lia).
  replace (40 + len rest <? 40) with false by (symmetry; apply Z.ltb_ge; lia).
  assert (T1 : take 8 (c1 ++ c1 ++ d1 ++ d2 ++ d3 ++ rest) = c1)
    by (rewrite <- L1 at 1; apply take_app_len).
  assert (D1 : drop 8 (c1 ++ c1 ++ d1 ++ d2 ++ d3 ++ rest) = c1 ++ d1 ++ d2 ++ d3 ++ rest)
    by (rewrite <- L1 at 1; apply drop_app_len).
  assert (D2 : drop 16 (c1 ++ c1 ++ d1 ++ d2 ++ d3 ++ rest) = d1 ++ d2 ++ d3 ++ rest).
  { replace 16 with (len (c1 ++ c1)) by (rewrite len_app; lia).
    rewrite (app_assoc c1 c1). apply drop_app_len. }
  assert (D3 : drop 24 (c1 ++ c1 ++ d1 ++ d2 ++ d3 ++ rest) = d2 ++ d3 ++ rest).
  { replace 24 with (len (c1 ++ c1 ++ d1)) by (rewrite !len_app; lia).
    replace (c1 ++ c1 ++ d1 ++ d2 ++ d3 ++ rest)
      with ((c1 ++ c1 ++ d1) ++ d2 ++ d3 ++ rest) by (rewrite <- !app_assoc; reflexivity).
    apply drop_app_len. }
  assert (D4 : drop 32 (c1 ++ c1 ++ d1 ++ d2 ++ d3 ++ rest) = d3 ++ rest).
  { replace 32 with (len (c1 ++ c1 ++ d1 ++ d2)) by (rewrite !len_app; lia).
    replace (c1 ++ c1 ++ d1 ++ d2 ++ d3 ++ rest)
      with ((c1 ++ c1 ++ d1 ++ d2) ++ d3 ++ rest) by (rewrite <- !app_assoc; reflexivity).
    apply drop_app_len. }
  rewrite T1, D1, D2, D3, D4.
  replace (take 8 (c1 ++ d1 ++ d2 ++ d3 ++ rest)) with c1
    by (symmetry; rewrite <- L1 at 1; apply take_app_len).
  replace (take 8 (d1 ++ d2 ++ d3 ++ rest)) with d1
    by (symmetry; rewrite <- L2 at 1; apply take_app_len).
  replace (take 8 (d2 ++ d3 ++ rest)) with d2
    by (symmetry; rewrite <- L3 at 1; apply take_app_len).
  replace (take 8 (d3 ++ rest)) with d3
    by (symmetry; rewrite <- L4 at 1; apply take_app_len).
  unfold c1, d1, d2, d3.
  rewrite !le_value_8 by (assumption || lia).
  destruct h as [ch do ds io]. cbn in *. subst ch. reflexivity.
Qed.

Lemma len_header_chunks h : len (concat (carv2.header_chunks h)) = carv2.HeaderSize.
Proof.
  unfold carv2.header_chunks. cbn [concat].
  rewrite !len_app, !le_bytes_len. reflexivity.
Qed.

(** ** The layout of a session *)

Lemma openHeader_sane wopts :
  sanePaddings wopts ->
  carv2.DataOffset (openHeader wopts)
  = carv2.PragmaSize + carv2.HeaderSize + carv2.DataPadding wopts
  /\ carv2.IndexOffset (openHeader wopts)
     = carv2.PragmaSize + carv2.HeaderSize + carv2.DataPadding wopts
       + carv2.IndexPadding wopts
  /\ carv2.Characteristics (openHeader wopts) = (0, 0).
Proof.
  unfold sanePaddings, openHeader, carv2.PragmaSize, carv2.HeaderSize.
  intros (Hd & Hi & Hsum).
  destruct (Z.ltb_spec 0 (carv2.DataPadding wopts)) as [Hdp|Hdp];
    destruct (Z.ltb_spec 0 (carv2.IndexPadding wopts)) as [Hip|Hip];
    cbn [carv2.DataOffset carv2.IndexOffset carv2.Characteristics carv2.NewHeader
           carv2.WithDataPadding carv2.WithIndexPadding];
    unfold carv2.PragmaSize, carv2.HeaderSize;
    repeat match goal with
           | |- context [uint64 ?z] => rewrite (@uint64_small z) by lia
           end;
    repeat split; lia.
Qed.

Lemma Layout_grow b b' es q :
  Inv b es -> Layout b ->
  ReadWrite.header b' = ReadWrite.header b ->
  bytes (ReadWrite.f b') = bytes (ReadWrite.f b) ++ q ->
  Layout b'.
Proof.
  intros HI HL Hh Hb.
  pose proof (inv_end HI) as He. pose proof (inv_cursor HI) as Hc.
  destruct (lay_offsets HL) as (Ho1 & Ho2 & Ho3).
  unfold carv2.PragmaSize, carv2.HeaderSize in *.
  constructor; rewrite ?Hh, ?Hb; unfold carv2.PragmaSize, carv2.HeaderSize.
  - rewrite take_app_l by lia. apply (lay_pragma HL).
  - rewrite drop_app_l by lia. rewrite take_app_l by (rewrite len_drop; lia).
    apply (lay_blank HL).
  - auto.
  - apply (lay_characteristics HL).
Qed.

Lemma image_nil roots dataOffset :
  image roots dataOffset []
  = carv2.Pragma ++ zeros (dataOffset - carv2.PragmaSize)
    ++ util.LdBytes [carv1.header_cbor {| carv1.Roots := roots; carv1.Version := 1 |}].
Proof. unfold image. cbn [map concat]. rewrite app_nil_r. reflexivity. Qed.

Lemma image_snoc roots dataOffset es e :
  image roots dataOffset (es ++ [e]) = image roots dataOffset es ++ entry_section e.
Proof.
  unfold image. rewrite map_app, concat_app. cbn [map concat].
  rewrite app_nil_r, <- !app_assoc. reflexivity.
Qed.

Lemma len_image roots dataOffset es :
  carv2.PragmaSize <= dataOffset ->
  len (image roots dataOffset es)
  = dataOffset
    + len (util.LdBytes [carv1.header_cbor {| carv1.Roots := roots; carv1.Version := 1 |}])
    + len (concat (map entry_section es)).
Proof.
  intros H. unfold image. rewrite !len_app, len_zeros.
  change (len carv2.Pragma) with 11. unfold carv2.PragmaSize in *. lia.
Qed.

Lemma consecutive_snoc es : forall pos e,
  consecutive pos es ->
  entry_offset e = pos + len (concat (map entry_section es)) ->
  consecutive pos (es ++ [e]).
Proof.
  induction es as [|x es IH]; intros pos e Hc He.
  - cbn in *. split; [lia|exact I].
  - cbn [app consecutive] in *. destruct Hc as [Hx Hrest].
    split; [exact Hx|]. apply IH; [exact Hrest|].
    cbn [map concat] in He. rewrite len_app in He. lia.
Qed.

(** A new file, opened with paddings that do not wrap, is laid out as a
    session's file. *)
Lemma OpenReadWrite_new_Clean f0 roots ropts wopts b :
  bytes f0 = [] -> sanePaddings wopts ->
  ReadWrite.OpenReadWrite f0 roots ropts wopts = Ok b ->
  Clean roots b [] /\ Layout b.
Proof.
  intros Hempty Hsane Hopen.
  destruct (OpenReadWrite_new _ _ _ _ Hempty Hopen)
    as (HI & Hr & Hw & Hh & Hb & Ho & Hf).
  destruct (openHeader_sane Hsane) as (Hdo & Hio & Hch).
  destruct Hsane as (Hd & Hi & Hsum).
  unfold carv2.PragmaSize, carv2.HeaderSize in *.
  pose proof (header_section_len {| carv1.Roots := roots; carv1.Version := 1 |}) as Hlen.
  assert (Hne : util.LdBytes
                  [carv1.header_cbor {| carv1.Roots := roots; carv1.Version := 1 |}]
                <> []).
  { intros Hnil. rewrite Hnil in Hlen. change (len (@nil byte)) with 0 in Hlen. lia. }
  rewrite splice_gap in Hb by (assumption || (change (len carv2.Pragma) with 11; lia)).
  change (len carv2.Pragma) with 11 in Hb.
  split.
  - constructor.
    + exact HI.
    + rewrite Hh. unfold carv2.PragmaSize, carv2.HeaderSize. lia.
    + rewrite Hb, Hh, image_nil. reflexivity.
    + exact I.
  - constructor; rewrite ?Hb, ?Hh; unfold carv2.PragmaSize, carv2.HeaderSize.
    + change 11 with (len carv2.Pragma). apply take_app_len.
    + change 11 with (len carv2.Pragma) at 1. rewrite drop_app_len.
      rewrite take_app_l by (rewrite len_zeros; lia).
      apply take_zeros. lia.
    + lia.
    + exact Hch.
Qed.

Lemma writeBlock_Clean roots b es bl b' :
  Clean roots b es -> cid_wf (blocks.Cid bl) ->
  ReadWrite.writeBlock b bl = (b', None) ->
  Clean roots b' (es ++ [new_entry b bl]).
Proof.
  intros HC Hwf Hw.
  pose proof (clean_inv HC) as HI.
  destruct (writeBlock_Inv bl HI Hwf Hw) as (Hr & Hwo & Hh & (q & Hb & Hq) & HI').
  specialize (Hq eq_refl). subst q.
  pose proof (clean_base HC) as Hbase.
  constructor.
  - exact HI'.
  - rewrite Hh. exact Hbase.
  - rewrite Hb, Hh, (clean_bytes HC), image_snoc. reflexivity.
  - apply consecutive_snoc; [apply (clean_offsets HC)|].
    cbn [new_entry entry_offset].
    pose proof (inv_end HI) as He. rewrite (clean_bytes HC) in He.
    rewrite len_image in He by (unfold carv2.PragmaSize, carv2.HeaderSize in *; lia).
    lia.
Qed.

Lemma PutEach_Clean roots blks : forall b es b',
  Clean roots b es ->
  Forall (fun bl => cid_wf (blocks.Cid bl)) blks ->
  distinctKeys (carv2.BlockstoreUseWholeCIDs (ReadWrite.ropts b))
    (map entry_key es ++ map blocks.Cid blks) ->
  PutEach b blks = (b', None) ->
  ReadWrite.ropts b' = ReadWrite.ropts b
  /\ ReadWrite.header b' = ReadWrite.header b
  /\ exists es',
       Clean roots b' (es ++ es')
       /\ map entry_key es' = map blocks.Cid blks
       /\ map entry_data es' = map blocks.RawData blks.
Proof.
  induction blks as [|bl rest IH]; intros b es b' HC Hwf Hd Hp.
  - simpl in Hp. injection Hp as <-.
    split; [reflexivity|]. split; [reflexivity|].
    exists []. rewrite app_nil_r. auto.
  - inversion Hwf as [|? ? Hbl Hrest]; subst.
    pose proof (clean_inv HC) as HI.
    cbn [PutEach] in Hp.
    rewrite (Put_unfinalized b bl (inv_unfinalized HI)) in Hp.
    assert (Hnone : lookup (carv2.BlockstoreUseWholeCIDs (ReadWrite.ropts b)) es
                      (blocks.Cid bl) = None).
    { apply lookup_none. cbn [map] in Hd. apply distinctKeys_app in Hd.
      rewrite Forall_map in Hd. exact Hd. }
    rewrite (deduplicated_lookup _ HI), Hnone, andb_false_r in Hp.
    destruct (ReadWrite.writeBlock b bl) as [b1 [e|]] eqn:Hwb; [discriminate|].
    destruct (writeBlock_Inv bl HI Hbl Hwb) as (Hr & Hwo & Hh & _ & HI1).
    pose proof (writeBlock_Clean bl HC Hbl Hwb) as HC1.
    assert (Hd1 : distinctKeys (carv2.BlockstoreUseWholeCIDs (ReadWrite.ropts b1))
                    (map entry_key (es ++ [new_entry b bl]) ++ map blocks.Cid rest)).
    { rewrite Hr, map_app, <- app_assoc. exact Hd. }
    destruct (IH _ _ _ HC1 Hrest Hd1 Hp) as (Hr' & Hh' & es' & HC' & Hk & Hdat).
    split; [congruence|]. split; [congruence|].
    exists (new_entry b bl :: es').
    replace (es ++ new_entry b bl :: es') with ((es ++ [new_entry b bl]) ++ es')
      by (rewrite <- app_assoc; reflexivity).
    split; [exact HC'|]. cbn [map]. rewrite Hk, Hdat. auto.
Qed.

(** ** Finalize *)

(** Writes by a writer that points at or past the end of the file (or
    before its start, where every write fails) only add to the file. *)
Lemma WriteEach_beyond d : forall f w f' w' r,
  int64 (internalio.wbase w + internalio.offset w) < 0
  \/ len (bytes f) <= int64 (internalio.wbase w + internalio.offset w) ->
  internalio.WriteEach f w d = (f', w', r) ->
  exists q, bytes f' = bytes f ++ q.
Proof.
  induction d as [|s rest IH]; intros f w f' w' r Ha Hw.
  - simpl in Hw. injection Hw as <- <- <-. exists []. symmetry. apply app_nil_r.
  - cbn [internalio.WriteEach] in Hw. unfold internalio.Write in Hw.
    set (a := int64 (internalio.wbase w + internalio.offset w)) in *.
    destruct (WriteAt f s a) as [f1 [n e]] eqn:Hat.
    apply WriteAt_any in Hat.
    destruct Hat as (Hc1 & q0 & -> & Hq0s & Hq0 & Hb1 & _).
    assert (Hnext : int64 (internalio.wbase w + int64 (internalio.offset w + len q0))
                    = int64 (len q0 + a)).
    { rewrite int64_add_int64. unfold a. rewrite int64_add_int64. f_equal. lia. }
    assert (Hstep : exists q, bytes f1 = bytes f ++ q
                              /\ (int64 (len q0 + a) < 0
                                  \/ len (bytes f1) <= int64 (len q0 + a))).
    { destruct q0 as [|x q0'].
      - exists []. rewrite Hb1, splice_nil, app_nil_r. split; [reflexivity|].
        change (len (@nil byte)) with 0. rewrite Z.add_0_l.
        unfold a. rewrite (int64_small (int64_range _)). exact Ha.
      - destruct Hq0 as (_ & Ha0 & Hmax); [discriminate|].
        destruct Ha as [Ha|Ha]; [lia|].
        pose proof (len_nonneg (x :: q0')) as Hq.
        exists (zeros (a - len (bytes f)) ++ x :: q0').
        rewrite Hb1. rewrite splice_gap by (discriminate || exact Ha).
        split; [reflexivity|]. right.
        unfold MaxInt64 in Hmax. rewrite int64_small by lia.
        rewrite !len_app, len_zeros. lia. }
    destruct Hstep as (q1 & Hq1 & Ha1).
    destruct e as [e|].
    + injection Hw as <- <- <-. exists q1. exact Hq1.
    + apply IH in Hw.
      * destruct Hw as [q2 Hq2]. exists (q1 ++ q2).
        rewrite Hq2, Hq1, app_assoc. reflexivity.
      * cbn [internalio.wbase internalio.offset]. rewrite Hnext. exact Ha1.
Qed.

(** [Finalize] that returned no error: the header in memory has the data
    size, the index went to the index offset, and the header was written
    over the result at the pragma size. *)
Lemma Finalize_ok marshal b b' :
  carv2.DataSize (ReadWrite.header b) = 0 ->
  ReadWrite.Finalize marshal b = (b', None) ->
  bytes (ReadWrite.f b')
  = splice
      (splice (bytes (ReadWrite.f b))
         (int64 (carv2.IndexOffset
                   (carv2.WithDataSize (ReadWrite.header b)
                      (uint64 (internalio.Position (ReadWrite.dataWriter b))))))
         (concat (marshal (flatten (ReadWrite.idx b)))))
      carv2.PragmaSize
      (concat (carv2.header_chunks
                 (carv2.WithDataSize (ReadWrite.header b)
                    (uint64 (internalio.Position (ReadWrite.dataWriter b)))))).
Proof.
  intros Hd Hf. unfold ReadWrite.Finalize in Hf. rewrite Hd in Hf.
  cbn [Z.eqb negb] in Hf.
  cbn [ReadWrite.f ReadWrite.idx ReadWrite.header ReadWrite.set_header] in Hf.
  unfold ReadWrite.index_WriteTo, carv2.Header_WriteTo in Hf.
  destruct (internalio.WriteEach (ReadWrite.f b) _ _) as [[f1 w1] [e|]] eqn:H1;
    [discriminate|].
  destruct (internalio.WriteEach f1 _ _) as [[f2 w2] e2] eqn:H2.
  injection Hf as <- ->.
  apply WriteEach_ok in H1; [|cbn; lia].
  apply WriteEach_ok in H2; [|cbn; lia].
  destruct H1 as (_ & _ & _ & Hb1 & _). destruct H2 as (_ & _ & _ & Hb2 & _).
  cbn [internalio.NewOffsetWriter internalio.wbase internalio.offset] in Hb1, Hb2.
  rewrite Z.add_0_r in Hb1, Hb2.
  rewrite (int64_small (int64_range _)) in Hb1.
  change (int64 carv2.PragmaSize) with carv2.PragmaSize in Hb2.
  cbn [ReadWrite.f ReadWrite.set_f Close bytes].
  rewrite Hb2, Hb1. reflexivity.
Qed.

(** In a session, whatever the index write did, the pragma and the blank
    header region are as they were. *)
Lemma index_write_keeps_header marshal b es f1 w1 r :
  Inv b es -> Layout b ->
  ReadWrite.index_WriteTo marshal (flatten (ReadWrite.idx b)) (ReadWrite.f b)
    (internalio.NewOffsetWriter
       (int64 (carv2.IndexOffset
                 (carv2.WithDataSize (ReadWrite.header b)
                    (uint64 (internalio.Position (ReadWrite.dataWriter b)))))))
  = (f1, w1, r) ->
  exists q, bytes f1 = bytes (ReadWrite.f b) ++ q.
Proof.
  intros HI HL Hw. unfold ReadWrite.index_WriteTo in Hw.
  apply WriteEach_beyond in Hw; [exact Hw|].
  cbn [internalio.NewOffsetWriter internalio.wbase internalio.offset
         carv2.IndexOffset carv2.WithDataSize].
  rewrite Z.add_0_r. rewrite (int64_small (int64_range _)).
  unfold internalio.Position.
  pose proof (inv_cursor HI) as Hc. pose proof (inv_end HI) as He.
  pose proof (inv_size HI) as Hs. unfold MaxInt64 in Hs.
  destruct (lay_offsets HL) as (Ho1 & Ho2 & Ho3).
  unfold carv2.PragmaSize, carv2.HeaderSize in *.
  rewrite (@uint64_small (internalio.offset (ReadWrite.dataWriter b))) by lia.
  rewrite uint64_small by lia.
  set (a := carv2.IndexOffset (ReadWrite.header b)
            + internalio.offset (ReadWrite.dataWriter b)).
  destruct (Z.lt_ge_cases a (2 ^ 63)) as [Hlt|Hge].
  - right. rewrite int64_small by (unfold a; lia). unfold a. lia.
  - left. unfold int64.
    replace (a + 2 ^ 63) with (a - 2 ^ 63 + 1 * 2 ^ 64) by lia.
    rewrite Z.mod_add by lia. rewrite Z.mod_small by (unfold a in *; lia). lia.
Qed.

(** Any sequence of [Put] calls, failed or not, leaves a session a
    session: the header in memory is unchanged and the file only grew. *)
Lemma PutEach_session blks : forall b es b' err,
  Inv b es -> Layout b ->
  Forall (fun bl => cid_wf (blocks.Cid bl)) blks ->
  PutEach b blks = (b', err) ->
  ReadWrite.header b' = ReadWrite.header b
  /\ WellFormed b' /\ Layout b'.
Proof.
  induction blks as [|bl rest IH]; intros b es b' err HI HL Hwf Hp.
  - simpl in Hp. injection Hp as <- <-.
    split; [reflexivity|]. split; [exists es; exact HI|exact HL].
  - inversion Hwf as [|? ? Hbl Hrest]; subst.
    cbn [PutEach] in Hp.
    rewrite (Put_unfinalized b bl (inv_unfinalized HI)) in Hp.
    destruct (ReadWrite.deduplicated b (blocks.Cid bl)).
    + apply (IH _ _ _ _ HI HL Hrest Hp).
    + destruct (ReadWrite.writeBlock b bl) as [b1 e] eqn:Hwb.
      destruct (writeBlock_Inv bl HI Hbl Hwb) as (_ & _ & Hh & (q & Hq & _) & HI1).
      pose proof (@Layout_grow b b1 es q HI HL Hh Hq) as HL1.
      destruct e as [e|].
      * injection Hp as <- <-. destruct HI1 as [HI1 _].
        split; [exact Hh|]. split; [exists es; exact HI1|exact HL1].
      * destruct (IH _ _ _ _ HI1 HL1 Hrest Hp) as (Hh' & HW & HL').
        split; [congruence|]. split; assumption.
Qed.

(** The file [Finalize] leaves when it returns no error: the session's
    file, with what the index write added, and the header over it. *)
Lemma Finalize_file marshal b es b' :
  Inv b es -> Layout b ->
  ReadWrite.Finalize marshal b = (b', None) ->
  exists q,
    bytes (ReadWrite.f b')
    = splice (bytes (ReadWrite.f b) ++ q) carv2.PragmaSize
        (concat (carv2.header_chunks (finalHeader b))).
Proof.
  intros HI HL Hf. pose proof (inv_unfinalized HI) as Hd.
  unfold ReadWrite.Finalize in Hf. rewrite Hd in Hf. cbn [Z.eqb negb] in Hf.
  cbn [ReadWrite.f ReadWrite.idx ReadWrite.header ReadWrite.set_header] in Hf.
  fold (finalHeader b) in Hf.
  destruct (ReadWrite.index_WriteTo _ _ _ _) as [[f1 w1] [e|]] eqn:H1; [discriminate|].
  destruct (index_write_keeps_header marshal HI HL H1) as [q Hq].
  destruct (carv2.Header_WriteTo _ _ _) as [[f2 w2] e2] eqn:H2.
  injection Hf as <- ->.
  unfold carv2.Header_WriteTo in H2. apply WriteEach_ok in H2; [|cbn; lia].
  destruct H2 as (_ & _ & _ & Hb2 & _).
  cbn [internalio.NewOffsetWriter internalio.wbase internalio.offset] in Hb2.
  rewrite Z.add_0_r in Hb2.
  change (int64 carv2.PragmaSize) with carv2.PragmaSize in Hb2.
  exists q. cbn [ReadWrite.f ReadWrite.set_f Close bytes]. rewrite Hb2, Hq.
  reflexivity.
Qed.

(** The header read back from a file over which it was written. *)
Lemma headerOnFile_written data h :
  carv2.PragmaSize + carv2.HeaderSize <= len data ->
  carv2.Characteristics h = (0, 0) ->
  0 <= carv2.DataOffset h < 2 ^ 64 ->
  0 <= carv2.DataSize h < 2 ^ 64 ->
  0 <= carv2.IndexOffset h < 2 ^ 64 ->
  headerOnFile (splice data carv2.PragmaSize (concat (carv2.header_chunks h))) = Ok h.
Proof.
  intros Hlen Hc Hdo Hds Hio. unfold headerOnFile.
  pose proof (len_header_chunks h) as Hl.
  unfold carv2.PragmaSize, carv2.HeaderSize in *.
  rewrite splice_inside by lia.
  assert (Ht : len (take 11 data) = 11) by (rewrite len_take; lia).
  replace 11 with (len (take 11 data)) at 1 by exact Ht.
  rewrite drop_app_len.
  apply Header_ReadFrom_chunks; assumption.
Qed.

(** What [Finalize] computes for a session is a header the file can
    hold. *)
Lemma finalHeader_fields b es :
  Inv b es -> Layout b ->
  carv2.Characteristics (finalHeader b) = (0, 0)
  /\ carv2.DataOffset (finalHeader b) = carv2.DataOffset (ReadWrite.header b)
  /\ carv2.DataSize (finalHeader b) = internalio.offset (ReadWrite.dataWriter b)
  /\ 0 < carv2.DataSize (finalHeader b) < 2 ^ 63
  /\ 0 <= carv2.IndexOffset (finalHeader b) < 2 ^ 64.
Proof.
  intros HI HL.
  pose proof (inv_cursor HI) as Hc. pose proof (inv_end HI) as He.
  pose proof (inv_size HI) as Hs. unfold MaxInt64 in Hs.
  destruct (lay_offsets HL) as (Ho1 & Ho2 & Ho3).
  unfold carv2.PragmaSize, carv2.HeaderSize in *.
  unfold finalHeader, internalio.Position.
  cbn [carv2.Characteristics carv2.DataOffset carv2.DataSize carv2.IndexOffset
         carv2.WithDataSize].
  rewrite (@uint64_small (internalio.offset (ReadWrite.dataWriter b))) by lia.
  split; [apply (lay_characteristics HL)|]. split; [reflexivity|].
  split; [reflexivity|]. split; [lia|]. apply uint64_range.
Qed.

(** After [Finalize] the file starts with the pragma and holds the
    header that was computed. *)
Lemma Finalize_on_file marshal b es b' :
  Inv b es -> Layout b ->
  ReadWrite.Finalize marshal b = (b', None) ->
  take carv2.PragmaSize (bytes (ReadWrite.f b')) = carv2.Pragma
  /\ headerOnFile (bytes (ReadWrite.f b')) = Ok (finalHeader b).
Proof.
  intros HI HL Hf. destruct (Finalize_file marshal HI HL Hf) as [q Hq].
  destruct (finalHeader_fields HI HL) as (Hch & Hdo & Hds & Hdsr & Hio).
  pose proof (inv_cursor HI) as Hc. pose proof (inv_end HI) as He.
  destruct (lay_offsets HL) as (Ho1 & Ho2 & Ho3).
  pose proof (len_nonneg q) as Hqn.
  pose proof (len_header_chunks (finalHeader b)) as Hl.
  assert (Hlen : carv2.PragmaSize + carv2.HeaderSize <= len (bytes (ReadWrite.f b) ++ q)).
  { rewrite len_app. lia. }
  rewrite Hq. split.
  - unfold carv2.PragmaSize, carv2.HeaderSize in *.
    rewrite splice_inside by lia.
    rewrite take_app_l by (rewrite len_take; lia).
    rewrite take_take by lia. rewrite take_app_l by lia.
    apply (lay_pragma HL).
  - apply headerOnFile_written; try assumption; rewrite ?Hdo, ?Hds;
      unfold carv2.PragmaSize, carv2.HeaderSize in *; lia.
Qed.

(** ** Resumption: the pragma and the header check *)

Lemma ReadVersion_Pragma rest : carv2.ReadVersion (carv2.Pragma ++ rest) = Ok 2.
Proof.
  unfold carv2.ReadVersion, carv1.ReadHeader, util.LdRead.
  change (carv2.Pragma ++ rest)
    with (varint.PutUvarint 10
          ++ ([xa1; x67; x76; x65; x72; x73; x69; x6f; x6e; x02] ++ rest)).
  rewrite ReadUvarint_PutUvarint by lia. cbn [bind].
  rewrite len_app. pose proof (len_nonneg rest) as Hr.
  change (len [xa1; x67; x76; x65; x72; x73; x69; x6f; x6e; x02]) with 10.
  replace (10 + len rest =? 0) with false by (symmetry; apply Z.eqb_neq; lia).
  replace (10 + len rest <? 10) with false by (symmetry; apply Z.ltb_ge; lia).
  cbn [Z.ltb Z.compare andb].
  change 10 with (len [xa1; x67; x76; x65; x72; x73; x69; x6f; x6e; x02]) at 1.
  rewrite take_app_len. reflexivity.
Qed.

(** A file that starts with the pragma reads as version 2. *)
Lemma ReadVersion_file data :
  take carv2.PragmaSize data = carv2.Pragma -> carv2.ReadVersion data = Ok 2.
Proof.
  intros Ht. rewrite <- (take_drop carv2.PragmaSize data), Ht.
  apply ReadVersion_Pragma.
Qed.

(** Reading an open file from an offset on. *)
Lemma fileReader_at file off :
  closed file = false -> 0 <= off < 2 ^ 63 ->
  internalio.NewOffsetReadSeeker (ReadWrite.fileReader file) off
  = Ok (drop off (bytes file)).
Proof.
  intros Hc Ho. unfold internalio.NewOffsetReadSeeker, ReadWrite.fileReader, ReadAt.
  cbn [internalio.src internalio.base]. rewrite Hc, Z.add_0_l.
  rewrite int64_small by lia.
  replace (off <? 0) with false by (symmetry; apply Z.ltb_ge; lia).
  reflexivity.
Qed.

(** The data offset of the header [OpenReadWrite] starts from. *)
Lemma openHeader_DataOffset wopts :
  0 <= carv2.DataPadding wopts < 2 ^ 64 - (carv2.PragmaSize + carv2.HeaderSize) ->
  carv2.DataOffset (openHeader wopts)
  = carv2.PragmaSize + carv2.HeaderSize + carv2.DataPadding wopts.
Proof.
  unfold carv2.PragmaSize, carv2.HeaderSize. intros Hp. unfold openHeader.
  destruct (0 <? carv2.DataPadding wopts) eqn:Hd;
    destruct (0 <? carv2.IndexPadding wopts);
    cbn [carv2.DataOffset carv2.WithIndexPadding carv2.WithDataPadding carv2.NewHeader];
    unfold carv2.PragmaSize, carv2.HeaderSize;
    try (rewrite uint64_small by lia; reflexivity);
    apply Z.ltb_ge in Hd; lia.
Qed.

(** The first steps of [resumeWithRoots] on a file that reads as version
    2 and whose header holds a data offset that is neither zero nor the
    one of the store. *)
Lemma resumeWithRoots_mismatch b roots h :
  closed (ReadWrite.f b) = false ->
  carv2.ReadVersion (bytes (ReadWrite.f b)) = Ok 2 ->
  headerOnFile (bytes (ReadWrite.f b)) = Ok h ->
  carv2.DataOffset h <> 0 ->
  carv2.DataOffset h <> carv2.DataOffset (ReadWrite.header b) ->
  ReadWrite.resumeWithRoots b roots
  = (b, Some (ErrPaddingMismatch
                (uint64 (carv2.DataOffset h - carv2.PragmaSize - carv2.HeaderSize))
                (uint64 (carv2.DataOffset (ReadWrite.header b)
                         - carv2.PragmaSize - carv2.HeaderSize)))).
Proof.
  intros Hc Hv Hh Hz Hne. unfold ReadWrite.resumeWithRoots.
  rewrite !fileReader_at by (try exact Hc; unfold carv2.PragmaSize; lia).
  cbn [bind]. change (drop 0 (bytes (ReadWrite.f b))) with (bytes (ReadWrite.f b)).
  rewrite Hv. cbn [Z.eqb Pos.eqb negb].
  unfold headerOnFile in Hh. rewrite Hh.
  apply Z.eqb_neq in Hz. apply Z.eqb_neq in Hne. rewrite Hz, Hne.
  reflexivity.
Qed.

(** ** The payload header read back *)

Lemma be_value_bytes n : forall x acc,
  be_value (be_bytes n x) acc = acc * 256 ^ Z.of_nat n + x mod 256 ^ Z.of_nat n.
Proof.
  induction n as [|n IH]; intros x acc.
  - cbn [be_bytes be_value Z.of_nat]. rewrite Z.pow_0_r, Z.mod_1_r. lia.
  - cbn [be_bytes be_value]. rewrite IH, byte_val_of.
    replace (Z.of_nat (S n)) with (Z.of_nat n + 1) by lia.
    rewrite Z.pow_add_r by lia. change (256 ^ 1) with 256.
    assert (Hp : 0 < 256 ^ Z.of_nat n) by (apply Z.pow_pos_nonneg; lia).
    rewrite (Z.rem_mul_r x (256 ^ Z.of_nat n) 256) by lia.
    lia.
Qed.

Lemma be_value_bytes_small n x :
  0 <= x < 256 ^ Z.of_nat n -> be_value (be_bytes n x) 0 = x.
Proof. intros Hx. rewrite be_value_bytes, Z.mod_small by exact Hx. lia. Qed.

(** The first byte of a CBOR head gives back the major type and the
    additional information. *)
Lemma head_byte major info :
  0 <= major < 8 -> 0 <= info < 32 ->
  byte_val (byte_of (32 * major + info)) / 32 = major
  /\ byte_val (byte_of (32 * major + info)) mod 32 = info.
Proof.
  intros Hm Hi. rewrite byte_val_of, Z.mod_small by lia.
  split.
  - rewrite Z.mul_comm, Z.div_add_l by lia. rewrite Z.div_small by lia. lia.
  - rewrite Z.add_comm, Z.mul_comm, Z.mod_add by lia. apply Z.mod_small. lia.
Qed.

Lemma read_cbor_head_long major info n arg rest :
  0 <= major < 8 -> 24 <= info < 28 ->
  Z.of_nat n = (if info =? 24 then 1 else if info =? 25 then 2
                else if info =? 26 then 4 else 8) ->
  0 <= arg < 256 ^ Z.of_nat n ->
  carv1.read_cbor_head (byte_of (32 * major + info) :: be_bytes n arg ++ rest)
  = Ok (major, arg, rest).
Proof.
  intros Hm Hi Hn Ha. unfold carv1.read_cbor_head.
  destruct (@head_byte major info Hm) as [Hq Hr]; [lia|]. rewrite Hq, Hr.
  replace (info <? 24) with false by (symmetry; apply Z.ltb_ge; lia).
  assert (Hsel : (if info =? 24 then 1 else if info =? 25 then 2
                  else if info =? 26 then 4 else if info =? 27 then 8 else 0)
                 = Z.of_nat n).
  { rewrite Hn. destruct (info =? 24) eqn:E1; [reflexivity|].
    destruct (info =? 25) eqn:E2; [reflexivity|].
    destruct (info =? 26) eqn:E3; [reflexivity|].
    destruct (info =? 27) eqn:E4; [reflexivity|].
    apply Z.eqb_neq in E1, E2, E3, E4. lia. }
  rewrite Hsel.
  assert (Hpos : 0 < Z.of_nat n).
  { rewrite Hn. destruct (info =? 24), (info =? 25), (info =? 26); lia. }
  replace (Z.of_nat n =? 0) with false by (symmetry; apply Z.eqb_neq; lia).
  rewrite len_app, be_bytes_len. pose proof (len_nonneg rest) as Hrest.
  replace (Z.of_nat n + len rest <? Z.of_nat n) with false
    by (symmetry; apply Z.ltb_ge; lia).
  cbn [orb].
  rewrite <- (be_bytes_len n arg) at 1 2.
  rewrite take_app_len, drop_app_len, be_value_bytes_small by exact Ha.
  reflexivity.
Qed.

Lemma read_cbor_head_head major arg rest :
  0 <= major < 8 -> 0 <= arg < 2 ^ 64 ->
  carv1.read_cbor_head (carv1.cbor_head major arg ++ rest) = Ok (major, arg, rest).
Proof.
  intros Hm Ha. unfold carv1.cbor_head.
  destruct (arg <? 24) eqn:E0.
  - apply Z.ltb_lt in E0. cbn [app]. unfold carv1.read_cbor_head.
    destruct (@head_byte major arg Hm) as [Hq Hr]; [lia|]. rewrite Hq, Hr.
    replace (arg <? 24) with true by (symmetry; apply Z.ltb_lt; lia).
    reflexivity.
  - apply Z.ltb_ge in E0.
    destruct (arg <? 2 ^ 8) eqn:E1;
      [|destruct (arg <? 2 ^ 16) eqn:E2;
        [|destruct (arg <? 2 ^ 32) eqn:E3]];
      rewrite ?Z.ltb_lt, ?Z.ltb_ge in *;
      rewrite <- app_comm_cons;
      apply read_cbor_head_long; try reflexivity; try lia;
      cbn [Z.of_nat Pos.of_succ_nat Pos.succ]; lia.
Qed.

Lemma expect_app p rest : carv1.expect p (p ++ rest) = Ok rest.
Proof.
  unfold carv1.expect. rewrite take_app_len, drop_app_len, bytes_Equal_refl.
  reflexivity.
Qed.

Lemma read_cbor_cid_cid c rest :
  cid_wf c -> len (Bytes c) < 2 ^ 63 ->
  carv1.read_cbor_cid (carv1.cbor_cid c ++ rest) = Ok (c, rest).
Proof.
  intros Hwf Hlen. pose proof (len_Bytes_pos c) as Hpos.
  assert (Hdig : len (Digest c) < 2 ^ 63).
  { rewrite len_Bytes, len_Hash in Hlen.
    pose proof (PutUvarint_len 1). pose proof (PutUvarint_len (Codec c)).
    pose proof (PutUvarint_len (MhType c)).
    pose proof (PutUvarint_len (len (Digest c))). lia. }
  unfold carv1.read_cbor_cid, carv1.cbor_cid.
  rewrite <- !app_assoc, expect_app. cbn [bind].
  rewrite read_cbor_head_head by lia. cbn [bind Z.eqb Pos.eqb negb orb].
  rewrite <- app_comm_cons, len_cons, len_app.
  pose proof (len_nonneg rest) as Hrest.
  replace (1 + (len (Bytes c) + len rest) <? 1 + len (Bytes c)) with false
    by (symmetry; apply Z.ltb_ge; lia).
  change (x00 :: Bytes c ++ rest) with ((x00 :: Bytes c) ++ rest).
  rewrite <- (len_cons x00 (Bytes c)).
  rewrite take_app_len, drop_app_len.
  rewrite <- (app_nil_r (Bytes c)) at 1.
  rewrite CidFromBytes_Bytes by assumption. cbn [bind].
  rewrite Z.eqb_refl. reflexivity.
Qed.

Lemma read_cbor_cids_cids cs : forall fuel rest,
  Forall cid_wf cs -> Forall (fun c => len (Bytes c) < 2 ^ 63) cs ->
  (List.length cs <= fuel)%nat ->
  carv1.read_cbor_cids fuel (len cs) (concat (map carv1.cbor_cid cs) ++ rest)
  = Ok (cs, rest).
Proof.
  induction cs as [|c cs IH]; intros fuel rest Hwf Hlen Hfuel.
  - destruct fuel; reflexivity.
  - inversion Hwf as [|? ? Hc Hcs]; subst. inversion Hlen as [|? ? Hl Hls]; subst.
    destruct fuel as [|fuel]; [simpl in Hfuel; lia|].
    cbn [carv1.read_cbor_cids]. rewrite len_cons.
    pose proof (len_nonneg cs) as Hn.
    replace (1 + len cs <=? 0) with false by (symmetry; apply Z.leb_gt; lia).
    cbn [map concat]. rewrite <- app_assoc.
    rewrite read_cbor_cid_cid by assumption. cbn [bind].
    replace (1 + len cs - 1) with (len cs) by lia.
    rewrite IH by (try assumption; simpl in Hfuel; lia).
    reflexivity.
Qed.

Lemma cbor_cids_length cs :
  (List.length cs <= List.length (concat (map carv1.cbor_cid cs)))%nat.
Proof.
  induction cs as [|c cs IH]; [simpl; lia|].
  cbn [map concat]. rewrite length_app.
  pose proof (cbor_head_len 6 42) as Hh.
  assert (1 <= len (carv1.cbor_cid c)).
  { unfold carv1.cbor_cid. rewrite len_app.
    pose proof (len_nonneg (carv1.cbor_head 2 (1 + len (Bytes c)) ++ x00 :: Bytes c)).
    lia. }
  unfold len in *. simpl List.length. lia.
Qed.

Lemma read_version_version roots v :
  0 <= v < 2 ^ 64 ->
  carv1.read_version roots (carv1.key_version ++ carv1.cbor_head 0 v)
  = Ok {| carv1.Roots := roots; carv1.Version := v |}.
Proof.
  intros Hv. unfold carv1.read_version. rewrite expect_app. cbn [bind].
  rewrite <- (app_nil_r (carv1.cbor_head 0 v)).
  rewrite read_cbor_head_head by lia. reflexivity.
Qed.

Lemma decode_header_cbor roots v :
  Forall cid_wf roots -> Forall (fun c => len (Bytes c) < 2 ^ 63) roots ->
  len roots < 2 ^ 64 -> 0 <= v < 2 ^ 64 ->
  carv1.decode_header
    (carv1.header_cbor {| carv1.Roots := roots; carv1.Version := v |})
  = Ok {| carv1.Roots := roots; carv1.Version := v |}.
Proof.
  intros Hwf Hlen Hn Hv. pose proof (len_nonneg roots) as Hn0.
  unfold carv1.decode_header, carv1.header_cbor. cbn [carv1.Roots carv1.Version].
  rewrite read_cbor_head_head by lia. cbn [bind Z.eqb Pos.eqb negb].
  rewrite expect_app. cbn [bind].
  rewrite read_cbor_head_head by lia. cbn [bind Z.eqb Pos.eqb negb].
  rewrite read_cbor_cids_cids; try assumption.
  - cbn [bind]. apply read_version_version. exact Hv.
  - rewrite length_app. pose proof (cbor_cids_length roots). lia.
Qed.

(** [carv1.ReadHeader] reads back the header [carv1.WriteHeader] wrote,
    whatever follows it. *)
Lemma ReadHeader_written roots rest :
  Forall cid_wf roots ->
  len (carv1.header_cbor {| carv1.Roots := roots; carv1.Version := 1 |}) < 2 ^ 63 ->
  carv1.ReadHeader
    (util.LdBytes [carv1.header_cbor {| carv1.Roots := roots; carv1.Version := 1 |}]
     ++ rest)
  = Ok {| carv1.Roots := roots; carv1.Version := 1 |}.
Proof.
  intros Hwf Hlen. unfold carv1.ReadHeader.
  rewrite LdRead_LdBytes by (cbn [concat]; rewrite app_nil_r; exact Hlen).
  cbn [bind concat]. rewrite app_nil_r.
  assert (Hsum : len (concat (map carv1.cbor_cid roots)) < 2 ^ 63).
  { unfold carv1.header_cbor in Hlen. cbn [carv1.Roots carv1.Version] in Hlen.
    rewrite !len_app in Hlen.
    pose proof (cbor_head_len 5 2). pose proof (len_nonneg carv1.key_roots).
    pose proof (cbor_head_len 4 (len roots)).
    pose proof (len_nonneg carv1.key_version).
    pose proof (cbor_head_len 0 1). lia. }
  assert (Hall : Forall (fun c => len (Bytes c) < 2 ^ 63) roots
                 /\ len roots < 2 ^ 64).
  { clear Hlen Hwf. induction roots as [|c cs IH].
    - split; [constructor|]. change (len (@nil Cid)) with 0. lia.
    - cbn [map concat] in Hsum. rewrite len_app in Hsum.
      pose proof (len_nonneg (concat (map carv1.cbor_cid cs))) as H0.
      assert (Hc : 1 + len (Bytes c) <= len (carv1.cbor_cid c)).
      { unfold carv1.cbor_cid. rewrite !len_app, len_cons.
        pose proof (cbor_head_len 6 42).
        pose proof (cbor_head_len 2 (1 + len (Bytes c))). lia. }
      pose proof (len_Bytes_pos c) as Hp.
      destruct IH as [IH1 IH2]; [lia|].
      split; [constructor; [lia|exact IH1]|].
      rewrite len_cons.
      assert (len cs <= len (concat (map carv1.cbor_cid cs))).
      { pose proof (cbor_cids_length cs). unfold len. lia. }
      lia. }
  destruct Hall as [Hb Hn].
  apply decode_header_cbor; try assumption. lia.
Qed.

Lemma cids_Equal_refl cs : carv1.cids_Equal cs cs = true.
Proof.
  induction cs as [|c cs IH]; [reflexivity|].
  cbn [carv1.cids_Equal]. rewrite Equals_refl, IH. reflexivity.
Qed.

Lemma Matches_refl h : carv1.Matches h h = true.
Proof. unfold carv1.Matches. rewrite Z.eqb_refl, cids_Equal_refl. reflexivity. Qed.

(** ** Resumption: the scan of the sections *)


Lemma image_app roots dataOffset es1 es2 :
  image roots dataOffset (es1 ++ es2)
  = image roots dataOffset es1 ++ concat (map entry_section es2).
Proof.
  unfold image. rewrite map_app, concat_app, <- !app_assoc. reflexivity.
Qed.

Lemma set_idx_same b : ReadWrite.set_idx b (ReadWrite.idx b) = b.
Proof. destruct b. reflexivity. Qed.

(** The scan, started at the end of the entries [es1] with the entries
    [es2] still ahead, indexes each of [es2] at its offset and stops at
    the end of the file. *)
Lemma resume_loop_sections roots es2 : forall fuel b es1,
  (List.length es2 < fuel)%nat ->
  closed (ReadWrite.f b) = false ->
  carv2.PragmaSize <= carv2.DataOffset (ReadWrite.header b) ->
  bytes (ReadWrite.f b)
  = image roots (carv2.DataOffset (ReadWrite.header b)) (es1 ++ es2) ->
  len (bytes (ReadWrite.f b)) <= MaxInt64 ->
  Forall (fun e => cid_wf (entry_key e)) es2 ->
  consecutive (len (payloadHeader roots) + len (concat (map entry_section es1))) es2 ->
  ReadWrite.resume_loop fuel b
    (len (payloadHeader roots) + len (concat (map entry_section es1)))
  = (ReadWrite.set_idx b (ReadWrite.idx b ++ map entry_record es2),
     len (payloadHeader roots) + len (concat (map entry_section (es1 ++ es2))),
     None).
Proof.
  induction es2 as [|e rest IH]; intros fuel b es1 Hfuel Hc Hbase Hbytes Hsize Hwf Hcons.
  - destruct fuel as [|fuel]; [simpl in Hfuel; lia|].
    rewrite app_nil_r in *.
    pose proof (len_image roots es1 Hbase) as Hli. rewrite <- Hbytes in Hli.
    pose proof (len_nonneg (payloadHeader roots)) as Hh0.
    pose proof (len_nonneg (concat (map entry_section es1))) as Hs0.
    unfold MaxInt64, carv2.PragmaSize in *.
    cbn [ReadWrite.resume_loop].
    unfold internalio.NewOffsetReadSeeker, ReadWrite.asReadOnly, ReadAt.
    cbn [ReadOnly.backing internalio.src internalio.base].
    rewrite Hc.
    rewrite (@int64_small (carv2.DataOffset (ReadWrite.header b))) by lia.
    rewrite int64_small by lia.
    match goal with |- context [?x <? 0] =>
      replace (x <? 0) with false by (symmetry; apply Z.ltb_ge; lia) end.
    rewrite drop_all by lia.
    cbn [varint.ReadUvarint varint.ReadUvarint_loop Z.eqb].
    cbn [map]. rewrite app_nil_r, set_idx_same. reflexivity.
  - destruct fuel as [|fuel]; [simpl in Hfuel; lia|].
    inversion Hwf as [|? ? Hke Hwfr]; subst.
    cbn [consecutive] in Hcons. destruct Hcons as [Hoff Hcons].
    pose proof (len_image roots es1 Hbase) as Hli1.
    pose proof (len_image roots (es1 ++ e :: rest) Hbase) as Hli.
    rewrite <- Hbytes in Hli.
    rewrite map_app, concat_app, len_app in Hli. cbn [map concat] in Hli.
    rewrite len_app in Hli.
    pose proof (len_nonneg (payloadHeader roots)) as Hh0.
    pose proof (len_nonneg (concat (map entry_section es1))) as Hs0.
    pose proof (len_nonneg (concat (map entry_section rest))) as Hr0.
    pose proof (len_section_pos (entry_key e) (entry_data e)) as Hpos.
    fold (entry_section e) in Hpos.
    pose proof (len_section (entry_key e) (entry_data e)) as Hls.
    fold (entry_section e) in Hls.
    pose proof (len_nonneg (entry_data e)) as Hd0.
    pose proof (len_Bytes_pos (entry_key e)) as Hb0.
    pose proof (PutUvarint_len (uint64 (len (Bytes (entry_key e)) + len (entry_data e))))
      as Hv.
    unfold MaxInt64, carv2.PragmaSize in *.
    assert (Hdig : len (Digest (entry_key e)) < 2 ^ 63).
    { pose proof (len_Bytes (entry_key e)) as HB.
      pose proof (len_Hash (entry_key e)) as HH.
      pose proof (PutUvarint_len 1). pose proof (PutUvarint_len (Codec (entry_key e))).
      pose proof (PutUvarint_len (MhType (entry_key e))).
      pose proof (PutUvarint_len (len (Digest (entry_key e)))). lia. }
    cbn [ReadWrite.resume_loop].
    unfold internalio.NewOffsetReadSeeker, ReadWrite.asReadOnly, ReadAt.
    cbn [ReadOnly.backing internalio.src internalio.base].
    rewrite Hc.
    rewrite (@int64_small (carv2.DataOffset (ReadWrite.header b))) by lia.
    rewrite int64_small by lia.
    match goal with |- context [?x <? 0] =>
      replace (x <? 0) with false by (symmetry; apply Z.ltb_ge; lia) end.
    rewrite Hbytes, image_app.
    replace (carv2.DataOffset (ReadWrite.header b)
             + (len (payloadHeader roots) + len (concat (map entry_section es1))))
      with (len (image roots (carv2.DataOffset (ReadWrite.header b)) es1))
      by (rewrite Hli1; lia).
    rewrite drop_app_len. cbn [map concat].
    unfold entry_section at 1 2.
    rewrite ReadUvarint_section by lia.
    replace (len (Bytes (entry_key e)) + len (entry_data e) =? 0) with false
      by (symmetry; apply Z.eqb_neq; lia).
    rewrite CidFromReader_Bytes by assumption.
    rewrite !len_app.
    fold (entry_section e).
    change (map (fun e0 : Entry => section (entry_key e0) (entry_data e0)) rest)
      with (map entry_section rest).
    rewrite (@int64_small (len (Bytes (entry_key e)) + len (entry_data e))) by lia.
    rewrite (@int64_small (len (Bytes (entry_key e)))) by lia.
    rewrite uint64_small by lia.
    match goal with |- context [int64 ?x] =>
      replace (int64 x)
        with (len (payloadHeader roots)
              + len (concat (map entry_section (es1 ++ [e]))))
    end.
    2:{ rewrite map_app, concat_app, len_app. cbn [map concat].
        rewrite app_nil_r. rewrite int64_small by lia. lia. }
    rewrite IH.
    + cbn [ReadWrite.idx ReadWrite.set_idx ReadWrite.f ReadWrite.dataWriter
             ReadWrite.header ReadWrite.ropts ReadWrite.wopts].
      unfold insertNoReplace. rewrite <- app_assoc. cbn [app map].
      unfold entry_record at 2. rewrite Hoff.
      rewrite <- app_assoc. reflexivity.
    + simpl in Hfuel. lia.
    + exact Hc.
    + exact Hbase.
    + cbn [ReadWrite.f ReadWrite.set_idx ReadWrite.header].
      rewrite Hbytes, <- app_assoc. reflexivity.
    + exact Hsize.
    + exact Hwfr.
    + rewrite map_app, concat_app, len_app. cbn [map concat].
      rewrite app_nil_r.
      replace (len (payloadHeader roots)
               + (len (concat (map entry_section es1)) + len (entry_section e)))
        with (len (payloadHeader roots) + len (concat (map entry_section es1))
              + len (entry_section e)) by lia.
      exact Hcons.
Qed.

Lemma sections_length es :
  (List.length es <= List.length (concat (map entry_section es)))%nat.
Proof.
  induction es as [|e es IH]; [simpl; lia|].
  cbn [map concat]. rewrite length_app.
  pose proof (len_section_pos (entry_key e) (entry_data e)) as Hp.
  fold (entry_section e) in Hp. unfold len in Hp. simpl List.length. lia.
Qed.


(** Reopening the file of a session in which every write completed, with
    the roots and the data offset of the session. *)
Lemma OpenReadWrite_resume roots b es file ropts' wopts' :
  Clean roots b es -> Layout b -> Forall cid_wf roots ->
  bytes file = bytes (ReadWrite.f b) -> closed file = false ->
  carv2.DataOffset (openHeader wopts') = carv2.DataOffset (ReadWrite.header b) ->
  ReadWrite.OpenReadWrite file roots ropts' wopts'
  = Ok (resumed file b ropts' wopts').
Proof.
  intros HC HL Hroots Hbytes Hcl Hdo.
  pose proof (clean_inv HC) as HI.
  pose proof (clean_bytes HC) as Himg.
  pose proof (inv_end HI) as He. pose proof (inv_size HI) as Hs.
  pose proof (inv_cursor HI) as Hcur.
  destruct (lay_offsets HL) as (Ho1 & Ho2 & Ho3).
  assert (Hbase : carv2.PragmaSize <= carv2.DataOffset (ReadWrite.header b))
    by (unfold carv2.PragmaSize, carv2.HeaderSize in *; lia).
  pose proof (len_image roots es Hbase) as Hli. rewrite <- Himg in Hli.
  pose proof (len_nonneg (concat (map entry_section es))) as Hs0.
  pose proof (header_section_len {| carv1.Roots := roots; carv1.Version := 1 |}) as Hh18.
  pose proof (header_cbor_len {| carv1.Roots := roots; carv1.Version := 1 |}) as Hh17.
  assert (Hhl : len (payloadHeader roots)
                = len (varint.PutUvarint
                         (uint64 (len (carv1.header_cbor
                                         {| carv1.Roots := roots; carv1.Version := 1 |}))))
                  + len (carv1.header_cbor
                           {| carv1.Roots := roots; carv1.Version := 1 |})).
  { unfold util.LdBytes. cbn [concat]. rewrite app_nil_r, len_app. reflexivity. }
  pose proof (PutUvarint_len
                (uint64 (len (carv1.header_cbor
                                {| carv1.Roots := roots; carv1.Version := 1 |})))) as Hv.
  unfold MaxInt64, carv2.PragmaSize, carv2.HeaderSize in *.
  unfold ReadWrite.OpenReadWrite. fold (openHeader wopts').
  replace (len (bytes file) =? 0) with false
    by (symmetry; apply Z.eqb_neq; rewrite Hbytes; lia).
  cbn [negb]. unfold ReadWrite.resumeWithRoots.
  cbn [ReadWrite.f ReadWrite.header ReadWrite.dataWriter ReadWrite.idx].
  rewrite !fileReader_at by (try exact Hcl; unfold carv2.PragmaSize; lia).
  cbn [bind]. change (drop 0 (bytes file)) with (bytes file).
  rewrite (ReadVersion_file (bytes file))
    by (rewrite Hbytes; apply (lay_pragma HL)).
  cbn [Z.eqb Pos.eqb negb].
  fold (headerOnFile (bytes file)).
  rewrite (headerOnFile_blank (bytes file))
    by (rewrite Hbytes; apply (lay_blank HL)).
  cbn [carv2.DataOffset zeroHeader Z.eqb negb].
  unfold internalio.NewOffsetReadSeeker, ReadWrite.asReadOnly, ReadAt.
  cbn [ReadOnly.backing internalio.src internalio.base ReadWrite.f ReadWrite.header].
  rewrite Hcl, Hdo, Z.add_0_r.
  rewrite (int64_small (int64_range _)).
  rewrite int64_small by lia.
  replace (carv2.DataOffset (ReadWrite.header b) <? 0) with false
    by (symmetry; apply Z.ltb_ge; lia).
  cbn [bind].
  assert (Hdrop : drop (carv2.DataOffset (ReadWrite.header b)) (bytes file)
                  = payloadHeader roots ++ concat (map entry_section es)).
  { rewrite Hbytes, Himg. unfold image. rewrite app_assoc.
    assert (Hl : len (carv2.Pragma
                      ++ zeros (carv2.DataOffset (ReadWrite.header b) - 11))
                 = carv2.DataOffset (ReadWrite.header b)).
    { rewrite len_app, len_zeros. change (len carv2.Pragma) with 11. lia. }
    unfold carv2.PragmaSize.
    rewrite <- Hl at 1. apply drop_app_len. }
  rewrite Hdrop.
  rewrite ReadHeader_written by (try assumption; lia).
  rewrite Matches_refl. cbn [negb].
  unfold carv1.HeaderSize.
  rewrite uint64_small by lia. rewrite int64_small by lia.
  replace (len (payloadHeader roots))
    with (len (payloadHeader roots) + len (concat (map entry_section (@nil Entry))))
    at 1 by (cbn [map concat]; change (len (@nil byte)) with 0; lia).
  rewrite (@resume_loop_sections roots es).
  - cbn [app ReadWrite.set_dataWriter ReadWrite.set_idx ReadWrite.f ReadWrite.idx
           ReadWrite.dataWriter ReadWrite.header ReadWrite.ropts ReadWrite.wopts
           internalio.Seek internalio.NewOffsetWriter internalio.wbase
           newInsertionIndex].
    unfold resumed. rewrite (inv_index HI).
    replace (internalio.offset (ReadWrite.dataWriter b))
      with (len (payloadHeader roots) + len (concat (map entry_section es))) by lia.
    reflexivity.
  - cbn [ReadWrite.f]. pose proof (sections_length es) as Hsl.
    assert (Hle : (List.length (concat (map entry_section es))
                   <= List.length (bytes file))%nat).
    { rewrite Hbytes, Himg. unfold image. rewrite !length_app. lia. }
    lia.
  - exact Hcl.
  - cbn [ReadWrite.header]. rewrite Hdo. unfold carv2.PragmaSize. lia.
  - cbn [ReadWrite.f ReadWrite.header app]. rewrite Hdo, Hbytes. exact Himg.
  - cbn [ReadWrite.f]. rewrite Hbytes. unfold MaxInt64. lia.
  - pose proof (inv_stored HI) as Hst. rewrite Forall_forall in *.
    intros e Hin. apply Hst in Hin. destruct Hin as [Hwf _]. exact Hwf.
  - cbn [map concat]. change (len (@nil byte)) with 0. rewrite Z.add_0_r.
    apply (clean_offsets HC).
Qed.

Lemma resumed_Inv b es file ropts' wopts' :
  Inv b es ->
  bytes file = bytes (ReadWrite.f b) -> closed file = false ->
  carv2.DataOffset (openHeader wopts') = carv2.DataOffset (ReadWrite.header b) ->
  Inv (resumed file b ropts' wopts') es.
Proof.
  intros HI Hbytes Hcl Hdo. unfold resumed.
  constructor; cbn [ReadWrite.f ReadWrite.header ReadWrite.dataWriter ReadWrite.idx
                      internalio.wbase internalio.offset].
  - exact Hcl.
  - apply openHeader_DataSize.
  - rewrite Hdo. apply (inv_base HI).
  - symmetry. exact Hdo.
  - apply (inv_cursor HI).
  - rewrite Hdo, Hbytes. apply (inv_end HI).
  - rewrite Hbytes. apply (inv_size HI).
  - apply (inv_index HI).
  - pose proof (inv_stored HI) as Hst. rewrite Forall_forall in *.
    intros e Hin. apply Hst in Hin. unfold stored in *.
    cbn [ReadWrite.f ReadWrite.header]. rewrite Hdo, Hbytes. exact Hin.
Qed.

(** The entries of a run of [Put] calls, block by block. *)
Lemma entries_of_blocks es : forall blks,
  map entry_key es = map blocks.Cid blks ->
  map entry_data es = map blocks.RawData blks ->
  map entry_section es
  = map (fun bl => section (blocks.Cid bl) (blocks.RawData bl)) blks
  /\ Forall (fun bl => exists e, In e es /\ entry_key e = blocks.Cid bl
                                 /\ entry_data e = blocks.RawData bl) blks.
Proof.
  induction es as [|e es IH]; intros [|bl blks] Hk Hd; try discriminate.
  - split; [reflexivity|constructor].
  - cbn [map] in Hk, Hd. injection Hk as Hk1 Hk. injection Hd as Hd1 Hd.
    destruct (IH blks Hk Hd) as [Hs Hall]. split.
    + cbn [map]. unfold entry_section at 1. rewrite Hk1, Hd1, Hs. reflexivity.
    + constructor.
      * exists e. split; [left; reflexivity|]. split; assumption.
      * rewrite Forall_forall in *. intros x Hx.
        destruct (Hall x Hx) as (e' & Hin & He'). exists e'.
        split; [right; exact Hin|exact He'].
Qed.

(** * The statements of the specification *)

(** ** A session used to instantiate the theorems *)









Lemma ex_open_eq uw :
  ReadWrite.OpenReadWrite ex_file [ex_k1] (ex_ropts uw) (ex_wopts 0) = Ok (ex_open uw).
Proof. destruct uw; vm_compute; reflexivity. Qed.

Lemma ex_open_Inv uw : Inv (ex_open uw) [].
Proof.
  apply (@OpenReadWrite_new ex_file [ex_k1] (ex_ropts uw) (ex_wopts 0));
    [reflexivity|apply ex_open_eq].
Qed.

Lemma ex_keys_wf : cid_wf ex_k1 /\ cid_wf ex_k2 /\ cid_wf ex_k3.
Proof. unfold cid_wf; simpl; lia. Qed.

(** ** C8: writes on the read-only store *)

(** C8. The comments on [Put] and [PutMany] in the source say that the
    call "is not supported and always returns an error"; the code does
    otherwise.  For every block and every read-only store, [Put],
    [PutMany] and [DeleteBlock] panic with "called write method on a
    read-only blockstore": none of them returns, so no error value
    reaches the caller. *)
Theorem C8_read_only_writes_panic :
  forall (I : Type) (b : ReadOnly.t I) (blk : blocks.Block) (blks : list blocks.Block),
    (ReadOnly.Put b blk = Panics "called write method on a read-only blockstore"
     /\ ReadOnly.PutMany b blks = Panics "called write method on a read-only blockstore"
     /\ ReadOnly.DeleteBlock b (blocks.Cid blk)
        = Panics "called write method on a read-only blockstore")
    /\ (forall r : option error, ReadOnly.Put b blk <> Returns r)
    /\ (forall r : option error, ReadOnly.PutMany b blks <> Returns r)
    /\ (forall r : option error, ReadOnly.DeleteBlock b (blocks.Cid blk) <> Returns r).
Proof.
  intros I b blk blks.
  split; [repeat split|].
  repeat split; intros r; unfold ReadOnly.Put, ReadOnly.PutMany, ReadOnly.DeleteBlock;
    discriminate.
Qed.

(** ** C9: [Get] by multihash *)

(** C9. With [UseWholeCIDs] off, when the index yields candidates [o ::
    rest] for the key, [Get] is decided by the section at [o] alone: it
    returns the read error, or not-found when the section's multihash
    differs, or else a block made of the section's payload and the queried
    key itself (not the key recorded in the section).  The candidates
    [rest] play no part. *)
Theorem C9_get_by_multihash :
  forall (I : Type) (HI : index.Index I) (b : ReadOnly.t I) (key : Cid)
         (o : Z) (rest : list Z),
    carv2.BlockstoreUseWholeCIDs (ReadOnly.ropts b) = false ->
    index.candidates (ReadOnly.idx b) key = o :: rest ->
    ReadOnly.Get b key
    = match ReadOnly.readBlock b (int64 o) with
      | Err err => Err err
      | Ok (readCid, data) =>
          if bytes_Equal (Hash readCid) (Hash key)
          then Ok {| blocks.RawData := data; blocks.Cid := key |}
          else Err BlockstoreErrNotFound
      end.
Proof.
  intros I HI b key o rest Hw Hc.
  unfold ReadOnly.Get, index.GetAll. rewrite Hc.
  cbn [index.visit]. unfold ReadOnly.Get_visitor.
  destruct (ReadOnly.readBlock b (int64 o)) as [[readCid data]|err]; [|reflexivity].
  rewrite Hw.
  destruct (bytes_Equal (Hash readCid) (Hash key)); reflexivity.
Qed.

Lemma C9_witness :
  ReadOnly.Get (ReadWrite.asReadOnly
                  (fst (PutEach (ex_open false) [ex_blk1; ex_blk3]))) ex_k2
  = Ok {| blocks.RawData := [x61; x62; x63]; blocks.Cid := ex_k2 |}.
Proof.
  rewrite (@C9_get_by_multihash _ _ _ ex_k2 29 []);
    [vm_compute; reflexivity|reflexivity|vm_compute; reflexivity].
Defined.

(** ** C5: the guard against duplicate puts *)

(** C5. On a store that is not finalized, with [AllowDuplicatePuts] off:
    [Put] skips the block (it returns no error and the store is exactly as
    before: no section written, no index entry added) if and only if
    [UseWholeCIDs] is on and the index has an entry with the block's whole
    CID, or [UseWholeCIDs] is off and looking the key up in the index
    succeeds.  Otherwise a [Put] that returns no error has written the
    block's section at the data cursor and appended the cursor's prior
    position to the index, and a [Put] that fails leaves the index as it
    was. *)
Theorem C5_put_skips_duplicates :
  forall (b : ReadWrite.t) (bl : blocks.Block),
    ReadWrite.finalized b = false ->
    carv2.BlockstoreAllowDuplicatePuts (ReadWrite.wopts b) = false ->
    let c := blocks.Cid bl in
    let w := ReadWrite.dataWriter b in
    let known :=
      (carv2.BlockstoreUseWholeCIDs (ReadWrite.ropts b) = true
       /\ exists r, In r (ReadWrite.idx b) /\ index.Cid r = c)
      \/ (carv2.BlockstoreUseWholeCIDs (ReadWrite.ropts b) = false
          /\ exists o, insertionIndex_Get (ReadWrite.idx b) c = Ok o) in
    (ReadWrite.Put b bl = (b, None) <-> known)
    /\ (~ known ->
        forall b' err, ReadWrite.Put b bl = (b', err) ->
          match err with
          | None =>
              bytes (ReadWrite.f b')
              = splice (bytes (ReadWrite.f b))
                  (int64 (internalio.wbase w + internalio.offset w))
                  (section c (blocks.RawData bl))
              /\ ReadWrite.idx b'
                 = ReadWrite.idx b
                   ++ [{| index.Cid := c;
                          index.Offset := uint64 (internalio.Position w) |}]
          | Some _ => ReadWrite.idx b' = ReadWrite.idx b
          end).
Proof.
  intros b bl Hfin Hdup c w known.
  assert (Hguard : ReadWrite.deduplicated b c = true <-> known).
  { unfold ReadWrite.deduplicated, known. rewrite Hdup. cbn [negb].
    destruct (carv2.BlockstoreUseWholeCIDs (ReadWrite.ropts b)); cbn [andb negb].
    - destruct (hasExactCID (ReadWrite.idx b) c) eqn:Hex.
      + split; [intros _|reflexivity]. left. split; [reflexivity|].
        apply hasExactCID_iff. exact Hex.
      + split; [discriminate|]. intros [[_ Hr]|[Hf _]]; [|discriminate].
        apply hasExactCID_iff in Hr. congruence.
    - destruct (insertionIndex_Get (ReadWrite.idx b) c) as [o|e] eqn:Hget.
      + split; [intros _|reflexivity]. right. split; [reflexivity|]. exists o. reflexivity.
      + split; [discriminate|]. intros [[Hf _]|[_ [o Ho]]]; discriminate. }
  assert (Hput : ReadWrite.Put b bl
                 = if ReadWrite.deduplicated b c then (b, None)
                   else ReadWrite.writeBlock b bl).
  { apply Put_unfinalized. unfold ReadWrite.finalized in Hfin.
    apply negb_false_iff in Hfin. apply Z.eqb_eq in Hfin. exact Hfin. }
  assert (Hwrite : forall b' err, ReadWrite.writeBlock b bl = (b', err) ->
            match err with
            | None =>
                bytes (ReadWrite.f b')
                = splice (bytes (ReadWrite.f b))
                    (int64 (internalio.wbase w + internalio.offset w))
                    (section c (blocks.RawData bl))
                /\ ReadWrite.idx b'
                   = ReadWrite.idx b
                     ++ [{| index.Cid := c;
                            index.Offset := uint64 (internalio.Position w) |}]
            | Some _ => ReadWrite.idx b' = ReadWrite.idx b
            end).
  { intros b' err Hw. unfold ReadWrite.writeBlock in Hw. fold c w in Hw.
    destruct (util.LdWrite (ReadWrite.f b) w [Bytes c; blocks.RawData bl])
      as [[f1 w1] [e|]] eqn:Hld; injection Hw as <- <-.
    - reflexivity.
    - apply LdWrite_ok in Hld.
      destruct Hld as (_ & _ & _ & _ & _ & _ & Hb & _).
      split; [exact Hb|reflexivity]. }
  split.
  - rewrite <- Hguard. rewrite Hput.
    destruct (ReadWrite.deduplicated b c); [tauto|].
    split; [|discriminate]. intros Hw. exfalso.
    specialize (Hwrite _ _ Hw). cbn in Hwrite. destruct Hwrite as [_ Hidx].
    apply (f_equal (@List.length _)) in Hidx.
    rewrite length_app in Hidx. cbn in Hidx. lia.
  - intros Hnot b' err Hp. rewrite Hput in Hp.
    destruct (ReadWrite.deduplicated b c) eqn:Hdd.
    + exfalso. apply Hnot, Hguard. reflexivity.
    + apply Hwrite. exact Hp.
Qed.

Lemma C5_witness :
  ReadWrite.Put (fst (PutEach (ex_open false) [ex_blk1])) ex_blk2
  = (fst (PutEach (ex_open false) [ex_blk1]), None).
Proof.
  apply (C5_put_skips_duplicates (fst (PutEach (ex_open false) [ex_blk1])) ex_blk2);
    [reflexivity|reflexivity|].
  right. split; [reflexivity|]. exists 29. vm_compute. reflexivity.
Defined.

(** ** C1: a block is visible as soon as it is put *)

Lemma last_entry es' blks bl :
  map entry_key es' = map blocks.Cid (blks ++ [bl]) ->
  map entry_data es' = map blocks.RawData (blks ++ [bl]) ->
  exists l e, es' = l ++ [e] /\ entry_key e = blocks.Cid bl
              /\ entry_data e = blocks.RawData bl.
Proof.
  intros Hk Hd.
  destruct (rev es') as [|e l] eqn:Hrev.
  - apply (f_equal (@rev _)) in Hrev. rewrite rev_involutive in Hrev. subst es'.
    rewrite map_app in Hk. destruct (map blocks.Cid blks); discriminate.
  - apply (f_equal (@rev _)) in Hrev. rewrite rev_involutive in Hrev.
    cbn [rev] in Hrev. subst es'.
    exists (rev l), e. split; [reflexivity|].
    rewrite !map_app in Hk, Hd. cbn [map] in Hk, Hd.
    apply app_inj_tail in Hk. apply app_inj_tail in Hd. tauto.
Qed.

(** C1. On a well-formed store that is not finalized, for every sequence
    of successful [Put] calls whose keys are well-formed CIDs, distinct
    from one another and from the keys already stored (under the store's
    matching policy): right after the last [Put] of the sequence, [Has] of
    its key is true and [Get] of its key returns the block that was put,
    payload and key.  Every prefix of such a sequence is such a sequence,
    so this holds after each [Put]. *)
Theorem C1_put_then_has_get :
  forall (b0 : ReadWrite.t) (es0 : list Entry)
         (blks : list blocks.Block) (bl : blocks.Block) (b : ReadWrite.t),
    Inv b0 es0 ->
    Forall (fun x => cid_wf (blocks.Cid x)) (blks ++ [bl]) ->
    distinctKeys (carv2.BlockstoreUseWholeCIDs (ReadWrite.ropts b0))
      (map entry_key es0 ++ map blocks.Cid (blks ++ [bl])) ->
    PutEach b0 (blks ++ [bl]) = (b, None) ->
    ReadWrite.Has b (blocks.Cid bl) = (true, None)
    /\ ReadWrite.Get b (blocks.Cid bl) = Ok bl.
Proof.
  intros b0 es0 blks bl b HI Hwf Hd Hp.
  destruct (PutEach_distinct HI Hwf Hd Hp) as (Hr & es' & HI' & Hk & Hdat).
  destruct (last_entry _ _ _ Hk Hdat) as (l & e & -> & Hek & Hed).
  assert (Hl : lookup (carv2.BlockstoreUseWholeCIDs (ReadWrite.ropts b))
                 (es0 ++ l ++ [e]) (blocks.Cid bl) = Some e).
  { rewrite <- Hek. apply lookup_distinct.
    - rewrite Hr, map_app, Hk. exact Hd.
    - apply in_or_app. right. apply in_or_app. right. left. reflexivity. }
  split.
  - rewrite (Has_lookup HI'), Hl. reflexivity.
  - rewrite (Get_lookup HI'), Hl. rewrite Hed.
    destruct bl. reflexivity.
Qed.

Lemma C1_witness :
  ReadWrite.Has (fst (PutEach (ex_open true) [ex_blk1; ex_blk2; ex_blk3])) ex_k3
  = (true, None)
  /\ ReadWrite.Get (fst (PutEach (ex_open true) [ex_blk1; ex_blk2; ex_blk3])) ex_k3
     = Ok ex_blk3.
Proof.
  apply (@C1_put_then_has_get (ex_open true) [] [ex_blk1; ex_blk2] ex_blk3).
  - apply ex_open_Inv.
  - repeat constructor; simpl; lia.
  - simpl. repeat constructor.
  - vm_compute. reflexivity.
Defined.

(** ** C6: one multihash under two codecs *)

Lemma lookup_app_fresh uw es l c :
  Forall (fun e => sameKey uw (entry_key e) c = false) es ->
  lookup uw (es ++ l) c = lookup uw l c.
Proof.
  intros H. unfold lookup, matching.
  induction H as [|e es He Hes IH]; [reflexivity|].
  cbn [app filter].
  destruct uw; cbn [sameKey] in *.
  - destruct (bytes_Equal (Hash (entry_key e)) (Hash c)); [|exact IH].
    cbn [find]. rewrite He. exact IH.
  - rewrite He. exact IH.
Qed.

Lemma other_hash_not_same uw es k :
  Forall (fun e => Hash (entry_key e) <> Hash k) es ->
  Forall (fun e => sameKey uw (entry_key e) k = false) es.
Proof.
  intros H. apply Forall_forall. intros e He.
  rewrite Forall_forall in H. specialize (H e He).
  destruct uw; cbn [sameKey].
  - apply Equals_neq. intros Heq. apply H. rewrite Heq. reflexivity.
  - apply bytes_Equal_neq. exact H.
Qed.

(** C6. On a well-formed store with duplicates disallowed that holds
    nothing under the multihash yet, put two blocks whose keys have the
    same multihash and different codecs, in order.  With [UseWholeCIDs]
    on, both are stored (two index entries) and [Get] on each key returns
    that key's own payload.  With [UseWholeCIDs] off, the second [Put]
    changes nothing, one entry is stored, and [Get] on the second key
    returns the first block's payload under the second key. *)
Theorem C6_same_multihash_two_codecs :
  forall (b0 : ReadWrite.t) (es0 : list Entry) (k1 k2 : Cid) (p1 p2 : list byte)
         (b1 b2 : ReadWrite.t),
    Inv b0 es0 ->
    Forall (fun e => Hash (entry_key e) <> Hash k1) es0 ->
    cid_wf k1 -> cid_wf k2 ->
    Hash k1 = Hash k2 -> Codec k1 <> Codec k2 ->
    carv2.BlockstoreAllowDuplicatePuts (ReadWrite.wopts b0) = false ->
    ReadWrite.Put b0 (blocks.NewBlockWithCid p1 k1) = (b1, None) ->
    ReadWrite.Put b1 (blocks.NewBlockWithCid p2 k2) = (b2, None) ->
    let r1 := {| index.Cid := k1;
                 index.Offset := internalio.Position (ReadWrite.dataWriter b0) |} in
    let r2 := {| index.Cid := k2;
                 index.Offset := internalio.Position (ReadWrite.dataWriter b1) |} in
    if carv2.BlockstoreUseWholeCIDs (ReadWrite.ropts b0) then
      ReadWrite.idx b2 = ReadWrite.idx b0 ++ [r1; r2]
      /\ ReadWrite.Get b2 k1 = Ok (blocks.NewBlockWithCid p1 k1)
      /\ ReadWrite.Get b2 k2 = Ok (blocks.NewBlockWithCid p2 k2)
    else
      b2 = b1
      /\ ReadWrite.idx b2 = ReadWrite.idx b0 ++ [r1]
      /\ ReadWrite.Get b2 k1 = Ok (blocks.NewBlockWithCid p1 k1)
      /\ ReadWrite.Get b2 k2 = Ok (blocks.NewBlockWithCid p1 k2).
Proof.
  intros b0 es0 k1 k2 p1 p2 b1 b2 HI Hfresh Hwf1 Hwf2 Hh Hcodec Hdup Hp1 Hp2 r1 r2.
  set (uw := carv2.BlockstoreUseWholeCIDs (ReadWrite.ropts b0)).
  assert (Hne : k1 <> k2) by (intros ->; apply Hcodec; reflexivity).
  assert (Hf1 : Forall (fun e => sameKey uw (entry_key e) k1 = false) es0)
    by (apply other_hash_not_same; exact Hfresh).
  assert (Hf2 : Forall (fun e => sameKey uw (entry_key e) k2 = false) es0)
    by (apply other_hash_not_same; rewrite <- Hh; exact Hfresh).
  (* the first put writes *)
  rewrite (Put_unfinalized b0 _ (inv_unfinalized HI)) in Hp1.
  rewrite (deduplicated_lookup _ HI) in Hp1. fold uw in Hp1.
  cbn [blocks.Cid blocks.NewBlockWithCid] in Hp1.
  rewrite lookup_none in Hp1 by exact Hf1. rewrite andb_false_r in Hp1.
  destruct (writeBlock_Inv (blocks.NewBlockWithCid p1 k1) HI Hwf1 Hp1) as (Hr1 & Hw1 & Hh1 & _ & HI1).
  set (e1 := new_entry b0 (blocks.NewBlockWithCid p1 k1)) in *.
  (* the second put *)
  rewrite (Put_unfinalized b1 _ (inv_unfinalized HI1)) in Hp2.
  rewrite (deduplicated_lookup _ HI1) in Hp2.
  rewrite Hr1, Hw1, Hdup in Hp2. fold uw in Hp2.
  cbn [blocks.Cid blocks.NewBlockWithCid negb andb] in Hp2.
  rewrite lookup_app_fresh in Hp2 by exact Hf2.
  assert (Hidx1 : ReadWrite.idx b1 = ReadWrite.idx b0 ++ [r1]).
  { rewrite (inv_index HI1), (inv_index HI), map_app. reflexivity. }
  destruct uw eqn:Huw.
  - (* whole CIDs: the second block is written too *)
    assert (Hl2 : lookup true [e1] k2 = None).
    { unfold lookup, matching, e1.
      cbn [filter entry_key new_entry blocks.Cid blocks.NewBlockWithCid].
      rewrite Hh, bytes_Equal_refl. cbn [find entry_key new_entry blocks.Cid blocks.NewBlockWithCid].
      replace (cid.Equals k1 k2) with false by (symmetry; apply Equals_neq; exact Hne).
      reflexivity. }
    rewrite Hl2 in Hp2. cbn [is_some] in Hp2.
    destruct (writeBlock_Inv (blocks.NewBlockWithCid p2 k2) HI1 Hwf2 Hp2) as (Hr2 & Hw2 & Hh2 & _ & HI2).
    set (e2 := new_entry b1 (blocks.NewBlockWithCid p2 k2)) in *.
    assert (Huw2 : carv2.BlockstoreUseWholeCIDs (ReadWrite.ropts b2) = true)
      by (rewrite Hr2, Hr1; exact Huw).
    split; [|split].
    + rewrite (inv_index HI2), (inv_index HI), !map_app, <- app_assoc. reflexivity.
    + rewrite (Get_lookup HI2), Huw2, <- app_assoc.
      rewrite lookup_app_fresh by exact Hf1.
      unfold lookup, matching, e1, e2.
      cbn [app filter entry_key new_entry blocks.Cid blocks.NewBlockWithCid].
      rewrite <- Hh, bytes_Equal_refl. cbn [find entry_key new_entry blocks.Cid blocks.NewBlockWithCid].
      rewrite Equals_refl. reflexivity.
    + rewrite (Get_lookup HI2), Huw2, <- app_assoc.
      rewrite lookup_app_fresh by exact Hf2.
      unfold lookup, matching, e1, e2.
      cbn [app filter entry_key new_entry blocks.Cid blocks.NewBlockWithCid].
      rewrite Hh, bytes_Equal_refl. cbn [find entry_key new_entry blocks.Cid blocks.NewBlockWithCid].
      replace (cid.Equals k1 k2) with false by (symmetry; apply Equals_neq; exact Hne).
      rewrite Equals_refl. reflexivity.
  - (* multihashes: the second block is a duplicate *)
    assert (Hl2 : lookup false [e1] k2 = Some e1).
    { unfold lookup, matching, e1.
      cbn [filter entry_key new_entry blocks.Cid blocks.NewBlockWithCid].
      rewrite Hh, bytes_Equal_refl. reflexivity. }
    rewrite Hl2 in Hp2. cbn [is_some] in Hp2. injection Hp2 as <-.
    assert (Huw1 : carv2.BlockstoreUseWholeCIDs (ReadWrite.ropts b1) = false)
      by (rewrite Hr1; exact Huw).
    split; [reflexivity|]. split; [exact Hidx1|]. split.
    + rewrite (Get_lookup HI1), Huw1. rewrite lookup_app_fresh by exact Hf1.
      unfold lookup, matching, e1.
      cbn [filter entry_key new_entry blocks.Cid blocks.NewBlockWithCid].
      rewrite bytes_Equal_refl. reflexivity.
    + rewrite (Get_lookup HI1), Huw1. rewrite lookup_app_fresh by exact Hf2.
      rewrite Hl2. reflexivity.
Qed.

Lemma C6_witness :
  ReadWrite.Get (fst (PutEach (ex_open false) [ex_blk1; ex_blk2])) ex_k2
  = Ok (blocks.NewBlockWithCid [x61; x62; x63] ex_k2).
Proof.
  pose proof (@C6_same_multihash_two_codecs (ex_open false) [] ex_k1 ex_k2
                [x61; x62; x63] [x64]
                (fst (PutEach (ex_open false) [ex_blk1]))
                (fst (PutEach (ex_open false) [ex_blk1; ex_blk2]))
                (ex_open_Inv false)) as H.
  apply H.
  - constructor.
  - apply ex_keys_wf.
  - apply ex_keys_wf.
  - reflexivity.
  - discriminate.
  - reflexivity.
  - vm_compute. reflexivity.
  - vm_compute. reflexivity.
Defined.

(** ** C10: [PutMany] is not atomic *)

(** C10. On a well-formed store that is not finalized, let [PutMany] be
    given [pre ++ bl :: post], let [pre] go through (leaving the store
    [b1]), let [bl] not be a duplicate, and let writing its section fail
    with [err], leaving the file [f2] and the writer [w2].  Then [PutMany]
    returns [err]; the store it leaves has the index of [b1], so [bl] was
    not added; every [Has] and [Get] answers as on [b1]; and every block of
    [pre] is visible: [Has] of its key is true and [Get] of its key returns
    a block. *)
Theorem C10_put_many_not_atomic :
  forall (b : ReadWrite.t)
         (pre : list blocks.Block) (bl : blocks.Block) (post : list blocks.Block)
         (b1 : ReadWrite.t) (f2 : File) (w2 : internalio.OffsetWriteSeeker)
         (err : error),
    WellFormed b ->
    Forall (fun x => cid_wf (blocks.Cid x)) (pre ++ [bl]) ->
    ReadWrite.PutMany b pre = (b1, None) ->
    ReadWrite.deduplicated b1 (blocks.Cid bl) = false ->
    util.LdWrite (ReadWrite.f b1) (ReadWrite.dataWriter b1)
      [Bytes (blocks.Cid bl); blocks.RawData bl] = (f2, w2, Some err) ->
    let b2 := ReadWrite.set_dataWriter (ReadWrite.set_f b1 f2) w2 in
    ReadWrite.PutMany b (pre ++ bl :: post) = (b2, Some err)
    /\ ReadWrite.idx b2 = ReadWrite.idx b1
    /\ (forall key,
          ReadWrite.Has b2 key = ReadWrite.Has b1 key
          /\ ReadWrite.Get b2 key = ReadWrite.Get b1 key)
    /\ Forall (fun x =>
                 ReadWrite.Has b2 (blocks.Cid x) = (true, None)
                 /\ exists data,
                      ReadWrite.Get b2 (blocks.Cid x)
                      = Ok (blocks.NewBlockWithCid data (blocks.Cid x))) pre.
Proof.
  intros b pre bl post b1 f2 w2 err [es HI] Hwf Hpre Hdd Hld b2.
  apply Forall_app in Hwf. destruct Hwf as [Hwfpre Hwfbl].
  inversion Hwfbl as [|? ? Hbl _]; subst.
  unfold ReadWrite.PutMany, ReadWrite.finalized in *.
  rewrite (inv_unfinalized HI) in *. cbn [Z.eqb negb] in *.
  destruct (PutMany_loop_Inv HI Hwfpre Hpre) as (Hr & Hwo & Hh & es' & HI1 & Hall).
  specialize (Hall eq_refl).
  assert (Hwb : ReadWrite.writeBlock b1 bl = (b2, Some err)).
  { unfold ReadWrite.writeBlock. rewrite Hld. reflexivity. }
  destruct (writeBlock_Inv _ HI1 Hbl Hwb) as (Hr2 & _ & _ & _ & HI2 & Hidx).
  split; [|split; [exact Hidx|split]].
  - rewrite PutMany_loop_app, Hpre. cbn [ReadWrite.PutMany_loop].
    rewrite Hdd, Hwb. reflexivity.
  - intros key.
    rewrite (Has_lookup HI2), (Has_lookup HI1), (Get_lookup HI2), (Get_lookup HI1), Hr2.
    split; reflexivity.
  - apply Forall_forall. intros x Hx.
    rewrite Forall_forall in Hall. specialize (Hall x Hx).
    rewrite (Has_lookup HI2), (Get_lookup HI2), Hr2, Hr.
    destruct (lookup _ (es ++ es') (blocks.Cid x)) as [e|]; [|discriminate].
    split; [reflexivity|]. exists (entry_data e). reflexivity.
Qed.





Lemma C10_witness :
  snd (ReadWrite.PutMany ex_faulty_open [ex_blk1; ex_blk3; ex_blk2]) = Some ErrIO
  /\ ReadWrite.Has (fst (ReadWrite.PutMany ex_faulty_open [ex_blk1; ex_blk3; ex_blk2]))
       ex_k1 = (true, None).
Proof.
  destruct (@C10_put_many_not_atomic ex_faulty_open [ex_blk1] ex_blk3 [ex_blk2]
              ex_faulty_put1 (fst (fst ex_faulty_write)) (snd (fst ex_faulty_write))
              ErrIO) as (Hput & _ & _ & Hvis).
  - exists [].
    apply (@OpenReadWrite_new ex_faulty_file [ex_k1] (ex_ropts false) (ex_wopts 0));
      vm_compute; reflexivity.
  - repeat constructor; simpl; lia.
  - vm_compute. reflexivity.
  - vm_compute. reflexivity.
  - vm_compute. reflexivity.
  - change ([ex_blk1; ex_blk3; ex_blk2]) with ([ex_blk1] ++ ex_blk3 :: [ex_blk2]).
    rewrite Hput. split; [reflexivity|].
    inversion Hvis as [|? ? [Hhas _] _]; subst. exact Hhas.
Defined.

(** ** C4: a finalized store rejects every call *)

Lemma Finalize_header marshal b b' err :
  carv2.DataSize (ReadWrite.header b) = 0 ->
  ReadWrite.Finalize marshal b = (b', err) ->
  ReadWrite.header b'
  = carv2.WithDataSize (ReadWrite.header b)
      (uint64 (internalio.Position (ReadWrite.dataWriter b)))
  /\ ReadWrite.idx b' = ReadWrite.idx b
  /\ ReadWrite.dataWriter b' = ReadWrite.dataWriter b
  /\ closed (ReadWrite.f b') = true.
Proof.
  intros Hd Hf. unfold ReadWrite.Finalize in Hf. rewrite Hd in Hf.
  cbn [Z.eqb negb] in Hf.
  destruct (ReadWrite.index_WriteTo _ _ _ _) as [[f1 w1] [e|]].
  - injection Hf as <- <-. repeat split.
  - destruct (carv2.Header_WriteTo _ _ _) as [[f2 w2] e2].
    injection Hf as <- <-. repeat split.
Qed.

(** C4. After [Finalize] has succeeded on a well-formed store, every
    later [Put], [PutMany], [Has], [Get], [GetSize] and [AllKeysChan] on it
    returns the error [errFinalized] (and the writes leave the store as it
    is). *)
Theorem C4_finalized_store_rejects_calls :
  forall (marshal : list index.IndexRecord -> list (list byte))
         (b b' : ReadWrite.t),
    WellFormed b ->
    ReadWrite.Finalize marshal b = (b', None) ->
    forall (blk : blocks.Block) (blks : list blocks.Block) (key : Cid),
      ReadWrite.Put b' blk = (b', Some errFinalized)
      /\ ReadWrite.PutMany b' blks = (b', Some errFinalized)
      /\ ReadWrite.Has b' key = (false, Some errFinalized)
      /\ ReadWrite.Get b' key = Err errFinalized
      /\ ReadWrite.GetSize b' key = (0, Some errFinalized)
      /\ ReadWrite.AllKeysChan b' = Err errFinalized.
Proof.
  intros marshal b b' [es HI] Hf blk blks key.
  destruct (Finalize_header _ _ (inv_unfinalized HI) Hf) as (Hh & _).
  assert (Hfin : ReadWrite.finalized b' = true).
  { unfold ReadWrite.finalized. rewrite Hh. cbn [carv2.DataSize carv2.WithDataSize].
    unfold internalio.Position.
    pose proof (inv_cursor HI) as Hc. pose proof (inv_end HI) as He.
    pose proof (inv_base HI) as Hb. pose proof (inv_size HI) as Hs.
    unfold MaxInt64 in Hs.
    rewrite uint64_small by lia.
    apply negb_true_iff, Z.eqb_neq. lia. }
  unfold ReadWrite.Put, ReadWrite.PutMany, ReadWrite.Has, ReadWrite.Get,
    ReadWrite.GetSize, ReadWrite.AllKeysChan.
  rewrite Hfin. repeat split.
Qed.

Lemma C4_witness :
  ReadWrite.Get (fst (ReadWrite.Finalize ex_marshal (ex_open false))) ex_k1
  = Err errFinalized.
Proof.
  apply (@C4_finalized_store_rejects_calls ex_marshal (ex_open false)
           (fst (ReadWrite.Finalize ex_marshal (ex_open false)))).
  - exists []. apply ex_open_Inv.
  - vm_compute. reflexivity.
  - exact ex_blk1.
  - exact [].
Defined.

(** ** C3: the steps of Finalize *)





(** ** C7: resuming with another data padding *)

(** C7. Resumption on a non-empty file that reads as version 2: if the
    v2 header on file reads with a data offset that is not zero and is not
    the data offset the options give, [OpenReadWrite] returns the padding
    mismatch error, with the padding of the file (its data offset less the
    pragma and header sizes) as the expected value and the padding of the
    options as the actual one.  In particular, a file created with one
    data padding, written to by any sequence of [Put] calls and finalized,
    fails so when it is reopened with another data padding: expected the
    first, got the second. *)
Theorem C7_padding_mismatch_on_resume :
  (forall (file : File) (roots : list Cid) (ropts : carv2.ReadOptions)
          (wopts : carv2.WriteOptions) (h : carv2.Header),
      bytes file <> [] ->
      closed file = false ->
      carv2.ReadVersion (bytes file) = Ok 2 ->
      headerOnFile (bytes file) = Ok h ->
      carv2.DataOffset h <> 0 ->
      carv2.DataOffset h <> carv2.DataOffset (openHeader wopts) ->
      ReadWrite.OpenReadWrite file roots ropts wopts
      = Err (ErrPaddingMismatch
               (uint64 (carv2.DataOffset h - carv2.PragmaSize - carv2.HeaderSize))
               (uint64 (carv2.DataOffset (openHeader wopts)
                        - carv2.PragmaSize - carv2.HeaderSize)))
      /\ (0 <= carv2.DataPadding wopts
            < 2 ^ 64 - (carv2.PragmaSize + carv2.HeaderSize) ->
          uint64 (carv2.DataOffset (openHeader wopts)
                  - carv2.PragmaSize - carv2.HeaderSize)
          = carv2.DataPadding wopts))
  /\ (forall (f0 : File) (roots : list Cid) (ropts : carv2.ReadOptions)
             (wopts : carv2.WriteOptions) (b0 : ReadWrite.t)
             (blks : list blocks.Block) (b : ReadWrite.t) (err : option error)
             (marshal : list index.IndexRecord -> list (list byte))
             (b' : ReadWrite.t)
             (file : File) (roots' : list Cid) (ropts' : carv2.ReadOptions)
             (wopts' : carv2.WriteOptions),
         bytes f0 = [] -> sanePaddings wopts ->
         ReadWrite.OpenReadWrite f0 roots ropts wopts = Ok b0 ->
         Forall (fun bl => cid_wf (blocks.Cid bl)) blks ->
         PutEach b0 blks = (b, err) ->
         ReadWrite.Finalize marshal b = (b', None) ->
         bytes file = bytes (ReadWrite.f b') -> closed file = false ->
         0 <= carv2.DataPadding wopts'
           < 2 ^ 64 - (carv2.PragmaSize + carv2.HeaderSize) ->
         carv2.DataPadding wopts' <> carv2.DataPadding wopts ->
         ReadWrite.OpenReadWrite file roots' ropts' wopts'
         = Err (ErrPaddingMismatch (carv2.DataPadding wopts)
                  (carv2.DataPadding wopts'))).
Proof.
  assert (General :
    forall file roots ropts wopts h,
      bytes file <> [] -> closed file = false ->
      carv2.ReadVersion (bytes file) = Ok 2 ->
      headerOnFile (bytes file) = Ok h ->
      carv2.DataOffset h <> 0 ->
      carv2.DataOffset h <> carv2.DataOffset (openHeader wopts) ->
      ReadWrite.OpenReadWrite file roots ropts wopts
      = Err (ErrPaddingMismatch
               (uint64 (carv2.DataOffset h - carv2.PragmaSize - carv2.HeaderSize))
               (uint64 (carv2.DataOffset (openHeader wopts)
                        - carv2.PragmaSize - carv2.HeaderSize)))).
  { intros file roots ropts wopts h Hne Hc Hv Hh Hz Hd.
    unfold ReadWrite.OpenReadWrite. fold (openHeader wopts).
    replace (len (bytes file) =? 0) with false.
    2:{ symmetry. apply Z.eqb_neq. intros Hl. apply Hne, len_zero_nil, Hl. }
    cbn [negb].
    rewrite (@resumeWithRoots_mismatch _ roots h); try assumption. reflexivity. }
  split.
  - intros file roots ropts wopts h Hne Hc Hv Hh Hz Hd.
    split; [apply General; assumption|].
    intros Hp. rewrite (openHeader_DataOffset _ Hp).
    unfold carv2.PragmaSize, carv2.HeaderSize in *.
    replace (11 + 40 + carv2.DataPadding wopts - 11 - 40)
      with (carv2.DataPadding wopts) by lia.
    apply uint64_small. lia.
  - intros f0 roots ropts wopts b0 blks b err marshal b' file roots' ropts' wopts'
      Hempty Hsane Hopen Hwf Hput Hfin Hbytes Hc Hp' Hdiff.
    destruct (OpenReadWrite_new_Clean _ _ _ Hempty Hsane Hopen) as [HC0 HL0].
    destruct (OpenReadWrite_new _ _ _ _ Hempty Hopen) as (_ & _ & _ & Hh0 & _).
    destruct (@PutEach_session blks b0 [] b err (clean_inv HC0) HL0 Hwf Hput) as (Hh & [es HI] & HL).
    destruct (Finalize_on_file marshal HI HL Hfin) as [Hpragma Hhdr].
    destruct (finalHeader_fields HI HL) as (_ & Hdo & _).
    destruct (openHeader_sane Hsane) as (Hdo0 & _).
    pose proof (openHeader_DataOffset _ Hp') as Hdo'.
    assert (Hsane' := Hsane). destruct Hsane' as (Hp0 & Hip0 & Hsum).
    pose proof (inv_end HI) as He. pose proof (inv_cursor HI) as Hcur.
    assert (Hfo : carv2.DataOffset (finalHeader b)
                  = carv2.PragmaSize + carv2.HeaderSize + carv2.DataPadding wopts).
    { rewrite Hdo, Hh, Hh0. exact Hdo0. }
    rewrite (General file roots' ropts' wopts' (finalHeader b)).
    + rewrite Hfo, Hdo'.
      unfold carv2.PragmaSize, carv2.HeaderSize in *.
      replace (11 + 40 + carv2.DataPadding wopts - 11 - 40)
        with (carv2.DataPadding wopts) by lia.
      replace (11 + 40 + carv2.DataPadding wopts' - 11 - 40)
        with (carv2.DataPadding wopts') by lia.
      rewrite !uint64_small by lia. reflexivity.
    + rewrite Hbytes. intros Hnil. rewrite Hnil in Hpragma. discriminate.
    + exact Hc.
    + rewrite Hbytes. apply ReadVersion_file. exact Hpragma.
    + rewrite Hbytes. exact Hhdr.
    + rewrite Hfo. unfold carv2.PragmaSize, carv2.HeaderSize. lia.
    + rewrite Hfo, Hdo'. lia.
Qed.



Lemma C7_witness :
  ReadWrite.OpenReadWrite ex_finalized_file [ex_k1] (ex_ropts false) (ex_wopts 8)
  = Err (ErrPaddingMismatch 0 8).
Proof.
  destruct C7_padding_mismatch_on_resume as [_ H].
  apply (H ex_file [ex_k1] (ex_ropts false) (ex_wopts 0) (ex_open false)
           [ex_blk1] ex_put1 None ex_marshal
           (fst (ReadWrite.Finalize ex_marshal ex_put1))).
  - reflexivity.
  - unfold sanePaddings. simpl. lia.
  - apply ex_open_eq.
  - repeat constructor; simpl; lia.
  - vm_compute. reflexivity.
  - vm_compute. reflexivity.
  - reflexivity.
  - reflexivity.
  - simpl. lia.
  - simpl. lia.
Defined.

(** C7 does not hold as it is stated for a file created with data
    padding 0 whose session put a block and ended without [Finalize]: the
    header region of this file is blank, the data offset on file reads as
    zero, the padding is not compared, and reopening the file with data
    padding 8 returns the error of reading the payload header, not the
    padding mismatch. *)
Lemma C7_counterexample :
  ReadWrite.OpenReadWrite ex_file [ex_k1] (ex_ropts false) (ex_wopts 0)
  = Ok (ex_open false)
  /\ ReadWrite.Put (ex_open false) ex_blk1 = (ex_put1, None)
  /\ headerOnFile (bytes (ReadWrite.f ex_put1)) = Ok zeroHeader
  /\ ReadWrite.OpenReadWrite (ReadWrite.f ex_put1) [ex_k1] (ex_ropts false) (ex_wopts 8)
     = Err (ErrReadingCarHeader ErrUnexpectedEOF)
  /\ ReadWrite.OpenReadWrite (ReadWrite.f ex_put1) [ex_k1] (ex_ropts false) (ex_wopts 8)
     <> Err (ErrPaddingMismatch 0 8).
Proof.
  split; [apply ex_open_eq|].
  split; [vm_compute; reflexivity|].
  split; [vm_compute; reflexivity|].
  split; [vm_compute; reflexivity|].
  vm_compute. discriminate.
Qed.

(** ** C2: resuming after an abort *)

(** C2. A session opens a new file and puts blocks with distinct keys,
    every [Put] returning without error, and ends there, without
    [Finalize].  Reopening the file with the roots and the data padding of
    the session succeeds; the data writer of the reopened store stands
    just past the last section, which is the end of the file and the
    position the session had reached; and every block of the session is
    found by [Has] and returned by [Get]. *)
Theorem C2_resume_after_abort :
  forall (f0 : File) (roots : list Cid) (ropts : carv2.ReadOptions)
         (wopts : carv2.WriteOptions) (b0 : ReadWrite.t)
         (blks : list blocks.Block) (b : ReadWrite.t)
         (file : File) (ropts' : carv2.ReadOptions) (wopts' : carv2.WriteOptions),
    bytes f0 = [] -> sanePaddings wopts -> Forall cid_wf roots ->
    ReadWrite.OpenReadWrite f0 roots ropts wopts = Ok b0 ->
    Forall (fun bl => cid_wf (blocks.Cid bl)) blks ->
    distinctKeys (carv2.BlockstoreUseWholeCIDs ropts) (map blocks.Cid blks) ->
    distinctKeys (carv2.BlockstoreUseWholeCIDs ropts') (map blocks.Cid blks) ->
    PutEach b0 blks = (b, None) ->
    bytes file = bytes (ReadWrite.f b) -> closed file = false ->
    sanePaddings wopts' -> carv2.DataPadding wopts' = carv2.DataPadding wopts ->
    exists b' : ReadWrite.t,
      ReadWrite.OpenReadWrite file roots ropts' wopts' = Ok b'
      /\ internalio.Position (ReadWrite.dataWriter b')
         = len (util.LdBytes
                  [carv1.header_cbor {| carv1.Roots := roots; carv1.Version := 1 |}])
           + len (concat (map (fun bl => section (blocks.Cid bl) (blocks.RawData bl))
                            blks))
      /\ carv2.DataOffset (ReadWrite.header b')
         + internalio.Position (ReadWrite.dataWriter b')
         = len (bytes file)
      /\ internalio.Position (ReadWrite.dataWriter b')
         = internalio.Position (ReadWrite.dataWriter b)
      /\ Forall (fun bl =>
                   ReadWrite.Has b' (blocks.Cid bl) = (true, None)
                   /\ ReadWrite.Get b' (blocks.Cid bl) = Ok bl) blks.
Proof.
  intros f0 roots ropts wopts b0 blks b file ropts' wopts'
    Hempty Hsane Hroots Hopen Hwf Hd Hd' Hput Hbytes Hcl Hsane' Hpad.
  destruct (OpenReadWrite_new_Clean _ _ _ Hempty Hsane Hopen) as [HC0 HL0].
  destruct (OpenReadWrite_new _ _ _ _ Hempty Hopen) as (_ & Hr0 & _ & Hh0 & _).
  assert (Hd0 : distinctKeys (carv2.BlockstoreUseWholeCIDs (ReadWrite.ropts b0))
                  (map entry_key [] ++ map blocks.Cid blks))
    by (rewrite Hr0; exact Hd).
  destruct (PutEach_Clean HC0 Hwf Hd0 Hput) as (_ & Hh & es & HC & Hk & Hdat).
  cbn [app] in HC.
  destruct (@PutEach_session blks b0 [] b None (clean_inv HC0) HL0 Hwf Hput)
    as (_ & _ & HL).
  pose proof (clean_inv HC) as HI.
  assert (Hdo : carv2.DataOffset (openHeader wopts')
                = carv2.DataOffset (ReadWrite.header b)).
  { rewrite Hh, Hh0.
    destruct (openHeader_sane Hsane) as (-> & _).
    destruct (openHeader_sane Hsane') as (-> & _). rewrite Hpad. reflexivity. }
  pose proof (@resumed_Inv b es file ropts' wopts' HI Hbytes Hcl Hdo) as HI'.
  destruct (entries_of_blocks es blks Hk Hdat) as [Hsec Hall].
  exists (resumed file b ropts' wopts').
  split; [apply (@OpenReadWrite_resume roots b es file ropts' wopts' HC HL Hroots Hbytes Hcl Hdo)|].
  assert (Hbase : carv2.PragmaSize <= carv2.DataOffset (ReadWrite.header b)).
  { pose proof (clean_base HC). unfold carv2.PragmaSize, carv2.HeaderSize in *. lia. }
  pose proof (len_image roots es Hbase) as Hli.
  rewrite <- (clean_bytes HC) in Hli.
  pose proof (inv_end HI) as He.
  unfold internalio.Position.
  cbn [resumed ReadWrite.dataWriter ReadWrite.header internalio.offset].
  split; [rewrite <- Hsec; lia|].
  split; [rewrite Hdo, Hbytes; exact He|].
  split; [reflexivity|].
  rewrite Forall_forall in *. intros bl Hin.
  destruct (Hall bl Hin) as (e & Hine & Hek & Hed).
  assert (Hl : lookup (carv2.BlockstoreUseWholeCIDs
                         (ReadWrite.ropts (resumed file b ropts' wopts')))
                 es (blocks.Cid bl) = Some e).
  { rewrite <- Hek. apply lookup_distinct; [|exact Hine].
    cbn [resumed ReadWrite.ropts]. rewrite Hk. exact Hd'. }
  split.
  - rewrite (Has_lookup HI'), Hl. reflexivity.
  - rewrite (Get_lookup HI'), Hl, Hed. destruct bl. reflexivity.
Qed.


Lemma C2_witness :
  exists b' : ReadWrite.t,
    ReadWrite.OpenReadWrite (ReadWrite.f ex_put2) [ex_k1] (ex_ropts false) (ex_wopts 0)
    = Ok b'
    /\ internalio.Position (ReadWrite.dataWriter b') = 50
    /\ ReadWrite.Get b' ex_k3 = Ok ex_blk3.
Proof.
  destruct (@C2_resume_after_abort ex_file [ex_k1] (ex_ropts false) (ex_wopts 0)
              (ex_open false) [ex_blk1; ex_blk3] ex_put2
              (ReadWrite.f ex_put2) (ex_ropts false) (ex_wopts 0))
    as (b' & Hopen & Hpos & _ & _ & Hall).
  - reflexivity.
  - unfold sanePaddings. simpl. lia.
  - repeat constructor; simpl; lia.
  - apply ex_open_eq.
  - repeat constructor; simpl; lia.
  - simpl. repeat split; repeat constructor.
  - simpl. repeat split; repeat constructor.
  - vm_compute. reflexivity.
  - reflexivity.
  - reflexivity.
  - unfold sanePaddings. simpl. lia.
  - reflexivity.
  - exists b'. split; [exact Hopen|]. split.
    + rewrite Hpos. vm_compute. reflexivity.
    + inversion Hall as [|? ? _ Hrest]; subst.
      inversion Hrest as [|? ? [_ Hget] _]; subst. exact Hget.
Defined.

(** ** An abort in the middle of a [Put] *)

(** C2 does not hold as it is stated when the session aborts in the
    middle of a [Put].  Two sessions put [ex_blk1] and are then cut off
    by the device during the [Put] of [ex_blk3]; each file is reopened
    with the roots and the padding of its session.
    - Cut in the data of the block: the file has the whole section of
      [ex_blk1], which ends at position 40 of the data (byte 91 of the
      file), and a torn section after it, up to byte 100.
      [OpenReadWrite] succeeds, but it puts the data writer at 50, past
      the torn section and one byte past the end of the file, not at 40;
      the index has a record for the torn block, and [Get] fails on its
      key.
    - Cut in the CID of the block: [OpenReadWrite] fails. *)
Lemma C2_counterexample :
  (exists b0 : ReadWrite.t,
      ReadWrite.OpenReadWrite ex_torn_file [ex_k1] (ex_ropts false) (ex_wopts 0) = Ok b0
      /\ PutEach b0 [ex_blk1; ex_blk3] = (ex_torn, Some ErrIO))
  /\ take 91 (bytes (ReadWrite.f ex_torn)) = bytes (ReadWrite.f ex_put1)
  /\ len (bytes (ReadWrite.f ex_torn)) = 100
  /\ internalio.Position (ReadWrite.dataWriter ex_put1) = 40
  /\ (exists b' : ReadWrite.t,
         ReadWrite.OpenReadWrite
           {| bytes := bytes (ReadWrite.f ex_torn); closed := false; faults := [] |}
           [ex_k1] (ex_ropts false) (ex_wopts 0) = Ok b'
         /\ internalio.Position (ReadWrite.dataWriter b') = 50
         /\ internalio.Position (ReadWrite.dataWriter b')
            <> internalio.Position (ReadWrite.dataWriter ex_put1)
         /\ carv2.DataOffset (ReadWrite.header b')
            + internalio.Position (ReadWrite.dataWriter b') = 101
         /\ ReadWrite.idx b'
            = [ {| index.Cid := ex_k1; index.Offset := 29 |};
                {| index.Cid := ex_k3; index.Offset := 40 |} ]
         /\ ReadWrite.Get b' ex_k3 = Err ErrUnexpectedEOF)
  /\ (exists b0 : ReadWrite.t,
         ReadWrite.OpenReadWrite ex_faulty_file [ex_k1] (ex_ropts false) (ex_wopts 0)
         = Ok b0
         /\ PutEach b0 [ex_blk1; ex_blk3] = (ex_torn_cid, Some ErrIO))
  /\ ReadWrite.OpenReadWrite
       {| bytes := bytes (ReadWrite.f ex_torn_cid); closed := false; faults := [] |}
       [ex_k1] (ex_ropts false) (ex_wopts 0)
     = Err EOF.
Proof.
  split.
  { eexists. split; [vm_compute; reflexivity|]. vm_compute. reflexivity. }
  split; [vm_compute; reflexivity|].
  split; [vm_compute; reflexivity|].
  split; [vm_compute; reflexivity|].
  split.
  { eexists. split; [vm_compute; reflexivity|].
    split; [vm_compute; reflexivity|].
    split; [vm_compute; discriminate|].
    split; [vm_compute; reflexivity|].
    split; vm_compute; reflexivity. }
  split.
  { eexists. split; [vm_compute; reflexivity|]. vm_compute. reflexivity. }
  vm_compute. reflexivity.
Qed.

(** * Further properties of the stores *)

(** ** Sessions: a new file and a run of [Put] calls *)

(** Whatever a run of [Put] calls returns, the store is a session and its
    new entries hold blocks of the run. *)
Lemma PutEach_entries blks : forall b es b' err,
  Inv b es ->
  Forall (fun bl => cid_wf (blocks.Cid bl)) blks ->
  PutEach b blks = (b', err) ->
  ReadWrite.ropts b' = ReadWrite.ropts b
  /\ ReadWrite.wopts b' = ReadWrite.wopts b
  /\ ReadWrite.header b' = ReadWrite.header b
  /\ exists es', Inv b' (es ++ es') /\ Forall (fromBlocks blks) es'.
Proof.
  induction blks as [|bl rest IH]; intros b es b' err HI Hwf Hp.
  - simpl in Hp. injection Hp as <- <-.
    repeat (split; [reflexivity|]). exists []. rewrite app_nil_r.
    split; [exact HI|constructor].
  - inversion Hwf as [|? ? Hbl Hrest]; subst.
    cbn [PutEach] in Hp.
    rewrite (Put_unfinalized b bl (inv_unfinalized HI)) in Hp.
    assert (Hmono : forall e, fromBlocks rest e -> fromBlocks (bl :: rest) e).
    { intros e (x & Hin & Hx). exists x. split; [right; exact Hin|exact Hx]. }
    destruct (ReadWrite.deduplicated b (blocks.Cid bl)).
    + destruct (IH _ _ _ _ HI Hrest Hp) as (Hr & Hw & Hh & es' & HI' & Hall).
      repeat (split; [assumption|]). exists es'. split; [exact HI'|].
      apply (Forall_impl _ Hmono Hall).
    + destruct (ReadWrite.writeBlock b bl) as [b1 e] eqn:Hwb.
      destruct (writeBlock_Inv bl HI Hbl Hwb) as (Hr & Hw & Hh & _ & HI1).
      destruct e as [e|].
      * injection Hp as <- <-. destruct HI1 as [HI1 _].
        repeat (split; [assumption|]). exists []. rewrite app_nil_r.
        split; [exact HI1|constructor].
      * destruct (IH _ _ _ _ HI1 Hrest Hp) as (Hr' & Hw' & Hh' & es' & HI' & Hall).
        split; [congruence|]. split; [congruence|]. split; [congruence|].
        exists (new_entry b bl :: es').
        replace (es ++ new_entry b bl :: es') with ((es ++ [new_entry b bl]) ++ es')
          by (rewrite <- app_assoc; reflexivity).
        split; [exact HI'|]. constructor.
        -- exists bl. split; [left; reflexivity|]. split; reflexivity.
        -- apply (Forall_impl _ Hmono Hall).
Qed.

(** A new file and any run of [Put] calls on it. *)
Lemma session_entries f0 roots ropts wopts b0 blks b err :
  bytes f0 = [] ->
  ReadWrite.OpenReadWrite f0 roots ropts wopts = Ok b0 ->
  Forall (fun bl => cid_wf (blocks.Cid bl)) blks ->
  PutEach b0 blks = (b, err) ->
  ReadWrite.ropts b = ropts /\ ReadWrite.wopts b = wopts
  /\ ReadWrite.header b = openHeader wopts
  /\ exists es, Inv b es /\ Forall (fromBlocks blks) es.
Proof.
  intros Hempty Hopen Hwf Hput.
  destruct (OpenReadWrite_new _ _ _ _ Hempty Hopen) as (HI0 & Hr0 & Hw0 & Hh0 & _).
  destruct (@PutEach_entries blks b0 [] b err HI0 Hwf Hput)
    as (Hr & Hw & Hh & es & HI & Hall).
  split; [congruence|]. split; [congruence|]. split; [congruence|].
  exists es. split; [exact HI|exact Hall].
Qed.

(** ** [GetSize] in a well-formed session *)

Section LookupGetSize.

Variable b : ReadWrite.t.
Variable es : list Entry.
Hypothesis HI : Inv b es.
Variable key : Cid.

Lemma GetSize_visitor_stored e st :
  stored b e ->
  ReadOnly.GetSize_visitor (ReadWrite.asReadOnly b) key (entry_offset e) st
  = if carv2.BlockstoreUseWholeCIDs (ReadWrite.ropts b)
    then (if cid.Equals (entry_key e) key
          then ((len (entry_data e), snd st), false)
          else (st, true))
    else ((if bytes_Equal (Hash (entry_key e)) (Hash key)
           then len (entry_data e) else fst st, snd st), false).
Proof.
  intros He. destruct st as [fnSize fnErr].
  destruct (stored_reader HI He) as [post Hrd].
  destruct (stored_fits HI He) as [_ Hlen].
  pose proof (len_nonneg (entry_data e)) as Hd0.
  pose proof (len_Bytes_pos (entry_key e)) as Hb0.
  assert (Hdig : len (Digest (entry_key e)) < 2 ^ 63).
  { rewrite len_Bytes, len_Hash in Hlen.
    pose proof (PutUvarint_len 1). pose proof (PutUvarint_len (Codec (entry_key e))).
    pose proof (PutUvarint_len (MhType (entry_key e))).
    pose proof (PutUvarint_len (len (Digest (entry_key e)))). lia. }
  unfold ReadOnly.GetSize_visitor. rewrite Hrd. cbn [bind].
  unfold entry_section. rewrite ReadUvarint_section by exact Hlen. cbn [bind].
  rewrite CidFromReader_Bytes by (try apply He; exact Hdig).
  rewrite (@int64_small (len (Bytes (entry_key e)) + len (entry_data e))) by lia.
  replace (len (Bytes (entry_key e)) + len (entry_data e) - len (Bytes (entry_key e)))
    with (len (entry_data e)) by lia.
  rewrite int64_small by lia.
  cbn [fst snd]. reflexivity.
Qed.

Lemma visit_GetSize_whole l :
  carv2.BlockstoreUseWholeCIDs (ReadWrite.ropts b) = true ->
  Forall (stored b) l ->
  index.visit (ReadOnly.GetSize_visitor (ReadWrite.asReadOnly b) key)
    (map entry_offset l) (-1, None)
  = (match find (fun e => cid.Equals (entry_key e) key) l with
     | Some e => len (entry_data e)
     | None => -1
     end, None).
Proof.
  intros Hw. induction l as [|e l IH]; intros Hst; [reflexivity|].
  inversion Hst as [|? ? He Hl]; subst.
  cbn [map index.visit find].
  rewrite (GetSize_visitor_stored _ He), Hw. cbn [snd].
  destruct (cid.Equals (entry_key e) key); [reflexivity|].
  apply IH. exact Hl.
Qed.

Lemma GetSize_lookup :
  ReadWrite.GetSize b key
  = match lookup (carv2.BlockstoreUseWholeCIDs (ReadWrite.ropts b)) es key with
    | Some e => (len (entry_data e), None)
    | None => (-1, Some BlockstoreErrNotFound)
    end.
Proof.
  unfold ReadWrite.GetSize, ReadWrite.finalized.
  rewrite (inv_unfinalized HI). cbn [Z.eqb negb].
  unfold ReadOnly.GetSize, index.GetAll.
  cbn [index.candidates insertionIndex_Index ReadOnly.idx ReadWrite.asReadOnly].
  rewrite (inv_index HI), candidates_entries.
  pose proof (matching_stored key (inv_stored HI)) as Hst.
  pose proof (matching_hash key es) as Hh.
  unfold lookup.
  destruct (carv2.BlockstoreUseWholeCIDs (ReadWrite.ropts b)) eqn:Hw.
  - destruct (matching key es) as [|e l] eqn:Hm; [reflexivity|].
    cbn [map].
    change (entry_offset e :: map entry_offset l) with (map entry_offset (e :: l)).
    rewrite (visit_GetSize_whole Hw Hst).
    destruct (find _ (e :: l)) as [x|]; [|reflexivity].
    pose proof (len_nonneg (entry_data x)) as Hx.
    replace (len (entry_data x) =? -1) with false
      by (symmetry; apply Z.eqb_neq; lia).
    reflexivity.
  - destruct (matching key es) as [|e l] eqn:Hm; [reflexivity|].
    inversion Hst; subst. inversion Hh; subst.
    cbn [map index.visit hd_error].
    rewrite GetSize_visitor_stored by assumption. rewrite Hw.
    match goal with H : Hash (entry_key e) = Hash key |- _ => rewrite H end.
    rewrite bytes_Equal_refl. cbn [fst snd].
    pose proof (len_nonneg (entry_data e)) as Hx.
    replace (len (entry_data e) =? -1) with false
      by (symmetry; apply Z.eqb_neq; lia).
    reflexivity.
Qed.

End LookupGetSize.

(** ** What the reads of a session return *)

Lemma ex_put2_WellFormed : WellFormed ex_put2.
Proof.
  destruct (@session_entries ex_file [ex_k1] (ex_ropts false) (ex_wopts 0)
              (ex_open false) [ex_blk1; ex_blk3] ex_put2 None)
    as (_ & _ & _ & es & HI & _).
  - reflexivity.
  - apply ex_open_eq.
  - repeat constructor; simpl; lia.
  - vm_compute. reflexivity.
  - exists es. exact HI.
Qed.

(** X1. In a well-formed session that is not finalized, [Get], [Has] and
    [GetSize] agree on every key and never fail on a read: either [Get]
    returns a block with the queried key, [Has] is true and [GetSize] is
    the length of that block's data, or all three report that the key is
    not found ([GetSize] with -1). *)
Theorem read_methods_agree :
  forall (b : ReadWrite.t) (key : Cid),
    WellFormed b ->
    (exists data : list byte,
        ReadWrite.Get b key = Ok (blocks.NewBlockWithCid data key)
        /\ ReadWrite.Has b key = (true, None)
        /\ ReadWrite.GetSize b key = (len data, None))
    \/ (ReadWrite.Get b key = Err BlockstoreErrNotFound
        /\ ReadWrite.Has b key = (false, None)
        /\ ReadWrite.GetSize b key = (-1, Some BlockstoreErrNotFound)).
Proof.
  intros b key [es HI].
  rewrite (Get_lookup HI), (Has_lookup HI), (GetSize_lookup HI).
  destruct (lookup _ es key) as [e|].
  - left. exists (entry_data e). repeat split.
  - right. repeat split.
Qed.

Lemma read_methods_agree_witness :
  (exists data : list byte,
      ReadWrite.Get ex_put2 ex_k3 = Ok (blocks.NewBlockWithCid data ex_k3)
      /\ ReadWrite.Has ex_put2 ex_k3 = (true, None)
      /\ ReadWrite.GetSize ex_put2 ex_k3 = (len data, None))
  \/ (ReadWrite.Get ex_put2 ex_k3 = Err BlockstoreErrNotFound
      /\ ReadWrite.Has ex_put2 ex_k3 = (false, None)
      /\ ReadWrite.GetSize ex_put2 ex_k3 = (-1, Some BlockstoreErrNotFound)).
Proof.
  apply (@read_methods_agree ex_put2 ex_k3). apply ex_put2_WellFormed.
Defined.

(** X2. A key whose multihash is that of no block put so far is not
    found, in a new store as after any run of [Put] calls, failed or not:
    [Has] returns false without an error, [Get] the not-found error, and
    [GetSize] -1 with the not-found error. *)
Theorem unknown_multihash_not_found :
  forall (f0 : File) (roots : list Cid) (ropts : carv2.ReadOptions)
         (wopts : carv2.WriteOptions) (b0 : ReadWrite.t)
         (blks : list blocks.Block) (b : ReadWrite.t) (err : option error)
         (key : Cid),
    bytes f0 = [] ->
    ReadWrite.OpenReadWrite f0 roots ropts wopts = Ok b0 ->
    Forall (fun bl => cid_wf (blocks.Cid bl)) blks ->
    PutEach b0 blks = (b, err) ->
    Forall (fun bl => Hash (blocks.Cid bl) <> Hash key) blks ->
    ReadWrite.Has b key = (false, None)
    /\ ReadWrite.Get b key = Err BlockstoreErrNotFound
    /\ ReadWrite.GetSize b key = (-1, Some BlockstoreErrNotFound).
Proof.
  intros f0 roots ropts wopts b0 blks b err key Hempty Hopen Hwf Hput Hother.
  destruct (@session_entries f0 roots ropts wopts b0 blks b err Hempty Hopen Hwf Hput)
    as (_ & _ & _ & es & HI & Hfrom).
  assert (Hnone : lookup (carv2.BlockstoreUseWholeCIDs (ReadWrite.ropts b)) es key
                  = None).
  { apply lookup_none, other_hash_not_same.
    rewrite Forall_forall in *. intros e He.
    destruct (Hfrom e He) as (bl & Hin & Hk & _). rewrite Hk.
    apply (Hother bl Hin). }
  rewrite (Has_lookup HI), (Get_lookup HI), (GetSize_lookup HI), Hnone.
  repeat split.
Qed.

Lemma unknown_multihash_not_found_witness :
  ReadWrite.Has ex_put1 ex_k3 = (false, None)
  /\ ReadWrite.Get ex_put1 ex_k3 = Err BlockstoreErrNotFound
  /\ ReadWrite.GetSize ex_put1 ex_k3 = (-1, Some BlockstoreErrNotFound).
Proof.
  apply (@unknown_multihash_not_found ex_file [ex_k1] (ex_ropts false) (ex_wopts 0)
           (ex_open false) [ex_blk1] ex_put1 None ex_k3).
  - reflexivity.
  - apply ex_open_eq.
  - repeat constructor; simpl; lia.
  - vm_compute. reflexivity.
  - repeat constructor. vm_compute. discriminate.
Defined.

(** ** What [PutMany] leaves in place *)

Lemma PutMany_loop_append blks : forall b es b' err,
  Inv b es ->
  Forall (fun bl => cid_wf (blocks.Cid bl)) blks ->
  ReadWrite.PutMany_loop b blks = (b', err) ->
  exists q, bytes (ReadWrite.f b') = bytes (ReadWrite.f b) ++ q.
Proof.
  induction blks as [|bl rest IH]; intros b es b' err HI Hwf Hp.
  - simpl in Hp. injection Hp as <- <-. exists []. symmetry. apply app_nil_r.
  - inversion Hwf as [|? ? Hbl Hrest]; subst.
    cbn [ReadWrite.PutMany_loop] in Hp.
    destruct (ReadWrite.deduplicated b (blocks.Cid bl)).
    + apply (IH _ _ _ _ HI Hrest Hp).
    + destruct (ReadWrite.writeBlock b bl) as [b1 e] eqn:Hwb.
      destruct (writeBlock_Inv bl HI Hbl Hwb) as (_ & _ & _ & (q & Hq & _) & HI1).
      destruct e as [e|].
      * injection Hp as <- <-. exists q. exact Hq.
      * destruct (IH _ _ _ _ HI1 Hrest Hp) as [q2 Hq2].
        exists (q ++ q2). rewrite Hq2, Hq, app_assoc. reflexivity.
Qed.

Lemma matching_app key es l :
  matching key (es ++ l) = matching key es ++ matching key l.
Proof. unfold matching. apply filter_app. Qed.

(** The first entry found for a key stays the first when entries are
    added. *)
Lemma lookup_app_some uw es l key e :
  lookup uw es key = Some e -> lookup uw (es ++ l) key = Some e.
Proof.
  unfold lookup. rewrite matching_app. destruct uw.
  - intros Hf. induction (matching key es) as [|x m IH]; [discriminate|].
    cbn [app find] in *. destruct (Equals (entry_key x) key); [exact Hf|].
    apply IH. exact Hf.
  - destruct (matching key es); [discriminate|]. intros H. exact H.
Qed.

(** X3. [PutMany] on a well-formed session only appends, whether it
    returns an error or not: the file it leaves starts with the file as
    it was, the index with the index as it was, the header in memory is
    unchanged, and the store is again a well-formed session. *)
Theorem put_many_append_only :
  forall (b : ReadWrite.t) (blks : list blocks.Block)
         (b' : ReadWrite.t) (err : option error),
    WellFormed b ->
    Forall (fun bl => cid_wf (blocks.Cid bl)) blks ->
    ReadWrite.PutMany b blks = (b', err) ->
    (exists q, bytes (ReadWrite.f b') = bytes (ReadWrite.f b) ++ q)
    /\ (exists l, ReadWrite.idx b' = ReadWrite.idx b ++ l)
    /\ ReadWrite.header b' = ReadWrite.header b
    /\ WellFormed b'.
Proof.
  intros b blks b' err [es HI] Hwf Hp.
  unfold ReadWrite.PutMany, ReadWrite.finalized in Hp.
  rewrite (inv_unfinalized HI) in Hp. cbn [Z.eqb negb] in Hp.
  destruct (PutMany_loop_Inv HI Hwf Hp) as (_ & _ & Hh & es' & HI' & _).
  split; [apply (PutMany_loop_append HI Hwf Hp)|].
  split.
  - exists (map entry_record es').
    rewrite (inv_index HI'), (inv_index HI), map_app. reflexivity.
  - split; [exact Hh|exists (es ++ es'); exact HI'].
Qed.

Lemma put_many_append_only_witness :
  (exists q, bytes (ReadWrite.f (fst (ReadWrite.PutMany ex_put1 [ex_blk3; ex_blk1])))
             = bytes (ReadWrite.f ex_put1) ++ q)
  /\ (exists l, ReadWrite.idx (fst (ReadWrite.PutMany ex_put1 [ex_blk3; ex_blk1]))
                = ReadWrite.idx ex_put1 ++ l)
  /\ ReadWrite.header (fst (ReadWrite.PutMany ex_put1 [ex_blk3; ex_blk1]))
     = ReadWrite.header ex_put1
  /\ WellFormed (fst (ReadWrite.PutMany ex_put1 [ex_blk3; ex_blk1])).
Proof.
  apply (@put_many_append_only ex_put1 [ex_blk3; ex_blk1]
           (fst (ReadWrite.PutMany ex_put1 [ex_blk3; ex_blk1]))
           (snd (ReadWrite.PutMany ex_put1 [ex_blk3; ex_blk1]))).
  - destruct (@session_entries ex_file [ex_k1] (ex_ropts false) (ex_wopts 0)
                (ex_open false) [ex_blk1] ex_put1 None)
      as (_ & _ & _ & es & HI & _).
    + reflexivity.
    + apply ex_open_eq.
    + repeat constructor; simpl; lia.
    + vm_compute. reflexivity.
    + exists es. exact HI.
  - repeat constructor; simpl; lia.
  - vm_compute. reflexivity.
Defined.

(** X4. [PutMany] never changes what was readable: a key for which
    [Get] returned a block before the call still gets that block after
    it, and [Has] is true for it, whether the call returns an error or
    not and whether duplicates are allowed or not. *)
Theorem put_many_keeps_reads :
  forall (b : ReadWrite.t) (blks : list blocks.Block)
         (b' : ReadWrite.t) (err : option error)
         (key : Cid) (blk : blocks.Block),
    WellFormed b ->
    Forall (fun bl => cid_wf (blocks.Cid bl)) blks ->
    ReadWrite.PutMany b blks = (b', err) ->
    ReadWrite.Get b key = Ok blk ->
    ReadWrite.Get b' key = Ok blk /\ ReadWrite.Has b' key = (true, None).
Proof.
  intros b blks b' err key blk [es HI] Hwf Hp Hget.
  unfold ReadWrite.PutMany, ReadWrite.finalized in Hp.
  rewrite (inv_unfinalized HI) in Hp. cbn [Z.eqb negb] in Hp.
  destruct (PutMany_loop_Inv HI Hwf Hp) as (Hr & _ & _ & es' & HI' & _).
  rewrite (Get_lookup HI) in Hget.
  destruct (lookup _ es key) as [e|] eqn:Hl; [|discriminate].
  rewrite (Get_lookup HI'), (Has_lookup HI'), Hr.
  rewrite (lookup_app_some _ _ es' _ Hl). split; [exact Hget|reflexivity].
Qed.

Lemma put_many_keeps_reads_witness :
  ReadWrite.Get (fst (ReadWrite.PutMany ex_put1 [ex_blk2; ex_blk3])) ex_k2
  = Ok (blocks.NewBlockWithCid [x61; x62; x63] ex_k2)
  /\ ReadWrite.Has (fst (ReadWrite.PutMany ex_put1 [ex_blk2; ex_blk3])) ex_k2
     = (true, None).
Proof.
  apply (@put_many_keeps_reads ex_put1 [ex_blk2; ex_blk3]
           (fst (ReadWrite.PutMany ex_put1 [ex_blk2; ex_blk3]))
           (snd (ReadWrite.PutMany ex_put1 [ex_blk2; ex_blk3]))
           ex_k2 (blocks.NewBlockWithCid [x61; x62; x63] ex_k2)).
  - destruct (@session_entries ex_file [ex_k1] (ex_ropts false) (ex_wopts 0)
                (ex_open false) [ex_blk1] ex_put1 None)
      as (_ & _ & _ & es & HI & _).
    + reflexivity.
    + apply ex_open_eq.
    + repeat constructor; simpl; lia.
    + vm_compute. reflexivity.
    + exists es. exact HI.
  - repeat constructor; simpl; lia.
  - vm_compute. reflexivity.
  - vm_compute. reflexivity.
Defined.

(** ** The roots of a session *)

Lemma PutEach_append blks : forall b es b' err,
  Inv b es ->
  Forall (fun bl => cid_wf (blocks.Cid bl)) blks ->
  PutEach b blks = (b', err) ->
  exists q, bytes (ReadWrite.f b') = bytes (ReadWrite.f b) ++ q.
Proof.
  induction blks as [|bl rest IH]; intros b es b' err HI Hwf Hp.
  - simpl in Hp. injection Hp as <- <-. exists []. symmetry. apply app_nil_r.
  - inversion Hwf as [|? ? Hbl Hrest]; subst.
    cbn [PutEach] in Hp.
    rewrite (Put_unfinalized b bl (inv_unfinalized HI)) in Hp.
    destruct (ReadWrite.deduplicated b (blocks.Cid bl)).
    + apply (IH _ _ _ _ HI Hrest Hp).
    + destruct (ReadWrite.writeBlock b bl) as [b1 e] eqn:Hwb.
      destruct (writeBlock_Inv bl HI Hbl Hwb) as (_ & _ & _ & (q & Hq & _) & HI1).
      destruct e as [e|].
      * injection Hp as <- <-. exists q. exact Hq.
      * destruct (IH _ _ _ _ HI1 Hrest Hp) as [q2 Hq2].
        exists (q ++ q2). rewrite Hq2, Hq, app_assoc. reflexivity.
Qed.

(** X5. [Roots] on a store gives back the roots [OpenReadWrite] was
    given for the new file, right after opening as after any run of [Put]
    calls, failed or not. *)
Theorem roots_of_session :
  forall (f0 : File) (roots : list Cid) (ropts : carv2.ReadOptions)
         (wopts : carv2.WriteOptions) (b0 : ReadWrite.t)
         (blks : list blocks.Block) (b : ReadWrite.t) (err : option error),
    bytes f0 = [] -> sanePaddings wopts -> Forall cid_wf roots ->
    ReadWrite.OpenReadWrite f0 roots ropts wopts = Ok b0 ->
    Forall (fun bl => cid_wf (blocks.Cid bl)) blks ->
    PutEach b0 blks = (b, err) ->
    ReadWrite.Roots b = Ok roots.
Proof.
  intros f0 roots ropts wopts b0 blks b err Hempty Hsane Hroots Hopen Hwf Hput.
  destruct (@OpenReadWrite_new_Clean f0 roots ropts wopts b0 Hempty Hsane Hopen)
    as [HC0 HL0].
  pose proof (clean_inv HC0) as HI0.
  destruct (@PutEach_entries blks b0 [] b err HI0 Hwf Hput)
    as (_ & _ & Hh & es & HI & _).
  destruct (@PutEach_append blks b0 [] b err HI0 Hwf Hput) as [q Hq].
  pose proof (clean_bytes HC0) as Himg. rewrite image_nil in Himg.
  pose proof (clean_base HC0) as Hbase.
  pose proof (inv_size HI0) as Hs0. pose proof (inv_size HI) as Hs.
  pose proof (inv_end HI) as He. pose proof (inv_cursor HI) as Hcur.
  assert (Hl0 : len (bytes (ReadWrite.f b0))
                = carv2.DataOffset (ReadWrite.header b0)
                  + len (util.LdBytes
                           [carv1.header_cbor
                              {| carv1.Roots := roots; carv1.Version := 1 |}])).
  { rewrite Himg, !len_app, len_zeros. change (len carv2.Pragma) with 11.
    unfold carv2.PragmaSize, carv2.HeaderSize in *. lia. }
  assert (Hcb : len (carv1.header_cbor {| carv1.Roots := roots; carv1.Version := 1 |})
                < 2 ^ 63).
  { unfold util.LdBytes in Hl0. cbn [concat] in Hl0.
    rewrite app_nil_r, len_app in Hl0.
    pose proof (PutUvarint_len
                  (uint64 (len (carv1.header_cbor
                                  {| carv1.Roots := roots; carv1.Version := 1 |})))).
    unfold MaxInt64, carv2.PragmaSize, carv2.HeaderSize in *. lia. }
  unfold ReadWrite.Roots, ReadOnly.Roots, internalio.NewOffsetReadSeeker,
    ReadWrite.asReadOnly, ReadAt.
  cbn [ReadOnly.backing internalio.src internalio.base].
  rewrite (inv_open HI), Z.add_0_r, (int64_small (int64_range _)).
  rewrite Hh. rewrite Hh in He.
  unfold MaxInt64, carv2.PragmaSize, carv2.HeaderSize in *.
  rewrite int64_small by lia.
  replace (carv2.DataOffset (ReadWrite.header b0) <? 0) with false
    by (symmetry; apply Z.ltb_ge; lia).
  cbn [bind].
  assert (Hdrop : drop (carv2.DataOffset (ReadWrite.header b0)) (bytes (ReadWrite.f b))
                  = util.LdBytes
                      [carv1.header_cbor {| carv1.Roots := roots; carv1.Version := 1 |}]
                    ++ q).
  { rewrite Hq, Himg. rewrite (app_assoc carv2.Pragma), <- app_assoc.
    assert (Hl : len (carv2.Pragma
                      ++ zeros (carv2.DataOffset (ReadWrite.header b0) - 11))
                 = carv2.DataOffset (ReadWrite.header b0)).
    { rewrite len_app, len_zeros. change (len carv2.Pragma) with 11. lia. }
    rewrite <- Hl at 1. apply drop_app_len. }
  rewrite Hdrop, ReadHeader_written by assumption. reflexivity.
Qed.

Lemma roots_of_session_witness : ReadWrite.Roots ex_put2 = Ok [ex_k1].
Proof.
  apply (@roots_of_session ex_file [ex_k1] (ex_ropts false) (ex_wopts 0)
           (ex_open false) [ex_blk1; ex_blk3] ex_put2 None).
  - reflexivity.
  - unfold sanePaddings. simpl. lia.
  - repeat constructor; simpl; lia.
  - apply ex_open_eq.
  - repeat constructor; simpl; lia.
  - vm_compute. reflexivity.
Defined.

(** ** [Finalize], whatever it returns *)

(** X6. [Finalize] on a well-formed session closes the file and marks
    the store finalized even when it returns an error: whatever it
    returned, a second [Finalize] returns the called-twice error and
    changes nothing, and [PutMany], [Has], [Get] and [GetSize] return the
    finalized error. *)
Theorem finalize_marks_finalized_even_on_error :
  forall (marshal : list index.IndexRecord -> list (list byte))
         (b b' : ReadWrite.t) (err : option error),
    WellFormed b ->
    ReadWrite.Finalize marshal b = (b', err) ->
    closed (ReadWrite.f b') = true
    /\ ReadWrite.finalized b' = true
    /\ ReadWrite.Finalize marshal b' = (b', Some ErrFinalizeTwice)
    /\ forall (blks : list blocks.Block) (key : Cid),
         ReadWrite.PutMany b' blks = (b', Some errFinalized)
         /\ ReadWrite.Has b' key = (false, Some errFinalized)
         /\ ReadWrite.Get b' key = Err errFinalized
         /\ ReadWrite.GetSize b' key = (0, Some errFinalized).
Proof.
  intros marshal b b' err [es HI] Hf.
  destruct (Finalize_header _ _ (inv_unfinalized HI) Hf) as (Hh & _ & _ & Hc).
  assert (Hds : carv2.DataSize (ReadWrite.header b') <> 0).
  { rewrite Hh. cbn [carv2.DataSize carv2.WithDataSize].
    unfold internalio.Position.
    pose proof (inv_cursor HI) as Hcur. pose proof (inv_end HI) as He.
    pose proof (inv_base HI) as Hb. pose proof (inv_size HI) as Hs.
    unfold MaxInt64 in Hs. rewrite uint64_small by lia. lia. }
  assert (Hfin : ReadWrite.finalized b' = true).
  { unfold ReadWrite.finalized. apply negb_true_iff, Z.eqb_neq. exact Hds. }
  split; [exact Hc|]. split; [exact Hfin|]. split.
  - unfold ReadWrite.Finalize. apply Z.eqb_neq in Hds. rewrite Hds. reflexivity.
  - intros blks key.
    unfold ReadWrite.PutMany, ReadWrite.Has, ReadWrite.Get, ReadWrite.GetSize.
    rewrite Hfin. repeat split.
Qed.

Lemma finalize_marks_finalized_even_on_error_witness :
  snd (ReadWrite.Finalize ex_marshal ex_dying_open) = Some ErrIO
  /\ ReadWrite.Finalize ex_marshal (fst (ReadWrite.Finalize ex_marshal ex_dying_open))
     = (fst (ReadWrite.Finalize ex_marshal ex_dying_open), Some ErrFinalizeTwice).
Proof.
  split; [vm_compute; reflexivity|].
  apply (@finalize_marks_finalized_even_on_error ex_marshal ex_dying_open
           (fst (ReadWrite.Finalize ex_marshal ex_dying_open))
           (snd (ReadWrite.Finalize ex_marshal ex_dying_open))).
  - exists [].
    apply (@OpenReadWrite_new ex_dying_file [ex_k1] (ex_ropts false) (ex_wopts 0));
      vm_compute; reflexivity.
  - vm_compute. reflexivity.
Defined.

(** ** The file of a session, however its blocks repeat *)

(** A run of [Put] calls that all returned leaves the file an image of
    the entries, also when some blocks were skipped as duplicates. *)
Lemma PutEach_Clean_any roots blks : forall b es b',
  Clean roots b es ->
  Forall (fun bl => cid_wf (blocks.Cid bl)) blks ->
  PutEach b blks = (b', None) ->
  ReadWrite.ropts b' = ReadWrite.ropts b
  /\ ReadWrite.wopts b' = ReadWrite.wopts b
  /\ ReadWrite.header b' = ReadWrite.header b
  /\ exists es', Clean roots b' (es ++ es') /\ Forall (fromBlocks blks) es'.
Proof.
  induction blks as [|bl rest IH]; intros b es b' HC Hwf Hp.
  - simpl in Hp. injection Hp as <-.
    repeat (split; [reflexivity|]). exists []. rewrite app_nil_r.
    split; [exact HC|constructor].
  - inversion Hwf as [|? ? Hbl Hrest]; subst.
    pose proof (clean_inv HC) as HI.
    cbn [PutEach] in Hp.
    rewrite (Put_unfinalized b bl (inv_unfinalized HI)) in Hp.
    assert (Hmono : forall e, fromBlocks rest e -> fromBlocks (bl :: rest) e).
    { intros e (x & Hin & Hx). exists x. split; [right; exact Hin|exact Hx]. }
    destruct (ReadWrite.deduplicated b (blocks.Cid bl)).
    + destruct (IH _ _ _ HC Hrest Hp) as (Hr & Hw & Hh & es' & HC' & Hall).
      repeat (split; [assumption|]). exists es'. split; [exact HC'|].
      apply (Forall_impl _ Hmono Hall).
    + destruct (ReadWrite.writeBlock b bl) as [b1 [e|]] eqn:Hwb; [discriminate|].
      destruct (writeBlock_Inv bl HI Hbl Hwb) as (Hr & Hw & Hh & _ & _).
      pose proof (writeBlock_Clean bl HC Hbl Hwb) as HC1.
      destruct (IH _ _ _ HC1 Hrest Hp) as (Hr' & Hw' & Hh' & es' & HC' & Hall).
      split; [congruence|]. split; [congruence|]. split; [congruence|].
      exists (new_entry b bl :: es').
      replace (es ++ new_entry b bl :: es') with ((es ++ [new_entry b bl]) ++ es')
        by (rewrite <- app_assoc; reflexivity).
      split; [exact HC'|]. constructor.
      * exists bl. split; [left; reflexivity|]. split; reflexivity.
      * apply (Forall_impl _ Hmono Hall).
Qed.

(** A new file and a run of [Put] calls that all returned. *)
Lemma session_Clean f0 roots ropts wopts b0 blks b :
  bytes f0 = [] -> sanePaddings wopts ->
  ReadWrite.OpenReadWrite f0 roots ropts wopts = Ok b0 ->
  Forall (fun bl => cid_wf (blocks.Cid bl)) blks ->
  PutEach b0 blks = (b, None) ->
  ReadWrite.ropts b = ropts /\ ReadWrite.wopts b = wopts
  /\ ReadWrite.header b = openHeader wopts
  /\ Layout b
  /\ exists es, Clean roots b es /\ Forall (fromBlocks blks) es.
Proof.
  intros Hempty Hsane Hopen Hwf Hput.
  destruct (@OpenReadWrite_new_Clean f0 roots ropts wopts b0 Hempty Hsane Hopen)
    as [HC0 HL0].
  destruct (OpenReadWrite_new _ _ _ _ Hempty Hopen) as (_ & Hr0 & Hw0 & Hh0 & _).
  destruct (@PutEach_Clean_any roots blks b0 [] b HC0 Hwf Hput)
    as (Hr & Hw & Hh & es & HC & Hall).
  destruct (@PutEach_session blks b0 [] b None (clean_inv HC0) HL0 Hwf Hput)
    as (_ & _ & HL).
  split; [congruence|]. split; [congruence|]. split; [congruence|].
  split; [exact HL|]. exists es. split; [exact HC|exact Hall].
Qed.

(** ** Resumption gives the session back *)

(** X7. Reopening the file of a session whose [Put] calls all returned
    (duplicates or not), with the roots and the data padding of the
    session, gives back the session: the index (keys and offsets, in
    insertion order) and the data writer are those the session had, and
    the file handle is returned as it was given, nothing written. *)
Theorem resume_restores_session :
  forall (f0 : File) (roots : list Cid) (ropts : carv2.ReadOptions)
         (wopts : carv2.WriteOptions) (b0 : ReadWrite.t)
         (blks : list blocks.Block) (b : ReadWrite.t)
         (file : File) (ropts' : carv2.ReadOptions) (wopts' : carv2.WriteOptions),
    bytes f0 = [] -> sanePaddings wopts -> Forall cid_wf roots ->
    ReadWrite.OpenReadWrite f0 roots ropts wopts = Ok b0 ->
    Forall (fun bl => cid_wf (blocks.Cid bl)) blks ->
    PutEach b0 blks = (b, None) ->
    bytes file = bytes (ReadWrite.f b) -> closed file = false ->
    sanePaddings wopts' -> carv2.DataPadding wopts' = carv2.DataPadding wopts ->
    ReadWrite.OpenReadWrite file roots ropts' wopts'
    = Ok {| ReadWrite.f := file;
            ReadWrite.dataWriter := ReadWrite.dataWriter b;
            ReadWrite.idx := ReadWrite.idx b;
            ReadWrite.header := openHeader wopts';
            ReadWrite.ropts := ropts';
            ReadWrite.wopts := wopts' |}.
Proof.
  intros f0 roots ropts wopts b0 blks b file ropts' wopts'
    Hempty Hsane Hroots Hopen Hwf Hput Hbytes Hcl Hsane' Hpad.
  destruct (@session_Clean f0 roots ropts wopts b0 blks b Hempty Hsane Hopen Hwf Hput)
    as (_ & _ & Hh & HL & es & HC & _).
  assert (Hdo : carv2.DataOffset (openHeader wopts')
                = carv2.DataOffset (ReadWrite.header b)).
  { rewrite Hh.
    destruct (openHeader_sane Hsane) as (-> & _).
    destruct (openHeader_sane Hsane') as (-> & _). rewrite Hpad. reflexivity. }
  rewrite (@OpenReadWrite_resume roots b es file ropts' wopts' HC HL Hroots Hbytes Hcl Hdo).
  unfold resumed. f_equal. f_equal.
  pose proof (inv_writer (clean_inv HC)) as Hw.
  destruct (ReadWrite.dataWriter b) as [wb off]. cbn in *. rewrite Hw. reflexivity.
Qed.

Lemma resume_restores_session_witness :
  ReadWrite.OpenReadWrite (ReadWrite.f ex_put2) [ex_k1] (ex_ropts false) (ex_wopts 0)
  = Ok ex_put2.
Proof.
  rewrite (@resume_restores_session ex_file [ex_k1] (ex_ropts false) (ex_wopts 0)
             (ex_open false) [ex_blk1; ex_blk3] ex_put2
             (ReadWrite.f ex_put2) (ex_ropts false) (ex_wopts 0)).
  - reflexivity.
  - reflexivity.
  - unfold sanePaddings. simpl. lia.
  - repeat constructor; simpl; lia.
  - apply ex_open_eq.
  - repeat constructor; simpl; lia.
  - vm_compute. reflexivity.
  - reflexivity.
  - reflexivity.
  - unfold sanePaddings. simpl. lia.
  - reflexivity.
Defined.

(** ** The file [Finalize] leaves *)

Lemma drop_image roots dataOffset es :
  carv2.PragmaSize + carv2.HeaderSize <= dataOffset ->
  drop (carv2.PragmaSize + carv2.HeaderSize) (image roots dataOffset es)
  = zeros (dataOffset - (carv2.PragmaSize + carv2.HeaderSize))
    ++ payloadHeader roots ++ concat (map entry_section es).
Proof.
  unfold carv2.PragmaSize, carv2.HeaderSize. intros Hd. unfold image.
  replace (11 + 40) with (len carv2.Pragma + 40) by reflexivity.
  rewrite drop_app_r by (change (len carv2.Pragma) with 11; lia).
  replace (len carv2.Pragma + 40 - len carv2.Pragma) with 40 by lia.
  unfold carv2.PragmaSize.
  rewrite drop_app_l by (rewrite len_zeros; lia).
  rewrite drop_zeros by lia.
  replace (dataOffset - 11 - 40) with (dataOffset - (11 + 40)) by lia.
  reflexivity.
Qed.

(** X8. The file of a finalized session.  After a new file was opened,
    blocks with distinct keys were put and [Finalize] returned without
    error, having written a non-empty index, the file is, in this order:
    the pragma; the 40-byte header holding the data offset (pragma and
    header sizes plus the data padding), the data size (the payload
    header and all sections) and the index offset (data offset plus data
    size plus index padding); the data padding in zeros; the payload
    header; the sections of the blocks in the order they were put; the
    index padding in zeros; and the index. *)
Theorem finalized_file_layout :
  forall (f0 : File) (roots : list Cid) (ropts : carv2.ReadOptions)
         (wopts : carv2.WriteOptions) (b0 : ReadWrite.t)
         (blks : list blocks.Block) (b : ReadWrite.t)
         (marshal : list index.IndexRecord -> list (list byte))
         (b' : ReadWrite.t),
    bytes f0 = [] -> sanePaddings wopts ->
    ReadWrite.OpenReadWrite f0 roots ropts wopts = Ok b0 ->
    Forall (fun bl => cid_wf (blocks.Cid bl)) blks ->
    distinctKeys (carv2.BlockstoreUseWholeCIDs ropts) (map blocks.Cid blks) ->
    PutEach b0 blks = (b, None) ->
    concat (marshal (flatten (ReadWrite.idx b))) <> [] ->
    ReadWrite.Finalize marshal b = (b', None) ->
    bytes (ReadWrite.f b')
    = carv2.Pragma
      ++ concat
           (carv2.header_chunks
              {| carv2.Characteristics := (0, 0);
                 carv2.DataOffset :=
                   carv2.PragmaSize + carv2.HeaderSize + carv2.DataPadding wopts;
                 carv2.DataSize :=
                   len (util.LdBytes
                          [carv1.header_cbor
                             {| carv1.Roots := roots; carv1.Version := 1 |}])
                   + len (concat (map (fun bl => section (blocks.Cid bl)
                                                   (blocks.RawData bl)) blks));
                 carv2.IndexOffset :=
                   carv2.PragmaSize + carv2.HeaderSize + carv2.DataPadding wopts
                   + (len (util.LdBytes
                             [carv1.header_cbor
                                {| carv1.Roots := roots; carv1.Version := 1 |}])
                      + len (concat (map (fun bl => section (blocks.Cid bl)
                                                      (blocks.RawData bl)) blks)))
                   + carv2.IndexPadding wopts |})
      ++ zeros (carv2.DataPadding wopts)
      ++ util.LdBytes [carv1.header_cbor {| carv1.Roots := roots; carv1.Version := 1 |}]
      ++ concat (map (fun bl => section (blocks.Cid bl) (blocks.RawData bl)) blks)
      ++ zeros (carv2.IndexPadding wopts)
      ++ concat (marshal (flatten (ReadWrite.idx b))).
Proof.
  intros f0 roots ropts wopts b0 blks b marshal b'
    Hempty Hsane Hopen Hwf Hd Hput Hidx Hfin.
  destruct (@OpenReadWrite_new_Clean f0 roots ropts wopts b0 Hempty Hsane Hopen)
    as [HC0 HL0].
  destruct (OpenReadWrite_new _ _ _ _ Hempty Hopen) as (_ & Hr0 & _ & Hh0 & _).
  assert (Hd0 : distinctKeys (carv2.BlockstoreUseWholeCIDs (ReadWrite.ropts b0))
                  (map entry_key [] ++ map blocks.Cid blks))
    by (rewrite Hr0; exact Hd).
  destruct (PutEach_Clean HC0 Hwf Hd0 Hput) as (_ & Hh & es & HC & Hk & Hdat).
  cbn [app] in HC.
  destruct (entries_of_blocks es blks Hk Hdat) as [Hsec _].
  pose proof (clean_inv HC) as HI.
  pose proof (inv_unfinalized HI) as Hds0.
  pose proof (inv_end HI) as He. pose proof (inv_size HI) as Hs.
  pose proof (inv_cursor HI) as Hcur.
  destruct (openHeader_sane Hsane) as (Hdo & Hio & Hch).
  destruct Hsane as (Hp0 & Hip0 & Hsum).
  rewrite Hh, Hh0 in He.
  assert (Hbase : carv2.PragmaSize <= carv2.DataOffset (ReadWrite.header b)).
  { rewrite Hh, Hh0, Hdo. unfold carv2.PragmaSize, carv2.HeaderSize. lia. }
  pose proof (len_image roots es Hbase) as Hli.
  rewrite <- (clean_bytes HC) in Hli. rewrite Hh, Hh0, Hdo in Hli.
  rewrite Hdo in He.
  assert (Hoff : internalio.offset (ReadWrite.dataWriter b)
                 = len (payloadHeader roots)
                   + len (concat (map (fun bl => section (blocks.Cid bl)
                                                   (blocks.RawData bl)) blks))).
  { rewrite <- Hsec. lia. }
  assert (Hfh : finalHeader b
                = {| carv2.Characteristics := (0, 0);
                     carv2.DataOffset :=
                       carv2.PragmaSize + carv2.HeaderSize + carv2.DataPadding wopts;
                     carv2.DataSize := internalio.offset (ReadWrite.dataWriter b);
                     carv2.IndexOffset :=
                       carv2.PragmaSize + carv2.HeaderSize + carv2.DataPadding wopts
                       + internalio.offset (ReadWrite.dataWriter b)
                       + carv2.IndexPadding wopts |}).
  { unfold finalHeader, carv2.WithDataSize, internalio.Position.
    rewrite Hh, Hh0, Hch, Hdo, Hio.
    unfold MaxInt64, carv2.PragmaSize, carv2.HeaderSize in *.
    rewrite (@uint64_small (internalio.offset (ReadWrite.dataWriter b))) by lia.
    rewrite uint64_small by lia.
    f_equal. lia. }
  (* the two writes *)
  unfold ReadWrite.Finalize in Hfin. rewrite Hds0 in Hfin. cbn [Z.eqb negb] in Hfin.
  cbn [ReadWrite.f ReadWrite.idx ReadWrite.header ReadWrite.set_header] in Hfin.
  fold (finalHeader b) in Hfin.
  unfold ReadWrite.index_WriteTo, carv2.Header_WriteTo in Hfin.
  destruct (internalio.WriteEach (ReadWrite.f b) _ _) as [[f1 w1] [e|]] eqn:H1;
    [discriminate|].
  destruct (internalio.WriteEach f1 _ _) as [[f2 w2] e2] eqn:H2.
  injection Hfin as <- ->.
  apply WriteEach_ok in H1; [|cbn; lia].
  apply WriteEach_ok in H2; [|cbn; lia].
  destruct H1 as (_ & _ & _ & Hb1 & _ & Hfit).
  destruct H2 as (_ & _ & _ & Hb2 & _).
  cbn [internalio.NewOffsetWriter internalio.wbase internalio.offset] in Hb1, Hb2, Hfit.
  rewrite Z.add_0_r in Hb1, Hb2, Hfit.
  rewrite (int64_small (int64_range _)) in Hb1, Hfit.
  change (int64 carv2.PragmaSize) with carv2.PragmaSize in Hb2.
  destruct Hfit as (_ & Hio0 & _).
  { intros Hnil. apply Hidx. rewrite Hnil. reflexivity. }
  rewrite Hfh in Hb1, Hio0. cbn [carv2.IndexOffset] in Hb1, Hio0.
  pose proof (len_nonneg (concat (map entry_section es))) as Hsec0.
  pose proof (header_section_len {| carv1.Roots := roots; carv1.Version := 1 |}) as Hh18.
  unfold MaxInt64, carv2.PragmaSize, carv2.HeaderSize in *.
  assert (Hio1 : 11 + 40 + carv2.DataPadding wopts
                 + internalio.offset (ReadWrite.dataWriter b)
                 + carv2.IndexPadding wopts < 2 ^ 63).
  { destruct (Z.lt_ge_cases (11 + 40 + carv2.DataPadding wopts
                             + internalio.offset (ReadWrite.dataWriter b)
                             + carv2.IndexPadding wopts) (2 ^ 63)) as [Hlt|Hge];
      [exact Hlt|].
    exfalso. unfold int64 in Hio0.
    replace (11 + 40 + carv2.DataPadding wopts
             + internalio.offset (ReadWrite.dataWriter b)
             + carv2.IndexPadding wopts + 2 ^ 63)
      with (11 + 40 + carv2.DataPadding wopts
            + internalio.offset (ReadWrite.dataWriter b)
            + carv2.IndexPadding wopts - 2 ^ 63 + 1 * 2 ^ 64) in Hio0 by lia.
    rewrite Z.mod_add in Hio0 by lia. rewrite Z.mod_small in Hio0 by lia. lia. }
  rewrite int64_small in Hb1 by lia.
  rewrite splice_gap in Hb1 by (try exact Hidx; lia).
  replace (11 + 40 + carv2.DataPadding wopts
           + internalio.offset (ReadWrite.dataWriter b)
           + carv2.IndexPadding wopts - len (bytes (ReadWrite.f b)))
    with (carv2.IndexPadding wopts) in Hb1 by lia.
  cbn [ReadWrite.f ReadWrite.set_f Close bytes].
  rewrite Hb2, Hb1.
  pose proof (len_header_chunks (finalHeader b)) as Hlc.
  unfold carv2.HeaderSize in Hlc.
  pose proof (len_nonneg (zeros (carv2.IndexPadding wopts)
                          ++ concat (marshal (flatten (ReadWrite.idx b))))) as Htail.
  rewrite splice_inside by (rewrite ?Hlc, ?(len_app (bytes (ReadWrite.f b))); lia).
  rewrite Hlc.
  rewrite take_app_l by lia.
  rewrite drop_app_l by lia.
  rewrite (clean_bytes HC), Hh, Hh0, Hdo.
  change (11 + 40) with (carv2.PragmaSize + carv2.HeaderSize).
  rewrite drop_image by (unfold carv2.PragmaSize, carv2.HeaderSize; lia).
  unfold image at 1.
  change 11 with (len carv2.Pragma) at 1. rewrite take_app_len.
  rewrite Hfh, Hoff, <- Hsec.
  unfold carv2.PragmaSize, carv2.HeaderSize.
  replace (11 + 40 + carv2.DataPadding wopts - (11 + 40))
    with (carv2.DataPadding wopts) by lia.
  rewrite <- !app_assoc. reflexivity.
Qed.

Lemma finalized_file_layout_witness :
  bytes (ReadWrite.f (fst (ReadWrite.Finalize ex_marshal ex_put2)))
  = carv2.Pragma
    ++ concat
         (carv2.header_chunks
            {| carv2.Characteristics := (0, 0);
               carv2.DataOffset :=
                 carv2.PragmaSize + carv2.HeaderSize + carv2.DataPadding (ex_wopts 0);
               carv2.DataSize :=
                 len (util.LdBytes
                        [carv1.header_cbor
                           {| carv1.Roots := [ex_k1]; carv1.Version := 1 |}])
                 + len (concat (map (fun bl => section (blocks.Cid bl)
                                                 (blocks.RawData bl))
                                  [ex_blk1; ex_blk3]));
               carv2.IndexOffset :=
                 carv2.PragmaSize + carv2.HeaderSize + carv2.DataPadding (ex_wopts 0)
                 + (len (util.LdBytes
                           [carv1.header_cbor
                              {| carv1.Roots := [ex_k1]; carv1.Version := 1 |}])
                    + len (concat (map (fun bl => section (blocks.Cid bl)
                                                    (blocks.RawData bl))
                                     [ex_blk1; ex_blk3])))
                 + carv2.IndexPadding (ex_wopts 0) |})
    ++ zeros (carv2.DataPadding (ex_wopts 0))
    ++ util.LdBytes [carv1.header_cbor {| carv1.Roots := [ex_k1]; carv1.Version := 1 |}]
    ++ concat (map (fun bl => section (blocks.Cid bl) (blocks.RawData bl))
                 [ex_blk1; ex_blk3])
    ++ zeros (carv2.IndexPadding (ex_wopts 0))
    ++ concat (ex_marshal (flatten (ReadWrite.idx ex_put2))).
Proof.
  apply (@finalized_file_layout ex_file [ex_k1] (ex_ropts false) (ex_wopts 0)
           (ex_open false) [ex_blk1; ex_blk3] ex_put2 ex_marshal
           (fst (ReadWrite.Finalize ex_marshal ex_put2))).
  - reflexivity.
  - unfold sanePaddings. simpl. lia.
  - apply ex_open_eq.
  - repeat constructor; simpl; lia.
  - simpl. repeat split; repeat constructor.
  - vm_compute. reflexivity.
  - vm_compute. discriminate.
  - vm_compute. reflexivity.
Defined.

(** ** Resumption, step by step *)

(** [resumeWithRoots] is the check of the version, then the check of the
    header, then the scan. *)
Lemma resumeWithRoots_steps b roots :
  ReadWrite.resumeWithRoots b roots
  = match (r <- internalio.NewOffsetReadSeeker
                  (ReadWrite.fileReader (ReadWrite.f b)) 0 ;;
           carv2.ReadVersion r) with
    | Err err => (b, Some err)
    | Ok version =>
        if negb (version =? 2) then (b, Some (ErrResumeVersion version))
        else
          match resume_check b with
          | (b1, Some err) => (b1, Some err)
          | (b1, None) => resume_scan b1 roots
          end
    end.
Proof. reflexivity. Qed.

(** [OpenReadWrite] on a file that is not empty. *)
Lemma OpenReadWrite_nonempty file roots ropts wopts :
  bytes file <> [] ->
  ReadWrite.OpenReadWrite file roots ropts wopts
  = match ReadWrite.resumeWithRoots
            {| ReadWrite.f := file;
               ReadWrite.dataWriter :=
                 internalio.NewOffsetWriter
                   (int64 (carv2.DataOffset (openHeader wopts)));
               ReadWrite.idx := newInsertionIndex;
               ReadWrite.header := openHeader wopts;
               ReadWrite.ropts := ropts;
               ReadWrite.wopts := wopts |} roots with
    | (_, Some err) => Err err
    | (rwbs, None) => Ok rwbs
    end.
Proof.
  intros Hne. unfold ReadWrite.OpenReadWrite. fold (openHeader wopts).
  replace (len (bytes file) =? 0) with false; [reflexivity|].
  symmetry. apply Z.eqb_neq. intros Hl. apply Hne, len_zero_nil, Hl.
Qed.

(** The scan over a file in which every section is complete. *)
Lemma resume_scan_Clean rwbs roots es :
  closed (ReadWrite.f rwbs) = false ->
  carv2.PragmaSize <= carv2.DataOffset (ReadWrite.header rwbs) ->
  bytes (ReadWrite.f rwbs)
  = image roots (carv2.DataOffset (ReadWrite.header rwbs)) es ->
  len (bytes (ReadWrite.f rwbs)) <= MaxInt64 ->
  Forall cid_wf roots ->
  Forall (fun e => cid_wf (entry_key e)) es ->
  consecutive (len (payloadHeader roots)) es ->
  resume_scan rwbs roots
  = (ReadWrite.set_dataWriter
       (ReadWrite.set_idx rwbs (ReadWrite.idx rwbs ++ map entry_record es))
       (internalio.Seek (ReadWrite.dataWriter rwbs)
          (len (payloadHeader roots) + len (concat (map entry_section es)))),
     None).
Proof.
  intros Hcl Hbase Himg Hs Hroots Hkeys Hcons.
  pose proof (len_image roots es Hbase) as Hli. rewrite <- Himg in Hli.
  pose proof (len_nonneg (concat (map entry_section es))) as Hs0.
  pose proof (header_section_len {| carv1.Roots := roots; carv1.Version := 1 |}) as Hh18.
  pose proof (header_cbor_len {| carv1.Roots := roots; carv1.Version := 1 |}) as Hh17.
  assert (Hhl : len (payloadHeader roots)
                = len (varint.PutUvarint
                         (uint64 (len (carv1.header_cbor
                                         {| carv1.Roots := roots; carv1.Version := 1 |}))))
                  + len (carv1.header_cbor
                           {| carv1.Roots := roots; carv1.Version := 1 |})).
  { unfold util.LdBytes. cbn [concat]. rewrite app_nil_r, len_app. reflexivity. }
  pose proof (PutUvarint_len
                (uint64 (len (carv1.header_cbor
                                {| carv1.Roots := roots; carv1.Version := 1 |})))) as Hv.
  unfold MaxInt64, carv2.PragmaSize in *.
  unfold resume_scan.
  unfold internalio.NewOffsetReadSeeker, ReadWrite.asReadOnly, ReadAt.
  cbn [ReadOnly.backing internalio.src internalio.base].
  rewrite Hcl, Z.add_0_r, (int64_small (int64_range _)).
  rewrite int64_small by lia.
  replace (carv2.DataOffset (ReadWrite.header rwbs) <? 0) with false
    by (symmetry; apply Z.ltb_ge; lia).
  cbn [bind].
  assert (Hdrop : drop (carv2.DataOffset (ReadWrite.header rwbs))
                    (bytes (ReadWrite.f rwbs))
                  = payloadHeader roots ++ concat (map entry_section es)).
  { rewrite Himg. unfold image. rewrite app_assoc.
    assert (Hl : len (carv2.Pragma
                      ++ zeros (carv2.DataOffset (ReadWrite.header rwbs) - 11))
                 = carv2.DataOffset (ReadWrite.header rwbs)).
    { rewrite len_app, len_zeros. change (len carv2.Pragma) with 11. lia. }
    unfold carv2.PragmaSize.
    rewrite <- Hl at 1. apply drop_app_len. }
  rewrite Hdrop.
  rewrite ReadHeader_written by (try assumption; lia).
  rewrite Matches_refl. cbn [negb].
  unfold carv1.HeaderSize.
  rewrite uint64_small by lia. rewrite int64_small by lia.
  replace (len (payloadHeader roots))
    with (len (payloadHeader roots) + len (concat (map entry_section (@nil Entry))))
    at 1 by (cbn [map concat]; change (len (@nil byte)) with 0; lia).
  rewrite (@resume_loop_sections roots es).
  - cbn [app ReadWrite.set_dataWriter ReadWrite.set_idx ReadWrite.f ReadWrite.idx
           ReadWrite.dataWriter ReadWrite.header ReadWrite.ropts ReadWrite.wopts].
    reflexivity.
  - pose proof (sections_length es) as Hsl.
    assert (Hle : (List.length (concat (map entry_section es))
                   <= List.length (bytes (ReadWrite.f rwbs)))%nat).
    { rewrite Himg. unfold image. rewrite !length_app. lia. }
    lia.
  - exact Hcl.
  - unfold carv2.PragmaSize. lia.
  - cbn [app]. exact Himg.
  - unfold MaxInt64. lia.
  - exact Hkeys.
  - cbn [map concat]. change (len (@nil byte)) with 0. rewrite Z.add_0_r.
    exact Hcons.
Qed.

(** Writes on an open file whose device completes them, within the size
    a file may have, all complete. *)
Lemma WriteEach_complete d : forall f w,
  closed f = false ->
  Forall (fun x => x = None) (firstn (List.length d) (faults f)) ->
  0 <= internalio.wbase w < 2 ^ 63 -> 0 <= internalio.offset w ->
  internalio.wbase w + internalio.offset w + len (concat d) <= MaxInt64 ->
  exists f' w', internalio.WriteEach f w d = (f', w', None).
Proof.
  induction d as [|s rest IH]; intros f w Hcl Hplan Hb Ho Hfit.
  - exists f, w. reflexivity.
  - cbn [concat] in Hfit. rewrite len_app in Hfit.
    pose proof (len_nonneg s) as Hs0. pose proof (len_nonneg (concat rest)) as Hr0.
    unfold MaxInt64 in *.
    cbn [internalio.WriteEach]. unfold internalio.Write, WriteAt, MaxInt64.
    rewrite Hcl. rewrite int64_small by lia.
    replace (internalio.wbase w + internalio.offset w <? 0) with false
      by (symmetry; apply Z.ltb_ge; lia).
    replace (2 ^ 63 - 1 <? internalio.wbase w + internalio.offset w + len s) with false
      by (symmetry; apply Z.ltb_ge; lia).
    assert (Hnext : exists plan,
               (match faults f with
                | Some n :: plan0 =>
                    ({| bytes := splice (bytes f)
                                   (internalio.wbase w + internalio.offset w)
                                   (take n s);
                        closed := false; faults := plan0 |},
                     (len (take n s), Some ErrIO))
                | plan0 =>
                    ({| bytes := splice (bytes f)
                                   (internalio.wbase w + internalio.offset w) s;
                        closed := false; faults := tl plan0 |},
                     (len s, None))
                end)
               = ({| bytes := splice (bytes f)
                                (internalio.wbase w + internalio.offset w) s;
                     closed := false; faults := plan |}, (len s, None))
               /\ Forall (fun x => x = None) (firstn (List.length rest) plan)).
    { destruct (faults f) as [|[n|] plan0] eqn:Hf.
      - exists []. split; [reflexivity|]. rewrite firstn_nil. constructor.
      - cbn [List.length firstn] in Hplan. inversion Hplan; discriminate.
      - exists plan0. split; [reflexivity|].
        cbn [List.length firstn] in Hplan. inversion Hplan; assumption. }
    destruct Hnext as (plan & Heq & Hplan').
    rewrite Heq.
    apply IH; cbn [closed faults internalio.wbase internalio.offset].
    + reflexivity.
    + exact Hplan'.
    + exact Hb.
    + rewrite int64_small by lia. lia.
    + rewrite int64_small by lia. lia.
Qed.

(** ** Resuming a finalized file *)

(** Writing a header over a file and cutting the file where it ended
    before leaves the file with that header in place. *)
Lemma take_splice_header old q chunks :
  carv2.PragmaSize + carv2.HeaderSize <= len old ->
  len chunks = carv2.HeaderSize ->
  take (len old) (splice (old ++ q) carv2.PragmaSize chunks)
  = take carv2.PragmaSize old ++ chunks
    ++ drop (carv2.PragmaSize + carv2.HeaderSize) old.
Proof.
  unfold carv2.PragmaSize, carv2.HeaderSize. intros Hlen Hc.
  pose proof (len_nonneg q) as Hq.
  rewrite splice_inside by (rewrite ?len_app; lia).
  rewrite Hc. rewrite (@take_app_l _ 11 old q) by lia.
  rewrite (@drop_app_l _ (11 + 40) old q) by lia.
  rewrite !app_assoc.
  assert (Hl : len ((take 11 old ++ chunks) ++ drop (11 + 40) old) = len old).
  { rewrite !len_app, len_take, len_drop. lia. }
  rewrite <- Hl at 1. apply take_app_len.
Qed.

(** A blank header written over a header gives back the file with a
    blank header region. *)
Lemma splice_blank_header old chunks :
  carv2.PragmaSize + carv2.HeaderSize <= len old ->
  len chunks = carv2.HeaderSize ->
  take carv2.HeaderSize (drop carv2.PragmaSize old) = zeros carv2.HeaderSize ->
  splice (take carv2.PragmaSize old ++ chunks
          ++ drop (carv2.PragmaSize + carv2.HeaderSize) old)
    carv2.PragmaSize (zeros carv2.HeaderSize)
  = old.
Proof.
  unfold carv2.PragmaSize, carv2.HeaderSize. intros Hlen Hc Hblank.
  assert (Ht : len (take 11 old) = 11) by (rewrite len_take; lia).
  assert (Hz : len (zeros 40) = 40) by (rewrite len_zeros; lia).
  rewrite splice_inside
    by (rewrite ?Hz, ?len_app, ?Ht, ?Hc, ?len_drop; lia).
  rewrite Hz.
  rewrite <- Ht at 1. rewrite take_app_len.
  assert (Hl : len (take 11 old ++ chunks) = 11 + 40) by (rewrite len_app; lia).
  assert (Hd : drop (11 + 40) (take 11 old ++ chunks ++ drop (11 + 40) old)
               = drop (11 + 40) old).
  { rewrite app_assoc. rewrite <- Hl at 1. apply drop_app_len. }
  rewrite Hd, <- Hblank.
  rewrite <- (@drop_drop _ 40 11 old) by lia.
  rewrite take_drop. apply take_drop.
Qed.

(** X9. Resuming a finalized file.  A new file was opened, blocks were
    put, every [Put] returning, and [Finalize] returned without error.
    Reopening that file with the roots and the data padding of the
    session, on a device that completes the next two writes, succeeds;
    it cuts the index off and blanks the header, so that the file is,
    byte for byte, the file of the session before [Finalize]; and the
    store has the index and the data writer the session had. *)
Theorem resume_finalized_file :
  forall (f0 : File) (roots : list Cid) (ropts : carv2.ReadOptions)
         (wopts : carv2.WriteOptions) (b0 : ReadWrite.t)
         (blks : list blocks.Block) (b : ReadWrite.t)
         (marshal : list index.IndexRecord -> list (list byte))
         (b' : ReadWrite.t)
         (file : File) (ropts' : carv2.ReadOptions) (wopts' : carv2.WriteOptions),
    bytes f0 = [] -> sanePaddings wopts -> Forall cid_wf roots ->
    ReadWrite.OpenReadWrite f0 roots ropts wopts = Ok b0 ->
    Forall (fun bl => cid_wf (blocks.Cid bl)) blks ->
    PutEach b0 blks = (b, None) ->
    ReadWrite.Finalize marshal b = (b', None) ->
    bytes file = bytes (ReadWrite.f b') -> closed file = false ->
    Forall (fun x => x = None) (firstn 2 (faults file)) ->
    sanePaddings wopts' -> carv2.DataPadding wopts' = carv2.DataPadding wopts ->
    ReadWrite.OpenReadWrite file roots ropts' wopts'
    = Ok {| ReadWrite.f :=
              {| bytes := bytes (ReadWrite.f b); closed := false;
                 faults := skipn 2 (faults file) |};
            ReadWrite.dataWriter := ReadWrite.dataWriter b;
            ReadWrite.idx := ReadWrite.idx b;
            ReadWrite.header := openHeader wopts';
            ReadWrite.ropts := ropts';
            ReadWrite.wopts := wopts' |}.
Proof.
  intros f0 roots ropts wopts b0 blks b marshal b' file ropts' wopts'
    Hempty Hsane Hroots Hopen Hwf Hput Hfin Hbytes Hcl Hplan Hsane' Hpad.
  destruct (@session_Clean f0 roots ropts wopts b0 blks b Hempty Hsane Hopen Hwf Hput)
    as (_ & _ & Hh & HL & es & HC & _).
  pose proof (clean_inv HC) as HI.
  destruct (Finalize_file marshal HI HL Hfin) as [q Hq].
  destruct (Finalize_on_file marshal HI HL Hfin) as [Hpragma Hhdr].
  destruct (finalHeader_fields HI HL) as (_ & Hfdo & Hfds & Hfdsr & _).
  assert (Hdo : carv2.DataOffset (openHeader wopts')
                = carv2.DataOffset (ReadWrite.header b)).
  { rewrite Hh.
    destruct (openHeader_sane Hsane) as (-> & _).
    destruct (openHeader_sane Hsane') as (-> & _). rewrite Hpad. reflexivity. }
  pose proof (inv_end HI) as He. pose proof (inv_size HI) as Hs.
  pose proof (inv_cursor HI) as Hcur. pose proof (inv_writer HI) as Hw.
  destruct (lay_offsets HL) as (Ho1 & Ho2 & Ho3).
  pose proof (len_header_chunks (finalHeader b)) as Hlc.
  assert (Hold : carv2.PragmaSize + carv2.HeaderSize <= len (bytes (ReadWrite.f b)))
    by lia.
  rewrite OpenReadWrite_nonempty
    by (rewrite Hbytes; intros Hnil; rewrite Hnil in Hpragma; discriminate).
  rewrite resumeWithRoots_steps.
  cbn [ReadWrite.f].
  rewrite fileReader_at by (try exact Hcl; lia).
  cbn [bind]. change (drop 0 (bytes file)) with (bytes file).
  rewrite (ReadVersion_file (bytes file)) by (rewrite Hbytes; exact Hpragma).
  cbn [Z.eqb Pos.eqb negb].
  (* the header check: truncate, then blank the header *)
  unfold resume_check. cbn [ReadWrite.f ReadWrite.header].
  rewrite fileReader_at by (try exact Hcl; unfold carv2.PragmaSize; lia).
  cbn [bind]. fold (headerOnFile (bytes file)).
  rewrite Hbytes, Hhdr, Hfdo, Hfds, Hdo.
  replace (carv2.DataOffset (ReadWrite.header b) =? 0) with false
    by (symmetry; apply Z.eqb_neq; unfold carv2.PragmaSize, carv2.HeaderSize in *; lia).
  rewrite Z.eqb_refl.
  replace (internalio.offset (ReadWrite.dataWriter b) =? 0) with false
    by (symmetry; apply Z.eqb_neq; lia).
  cbn [negb].
  unfold MaxInt64 in Hs.
  rewrite uint64_small by (unfold carv2.PragmaSize, carv2.HeaderSize in *; lia).
  rewrite int64_small by (unfold carv2.PragmaSize, carv2.HeaderSize in *; lia).
  rewrite He.
  unfold Truncate. rewrite Hcl.
  replace (len (bytes (ReadWrite.f b)) <? 0) with false
    by (symmetry; apply Z.ltb_ge;
        unfold carv2.PragmaSize, carv2.HeaderSize in *; lia).
  rewrite Hbytes, Hq.
  rewrite take_splice_header by assumption.
  rewrite zeros_neg.
  2:{ pose proof (len_nonneg q) as Hq0.
      assert (Hlq : len (bytes (ReadWrite.f b) ++ q)
                    <= len (splice (bytes (ReadWrite.f b) ++ q) carv2.PragmaSize
                              (concat (carv2.header_chunks (finalHeader b))))).
      { rewrite splice_inside
          by (rewrite ?len_app; unfold carv2.PragmaSize, carv2.HeaderSize in *; lia).
        rewrite !len_app, len_take, len_drop, len_app.
        unfold carv2.PragmaSize, carv2.HeaderSize in *. lia. }
      rewrite len_app in Hlq. lia. }
  rewrite app_nil_r.
  unfold ReadWrite.unfinalize, carv2.Header_WriteTo.
  cbn [ReadWrite.f ReadWrite.set_f].
  match goal with
  | |- context [internalio.WriteEach ?f1 ?w1 ?d] =>
      destruct (@WriteEach_complete d f1 w1) as (f2 & w2 & Hwr)
  end.
  { reflexivity. }
  { exact Hplan. }
  { cbn [internalio.NewOffsetWriter internalio.wbase].
    unfold carv2.PragmaSize. lia. }
  { cbn [internalio.NewOffsetWriter internalio.offset]. lia. }
  { cbn [internalio.NewOffsetWriter internalio.wbase internalio.offset].
    change (len (concat
                   (carv2.header_chunks
                      {| carv2.Characteristics := (0, 0); carv2.DataOffset := 0;
                         carv2.DataSize := 0; carv2.IndexOffset := 0 |}))) with 40.
    unfold MaxInt64, carv2.PragmaSize. lia. }
  rewrite Hwr.
  apply WriteEach_ok in Hwr; [|cbn; lia].
  destruct Hwr as (Hc2 & _ & _ & Hb2 & Hf2 & _).
  cbn [internalio.NewOffsetWriter internalio.wbase internalio.offset
         bytes closed faults] in Hc2, Hb2, Hf2.
  rewrite Z.add_0_r in Hb2.
  change (int64 carv2.PragmaSize) with carv2.PragmaSize in Hb2.
  change (concat
            (carv2.header_chunks
               {| carv2.Characteristics := (0, 0); carv2.DataOffset := 0;
                  carv2.DataSize := 0; carv2.IndexOffset := 0 |}))
    with (zeros carv2.HeaderSize) in Hb2.
  rewrite splice_blank_header in Hb2 by (try assumption; apply (lay_blank HL)).
  assert (Hf2eq : f2 = {| bytes := bytes (ReadWrite.f b); closed := false;
                          faults := skipn 2 (faults file) |}).
  { destruct f2 as [bs cl fl]. cbn in Hc2, Hb2, Hf2. subst. reflexivity. }
  subst f2.
  (* the scan *)
  rewrite (@resume_scan_Clean _ roots es).
  - cbn [ReadWrite.set_dataWriter ReadWrite.set_idx ReadWrite.set_f ReadWrite.f
           ReadWrite.idx ReadWrite.dataWriter ReadWrite.header ReadWrite.ropts
           ReadWrite.wopts internalio.Seek internalio.NewOffsetWriter
           internalio.wbase newInsertionIndex app].
    rewrite (inv_index HI).
    rewrite int64_small by (unfold carv2.PragmaSize, carv2.HeaderSize in *; lia).
    f_equal.
    assert (Hbase : carv2.PragmaSize <= carv2.DataOffset (ReadWrite.header b))
      by (unfold carv2.PragmaSize, carv2.HeaderSize in *; lia).
    pose proof (len_image roots es Hbase) as Hli.
    rewrite <- (clean_bytes HC) in Hli.
    destruct (ReadWrite.dataWriter b) as [wb off].
    cbn [internalio.wbase internalio.offset] in *. subst wb.
    unfold ReadWrite.set_dataWriter, ReadWrite.set_idx, ReadWrite.set_f,
      internalio.Seek, internalio.NewOffsetWriter.
    cbn [ReadWrite.f ReadWrite.idx ReadWrite.dataWriter ReadWrite.header
           ReadWrite.ropts ReadWrite.wopts internalio.wbase].
    replace (len (payloadHeader roots) + len (concat (map entry_section es)))
      with off by lia.
    reflexivity.
  - reflexivity.
  - cbn [ReadWrite.set_f ReadWrite.header]. rewrite Hdo.
    unfold carv2.PragmaSize, carv2.HeaderSize in *. lia.
  - cbn [ReadWrite.set_f ReadWrite.header ReadWrite.f bytes]. rewrite Hdo.
    apply (clean_bytes HC).
  - cbn [ReadWrite.set_f ReadWrite.f bytes]. unfold MaxInt64. lia.
  - exact Hroots.
  - pose proof (inv_stored HI) as Hst. rewrite Forall_forall in *.
    intros e Hin. apply Hst in Hin. destruct Hin as [Hk _]. exact Hk.
  - apply (clean_offsets HC).
Qed.

Lemma resume_finalized_file_witness :
  ReadWrite.OpenReadWrite ex_finalized_file [ex_k1] (ex_ropts false) (ex_wopts 0)
  = Ok ex_put1.
Proof.
  rewrite (@resume_finalized_file ex_file [ex_k1] (ex_ropts false) (ex_wopts 0)
             (ex_open false) [ex_blk1] ex_put1 ex_marshal
             (fst (ReadWrite.Finalize ex_marshal ex_put1))
             ex_finalized_file (ex_ropts false) (ex_wopts 0)).
  - reflexivity.
  - reflexivity.
  - unfold sanePaddings. simpl. lia.
  - repeat constructor; simpl; lia.
  - apply ex_open_eq.
  - repeat constructor; simpl; lia.
  - vm_compute. reflexivity.
  - vm_compute. reflexivity.
  - reflexivity.
  - reflexivity.
  - constructor.
  - unfold sanePaddings. simpl. lia.
  - reflexivity.
Defined.

(** ** Resumption refused *)

(** The session's file, whatever its [Put] calls returned, starts with
    the image of the new file. *)
Lemma session_prefix f0 roots ropts wopts b0 blks b err :
  bytes f0 = [] -> sanePaddings wopts ->
  ReadWrite.OpenReadWrite f0 roots ropts wopts = Ok b0 ->
  Forall (fun bl => cid_wf (blocks.Cid bl)) blks ->
  PutEach b0 blks = (b, err) ->
  ReadWrite.header b = openHeader wopts
  /\ WellFormed b /\ Layout b
  /\ len (carv1.header_cbor {| carv1.Roots := roots; carv1.Version := 1 |}) < 2 ^ 63
  /\ exists q,
       drop (carv2.DataOffset (openHeader wopts)) (bytes (ReadWrite.f b))
       = payloadHeader roots ++ q.
Proof.
  intros Hempty Hsane Hopen Hwf Hput.
  destruct (@OpenReadWrite_new_Clean f0 roots ropts wopts b0 Hempty Hsane Hopen)
    as [HC0 HL0].
  destruct (OpenReadWrite_new _ _ _ _ Hempty Hopen) as (_ & _ & _ & Hh0 & _).
  pose proof (clean_inv HC0) as HI0.
  destruct (@PutEach_session blks b0 [] b err HI0 HL0 Hwf Hput) as (Hh & HW & HL).
  destruct (@PutEach_append blks b0 [] b err HI0 Hwf Hput) as [q Hq].
  pose proof (clean_bytes HC0) as Himg. rewrite image_nil in Himg.
  pose proof (clean_base HC0) as Hbase.
  pose proof (inv_size HI0) as Hs0.
  assert (Hl0 : len (bytes (ReadWrite.f b0))
                = carv2.DataOffset (ReadWrite.header b0) + len (payloadHeader roots)).
  { rewrite Himg, !len_app, len_zeros. change (len carv2.Pragma) with 11.
    unfold carv2.PragmaSize, carv2.HeaderSize in *. lia. }
  split; [congruence|]. split; [exact HW|]. split; [exact HL|]. split.
  - unfold util.LdBytes in Hl0. cbn [concat] in Hl0.
    rewrite app_nil_r, len_app in Hl0.
    pose proof (PutUvarint_len
                  (uint64 (len (carv1.header_cbor
                                  {| carv1.Roots := roots; carv1.Version := 1 |})))).
    unfold MaxInt64, carv2.PragmaSize, carv2.HeaderSize in *. lia.
  - exists q. rewrite <- Hh0, Hq, Himg.
    rewrite (app_assoc carv2.Pragma), <- app_assoc.
    assert (Hl : len (carv2.Pragma
                      ++ zeros (carv2.DataOffset (ReadWrite.header b0)
                                - carv2.PragmaSize))
                 = carv2.DataOffset (ReadWrite.header b0)).
    { rewrite len_app, len_zeros. change (len carv2.Pragma) with 11.
      unfold carv2.PragmaSize, carv2.HeaderSize in *. lia. }
    rewrite <- Hl at 1. apply drop_app_len.
Qed.

(** A blank header region passes the header check untouched. *)
Lemma resume_check_blank rwbs :
  closed (ReadWrite.f rwbs) = false ->
  take carv2.HeaderSize (drop carv2.PragmaSize (bytes (ReadWrite.f rwbs)))
  = zeros carv2.HeaderSize ->
  resume_check rwbs = (rwbs, None).
Proof.
  intros Hcl Hblank. unfold resume_check.
  rewrite fileReader_at by (try exact Hcl; unfold carv2.PragmaSize; lia).
  cbn [bind]. fold (headerOnFile (bytes (ReadWrite.f rwbs))).
  rewrite (headerOnFile_blank _ Hblank). reflexivity.
Qed.

Lemma cids_Equal_eq a : forall b, carv1.cids_Equal a b = true <-> a = b.
Proof.
  induction a as [|x a IH]; intros [|y b]; cbn [carv1.cids_Equal];
    try (split; [discriminate|discriminate]); try (split; reflexivity).
  rewrite andb_true_iff, Equals_eq, IH. split.
  - intros [-> ->]. reflexivity.
  - intros Heq. injection Heq as -> ->. auto.
Qed.

(** X10. [OpenReadWrite] on a file that is not empty resumes only from
    version 2: when the version of the file cannot be read the error of
    the read is returned, when it reads as another version the error
    names that version, and so every CARv1 file, which starts with a
    payload header of version 1, is refused with version 1. *)
Theorem resume_needs_version_2 :
  forall (file : File) (roots : list Cid) (ropts : carv2.ReadOptions)
         (wopts : carv2.WriteOptions),
    bytes file <> [] -> closed file = false ->
    (forall e, carv2.ReadVersion (bytes file) = Err e ->
               ReadWrite.OpenReadWrite file roots ropts wopts = Err e)
    /\ (forall v, carv2.ReadVersion (bytes file) = Ok v -> v <> 2 ->
                  ReadWrite.OpenReadWrite file roots ropts wopts
                  = Err (ErrResumeVersion v))
    /\ (forall (roots1 : list Cid) (rest : list byte),
          Forall cid_wf roots1 ->
          len (carv1.header_cbor {| carv1.Roots := roots1; carv1.Version := 1 |})
            < 2 ^ 63 ->
          bytes file
          = util.LdBytes
              [carv1.header_cbor {| carv1.Roots := roots1; carv1.Version := 1 |}]
            ++ rest ->
          ReadWrite.OpenReadWrite file roots ropts wopts
          = Err (ErrResumeVersion 1)).
Proof.
  intros file roots ropts wopts Hne Hcl.
  assert (Hfail : forall e, carv2.ReadVersion (bytes file) = Err e ->
                   ReadWrite.OpenReadWrite file roots ropts wopts = Err e).
  { intros e Hr. rewrite OpenReadWrite_nonempty by exact Hne.
    rewrite resumeWithRoots_steps. cbn [ReadWrite.f].
    rewrite fileReader_at by (try exact Hcl; lia).
    cbn [bind]. change (drop 0 (bytes file)) with (bytes file).
    rewrite Hr. reflexivity. }
  assert (Hother : forall v, carv2.ReadVersion (bytes file) = Ok v -> v <> 2 ->
                    ReadWrite.OpenReadWrite file roots ropts wopts
                    = Err (ErrResumeVersion v)).
  { intros v Hr Hv2. rewrite OpenReadWrite_nonempty by exact Hne.
    rewrite resumeWithRoots_steps. cbn [ReadWrite.f].
    rewrite fileReader_at by (try exact Hcl; lia).
    cbn [bind]. change (drop 0 (bytes file)) with (bytes file).
    rewrite Hr. apply Z.eqb_neq in Hv2. rewrite Hv2. reflexivity. }
  split; [exact Hfail|]. split; [exact Hother|].
  intros roots1 rest Hwf Hlen Hb. apply Hother; [|discriminate].
  unfold carv2.ReadVersion. rewrite Hb, ReadHeader_written by assumption.
  reflexivity.
Qed.

Lemma resume_needs_version_2_witness :
  ReadWrite.OpenReadWrite
    {| bytes := drop 51 (bytes (ReadWrite.f ex_put1)); closed := false; faults := [] |}
    [ex_k1] (ex_ropts false) (ex_wopts 0)
  = Err (ErrResumeVersion 1).
Proof.
  destruct (@resume_needs_version_2
              {| bytes := drop 51 (bytes (ReadWrite.f ex_put1));
                 closed := false; faults := [] |}
              [ex_k1] (ex_ropts false) (ex_wopts 0)) as (_ & _ & H).
  - vm_compute. discriminate.
  - reflexivity.
  - apply (H [ex_k1] (section ex_k1 [x61; x62; x63])).
    + repeat constructor; simpl; lia.
    + vm_compute. reflexivity.
    + vm_compute. reflexivity.
Defined.

(** X11. Reopening the file of a session (whatever its [Put] calls
    returned) with the data padding of the session but other roots is
    refused with the mismatching-data-header error: when the number of
    roots differs, or when a root of the file is not among the roots
    given. *)
Theorem resume_rejects_other_roots :
  forall (f0 : File) (roots : list Cid) (ropts : carv2.ReadOptions)
         (wopts : carv2.WriteOptions) (b0 : ReadWrite.t)
         (blks : list blocks.Block) (b : ReadWrite.t) (err : option error)
         (file : File) (roots' : list Cid)
         (ropts' : carv2.ReadOptions) (wopts' : carv2.WriteOptions),
    bytes f0 = [] -> sanePaddings wopts -> Forall cid_wf roots ->
    ReadWrite.OpenReadWrite f0 roots ropts wopts = Ok b0 ->
    Forall (fun bl => cid_wf (blocks.Cid bl)) blks ->
    PutEach b0 blks = (b, err) ->
    bytes file = bytes (ReadWrite.f b) -> closed file = false ->
    sanePaddings wopts' -> carv2.DataPadding wopts' = carv2.DataPadding wopts ->
    (List.length roots <> List.length roots'
     \/ exists r, In r roots /\ ~ In r roots') ->
    ReadWrite.OpenReadWrite file roots' ropts' wopts'
    = Err ErrMismatchingDataHeader.
Proof.
  intros f0 roots ropts wopts b0 blks b err file roots' ropts' wopts'
    Hempty Hsane Hroots Hopen Hwf Hput Hbytes Hcl Hsane' Hpad Hdiff.
  destruct (@session_prefix f0 roots ropts wopts b0 blks b err
              Hempty Hsane Hopen Hwf Hput) as (Hh & [es HI] & HL & Hlen & q & Hq).
  assert (Hdo : carv2.DataOffset (openHeader wopts')
                = carv2.DataOffset (openHeader wopts)).
  { destruct (openHeader_sane Hsane) as (-> & _).
    destruct (openHeader_sane Hsane') as (-> & _). rewrite Hpad. reflexivity. }
  pose proof (inv_end HI) as He. pose proof (inv_size HI) as Hs.
  pose proof (inv_cursor HI) as Hcur. pose proof (inv_base HI) as Hb0.
  rewrite Hh in He, Hb0.
  assert (Hne : bytes file <> []).
  { rewrite Hbytes. intros Hnil. pose proof (lay_pragma HL) as Hp.
    rewrite Hnil in Hp. discriminate. }
  rewrite OpenReadWrite_nonempty by exact Hne.
  rewrite resumeWithRoots_steps. cbn [ReadWrite.f].
  rewrite fileReader_at by (try exact Hcl; lia).
  cbn [bind]. change (drop 0 (bytes file)) with (bytes file).
  rewrite (ReadVersion_file (bytes file))
    by (rewrite Hbytes; apply (lay_pragma HL)).
  cbn [Z.eqb Pos.eqb negb].
  rewrite resume_check_blank
    by (cbn [ReadWrite.f]; try exact Hcl; rewrite Hbytes; apply (lay_blank HL)).
  unfold resume_scan, internalio.NewOffsetReadSeeker, ReadWrite.asReadOnly, ReadAt.
  cbn [ReadOnly.backing internalio.src internalio.base ReadWrite.f ReadWrite.header].
  rewrite Hcl, Z.add_0_r, (int64_small (int64_range _)), Hdo.
  unfold MaxInt64 in Hs.
  rewrite int64_small by lia.
  replace (carv2.DataOffset (openHeader wopts) <? 0) with false
    by (symmetry; apply Z.ltb_ge; lia).
  cbn [bind]. rewrite Hbytes, Hq.
  rewrite ReadHeader_written by assumption.
  assert (Hm : carv1.Matches {| carv1.Roots := roots; carv1.Version := 1 |}
                 {| carv1.Roots := roots'; carv1.Version := 1 |} = false).
  { unfold carv1.Matches. cbn [carv1.Roots carv1.Version Z.eqb Pos.eqb andb].
    destruct (carv1.cids_Equal roots roots') eqn:Hc; [|reflexivity].
    apply cids_Equal_eq in Hc. subst roots'.
    destruct Hdiff as [Hl|(r & Hin & Hnot)]; [congruence|contradiction]. }
  rewrite Hm. reflexivity.
Qed.

Lemma resume_rejects_other_roots_witness :
  ReadWrite.OpenReadWrite (ReadWrite.f ex_put1) [ex_k3] (ex_ropts false) (ex_wopts 0)
  = Err ErrMismatchingDataHeader.
Proof.
  apply (@resume_rejects_other_roots ex_file [ex_k1] (ex_ropts false) (ex_wopts 0)
           (ex_open false) [ex_blk1] ex_put1 None
           (ReadWrite.f ex_put1) [ex_k3] (ex_ropts false) (ex_wopts 0)).
  - reflexivity.
  - unfold sanePaddings. simpl. lia.
  - repeat constructor; simpl; lia.
  - apply ex_open_eq.
  - repeat constructor; simpl; lia.
  - vm_compute. reflexivity.
  - reflexivity.
  - reflexivity.
  - unfold sanePaddings. simpl. lia.
  - reflexivity.
  - right. exists ex_k1. split; [left; reflexivity|].
    intros [H|[]]. discriminate.
Defined.

(** X12. A header on file that holds the data offset of the options but
    no data size is a torn header: on a non-empty file that reads as
    version 2, [OpenReadWrite] returns the corrupt-header error. *)
Theorem resume_rejects_torn_header :
  forall (file : File) (roots : list Cid) (ropts : carv2.ReadOptions)
         (wopts : carv2.WriteOptions) (h : carv2.Header),
    bytes file <> [] -> closed file = false ->
    carv2.ReadVersion (bytes file) = Ok 2 ->
    headerOnFile (bytes file) = Ok h ->
    carv2.DataOffset h <> 0 ->
    carv2.DataOffset h = carv2.DataOffset (openHeader wopts) ->
    carv2.DataSize h = 0 ->
    ReadWrite.OpenReadWrite file roots ropts wopts = Err ErrCorruptHeader.
Proof.
  intros file roots ropts wopts h Hne Hcl Hv Hh Hz Hd Hs.
  rewrite OpenReadWrite_nonempty by exact Hne.
  rewrite resumeWithRoots_steps. cbn [ReadWrite.f].
  rewrite fileReader_at by (try exact Hcl; lia).
  cbn [bind]. change (drop 0 (bytes file)) with (bytes file).
  rewrite Hv. cbn [Z.eqb Pos.eqb negb].
  unfold resume_check. cbn [ReadWrite.f ReadWrite.header].
  rewrite fileReader_at by (try exact Hcl; unfold carv2.PragmaSize; lia).
  cbn [bind]. fold (headerOnFile (bytes file)). rewrite Hh.
  apply Z.eqb_neq in Hz. rewrite Hz, Hd, Z.eqb_refl, Hs. reflexivity.
Qed.

Lemma resume_rejects_torn_header_witness :
  snd (ReadWrite.Finalize ex_marshal
         (from_result
            (ReadWrite.OpenReadWrite ex_tearing_file [ex_k1]
               (ex_ropts false) (ex_wopts 0)))) = Some ErrIO
  /\ ReadWrite.OpenReadWrite ex_torn_header_file [ex_k1] (ex_ropts false) (ex_wopts 0)
     = Err ErrCorruptHeader.
Proof.
  split; [vm_compute; reflexivity|].
  apply (@resume_rejects_torn_header ex_torn_header_file [ex_k1] (ex_ropts false)
           (ex_wopts 0)
           {| carv2.Characteristics := (0, 0); carv2.DataOffset := 51;
              carv2.DataSize := 0; carv2.IndexOffset := 0 |}).
  - vm_compute. discriminate.
  - reflexivity.
  - vm_compute. reflexivity.
  - vm_compute. reflexivity.
  - simpl. discriminate.
  - vm_compute. reflexivity.
  - reflexivity.
Defined.

(** ** When the writes complete *)

Lemma firstn_tl_None {A} (n : nat) (l : list (option A)) :
  Forall (fun x => x = None) (firstn (S n) l) ->
  Forall (fun x => x = None) (firstn n (tl l)).
Proof.
  destruct l as [|x l]; cbn [firstn tl].
  - intros _. rewrite firstn_nil. constructor.
  - intros H. inversion H; assumption.
Qed.

(** X13. [OpenReadWrite] on an empty, open file whose device completes
    three writes, with paddings in range and room for the payload header,
    succeeds; the new file is the pragma, zeros over the header region and
    the data padding, and the payload header; the index is empty, the data
    writer stands at the end of the payload header, and three writes of
    the device are used up. *)
Theorem open_new_file :
  forall (f0 : File) (roots : list Cid) (ropts : carv2.ReadOptions)
         (wopts : carv2.WriteOptions),
    bytes f0 = [] -> closed f0 = false ->
    Forall (fun x => x = None) (firstn 3 (faults f0)) ->
    sanePaddings wopts ->
    carv2.PragmaSize + carv2.HeaderSize + carv2.DataPadding wopts
    + len (util.LdBytes
             [carv1.header_cbor {| carv1.Roots := roots; carv1.Version := 1 |}])
    <= MaxInt64 ->
    exists b0 : ReadWrite.t,
      ReadWrite.OpenReadWrite f0 roots ropts wopts = Ok b0
      /\ bytes (ReadWrite.f b0)
         = carv2.Pragma
           ++ zeros (carv2.HeaderSize + carv2.DataPadding wopts)
           ++ util.LdBytes
                [carv1.header_cbor {| carv1.Roots := roots; carv1.Version := 1 |}]
      /\ ReadWrite.idx b0 = []
      /\ internalio.Position (ReadWrite.dataWriter b0)
         = len (util.LdBytes
                  [carv1.header_cbor {| carv1.Roots := roots; carv1.Version := 1 |}])
      /\ ReadWrite.header b0 = openHeader wopts
      /\ faults (ReadWrite.f b0) = skipn 3 (faults f0).
Proof.
  intros f0 roots ropts wopts Hempty Hcl Hplan Hsane Hfit.
  destruct (openHeader_sane Hsane) as (Hdo & _ & _).
  assert (Hsane' := Hsane). destruct Hsane' as (Hp0 & Hip0 & Hsum).
  assert (Hex : exists b0, ReadWrite.OpenReadWrite f0 roots ropts wopts = Ok b0).
  { unfold ReadWrite.OpenReadWrite. rewrite Hempty.
    cbn [len List.length Z.of_nat Z.eqb negb]. fold (openHeader wopts).
    unfold ReadWrite.initWithRoots. cbn [ReadWrite.f ReadWrite.dataWriter].
    unfold WriteAt. rewrite Hcl. cbn [Z.ltb Z.compare Z.add].
    change (len carv2.Pragma) with 11.
    replace (MaxInt64 <? 11) with false by reflexivity.
    assert (Hw1 : exists plan,
               (match faults f0 with
                | Some n :: plan0 =>
                    ({| bytes := splice (bytes f0) 0 (take n carv2.Pragma);
                        closed := false; faults := plan0 |},
                     (len (take n carv2.Pragma), Some ErrIO))
                | plan0 =>
                    ({| bytes := splice (bytes f0) 0 carv2.Pragma;
                        closed := false; faults := tl plan0 |}, (11, None))
                end)
               = ({| bytes := splice (bytes f0) 0 carv2.Pragma;
                     closed := false; faults := plan |}, (11, None))
               /\ Forall (fun x => x = None) (firstn 2 plan)).
    { destruct (faults f0) as [|[n|] plan0] eqn:Hf.
      - exists []. split; [reflexivity|constructor].
      - cbn [firstn] in Hplan. inversion Hplan; discriminate.
      - exists plan0. split; [reflexivity|].
        cbn [firstn] in Hplan. inversion Hplan; assumption. }
    destruct Hw1 as (plan & -> & Hplan2).
    unfold carv1.WriteHeader, util.LdWrite.
    match goal with
    | |- context [internalio.WriteEach ?f1 ?w1 ?d] =>
        destruct (@WriteEach_complete d f1 w1) as (f2 & w2 & Hwr)
    end.
    - reflexivity.
    - exact Hplan2.
    - cbn [internalio.NewOffsetWriter internalio.wbase].
      rewrite Hdo. unfold carv2.PragmaSize, carv2.HeaderSize in *.
      rewrite int64_small by lia. lia.
    - cbn [internalio.NewOffsetWriter internalio.offset]. lia.
    - cbn [internalio.NewOffsetWriter internalio.wbase internalio.offset].
      rewrite Hdo. unfold carv2.PragmaSize, carv2.HeaderSize, MaxInt64 in *.
      rewrite int64_small by lia.
      unfold util.LdBytes in Hfit. cbn [concat] in *.
      rewrite app_nil_r in *. rewrite len_app in *. lia.
    - rewrite Hwr. eexists. reflexivity. }
  destruct Hex as [b0 Hopen]. exists b0. split; [exact Hopen|].
  destruct (@OpenReadWrite_new_Clean f0 roots ropts wopts b0 Hempty Hsane Hopen)
    as [HC0 _].
  destruct (OpenReadWrite_new _ _ _ _ Hempty Hopen)
    as (HI0 & _ & _ & Hh0 & _ & Hoff & Hf).
  split.
  - rewrite (clean_bytes HC0), image_nil, Hh0, Hdo.
    unfold carv2.PragmaSize, carv2.HeaderSize.
    replace (11 + 40 + carv2.DataPadding wopts - 11)
      with (40 + carv2.DataPadding wopts) by lia.
    reflexivity.
  - split; [rewrite (inv_index HI0); reflexivity|].
    split; [exact Hoff|]. split; [exact Hh0|exact Hf].
Qed.

Lemma open_new_file_witness :
  exists b0 : ReadWrite.t,
    ReadWrite.OpenReadWrite ex_file [ex_k1] (ex_ropts false) (ex_wopts 8) = Ok b0
    /\ len (bytes (ReadWrite.f b0)) = 88.
Proof.
  destruct (@open_new_file ex_file [ex_k1] (ex_ropts false) (ex_wopts 8))
    as (b0 & Hopen & Hb & _).
  - reflexivity.
  - reflexivity.
  - constructor.
  - unfold sanePaddings. simpl. lia.
  - vm_compute. discriminate.
  - exists b0. split; [exact Hopen|]. rewrite Hb. vm_compute. reflexivity.
Defined.

(** X14. [Put] of a block on a well-formed session returns no error when
    the device completes three writes and the block's section fits the
    largest file; afterwards [Has] is true for the block's key and [Get]
    returns a block for it. *)
Theorem put_succeeds :
  forall (b : ReadWrite.t) (bl : blocks.Block),
    WellFormed b -> cid_wf (blocks.Cid bl) ->
    Forall (fun x => x = None) (firstn 3 (faults (ReadWrite.f b))) ->
    len (bytes (ReadWrite.f b)) + len (section (blocks.Cid bl) (blocks.RawData bl))
    <= MaxInt64 ->
    exists b' : ReadWrite.t,
      ReadWrite.Put b bl = (b', None)
      /\ ReadWrite.Has b' (blocks.Cid bl) = (true, None)
      /\ exists data, ReadWrite.Get b' (blocks.Cid bl)
                      = Ok (blocks.NewBlockWithCid data (blocks.Cid bl)).
Proof.
  intros b bl [es HI] Hwf Hplan Hfit.
  assert (Hread : forall b' es',
             Inv b' es' ->
             is_some (lookup (carv2.BlockstoreUseWholeCIDs (ReadWrite.ropts b'))
                        es' (blocks.Cid bl)) = true ->
             ReadWrite.Has b' (blocks.Cid bl) = (true, None)
             /\ exists data, ReadWrite.Get b' (blocks.Cid bl)
                             = Ok (blocks.NewBlockWithCid data (blocks.Cid bl))).
  { intros b' es' HI' Hl. rewrite (Has_lookup HI'), (Get_lookup HI').
    destruct (lookup _ es' (blocks.Cid bl)) as [e|]; [|discriminate].
    split; [reflexivity|]. exists (entry_data e). reflexivity. }
  rewrite (Put_unfinalized b bl (inv_unfinalized HI)).
  destruct (ReadWrite.deduplicated b (blocks.Cid bl)) eqn:Hdd.
  - exists b. split; [reflexivity|].
    rewrite (deduplicated_lookup _ HI) in Hdd.
    apply andb_true_iff in Hdd. destruct Hdd as [_ Hl].
    apply (Hread b es HI Hl).
  - pose proof (inv_writer HI) as Hw. pose proof (inv_base HI) as Hb.
    pose proof (inv_cursor HI) as Hcur. pose proof (inv_end HI) as He.
    pose proof (inv_size HI) as Hs.
    assert (Hwr : exists f1 w1,
               util.LdWrite (ReadWrite.f b) (ReadWrite.dataWriter b)
                 [Bytes (blocks.Cid bl); blocks.RawData bl] = (f1, w1, None)).
    { unfold util.LdWrite. apply WriteEach_complete.
      - apply (inv_open HI).
      - exact Hplan.
      - unfold MaxInt64 in *. lia.
      - lia.
      - change (concat (varint.PutUvarint
                          (uint64 (len (concat [Bytes (blocks.Cid bl);
                                                blocks.RawData bl])))
                        :: [Bytes (blocks.Cid bl); blocks.RawData bl]))
          with (util.LdBytes [Bytes (blocks.Cid bl); blocks.RawData bl]).
        fold (section (blocks.Cid bl) (blocks.RawData bl)). lia. }
    destruct Hwr as (f1 & w1 & Hwr).
    assert (Hwb : ReadWrite.writeBlock b bl
                  = (ReadWrite.set_idx
                       (ReadWrite.set_dataWriter (ReadWrite.set_f b f1) w1)
                       (insertNoReplace (ReadWrite.idx b) (blocks.Cid bl)
                          (uint64 (internalio.Position (ReadWrite.dataWriter b)))),
                     None)).
    { unfold ReadWrite.writeBlock. rewrite Hwr. reflexivity. }
    eexists. split; [exact Hwb|].
    destruct (writeBlock_Inv bl HI Hwf Hwb) as (_ & _ & _ & _ & HI').
    apply (Hread _ _ HI').
    apply lookup_some_iff. exists (new_entry b bl).
    split; [apply in_or_app; right; left; reflexivity|apply sameKey_refl].
Qed.

Lemma put_succeeds_witness :
  exists b' : ReadWrite.t,
    ReadWrite.Put ex_put1 ex_blk3 = (b', None)
    /\ ReadWrite.Has b' ex_k3 = (true, None)
    /\ exists data, ReadWrite.Get b' ex_k3 = Ok (blocks.NewBlockWithCid data ex_k3).
Proof.
  apply (@put_succeeds ex_put1 ex_blk3).
  - destruct (@session_entries ex_file [ex_k1] (ex_ropts false) (ex_wopts 0)
                (ex_open false) [ex_blk1] ex_put1 None)
      as (_ & _ & _ & es & HI & _).
    + reflexivity.
    + apply ex_open_eq.
    + repeat constructor; simpl; lia.
    + vm_compute. reflexivity.
    + exists es. exact HI.
  - simpl. unfold cid_wf. simpl. lia.
  - constructor.
  - vm_compute. discriminate.
Defined.

(** X15. With [AllowDuplicatePuts] on nothing is skipped: a [Put] that
    returns no error has appended the block's section to the file and a
    record with the block's key and the old position of the data writer
    to the index, also when the key was in the index already; the data
    writer has moved by the length of the section. *)
Theorem duplicate_puts_append :
  forall (b : ReadWrite.t) (bl : blocks.Block) (b' : ReadWrite.t),
    WellFormed b -> cid_wf (blocks.Cid bl) ->
    carv2.BlockstoreAllowDuplicatePuts (ReadWrite.wopts b) = true ->
    ReadWrite.Put b bl = (b', None) ->
    bytes (ReadWrite.f b')
    = bytes (ReadWrite.f b) ++ section (blocks.Cid bl) (blocks.RawData bl)
    /\ ReadWrite.idx b'
       = ReadWrite.idx b
         ++ [{| index.Cid := blocks.Cid bl;
                index.Offset := internalio.Position (ReadWrite.dataWriter b) |}]
    /\ internalio.Position (ReadWrite.dataWriter b')
       = internalio.Position (ReadWrite.dataWriter b)
         + len (section (blocks.Cid bl) (blocks.RawData bl)).
Proof.
  intros b bl b' [es HI] Hwf Hdup Hput.
  rewrite (Put_unfinalized b bl (inv_unfinalized HI)) in Hput.
  unfold ReadWrite.deduplicated in Hput. rewrite Hdup in Hput. cbn [negb] in Hput.
  destruct (writeBlock_Inv bl HI Hwf Hput) as (_ & _ & Hh & (q & Hq & Hsec) & HI').
  specialize (Hsec eq_refl). subst q.
  split; [exact Hq|]. split.
  - rewrite (inv_index HI'), (inv_index HI), map_app. reflexivity.
  - pose proof (inv_end HI) as He. pose proof (inv_end HI') as He'.
    rewrite Hh, Hq, len_app in He'. unfold internalio.Position. lia.
Qed.

Lemma duplicate_puts_append_witness :
  bytes (ReadWrite.f (fst (ReadWrite.Put ex_dup_put1 ex_blk1)))
  = bytes (ReadWrite.f ex_dup_put1)
    ++ section (blocks.Cid ex_blk1) (blocks.RawData ex_blk1)
  /\ ReadWrite.idx (fst (ReadWrite.Put ex_dup_put1 ex_blk1))
     = ReadWrite.idx ex_dup_put1
       ++ [{| index.Cid := blocks.Cid ex_blk1;
              index.Offset := internalio.Position (ReadWrite.dataWriter ex_dup_put1) |}]
  /\ internalio.Position (ReadWrite.dataWriter (fst (ReadWrite.Put ex_dup_put1 ex_blk1)))
     = internalio.Position (ReadWrite.dataWriter ex_dup_put1)
       + len (section (blocks.Cid ex_blk1) (blocks.RawData ex_blk1)).
Proof.
  apply (@duplicate_puts_append ex_dup_put1 ex_blk1
           (fst (ReadWrite.Put ex_dup_put1 ex_blk1))).
  - destruct (@session_entries ex_file [ex_k1] (ex_ropts false) ex_wopts_dup
                ex_dup_open [ex_blk1] ex_dup_put1 None)
      as (_ & _ & _ & es & HI & _).
    + reflexivity.
    + vm_compute. reflexivity.
    + repeat constructor; simpl; lia.
    + vm_compute. reflexivity.
    + exists es. exact HI.
  - simpl. unfold cid_wf. simpl. lia.
  - reflexivity.
  - vm_compute. reflexivity.
Defined.

(** ** The scan over a file that does not end with a section *)

(** The scan indexes the complete sections ahead and goes on from what
    follows them. *)
Lemma resume_loop_prefix roots tail es2 : forall fuel b es1,
  closed (ReadWrite.f b) = false ->
  carv2.PragmaSize <= carv2.DataOffset (ReadWrite.header b) ->
  bytes (ReadWrite.f b)
  = image roots (carv2.DataOffset (ReadWrite.header b)) (es1 ++ es2) ++ tail ->
  len (bytes (ReadWrite.f b)) <= MaxInt64 ->
  Forall (fun e => cid_wf (entry_key e)) es2 ->
  consecutive (len (payloadHeader roots) + len (concat (map entry_section es1))) es2 ->
  ReadWrite.resume_loop (List.length es2 + fuel) b
    (len (payloadHeader roots) + len (concat (map entry_section es1)))
  = ReadWrite.resume_loop fuel
      (ReadWrite.set_idx b (ReadWrite.idx b ++ map entry_record es2))
      (len (payloadHeader roots) + len (concat (map entry_section (es1 ++ es2)))).
Proof.
  induction es2 as [|e rest IH]; intros fuel b es1 Hc Hbase Hbytes Hsize Hwf Hcons.
  - cbn [List.length Nat.add map]. rewrite !app_nil_r, set_idx_same. reflexivity.
  - inversion Hwf as [|? ? Hke Hwfr]; subst.
    cbn [consecutive] in Hcons. destruct Hcons as [Hoff Hcons].
    pose proof (len_image roots es1 Hbase) as Hli1.
    pose proof (len_image roots (es1 ++ e :: rest) Hbase) as Hli.
    assert (Hlb : len (bytes (ReadWrite.f b))
                  = len (image roots (carv2.DataOffset (ReadWrite.header b))
                           (es1 ++ e :: rest)) + len tail)
      by (rewrite Hbytes; apply len_app).
    rewrite Hli in Hlb.
    rewrite map_app, concat_app, len_app in Hlb. cbn [map concat] in Hlb.
    rewrite len_app in Hlb.
    pose proof (len_nonneg tail) as Ht0.
    pose proof (len_nonneg (payloadHeader roots)) as Hh0.
    pose proof (len_nonneg (concat (map entry_section es1))) as Hs0.
    pose proof (len_nonneg (concat (map entry_section rest))) as Hr0.
    pose proof (len_section_pos (entry_key e) (entry_data e)) as Hpos.
    fold (entry_section e) in Hpos.
    pose proof (len_section (entry_key e) (entry_data e)) as Hls.
    fold (entry_section e) in Hls.
    pose proof (len_nonneg (entry_data e)) as Hd0.
    pose proof (len_Bytes_pos (entry_key e)) as Hb0.
    pose proof (PutUvarint_len (uint64 (len (Bytes (entry_key e)) + len (entry_data e))))
      as Hv.
    unfold MaxInt64, carv2.PragmaSize in *.
    assert (Hdig : len (Digest (entry_key e)) < 2 ^ 63).
    { pose proof (len_Bytes (entry_key e)) as HB.
      pose proof (len_Hash (entry_key e)) as HH.
      pose proof (PutUvarint_len 1). pose proof (PutUvarint_len (Codec (entry_key e))).
      pose proof (PutUvarint_len (MhType (entry_key e))).
      pose proof (PutUvarint_len (len (Digest (entry_key e)))). lia. }
    cbn [List.length Nat.add ReadWrite.resume_loop].
    unfold internalio.NewOffsetReadSeeker, ReadWrite.asReadOnly, ReadAt.
    cbn [ReadOnly.backing internalio.src internalio.base].
    rewrite Hc.
    rewrite (@int64_small (carv2.DataOffset (ReadWrite.header b))) by lia.
    rewrite int64_small by lia.
    match goal with |- context [?x <? 0] =>
      replace (x <? 0) with false by (symmetry; apply Z.ltb_ge; lia) end.
    rewrite Hbytes, image_app, <- app_assoc.
    replace (carv2.DataOffset (ReadWrite.header b)
             + (len (payloadHeader roots) + len (concat (map entry_section es1))))
      with (len (image roots (carv2.DataOffset (ReadWrite.header b)) es1))
      by (rewrite Hli1; lia).
    rewrite drop_app_len. cbn [map concat]. rewrite <- app_assoc.
    unfold entry_section at 1 2.
    rewrite ReadUvarint_section by lia.
    replace (len (Bytes (entry_key e)) + len (entry_data e) =? 0) with false
      by (symmetry; apply Z.eqb_neq; lia).
    rewrite CidFromReader_Bytes by assumption.
    rewrite !len_app.
    fold (entry_section e).
    change (map (fun e0 : Entry => section (entry_key e0) (entry_data e0)) rest)
      with (map entry_section rest).
    rewrite (@int64_small (len (Bytes (entry_key e)) + len (entry_data e))) by lia.
    rewrite (@int64_small (len (Bytes (entry_key e)))) by lia.
    rewrite uint64_small by lia.
    match goal with |- context [int64 ?x] =>
      replace (int64 x)
        with (len (payloadHeader roots)
              + len (concat (map entry_section (es1 ++ [e]))))
    end.
    2:{ rewrite map_app, concat_app, len_app. cbn [map concat].
        rewrite app_nil_r. rewrite int64_small by lia. lia. }
    rewrite IH.
    + cbn [ReadWrite.idx ReadWrite.set_idx ReadWrite.f ReadWrite.dataWriter
             ReadWrite.header ReadWrite.ropts ReadWrite.wopts].
      unfold insertNoReplace. rewrite <- !app_assoc. cbn [app map].
      unfold entry_record at 2. rewrite Hoff. reflexivity.
    + exact Hc.
    + exact Hbase.
    + cbn [ReadWrite.f ReadWrite.set_idx ReadWrite.header].
      rewrite Hbytes, <- app_assoc. reflexivity.
    + exact Hsize.
    + exact Hwfr.
    + rewrite map_app, concat_app, len_app. cbn [map concat].
      rewrite app_nil_r.
      replace (len (payloadHeader roots)
               + (len (concat (map entry_section es1)) + len (entry_section e)))
        with (len (payloadHeader roots) + len (concat (map entry_section es1))
              + len (entry_section e)) by lia.
      exact Hcons.
Qed.

(** The scan up to the end of the complete sections. *)
Lemma resume_scan_prefix rwbs roots es tail :
  closed (ReadWrite.f rwbs) = false ->
  carv2.PragmaSize <= carv2.DataOffset (ReadWrite.header rwbs) ->
  bytes (ReadWrite.f rwbs)
  = image roots (carv2.DataOffset (ReadWrite.header rwbs)) es ++ tail ->
  len (bytes (ReadWrite.f rwbs)) <= MaxInt64 ->
  Forall cid_wf roots ->
  Forall (fun e => cid_wf (entry_key e)) es ->
  consecutive (len (payloadHeader roots)) es ->
  exists fuel,
    (List.length tail < fuel)%nat
    /\ resume_scan rwbs roots
       = match ReadWrite.resume_loop fuel
                 (ReadWrite.set_idx rwbs (ReadWrite.idx rwbs ++ map entry_record es))
                 (len (payloadHeader roots) + len (concat (map entry_section es))) with
         | (b, _, Some err) => (b, Some err)
         | (b, sectionOffset, None) =>
             (ReadWrite.set_dataWriter b
                (internalio.Seek (ReadWrite.dataWriter b) sectionOffset), None)
         end.
Proof.
  intros Hcl Hbase Himg Hs Hroots Hkeys Hcons.
  pose proof (len_image roots es Hbase) as Hli.
  assert (Hlb : len (bytes (ReadWrite.f rwbs))
                = len (image roots (carv2.DataOffset (ReadWrite.header rwbs)) es)
                  + len tail) by (rewrite Himg; apply len_app).
  rewrite Hli in Hlb.
  pose proof (len_nonneg tail) as Ht0.
  pose proof (len_nonneg (concat (map entry_section es))) as Hs0.
  pose proof (header_section_len {| carv1.Roots := roots; carv1.Version := 1 |}) as Hh18.
  pose proof (header_cbor_len {| carv1.Roots := roots; carv1.Version := 1 |}) as Hh17.
  assert (Hhl : len (payloadHeader roots)
                = len (varint.PutUvarint
                         (uint64 (len (carv1.header_cbor
                                         {| carv1.Roots := roots; carv1.Version := 1 |}))))
                  + len (carv1.header_cbor
                           {| carv1.Roots := roots; carv1.Version := 1 |})).
  { unfold util.LdBytes. cbn [concat]. rewrite app_nil_r, len_app. reflexivity. }
  pose proof (PutUvarint_len
                (uint64 (len (carv1.header_cbor
                                {| carv1.Roots := roots; carv1.Version := 1 |})))) as Hv.
  assert (Hlen : (List.length es + List.length tail
                  <= List.length (bytes (ReadWrite.f rwbs)))%nat).
  { pose proof (sections_length es) as Hsl.
    rewrite Himg. unfold image. rewrite !length_app. lia. }
  exists (S (List.length (bytes (ReadWrite.f rwbs))) - List.length es)%nat.
  split; [lia|].
  unfold MaxInt64, carv2.PragmaSize in *.
  unfold resume_scan.
  unfold internalio.NewOffsetReadSeeker, ReadWrite.asReadOnly, ReadAt.
  cbn [ReadOnly.backing internalio.src internalio.base].
  rewrite Hcl, Z.add_0_r, (int64_small (int64_range _)).
  rewrite int64_small by lia.
  replace (carv2.DataOffset (ReadWrite.header rwbs) <? 0) with false
    by (symmetry; apply Z.ltb_ge; lia).
  cbn [bind].
  assert (Hdrop : drop (carv2.DataOffset (ReadWrite.header rwbs))
                    (bytes (ReadWrite.f rwbs))
                  = payloadHeader roots ++ concat (map entry_section es) ++ tail).
  { rewrite Himg. unfold image. rewrite !app_assoc. rewrite <- !app_assoc.
    rewrite (app_assoc carv2.Pragma).
    assert (Hl : len (carv2.Pragma
                      ++ zeros (carv2.DataOffset (ReadWrite.header rwbs) - 11))
                 = carv2.DataOffset (ReadWrite.header rwbs)).
    { rewrite len_app, len_zeros. change (len carv2.Pragma) with 11. lia. }
    unfold carv2.PragmaSize.
    rewrite <- Hl at 1. apply drop_app_len. }
  rewrite Hdrop.
  rewrite ReadHeader_written by (try assumption; lia).
  rewrite Matches_refl. cbn [negb].
  unfold carv1.HeaderSize.
  rewrite uint64_small by lia. rewrite int64_small by lia.
  replace (S (List.length (bytes (ReadWrite.f rwbs))))
    with (List.length es
          + (S (List.length (bytes (ReadWrite.f rwbs))) - List.length es))%nat by lia.
  replace (len (payloadHeader roots))
    with (len (payloadHeader roots) + len (concat (map entry_section (@nil Entry))))
    at 1 by (cbn [map concat]; change (len (@nil byte)) with 0; lia).
  rewrite (@resume_loop_prefix roots tail es).
  - cbn [app]. replace (List.length es
          + (S (List.length (bytes (ReadWrite.f rwbs))) - List.length es)
          - List.length es)%nat
      with (S (List.length (bytes (ReadWrite.f rwbs))) - List.length es)%nat by lia.
    reflexivity.
  - exact Hcl.
  - unfold carv2.PragmaSize. lia.
  - cbn [app]. exact Himg.
  - unfold MaxInt64. lia.
  - exact Hkeys.
  - cbn [map concat]. change (len (@nil byte)) with 0. rewrite Z.add_0_r.
    exact Hcons.
Qed.

(** The reader of the scan at a position of the backing. *)
Lemma scan_reader b so :
  closed (ReadWrite.f b) = false ->
  0 <= carv2.DataOffset (ReadWrite.header b) -> 0 <= so ->
  carv2.DataOffset (ReadWrite.header b) + so < 2 ^ 63 ->
  internalio.NewOffsetReadSeeker (ReadOnly.backing (ReadWrite.asReadOnly b)) so
  = Ok (drop (carv2.DataOffset (ReadWrite.header b) + so) (bytes (ReadWrite.f b))).
Proof.
  intros Hcl Hd Hso Hfit.
  unfold internalio.NewOffsetReadSeeker, ReadWrite.asReadOnly, ReadAt.
  cbn [ReadOnly.backing internalio.src internalio.base].
  rewrite Hcl.
  rewrite (@int64_small (carv2.DataOffset (ReadWrite.header b))) by lia.
  rewrite int64_small by lia.
  replace (carv2.DataOffset (ReadWrite.header b) + so <? 0) with false
    by (symmetry; apply Z.ltb_ge; lia).
  reflexivity.
Qed.

(** A zero where a section should start ends the scan: as the end of the
    data under [ZeroLengthSectionAsEOF], as an error otherwise. *)
Lemma resume_loop_null fuel b so rest :
  closed (ReadWrite.f b) = false ->
  0 <= carv2.DataOffset (ReadWrite.header b) -> 0 <= so ->
  carv2.DataOffset (ReadWrite.header b) + so < 2 ^ 63 ->
  drop (carv2.DataOffset (ReadWrite.header b) + so) (bytes (ReadWrite.f b))
  = x00 :: rest ->
  ReadWrite.resume_loop (S fuel) b so
  = (b, so,
     if carv2.ZeroLengthSectionAsEOF (ReadWrite.ropts b)
     then None else Some ErrNullPadding).
Proof.
  intros Hcl Hd Hso Hfit Hdrop.
  cbn [ReadWrite.resume_loop].
  rewrite scan_reader by assumption. rewrite Hdrop.
  change (varint.ReadUvarint (x00 :: rest)) with (@Ok (Z * list byte) (0, rest)).
  cbn [Z.eqb].
  destruct (carv2.ZeroLengthSectionAsEOF (ReadWrite.ropts b)); reflexivity.
Qed.

(** A section whose data is cut short is indexed all the same; the scan
    then seeks past the end of the file and stops there. *)
Lemma resume_loop_torn fuel b so c data part :
  closed (ReadWrite.f b) = false ->
  0 <= carv2.DataOffset (ReadWrite.header b) -> 0 <= so ->
  drop (carv2.DataOffset (ReadWrite.header b) + so) (bytes (ReadWrite.f b))
  = varint.PutUvarint (uint64 (len (Bytes c) + len data)) ++ Bytes c ++ part ->
  cid_wf c -> len part < len data ->
  carv2.DataOffset (ReadWrite.header b) + so + len (section c data) <= MaxInt64 ->
  ReadWrite.resume_loop (S (S fuel)) b so
  = (ReadWrite.set_idx b (insertNoReplace (ReadWrite.idx b) c (uint64 so)),
     so + len (section c data), None).
Proof.
  intros Hcl Hd Hso Hdrop Hwf Hpart Hfit.
  pose proof (len_section c data) as Hls.
  pose proof (len_nonneg data) as Hd0. pose proof (len_nonneg part) as Hp0.
  pose proof (len_Bytes_pos c) as Hb0.
  pose proof (PutUvarint_len (uint64 (len (Bytes c) + len data))) as Hv.
  unfold MaxInt64 in *.
  assert (Hdig : len (Digest c) < 2 ^ 63).
  { pose proof (len_Bytes c) as HB. pose proof (len_Hash c) as HH.
    pose proof (PutUvarint_len 1). pose proof (PutUvarint_len (Codec c)).
    pose proof (PutUvarint_len (MhType c)).
    pose proof (PutUvarint_len (len (Digest c))). lia. }
  assert (Hlb : len (bytes (ReadWrite.f b))
                = carv2.DataOffset (ReadWrite.header b) + so
                  + (len (varint.PutUvarint (uint64 (len (Bytes c) + len data)))
                     + len (Bytes c) + len part)).
  { apply (f_equal (@len byte)) in Hdrop.
    rewrite len_drop, !len_app in Hdrop. lia. }
  assert (HL : 0 <= len (Bytes c) + len data < 2 ^ 64) by lia.
  rewrite (uint64_small HL) in Hls, Hv, Hlb, Hdrop.
  cbn [ReadWrite.resume_loop].
  rewrite scan_reader by (try assumption; lia). rewrite Hdrop.
  rewrite ReadUvarint_PutUvarint by lia.
  replace (len (Bytes c) + len data =? 0) with false
    by (symmetry; apply Z.eqb_neq; lia).
  rewrite CidFromReader_Bytes by assumption.
  rewrite !len_app.
  rewrite (@int64_small (len (Bytes c) + len data)) by lia.
  rewrite (@int64_small (len (Bytes c))) by lia.
  match goal with |- context [int64 ?x] =>
    replace (int64 x) with (so + len (section c data))
  end.
  2:{ rewrite int64_small by lia. lia. }
  rewrite scan_reader; cbn [ReadWrite.f ReadWrite.header ReadWrite.set_idx];
    try assumption; try lia.
  rewrite drop_all by lia.
  reflexivity.
Qed.

(** ** Resuming a file that does not end with a section *)

(** The file of a session with something after it: what the first steps
    of the resumption see. *)
Lemma session_with_tail roots b es file tail :
  Clean roots b es -> Layout b ->
  bytes file = bytes (ReadWrite.f b) ++ tail ->
  take carv2.PragmaSize (bytes file) = carv2.Pragma
  /\ take carv2.HeaderSize (drop carv2.PragmaSize (bytes file)) = zeros carv2.HeaderSize
  /\ bytes file = image roots (carv2.DataOffset (ReadWrite.header b)) es ++ tail
  /\ drop (carv2.DataOffset (ReadWrite.header b)
           + (len (payloadHeader roots) + len (concat (map entry_section es))))
       (bytes file) = tail.
Proof.
  intros HC HL Hbytes.
  pose proof (clean_inv HC) as HI.
  pose proof (inv_end HI) as He. pose proof (inv_cursor HI) as Hcur.
  destruct (lay_offsets HL) as (Ho1 & _ & _).
  assert (Hbase : carv2.PragmaSize <= carv2.DataOffset (ReadWrite.header b))
    by (unfold carv2.PragmaSize, carv2.HeaderSize in *; lia).
  pose proof (len_image roots es Hbase) as Hli.
  rewrite <- (clean_bytes HC) in Hli.
  unfold carv2.PragmaSize, carv2.HeaderSize in *.
  rewrite Hbytes. split; [|split; [|split]].
  - rewrite take_app_l by lia. apply (lay_pragma HL).
  - rewrite drop_app_l by lia.
    rewrite take_app_l by (rewrite len_drop; lia). apply (lay_blank HL).
  - rewrite (clean_bytes HC). reflexivity.
  - replace (carv2.DataOffset (ReadWrite.header b)
             + (len (payloadHeader roots) + len (concat (map entry_section es))))
      with (len (bytes (ReadWrite.f b))) by lia.
    apply drop_app_len.
Qed.

(** X16. A zero where a section should start.  When the file of a
    session whose [Put] calls all returned is followed by a zero byte
    (then anything), reopening it with the roots and the data padding of
    the session depends on [ZeroLengthSectionAsEOF]: with the option the
    zero ends the data, the store gets the index and the data writer of
    the session, so that the next section overwrites the zero; without it
    [OpenReadWrite] returns the null-padding error. *)
Theorem resume_zero_length_section :
  forall (f0 : File) (roots : list Cid) (ropts : carv2.ReadOptions)
         (wopts : carv2.WriteOptions) (b0 : ReadWrite.t)
         (blks : list blocks.Block) (b : ReadWrite.t)
         (file : File) (rest : list byte)
         (ropts' : carv2.ReadOptions) (wopts' : carv2.WriteOptions),
    bytes f0 = [] -> sanePaddings wopts -> Forall cid_wf roots ->
    ReadWrite.OpenReadWrite f0 roots ropts wopts = Ok b0 ->
    Forall (fun bl => cid_wf (blocks.Cid bl)) blks ->
    PutEach b0 blks = (b, None) ->
    bytes file = bytes (ReadWrite.f b) ++ x00 :: rest ->
    closed file = false -> len (bytes file) <= MaxInt64 ->
    sanePaddings wopts' -> carv2.DataPadding wopts' = carv2.DataPadding wopts ->
    ReadWrite.OpenReadWrite file roots ropts' wopts'
    = if carv2.ZeroLengthSectionAsEOF ropts'
      then Ok {| ReadWrite.f := file;
                 ReadWrite.dataWriter := ReadWrite.dataWriter b;
                 ReadWrite.idx := ReadWrite.idx b;
                 ReadWrite.header := openHeader wopts';
                 ReadWrite.ropts := ropts';
                 ReadWrite.wopts := wopts' |}
      else Err ErrNullPadding.
Proof.
  intros f0 roots ropts wopts b0 blks b file rest ropts' wopts'
    Hempty Hsane Hroots Hopen Hwf Hput Hbytes Hcl Hsize Hsane' Hpad.
  destruct (@session_Clean f0 roots ropts wopts b0 blks b Hempty Hsane Hopen Hwf Hput)
    as (_ & _ & Hh & HL & es & HC & _).
  destruct (@session_with_tail roots b es file (x00 :: rest) HC HL Hbytes)
    as (Hpragma & Hblank & Himg & Hdrop).
  pose proof (clean_inv HC) as HI.
  assert (Hdo : carv2.DataOffset (openHeader wopts')
                = carv2.DataOffset (ReadWrite.header b)).
  { rewrite Hh.
    destruct (openHeader_sane Hsane) as (-> & _).
    destruct (openHeader_sane Hsane') as (-> & _). rewrite Hpad. reflexivity. }
  pose proof (inv_end HI) as He. pose proof (inv_cursor HI) as Hcur.
  pose proof (inv_writer HI) as Hw.
  destruct (lay_offsets HL) as (Ho1 & _ & _).
  assert (Hbase : carv2.PragmaSize <= carv2.DataOffset (ReadWrite.header b))
    by (unfold carv2.PragmaSize, carv2.HeaderSize in *; lia).
  pose proof (len_image roots es Hbase) as Hli.
  rewrite <- (clean_bytes HC) in Hli.
  assert (Hlf : len (bytes file) = len (bytes (ReadWrite.f b)) + (1 + len rest))
    by (rewrite Hbytes, len_app, len_cons; reflexivity).
  pose proof (len_nonneg rest) as Hr0.
  rewrite OpenReadWrite_nonempty
    by (intros Hnil; rewrite Hnil in Hpragma; discriminate).
  rewrite resumeWithRoots_steps. cbn [ReadWrite.f].
  rewrite fileReader_at by (try exact Hcl; lia).
  cbn [bind]. change (drop 0 (bytes file)) with (bytes file).
  rewrite (ReadVersion_file (bytes file) Hpragma).
  cbn [Z.eqb Pos.eqb negb].
  rewrite resume_check_blank by (cbn [ReadWrite.f]; assumption).
  match goal with
  | |- context [resume_scan ?rw roots] =>
      destruct (@resume_scan_prefix rw roots es (x00 :: rest)) as (fuel & Hfuel & ->)
  end; cbn [ReadWrite.f ReadWrite.header]; rewrite ?Hdo; try assumption.
  { pose proof (inv_stored HI) as Hst. rewrite Forall_forall in *.
    intros e Hin. apply Hst in Hin. destruct Hin as [Hk _]. exact Hk. }
  { apply (clean_offsets HC). }
  destruct fuel as [|fuel]; [cbn in Hfuel; lia|].
  rewrite resume_loop_null with (rest := rest);
    cbn [ReadWrite.f ReadWrite.header ReadWrite.set_idx ReadWrite.ropts];
    rewrite ?Hdo; try assumption;
    try (unfold MaxInt64, carv2.PragmaSize, carv2.HeaderSize in *; lia).
  destruct (carv2.ZeroLengthSectionAsEOF ropts'); [|reflexivity].
  unfold ReadWrite.set_dataWriter, ReadWrite.set_idx, internalio.Seek,
    internalio.NewOffsetWriter.
  cbn [ReadWrite.f ReadWrite.idx ReadWrite.dataWriter ReadWrite.header
         ReadWrite.ropts ReadWrite.wopts internalio.wbase newInsertionIndex app].
  rewrite (inv_index HI).
  rewrite int64_small
    by (unfold MaxInt64, carv2.PragmaSize, carv2.HeaderSize in *; lia).
  destruct (ReadWrite.dataWriter b) as [wb off].
  cbn [internalio.wbase internalio.offset] in *. subst wb.
  replace (len (payloadHeader roots) + len (concat (map entry_section es)))
    with off by lia.
  reflexivity.
Qed.

Lemma resume_zero_length_section_witness :
  ReadWrite.OpenReadWrite
    {| bytes := bytes (ReadWrite.f ex_put1) ++ [x00; x00];
       closed := false; faults := [] |}
    [ex_k1] (ex_ropts false) (ex_wopts 0)
  = Err ErrNullPadding.
Proof.
  apply (@resume_zero_length_section ex_file [ex_k1] (ex_ropts false) (ex_wopts 0)
           (ex_open false) [ex_blk1] ex_put1
           {| bytes := bytes (ReadWrite.f ex_put1) ++ [x00; x00];
              closed := false; faults := [] |}
           [x00] (ex_ropts false) (ex_wopts 0)).
  - reflexivity.
  - unfold sanePaddings. simpl. lia.
  - repeat constructor; simpl; lia.
  - apply ex_open_eq.
  - repeat constructor; simpl; lia.
  - vm_compute. reflexivity.
  - reflexivity.
  - reflexivity.
  - vm_compute. discriminate.
  - unfold sanePaddings. simpl. lia.
  - reflexivity.
Defined.
(** No section of a session matches a key whose multihash no block of
    the session has. *)
Lemma matching_fresh blks es c :
  Forall (fromBlocks blks) es ->
  Forall (fun bl => Hash (blocks.Cid bl) <> Hash c) blks ->
  matching c es = [].
Proof.
  intros Hfrom Hfresh. unfold matching.
  induction Hfrom as [|e es' (bl & Hin & Hk & _) _ IH]; [reflexivity|].
  cbn [filter]. rewrite Forall_forall in Hfresh.
  pose proof (Hfresh bl Hin) as Hne. rewrite <- Hk in Hne.
  apply bytes_Equal_neq in Hne. rewrite Hne. exact IH.
Qed.

(** X17. A torn last section.  When the file of a session whose [Put]
    calls all returned is followed by the start of one more section, its
    length and CID complete and its data cut short, reopening it with the
    roots and the data padding of the session succeeds and indexes the
    torn section: the index gets a record for its key, the data writer
    is placed where the section would have ended, past the end of the
    file, and for that key (its multihash being that of no block of the
    session) [Has] returns true and [GetSize] the size the section
    declares, while [Get] fails with an unexpected end of file. *)
Theorem resume_indexes_torn_section :
  forall (f0 : File) (roots : list Cid) (ropts : carv2.ReadOptions)
         (wopts : carv2.WriteOptions) (b0 : ReadWrite.t)
         (blks : list blocks.Block) (b : ReadWrite.t)
         (file : File) (c : Cid) (data part : list byte)
         (ropts' : carv2.ReadOptions) (wopts' : carv2.WriteOptions),
    bytes f0 = [] -> sanePaddings wopts -> Forall cid_wf roots ->
    ReadWrite.OpenReadWrite f0 roots ropts wopts = Ok b0 ->
    Forall (fun bl => cid_wf (blocks.Cid bl)) blks ->
    PutEach b0 blks = (b, None) ->
    cid_wf c -> len part < len data ->
    Forall (fun bl => Hash (blocks.Cid bl) <> Hash c) blks ->
    bytes file
    = bytes (ReadWrite.f b)
      ++ varint.PutUvarint (uint64 (len (Bytes c) + len data)) ++ Bytes c ++ part ->
    closed file = false ->
    len (bytes (ReadWrite.f b)) + len (section c data) <= MaxInt64 ->
    sanePaddings wopts' -> carv2.DataPadding wopts' = carv2.DataPadding wopts ->
    exists b' : ReadWrite.t,
      ReadWrite.OpenReadWrite file roots ropts' wopts' = Ok b'
      /\ ReadWrite.f b' = file
      /\ ReadWrite.idx b'
         = ReadWrite.idx b
           ++ [{| index.Cid := c;
                  index.Offset := internalio.Position (ReadWrite.dataWriter b) |}]
      /\ internalio.Position (ReadWrite.dataWriter b')
         = internalio.Position (ReadWrite.dataWriter b) + len (section c data)
      /\ len (bytes file)
         < carv2.DataOffset (ReadWrite.header b')
           + internalio.Position (ReadWrite.dataWriter b')
      /\ ReadWrite.Has b' c = (true, None)
      /\ ReadWrite.GetSize b' c = (len data, None)
      /\ ReadWrite.Get b' c = Err ErrUnexpectedEOF.
Proof.
  intros f0 roots ropts wopts b0 blks b file c data part ropts' wopts'
    Hempty Hsane Hroots Hopen Hwf Hput Hc Hpart Hfresh Hbytes Hcl Hfit Hsane' Hpad.
  destruct (@session_Clean f0 roots ropts wopts b0 blks b Hempty Hsane Hopen Hwf Hput)
    as (_ & _ & Hh & HL & es & HC & Hfrom).
  set (tail := varint.PutUvarint (uint64 (len (Bytes c) + len data))
               ++ Bytes c ++ part) in *.
  destruct (@session_with_tail roots b es file tail HC HL Hbytes)
    as (Hpragma & Hblank & Himg & Hdrop).
  pose proof (clean_inv HC) as HI.
  assert (Hdo : carv2.DataOffset (openHeader wopts')
                = carv2.DataOffset (ReadWrite.header b)).
  { rewrite Hh.
    destruct (openHeader_sane Hsane) as (-> & _).
    destruct (openHeader_sane Hsane') as (-> & _). rewrite Hpad. reflexivity. }
  pose proof (inv_end HI) as He. pose proof (inv_cursor HI) as Hcur.
  pose proof (inv_writer HI) as Hw. pose proof (inv_base HI) as Hdo0.
  destruct (lay_offsets HL) as (Ho1 & _ & _).
  assert (Hbase : carv2.PragmaSize <= carv2.DataOffset (ReadWrite.header b))
    by (unfold carv2.PragmaSize, carv2.HeaderSize in *; lia).
  pose proof (len_image roots es Hbase) as Hli.
  rewrite <- (clean_bytes HC) in Hli.
  pose proof (len_section c data) as Hls.
  pose proof (len_nonneg data) as Hd0. pose proof (len_nonneg part) as Hp0.
  pose proof (len_Bytes_pos c) as Hb0.
  pose proof (PutUvarint_len (uint64 (len (Bytes c) + len data))) as Hv.
  assert (Hlt : len tail
                = len (varint.PutUvarint (uint64 (len (Bytes c) + len data)))
                  + len (Bytes c) + len part)
    by (unfold tail; rewrite !len_app; lia).
  assert (Hlf : len (bytes file) = len (bytes (ReadWrite.f b)) + len tail)
    by (rewrite Hbytes; apply len_app).
  assert (Hoff : internalio.offset (ReadWrite.dataWriter b)
                 = len (payloadHeader roots) + len (concat (map entry_section es)))
    by lia.
  assert (HL64 : 0 <= len (Bytes c) + len data < 2 ^ 63)
    by (unfold MaxInt64 in *; lia).
  assert (Hdig : len (Digest c) < 2 ^ 63).
  { pose proof (len_Bytes c) as HB. pose proof (len_Hash c) as HH.
    pose proof (PutUvarint_len 1). pose proof (PutUvarint_len (Codec c)).
    pose proof (PutUvarint_len (MhType c)).
    pose proof (PutUvarint_len (len (Digest c))). lia. }
  assert (Hsz : len (bytes file) <= MaxInt64) by (unfold MaxInt64 in *; lia).
  (* what the scan returns *)
  assert (Hres : ReadWrite.OpenReadWrite file roots ropts' wopts'
                 = Ok {| ReadWrite.f := file;
                         ReadWrite.dataWriter :=
                           {| internalio.wbase := carv2.DataOffset (ReadWrite.header b);
                              internalio.offset :=
                                internalio.offset (ReadWrite.dataWriter b)
                                + len (section c data) |};
                         ReadWrite.idx :=
                           ReadWrite.idx b
                           ++ [{| index.Cid := c;
                                  index.Offset :=
                                    internalio.offset (ReadWrite.dataWriter b) |}];
                         ReadWrite.header := openHeader wopts';
                         ReadWrite.ropts := ropts';
                         ReadWrite.wopts := wopts' |}).
  { rewrite OpenReadWrite_nonempty
      by (intros Hnil; rewrite Hnil in Hpragma; discriminate).
    rewrite resumeWithRoots_steps. cbn [ReadWrite.f].
    rewrite fileReader_at by (try exact Hcl; lia).
    cbn [bind]. change (drop 0 (bytes file)) with (bytes file).
    rewrite (ReadVersion_file (bytes file) Hpragma).
    cbn [Z.eqb Pos.eqb negb].
    rewrite resume_check_blank by (cbn [ReadWrite.f]; assumption).
    match goal with
    | |- context [resume_scan ?rw roots] =>
        destruct (@resume_scan_prefix rw roots es tail) as (fuel & Hfuel & ->)
    end; cbn [ReadWrite.f ReadWrite.header]; rewrite ?Hdo; try assumption.
    { pose proof (inv_stored HI) as Hst. rewrite Forall_forall in *.
      intros e Hin. apply Hst in Hin. destruct Hin as [Hk _]. exact Hk. }
    { apply (clean_offsets HC). }
    assert (Htl : (2 <= List.length tail)%nat).
    { unfold len in Hlt, Hv, Hb0, Hp0. lia. }
    destruct fuel as [|[|fuel]]; [lia|lia|].
    rewrite resume_loop_torn with (c := c) (data := data) (part := part);
      cbn [ReadWrite.f ReadWrite.header ReadWrite.set_idx ReadWrite.ropts];
      rewrite ?Hdo; try assumption;
      try (unfold MaxInt64, carv2.PragmaSize, carv2.HeaderSize in *; lia).
    unfold ReadWrite.set_dataWriter, ReadWrite.set_idx, internalio.Seek,
      internalio.NewOffsetWriter, insertNoReplace.
    cbn [ReadWrite.f ReadWrite.idx ReadWrite.dataWriter ReadWrite.header
           ReadWrite.ropts ReadWrite.wopts internalio.wbase newInsertionIndex app].
    rewrite (inv_index HI).
    rewrite int64_small
      by (unfold MaxInt64, carv2.PragmaSize, carv2.HeaderSize in *; lia).
    rewrite uint64_small by (unfold MaxInt64 in *; lia).
    rewrite <- Hoff. reflexivity. }
  eexists. split; [exact Hres|].
  cbn [ReadWrite.f ReadWrite.idx ReadWrite.dataWriter ReadWrite.header
         internalio.offset].
  unfold internalio.Position. cbn [internalio.offset].
  split; [reflexivity|]. split; [reflexivity|]. split; [reflexivity|].
  split; [rewrite Hdo; lia|].
  (* the reads of the torn section *)
  match goal with
  | |- ReadWrite.Has ?s c = _ /\ _ => set (b' := s)
  end.
  assert (Hfin : ReadWrite.finalized b' = false).
  { unfold ReadWrite.finalized, b'. cbn [ReadWrite.header].
    rewrite openHeader_DataSize. reflexivity. }
  assert (Hcand : insertionIndex_candidates (ReadWrite.idx b') c
                  = [internalio.offset (ReadWrite.dataWriter b)]).
  { unfold b'. cbn [ReadWrite.idx]. unfold insertionIndex_candidates.
    rewrite filter_app, map_app.
    fold (insertionIndex_candidates (ReadWrite.idx b) c).
    rewrite (inv_index HI), candidates_entries.
    rewrite (@matching_fresh blks es c Hfrom Hfresh).
    cbn [map app filter]. unfold sameHash. cbn [index.Cid].
    rewrite bytes_Equal_refl. reflexivity. }
  assert (Hrd : internalio.NewOffsetReadSeeker
                  (ReadOnly.backing (ReadWrite.asReadOnly b'))
                  (int64 (internalio.offset (ReadWrite.dataWriter b)))
                = Ok tail).
  { rewrite int64_small by (unfold MaxInt64 in *; lia).
    rewrite scan_reader; unfold b'; cbn [ReadWrite.f ReadWrite.header];
      rewrite ?Hdo; try assumption; try (unfold MaxInt64 in *; lia).
    rewrite Hoff, Hdrop. reflexivity. }
  assert (Hlen : varint.ReadUvarint tail
                 = Ok (len (Bytes c) + len data, Bytes c ++ part)).
  { unfold tail. rewrite uint64_small by lia.
    apply ReadUvarint_PutUvarint. lia. }
  split; [|split].
  - unfold ReadWrite.Has. rewrite Hfin.
    unfold ReadOnly.Has, index.GetAll.
    cbn [index.candidates insertionIndex_Index ReadOnly.idx ReadWrite.asReadOnly].
    fold (ReadWrite.asReadOnly b').
    rewrite Hcand. cbn [index.visit].
    unfold ReadOnly.Has_visitor. rewrite Hrd. cbn [bind]. rewrite Hlen.
    rewrite CidFromReader_Bytes by assumption.
    destruct (carv2.BlockstoreUseWholeCIDs (ReadOnly.ropts (ReadWrite.asReadOnly b'))).
    + rewrite Equals_refl. reflexivity.
    + rewrite bytes_Equal_refl. reflexivity.
  - unfold ReadWrite.GetSize. rewrite Hfin.
    unfold ReadOnly.GetSize, index.GetAll.
    cbn [index.candidates insertionIndex_Index ReadOnly.idx ReadWrite.asReadOnly].
    fold (ReadWrite.asReadOnly b').
    rewrite Hcand. cbn [index.visit].
    unfold ReadOnly.GetSize_visitor. rewrite Hrd. cbn [bind]. rewrite Hlen.
    cbn [bind]. rewrite CidFromReader_Bytes by assumption.
    rewrite (@int64_small (len (Bytes c) + len data)) by lia.
    replace (len (Bytes c) + len data - len (Bytes c)) with (len data) by lia.
    rewrite int64_small by lia.
    assert (Hsz1 : (len data =? -1) = false) by (apply Z.eqb_neq; lia).
    destruct (carv2.BlockstoreUseWholeCIDs (ReadOnly.ropts (ReadWrite.asReadOnly b'))).
    + rewrite Equals_refl, Hsz1. reflexivity.
    + rewrite bytes_Equal_refl, Hsz1. reflexivity.
  - unfold ReadWrite.Get. rewrite Hfin.
    unfold ReadOnly.Get, index.GetAll.
    cbn [index.candidates insertionIndex_Index ReadOnly.idx ReadWrite.asReadOnly].
    fold (ReadWrite.asReadOnly b').
    rewrite Hcand. cbn [index.visit].
    unfold ReadOnly.Get_visitor, ReadOnly.readBlock. rewrite Hrd. cbn [bind].
    unfold util.ReadNode, util.LdRead. rewrite Hlen. cbn [bind].
    rewrite len_app.
    replace (len (Bytes c) + len part =? 0) with false
      by (symmetry; apply Z.eqb_neq; lia).
    rewrite andb_false_r.
    replace (len (Bytes c) + len part <? len (Bytes c) + len data) with true
      by (symmetry; apply Z.ltb_lt; lia).
    reflexivity.
Qed.

Lemma resume_indexes_torn_section_witness :
  exists b' : ReadWrite.t,
    ReadWrite.OpenReadWrite
      {| bytes := bytes (ReadWrite.f ex_torn); closed := false; faults := [] |}
      [ex_k1] (ex_ropts false) (ex_wopts 0) = Ok b'
    /\ ReadWrite.f b'
       = {| bytes := bytes (ReadWrite.f ex_torn); closed := false; faults := [] |}
    /\ ReadWrite.idx b'
       = ReadWrite.idx ex_put1
         ++ [{| index.Cid := ex_k3;
                index.Offset := internalio.Position (ReadWrite.dataWriter ex_put1) |}]
    /\ internalio.Position (ReadWrite.dataWriter b')
       = internalio.Position (ReadWrite.dataWriter ex_put1)
         + len (section ex_k3 [x65; x66])
    /\ len (bytes (ReadWrite.f ex_torn))
       < carv2.DataOffset (ReadWrite.header b')
         + internalio.Position (ReadWrite.dataWriter b')
    /\ ReadWrite.Has b' ex_k3 = (true, None)
    /\ ReadWrite.GetSize b' ex_k3 = (len [x65; x66], None)
    /\ ReadWrite.Get b' ex_k3 = Err ErrUnexpectedEOF.
Proof.
  apply (@resume_indexes_torn_section ex_file [ex_k1] (ex_ropts false) (ex_wopts 0)
           (ex_open false) [ex_blk1] ex_put1
           {| bytes := bytes (ReadWrite.f ex_torn); closed := false; faults := [] |}
           ex_k3 [x65; x66] [x65] (ex_ropts false) (ex_wopts 0)).
  - reflexivity.
  - unfold sanePaddings. simpl. lia.
  - repeat constructor; simpl; lia.
  - apply ex_open_eq.
  - repeat constructor; simpl; lia.
  - vm_compute. reflexivity.
  - split; simpl; lia.
  - vm_compute. reflexivity.
  - repeat constructor. vm_compute. discriminate.
  - vm_compute. reflexivity.
  - reflexivity.
  - vm_compute. discriminate.
  - unfold sanePaddings. simpl. lia.
  - reflexivity.
Defined.

(** ** Listing the keys *)

(** The key [AllKeysChan] sends for a section: the key on file, or its
    multihash under the raw codec when whole CIDs are off. *)
Lemma AllKeysChan_loop_sections roots es2 : forall fuel b es1,
  (List.length es2 < fuel)%nat ->
  closed (ReadWrite.f b) = false ->
  carv2.PragmaSize <= carv2.DataOffset (ReadWrite.header b) ->
  bytes (ReadWrite.f b)
  = image roots (carv2.DataOffset (ReadWrite.header b)) (es1 ++ es2) ->
  len (bytes (ReadWrite.f b)) <= MaxInt64 ->
  Forall (fun e => cid_wf (entry_key e)) es2 ->
  ReadOnly.AllKeysChan_loop (ReadWrite.asReadOnly b) fuel
    (len (payloadHeader roots) + len (concat (map entry_section es1)))
  = map (fun e => if carv2.BlockstoreUseWholeCIDs (ReadWrite.ropts b)
                  then entry_key e else cid.NewCidV1_Raw (entry_key e)) es2.
Proof.
  induction es2 as [|e rest IH]; intros fuel b es1 Hfuel Hc Hbase Hbytes Hsize Hwf.
  - destruct fuel as [|fuel]; [simpl in Hfuel; lia|].
    rewrite app_nil_r in *.
    pose proof (len_image roots es1 Hbase) as Hli. rewrite <- Hbytes in Hli.
    pose proof (len_nonneg (payloadHeader roots)) as Hh0.
    pose proof (len_nonneg (concat (map entry_section es1))) as Hs0.
    unfold MaxInt64, carv2.PragmaSize in *.
    cbn [ReadOnly.AllKeysChan_loop].
    rewrite scan_reader by (try assumption; lia).
    rewrite drop_all by lia. reflexivity.
  - destruct fuel as [|fuel]; [simpl in Hfuel; lia|].
    inversion Hwf as [|? ? Hke Hwfr]; subst.
    pose proof (len_image roots es1 Hbase) as Hli1.
    pose proof (len_image roots (es1 ++ e :: rest) Hbase) as Hli.
    rewrite <- Hbytes in Hli.
    rewrite map_app, concat_app, len_app in Hli. cbn [map concat] in Hli.
    rewrite len_app in Hli.
    pose proof (len_nonneg (payloadHeader roots)) as Hh0.
    pose proof (len_nonneg (concat (map entry_section es1))) as Hs0.
    pose proof (len_nonneg (concat (map entry_section rest))) as Hr0.
    pose proof (len_section (entry_key e) (entry_data e)) as Hls.
    fold (entry_section e) in Hls.
    pose proof (len_nonneg (entry_data e)) as Hd0.
    pose proof (len_Bytes_pos (entry_key e)) as Hb0.
    pose proof (PutUvarint_len (uint64 (len (Bytes (entry_key e)) + len (entry_data e))))
      as Hv.
    unfold MaxInt64, carv2.PragmaSize in *.
    assert (Hdig : len (Digest (entry_key e)) < 2 ^ 63).
    { pose proof (len_Bytes (entry_key e)) as HB.
      pose proof (len_Hash (entry_key e)) as HH.
      pose proof (PutUvarint_len 1). pose proof (PutUvarint_len (Codec (entry_key e))).
      pose proof (PutUvarint_len (MhType (entry_key e))).
      pose proof (PutUvarint_len (len (Digest (entry_key e)))). lia. }
    cbn [ReadOnly.AllKeysChan_loop].
    rewrite scan_reader by (try assumption; lia).
    rewrite Hbytes, image_app.
    replace (carv2.DataOffset (ReadWrite.header b)
             + (len (payloadHeader roots) + len (concat (map entry_section es1))))
      with (len (image roots (carv2.DataOffset (ReadWrite.header b)) es1))
      by (rewrite Hli1; lia).
    rewrite drop_app_len. cbn [map concat].
    unfold entry_section at 1 2.
    rewrite ReadUvarint_section by lia.
    replace (len (Bytes (entry_key e)) + len (entry_data e) =? 0) with false
      by (symmetry; apply Z.eqb_neq; lia).
    rewrite CidFromReader_Bytes by assumption.
    rewrite !len_app.
    fold (entry_section e).
    change (map (fun e0 : Entry => section (entry_key e0) (entry_data e0)) rest)
      with (map entry_section rest).
    cbn [ReadOnly.ropts ReadWrite.asReadOnly].
    f_equal.
    match goal with |- context [int64 (?x + int64 ?y)] =>
      replace (int64 (x + int64 y))
        with (len (payloadHeader roots)
              + len (concat (map entry_section (es1 ++ [e]))))
    end.
    2:{ rewrite map_app, concat_app, len_app. cbn [map concat].
        rewrite app_nil_r.
        rewrite (@int64_small (len (Bytes (entry_key e)) + len (entry_data e))) by lia.
        rewrite int64_small by lia. lia. }
    apply IH.
    + simpl in Hfuel. lia.
    + exact Hc.
    + exact Hbase.
    + rewrite Hbytes, <- app_assoc. reflexivity.
    + exact Hsize.
    + exact Hwfr.
Qed.

(** On the file of a session [AllKeysChan] reads the payload header and
    then one key per section. *)
Lemma AllKeysChan_Clean roots b es :
  Clean roots b es -> Forall cid_wf roots ->
  ReadWrite.AllKeysChan b
  = Ok (map (fun e => if carv2.BlockstoreUseWholeCIDs (ReadWrite.ropts b)
                      then entry_key e else cid.NewCidV1_Raw (entry_key e)) es).
Proof.
  intros HC Hroots.
  pose proof (clean_inv HC) as HI. pose proof (clean_base HC) as Hbase.
  pose proof (clean_bytes HC) as Hbytes.
  pose proof (inv_size HI) as Hs. pose proof (inv_base HI) as Hd0.
  assert (Hb : carv2.PragmaSize <= carv2.DataOffset (ReadWrite.header b))
    by (unfold carv2.PragmaSize, carv2.HeaderSize in *; lia).
  pose proof (len_image roots es Hb) as Hli. rewrite <- Hbytes in Hli.
  pose proof (len_nonneg (concat (map entry_section es))) as Hs0.
  pose proof (header_section_len {| carv1.Roots := roots; carv1.Version := 1 |}) as Hhl.
  assert (Hcb : len (carv1.header_cbor {| carv1.Roots := roots; carv1.Version := 1 |})
                < 2 ^ 63).
  { pose proof Hli as Hl0. unfold util.LdBytes in Hl0. cbn [concat] in Hl0.
    rewrite app_nil_r, len_app in Hl0.
    pose proof (PutUvarint_len
                  (uint64 (len (carv1.header_cbor
                                  {| carv1.Roots := roots; carv1.Version := 1 |})))).
    unfold MaxInt64, carv2.PragmaSize, carv2.HeaderSize in *. lia. }
  unfold ReadWrite.AllKeysChan, ReadWrite.finalized.
  rewrite (inv_unfinalized HI). cbn [Z.eqb negb].
  unfold ReadOnly.AllKeysChan.
  rewrite scan_reader
    by (try apply (inv_open HI); unfold MaxInt64 in *; lia).
  cbn [bind]. rewrite Z.add_0_r.
  assert (Hdrop : drop (carv2.DataOffset (ReadWrite.header b)) (bytes (ReadWrite.f b))
                  = payloadHeader roots ++ concat (map entry_section es)).
  { rewrite Hbytes. unfold image.
    rewrite (app_assoc carv2.Pragma).
    assert (Hl : len (carv2.Pragma
                      ++ zeros (carv2.DataOffset (ReadWrite.header b)
                                - carv2.PragmaSize))
                 = carv2.DataOffset (ReadWrite.header b)).
    { rewrite len_app, len_zeros. change (len carv2.Pragma) with 11.
      unfold carv2.PragmaSize in *. lia. }
    rewrite <- Hl at 1. apply drop_app_len. }
  rewrite Hdrop, ReadHeader_written by assumption.
  f_equal.
  unfold carv1.HeaderSize.
  rewrite uint64_small by (unfold MaxInt64 in *; lia).
  rewrite int64_small by (unfold MaxInt64 in *; lia).
  replace (len (payloadHeader roots))
    with (len (payloadHeader roots) + len (concat (map entry_section (@nil Entry))))
    by (cbn [map concat]; rewrite len_nil; lia).
  apply AllKeysChan_loop_sections; try assumption.
  - cbn [ReadOnly.backing ReadWrite.asReadOnly internalio.src].
    pose proof (sections_length es) as Hsl.
    assert (Hll : (List.length (concat (map entry_section es))
                   <= List.length (bytes (ReadWrite.f b)))%nat).
    { unfold len in Hli, Hhl. lia. }
    lia.
  - apply (inv_open HI).
  - pose proof (inv_stored HI) as Hst. rewrite Forall_forall in *.
    intros e Hin. apply Hst in Hin. destruct Hin as [Hk _]. exact Hk.
Qed.

(** X18. [AllKeysChan] on a session whose [Put] calls all returned
    (duplicates skipped or not) sends one key per record of the index, in
    insertion order: the key itself under [UseWholeCIDs], otherwise its
    multihash under the raw codec. *)
Theorem all_keys_follow_index :
  forall (f0 : File) (roots : list Cid) (ropts : carv2.ReadOptions)
         (wopts : carv2.WriteOptions) (b0 : ReadWrite.t)
         (blks : list blocks.Block) (b : ReadWrite.t),
    bytes f0 = [] -> sanePaddings wopts -> Forall cid_wf roots ->
    ReadWrite.OpenReadWrite f0 roots ropts wopts = Ok b0 ->
    Forall (fun bl => cid_wf (blocks.Cid bl)) blks ->
    PutEach b0 blks = (b, None) ->
    ReadWrite.AllKeysChan b
    = Ok (map (fun r => if carv2.BlockstoreUseWholeCIDs ropts
                        then index.Cid r else cid.NewCidV1_Raw (index.Cid r))
            (ReadWrite.idx b)).
Proof.
  intros f0 roots ropts wopts b0 blks b Hempty Hsane Hroots Hopen Hwf Hput.
  destruct (@OpenReadWrite_new_Clean f0 roots ropts wopts b0 Hempty Hsane Hopen)
    as [HC0 _].
  destruct (OpenReadWrite_new _ _ _ _ Hempty Hopen) as (_ & Hr0 & _).
  destruct (@PutEach_Clean_any roots blks b0 [] b HC0 Hwf Hput)
    as (Hr & _ & _ & es & HC & _).
  cbn [app] in HC.
  rewrite (AllKeysChan_Clean HC Hroots), Hr, Hr0.
  rewrite (inv_index (clean_inv HC)), map_map. reflexivity.
Qed.

Lemma all_keys_follow_index_witness :
  ReadWrite.AllKeysChan ex_put2
  = Ok (map (fun r => if carv2.BlockstoreUseWholeCIDs (ex_ropts false)
                      then index.Cid r else cid.NewCidV1_Raw (index.Cid r))
          (ReadWrite.idx ex_put2)).
Proof.
  apply (@all_keys_follow_index ex_file [ex_k1] (ex_ropts false) (ex_wopts 0)
           (ex_open false) [ex_blk1; ex_blk3] ex_put2).
  - reflexivity.
  - unfold sanePaddings. simpl. lia.
  - repeat constructor; simpl; lia.
  - apply ex_open_eq.
  - repeat constructor; simpl; lia.
  - vm_compute. reflexivity.
Defined.

(** X19. When the keys put are distinct under the policy of the store
    and every [Put] returned, [AllKeysChan] sends the keys of the blocks
    in the order they were put; with whole CIDs off each comes under the
    raw codec, whatever codec it was put with. *)
Theorem all_keys_in_put_order :
  forall (f0 : File) (roots : list Cid) (ropts : carv2.ReadOptions)
         (wopts : carv2.WriteOptions) (b0 : ReadWrite.t)
         (blks : list blocks.Block) (b : ReadWrite.t),
    bytes f0 = [] -> sanePaddings wopts -> Forall cid_wf roots ->
    ReadWrite.OpenReadWrite f0 roots ropts wopts = Ok b0 ->
    Forall (fun bl => cid_wf (blocks.Cid bl)) blks ->
    distinctKeys (carv2.BlockstoreUseWholeCIDs ropts) (map blocks.Cid blks) ->
    PutEach b0 blks = (b, None) ->
    ReadWrite.AllKeysChan b
    = Ok (map (fun bl => if carv2.BlockstoreUseWholeCIDs ropts
                         then blocks.Cid bl else cid.NewCidV1_Raw (blocks.Cid bl))
            blks).
Proof.
  intros f0 roots ropts wopts b0 blks b Hempty Hsane Hroots Hopen Hwf Hd Hput.
  destruct (@OpenReadWrite_new_Clean f0 roots ropts wopts b0 Hempty Hsane Hopen)
    as [HC0 _].
  destruct (OpenReadWrite_new _ _ _ _ Hempty Hopen) as (_ & Hr0 & _).
  assert (Hd0 : distinctKeys (carv2.BlockstoreUseWholeCIDs (ReadWrite.ropts b0))
                  (map entry_key (@nil Entry) ++ map blocks.Cid blks))
    by (rewrite Hr0; exact Hd).
  destruct (@PutEach_Clean roots blks b0 [] b HC0 Hwf Hd0 Hput)
    as (Hr & _ & es & HC & Hk & _).
  cbn [app] in HC.
  rewrite (AllKeysChan_Clean HC Hroots), Hr, Hr0.
  rewrite <- (map_map entry_key
                (fun c => if carv2.BlockstoreUseWholeCIDs ropts
                          then c else cid.NewCidV1_Raw c) es).
  rewrite Hk, map_map. reflexivity.
Qed.

Lemma all_keys_in_put_order_witness :
  ReadWrite.AllKeysChan ex_put2
  = Ok [cid.NewCidV1_Raw ex_k1; cid.NewCidV1_Raw ex_k3].
Proof.
  apply (@all_keys_in_put_order ex_file [ex_k1] (ex_ropts false) (ex_wopts 0)
           (ex_open false) [ex_blk1; ex_blk3] ex_put2).
  - reflexivity.
  - unfold sanePaddings. simpl. lia.
  - repeat constructor; simpl; lia.
  - apply ex_open_eq.
  - repeat constructor; simpl; lia.
  - simpl. repeat constructor.
  - vm_compute. reflexivity.
Defined.

(** ** A refused resumption of a finalized file *)

(** The header check on a finalized file: the index is cut off and the
    header blanked, which takes two writes. *)
Lemma resume_check_finalized roots b es marshal b' rwbs :
  Clean roots b es -> Layout b ->
  ReadWrite.Finalize marshal b = (b', None) ->
  bytes (ReadWrite.f rwbs) = bytes (ReadWrite.f b') ->
  closed (ReadWrite.f rwbs) = false ->
  Forall (fun x => x = None) (firstn 2 (faults (ReadWrite.f rwbs))) ->
  carv2.DataOffset (ReadWrite.header rwbs) = carv2.DataOffset (ReadWrite.header b) ->
  resume_check rwbs
  = (ReadWrite.set_f rwbs
       {| bytes := bytes (ReadWrite.f b); closed := false;
          faults := skipn 2 (faults (ReadWrite.f rwbs)) |}, None).
Proof.
  intros HC HL Hfin Hbytes Hcl Hplan Hdo.
  pose proof (clean_inv HC) as HI.
  destruct (Finalize_file marshal HI HL Hfin) as [q Hq].
  destruct (Finalize_on_file marshal HI HL Hfin) as [Hpragma Hhdr].
  destruct (finalHeader_fields HI HL) as (_ & Hfdo & Hfds & Hfdsr & _).
  pose proof (inv_end HI) as He. pose proof (inv_size HI) as Hs.
  pose proof (inv_cursor HI) as Hcur. pose proof (inv_writer HI) as Hw.
  destruct (lay_offsets HL) as (Ho1 & Ho2 & Ho3).
  pose proof (len_header_chunks (finalHeader b)) as Hlc.
  assert (Hold : carv2.PragmaSize + carv2.HeaderSize <= len (bytes (ReadWrite.f b)))
    by lia.
  unfold resume_check.
  rewrite fileReader_at by (try exact Hcl; unfold carv2.PragmaSize; lia).
  cbn [bind]. fold (headerOnFile (bytes (ReadWrite.f rwbs))).
  rewrite Hbytes, Hhdr, Hfdo, Hfds, Hdo.
  replace (carv2.DataOffset (ReadWrite.header b) =? 0) with false
    by (symmetry; apply Z.eqb_neq; unfold carv2.PragmaSize, carv2.HeaderSize in *; lia).
  rewrite Z.eqb_refl.
  replace (internalio.offset (ReadWrite.dataWriter b) =? 0) with false
    by (symmetry; apply Z.eqb_neq; lia).
  cbn [negb].
  unfold MaxInt64 in Hs.
  rewrite uint64_small by (unfold carv2.PragmaSize, carv2.HeaderSize in *; lia).
  rewrite int64_small by (unfold carv2.PragmaSize, carv2.HeaderSize in *; lia).
  rewrite He.
  unfold Truncate. rewrite Hcl.
  replace (len (bytes (ReadWrite.f b)) <? 0) with false
    by (symmetry; apply Z.ltb_ge;
        unfold carv2.PragmaSize, carv2.HeaderSize in *; lia).
  rewrite Hbytes, Hq.
  rewrite take_splice_header by assumption.
  rewrite zeros_neg.
  2:{ pose proof (len_nonneg q) as Hq0.
      assert (Hlq : len (bytes (ReadWrite.f b) ++ q)
                    <= len (splice (bytes (ReadWrite.f b) ++ q) carv2.PragmaSize
                              (concat (carv2.header_chunks (finalHeader b))))).
      { rewrite splice_inside
          by (rewrite ?len_app; unfold carv2.PragmaSize, carv2.HeaderSize in *; lia).
        rewrite !len_app, len_take, len_drop, len_app.
        unfold carv2.PragmaSize, carv2.HeaderSize in *. lia. }
      rewrite len_app in Hlq. lia. }
  rewrite app_nil_r.
  unfold ReadWrite.unfinalize, carv2.Header_WriteTo.
  cbn [ReadWrite.f ReadWrite.set_f].
  match goal with
  | |- context [internalio.WriteEach ?f1 ?w1 ?d] =>
      destruct (@WriteEach_complete d f1 w1) as (f2 & w2 & Hwr)
  end.
  { reflexivity. }
  { exact Hplan. }
  { cbn [internalio.NewOffsetWriter internalio.wbase].
    unfold carv2.PragmaSize. lia. }
  { cbn [internalio.NewOffsetWriter internalio.offset]. lia. }
  { cbn [internalio.NewOffsetWriter internalio.wbase internalio.offset].
    change (len (concat
                   (carv2.header_chunks
                      {| carv2.Characteristics := (0, 0); carv2.DataOffset := 0;
                         carv2.DataSize := 0; carv2.IndexOffset := 0 |}))) with 40.
    unfold MaxInt64, carv2.PragmaSize. lia. }
  rewrite Hwr.
  apply WriteEach_ok in Hwr; [|cbn; lia].
  destruct Hwr as (Hc2 & _ & _ & Hb2 & Hf2 & _).
  cbn [internalio.NewOffsetWriter internalio.wbase internalio.offset
         bytes closed faults] in Hc2, Hb2, Hf2.
  rewrite Z.add_0_r in Hb2.
  change (int64 carv2.PragmaSize) with carv2.PragmaSize in Hb2.
  change (concat
            (carv2.header_chunks
               {| carv2.Characteristics := (0, 0); carv2.DataOffset := 0;
                  carv2.DataSize := 0; carv2.IndexOffset := 0 |}))
    with (zeros carv2.HeaderSize) in Hb2.
  rewrite splice_blank_header in Hb2 by (try assumption; apply (lay_blank HL)).
  destruct f2 as [bs cl fl]. cbn in Hc2, Hb2, Hf2. subst.
  unfold ReadWrite.set_f. cbn [ReadWrite.f ReadWrite.dataWriter ReadWrite.idx
    ReadWrite.header ReadWrite.ropts ReadWrite.wopts]. reflexivity.
Qed.

(** X20. A refused resumption is not harmless.  When a finalized file is
    reopened with the data padding of its session but other roots (their
    number differs, or a root of the file is not among them), on a device
    that completes two writes, [OpenReadWrite] returns the
    mismatching-data-header error, and [resumeWithRoots] has by then cut
    the index off and blanked the header: the file is left, byte for
    byte, as the session had it before [Finalize]. *)
Theorem refused_resume_unfinalizes :
  forall (f0 : File) (roots : list Cid) (ropts : carv2.ReadOptions)
         (wopts : carv2.WriteOptions) (b0 : ReadWrite.t)
         (blks : list blocks.Block) (b : ReadWrite.t)
         (marshal : list index.IndexRecord -> list (list byte))
         (b' : ReadWrite.t)
         (file : File) (roots' : list Cid)
         (ropts' : carv2.ReadOptions) (wopts' : carv2.WriteOptions),
    bytes f0 = [] -> sanePaddings wopts -> Forall cid_wf roots ->
    ReadWrite.OpenReadWrite f0 roots ropts wopts = Ok b0 ->
    Forall (fun bl => cid_wf (blocks.Cid bl)) blks ->
    PutEach b0 blks = (b, None) ->
    ReadWrite.Finalize marshal b = (b', None) ->
    bytes file = bytes (ReadWrite.f b') -> closed file = false ->
    Forall (fun x => x = None) (firstn 2 (faults file)) ->
    sanePaddings wopts' -> carv2.DataPadding wopts' = carv2.DataPadding wopts ->
    (List.length roots <> List.length roots'
     \/ exists r, In r roots /\ ~ In r roots') ->
    ReadWrite.OpenReadWrite file roots' ropts' wopts' = Err ErrMismatchingDataHeader
    /\ exists rwbs' : ReadWrite.t,
         ReadWrite.resumeWithRoots
           {| ReadWrite.f := file;
              ReadWrite.dataWriter :=
                internalio.NewOffsetWriter
                  (int64 (carv2.DataOffset (openHeader wopts')));
              ReadWrite.idx := newInsertionIndex;
              ReadWrite.header := openHeader wopts';
              ReadWrite.ropts := ropts';
              ReadWrite.wopts := wopts' |} roots'
         = (rwbs', Some ErrMismatchingDataHeader)
         /\ bytes (ReadWrite.f rwbs') = bytes (ReadWrite.f b)
         /\ bytes (ReadWrite.f rwbs') <> bytes file.
Proof.
  intros f0 roots ropts wopts b0 blks b marshal b' file roots' ropts' wopts'
    Hempty Hsane Hroots Hopen Hwf Hput Hfin Hbytes Hcl Hplan Hsane' Hpad Hdiff.
  destruct (@session_Clean f0 roots ropts wopts b0 blks b Hempty Hsane Hopen Hwf Hput)
    as (_ & _ & Hh & HL & es & HC & _).
  destruct (@session_prefix f0 roots ropts wopts b0 blks b None
              Hempty Hsane Hopen Hwf Hput) as (_ & _ & _ & Hlen & q & Hq).
  pose proof (clean_inv HC) as HI.
  destruct (Finalize_on_file marshal HI HL Hfin) as [Hpragma Hhdr].
  destruct (finalHeader_fields HI HL) as (_ & Hfdo & Hfds & _).
  assert (Hdo : carv2.DataOffset (openHeader wopts')
                = carv2.DataOffset (ReadWrite.header b)).
  { rewrite Hh.
    destruct (openHeader_sane Hsane) as (-> & _).
    destruct (openHeader_sane Hsane') as (-> & _). rewrite Hpad. reflexivity. }
  pose proof (inv_end HI) as He. pose proof (inv_size HI) as Hs.
  pose proof (inv_cursor HI) as Hcur. pose proof (inv_base HI) as Hb0.
  assert (Hres : ReadWrite.resumeWithRoots
                   {| ReadWrite.f := file;
                      ReadWrite.dataWriter :=
                        internalio.NewOffsetWriter
                          (int64 (carv2.DataOffset (openHeader wopts')));
                      ReadWrite.idx := newInsertionIndex;
                      ReadWrite.header := openHeader wopts';
                      ReadWrite.ropts := ropts';
                      ReadWrite.wopts := wopts' |} roots'
                 = (ReadWrite.set_f
                      {| ReadWrite.f := file;
                         ReadWrite.dataWriter :=
                           internalio.NewOffsetWriter
                             (int64 (carv2.DataOffset (openHeader wopts')));
                         ReadWrite.idx := newInsertionIndex;
                         ReadWrite.header := openHeader wopts';
                         ReadWrite.ropts := ropts';
                         ReadWrite.wopts := wopts' |}
                      {| bytes := bytes (ReadWrite.f b); closed := false;
                         faults := skipn 2 (faults file) |},
                    Some ErrMismatchingDataHeader)).
  { rewrite resumeWithRoots_steps. cbn [ReadWrite.f].
    rewrite fileReader_at by (try exact Hcl; lia).
    cbn [bind]. change (drop 0 (bytes file)) with (bytes file).
    rewrite (ReadVersion_file (bytes file)) by (rewrite Hbytes; exact Hpragma).
    cbn [Z.eqb Pos.eqb negb].
    rewrite (@resume_check_finalized roots b es marshal b' _ HC HL Hfin);
      cbn [ReadWrite.f ReadWrite.header]; try assumption.
    unfold resume_scan, internalio.NewOffsetReadSeeker, ReadWrite.asReadOnly, ReadAt.
    cbn [ReadOnly.backing internalio.src internalio.base ReadWrite.f ReadWrite.header
           ReadWrite.set_f bytes closed].
    rewrite Z.add_0_r, (int64_small (int64_range _)), Hdo.
    unfold MaxInt64 in Hs.
    rewrite int64_small by lia.
    replace (carv2.DataOffset (ReadWrite.header b) <? 0) with false
      by (symmetry; apply Z.ltb_ge; lia).
    cbn [bind]. rewrite Hh, Hq.
    rewrite ReadHeader_written by assumption.
    assert (Hm : carv1.Matches {| carv1.Roots := roots; carv1.Version := 1 |}
                   {| carv1.Roots := roots'; carv1.Version := 1 |} = false).
    { unfold carv1.Matches. cbn [carv1.Roots carv1.Version Z.eqb Pos.eqb andb].
      destruct (carv1.cids_Equal roots roots') eqn:Hc; [|reflexivity].
      apply cids_Equal_eq in Hc. subst roots'.
      destruct Hdiff as [Hl|(r & Hin & Hnot)]; [congruence|contradiction]. }
    rewrite Hm. reflexivity. }
  split.
  - rewrite OpenReadWrite_nonempty
      by (rewrite Hbytes; intros Hnil; rewrite Hnil in Hpragma; discriminate).
    rewrite Hres. reflexivity.
  - eexists. split; [exact Hres|].
    cbn [ReadWrite.set_f ReadWrite.f bytes]. split; [reflexivity|].
    rewrite Hbytes. intros Heq.
    pose proof (lay_blank HL) as Hblank.
    assert (Hh0 : headerOnFile (bytes (ReadWrite.f b)) = Ok zeroHeader)
      by (apply headerOnFile_blank; exact Hblank).
    rewrite Heq, Hhdr in Hh0.
    assert (Hz : finalHeader b = zeroHeader) by congruence.
    apply (f_equal carv2.DataOffset) in Hz. rewrite Hfdo in Hz.
    destruct (lay_offsets HL) as (Ho1 & _).
    unfold zeroHeader in Hz. cbn [carv2.DataOffset] in Hz.
    unfold carv2.PragmaSize, carv2.HeaderSize in *. lia.
Qed.

Lemma refused_resume_unfinalizes_witness :
  ReadWrite.OpenReadWrite ex_finalized_file [ex_k3] (ex_ropts false) (ex_wopts 0)
  = Err ErrMismatchingDataHeader
  /\ exists rwbs' : ReadWrite.t,
       ReadWrite.resumeWithRoots
         {| ReadWrite.f := ex_finalized_file;
            ReadWrite.dataWriter :=
              internalio.NewOffsetWriter
                (int64 (carv2.DataOffset (openHeader (ex_wopts 0))));
            ReadWrite.idx := newInsertionIndex;
            ReadWrite.header := openHeader (ex_wopts 0);
            ReadWrite.ropts := ex_ropts false;
            ReadWrite.wopts := ex_wopts 0 |} [ex_k3]
       = (rwbs', Some ErrMismatchingDataHeader)
       /\ bytes (ReadWrite.f rwbs') = bytes (ReadWrite.f ex_put1)
       /\ bytes (ReadWrite.f rwbs') <> bytes ex_finalized_file.
Proof.
  apply (@refused_resume_unfinalizes ex_file [ex_k1] (ex_ropts false) (ex_wopts 0)
           (ex_open false) [ex_blk1] ex_put1 ex_marshal
           (fst (ReadWrite.Finalize ex_marshal ex_put1))
           ex_finalized_file [ex_k3] (ex_ropts false) (ex_wopts 0)).
  - reflexivity.
  - unfold sanePaddings. simpl. lia.
  - repeat constructor; simpl; lia.
  - apply ex_open_eq.
  - repeat constructor; simpl; lia.
  - vm_compute. reflexivity.
  - vm_compute. reflexivity.
  - reflexivity.
  - reflexivity.
  - constructor.
  - unfold sanePaddings. simpl. lia.
  - reflexivity.
  - right. exists ex_k1. split; [left; reflexivity|].
    intros [H|[]]. discriminate.
Defined.
